(** * wow-api-mcp: the annotation parsers and the in-memory index

    A shallow embedding of [src/parsers/lua-annotations.mjs],
    [src/parsers/ts-data.mjs] and [src/data-store.mjs], followed by the
    properties of the parsing and indexing engine.

    Conventions of the embedding.
    - A JavaScript string is a [string]: one [ascii] per UTF-16 code unit.
      Code units above 255 are outside the model.  Case conversion, which
      is Unicode aware in JavaScript, is a parameter of the query engine.
    - A [Map] is an association list in insertion order; a plain object
      used as a dictionary is the association list of its own properties in
      property order (array-index keys first, ascending, then the others in
      creation order) together with its prototype: a read [o[k]] goes on
      to the prototype chain when [k] is no own property, and the
      assignment [o["__proto__"] = v] replaces the prototype instead of
      creating a property.
    - A Number is an integer or an infinity; the parsers produce no other.
    - Function objects live in a heap and the index tables hold references
      into it, so that a record reached through two tables is one object.
    - [null] and [undefined] are both [None]. *)

(* Source patterns are quoted in comments as strings. *)
Set Warnings "-comment-terminator-in-string".

From Stdlib Require Import Bool Arith ZArith Lia List Ascii String.
Import ListNotations.

Local Open Scope string_scope.
Local Open Scope list_scope.

(** ** JavaScript strings *)

Module Js.

Definition code (c : ascii) : nat := nat_of_ascii c.

Definition in_range (lo hi : nat) (c : ascii) : bool :=
  Nat.leb lo (code c) && Nat.leb (code c) hi.

(** [\d] *)
Definition is_digit (c : ascii) : bool := in_range 48 57 c.

(** [\w]: [A-Za-z0-9_] *)
Definition is_word (c : ascii) : bool :=
  in_range 65 90 c || in_range 97 122 c || is_digit c || Nat.eqb (code c) 95.

(** [\s], and what [trim] strips: TAB, LF, VT, FF, CR, SP and NBSP. *)
Definition is_space (c : ascii) : bool :=
  in_range 9 13 c || Nat.eqb (code c) 32 || Nat.eqb (code c) 160.

(** Line terminators, which [.] does not match. *)
Definition is_line_terminator (c : ascii) : bool :=
  Nat.eqb (code c) 10 || Nat.eqb (code c) 13.

Definition is_hex (c : ascii) : bool :=
  is_digit c || in_range 97 102 c || in_range 65 70 c.

Definition LF : ascii := ascii_of_nat 10.
Definition CR : ascii := ascii_of_nat 13.

(** Truthiness of a value that is a string, [null] or [undefined]. *)
Definition truthy (v : option string) : bool :=
  match v with
  | Some s => negb (String.eqb s "")
  | None => false
  end.

(** [a || b] on strings: [a] when it is not empty. *)
Definition or_else (a b : string) : string :=
  if String.eqb a "" then b else a.

Fixpoint take (n : nat) (s : string) : string :=
  match n, s with
  | S n', String c t => String c (take n' t)
  | _, _ => ""
  end.

Fixpoint drop (n : nat) (s : string) : string :=
  match n, s with
  | S n', String _ t => drop n' t
  | _, _ => s
  end.

Definition startsWith (s p : string) : bool := String.prefix p s.

(** Every character of the string is in the class. *)
Fixpoint all (p : ascii -> bool) (s : string) : bool :=
  match s with
  | "" => true
  | String c t => p c && all p t
  end.

Fixpoint includes (s sub : string) : bool :=
  String.prefix sub s ||
  match s with
  | "" => false
  | String _ t => includes t sub
  end.

Fixpoint only_space (s : string) : bool :=
  match s with
  | "" => true
  | String c t => is_space c && only_space t
  end.

Fixpoint trimStart (s : string) : string :=
  match s with
  | String c t => if is_space c then trimStart t else s
  | "" => ""
  end.

Fixpoint trimEnd (s : string) : string :=
  match s with
  | "" => ""
  | String c t => if only_space s then "" else String c (trimEnd t)
  end.

Definition trim (s : string) : string := trimEnd (trimStart s).

(** [s.split(sep)] for a one-character separator. *)
Fixpoint split_aux (sep : ascii) (s : string) : string * list string :=
  match s with
  | "" => ("", [])
  | String c t =>
      let '(l, ls) := split_aux sep t in
      if Ascii.eqb c sep then ("", l :: ls) else (String c l, ls)
  end.

Definition split (sep : ascii) (s : string) : list string :=
  let '(l, ls) := split_aux sep s in l :: ls.

(** [content.split(/\r?\n/)]: a CR is dropped only when an LF follows. *)
Fixpoint split_lines_aux (s : string) : string * list string :=
  match s with
  | "" => ("", [])
  | String c t =>
      let '(l, ls) := split_lines_aux t in
      if Ascii.eqb c LF then ("", l :: ls)
      else if Ascii.eqb c CR && startsWith t (String LF "") then (l, ls)
      else (String c l, ls)
  end.

Definition split_lines (s : string) : list string :=
  let '(l, ls) := split_lines_aux s in l :: ls.

(** [s.lastIndexOf(c)]; [None] is -1. *)
Fixpoint lastIndexOf (c : ascii) (s : string) : option nat :=
  match s with
  | "" => None
  | String d t =>
      match lastIndexOf c t with
      | Some i => Some (S i)
      | None => if Ascii.eqb d c then Some 0 else None
      end
  end.

Definition join (sep : string) (l : list string) : string := String.concat sep l.

(** ASCII case conversion: the instance of the case parameters used to
    evaluate the engine on identifiers, which are ASCII. *)
Definition lower_char (c : ascii) : ascii :=
  if in_range 65 90 c then ascii_of_nat (code c + 32) else c.

Definition upper_char (c : ascii) : ascii :=
  if in_range 97 122 c then ascii_of_nat (code c - 32) else c.

Fixpoint map_chars (f : ascii -> ascii) (s : string) : string :=
  match s with
  | "" => ""
  | String c t => String (f c) (map_chars f t)
  end.

Definition ascii_toLowerCase : string -> string := map_chars lower_char.
Definition ascii_toUpperCase : string -> string := map_chars upper_char.

(** *** Numbers *)

(** Value of a run of decimal or hexadecimal digits. *)
Definition digit_value (c : ascii) : Z :=
  if is_digit c then Z.of_nat (code c - 48)
  else if in_range 97 102 c then Z.of_nat (code c - 87)
  else if in_range 65 70 c then Z.of_nat (code c - 55)
  else 0%Z.

Fixpoint digits_value (radix acc : Z) (s : string) : Z :=
  match s with
  | "" => acc
  | String c t => digits_value radix (acc * radix + digit_value c)%Z t
  end.

(** A Number that is an integer, or an infinity: what [parseInt] returns
    on a run of digits. *)
Inductive Number : Type :=
| Finite (z : Z)
| Infinity (negative : bool).

(** Nearest double to an integer (round half to even on 53 bits), before
    the overflow is looked at. *)
Definition round_to_double (z : Z) : Z :=
  if (Z.abs z <? 2 ^ 53)%Z then z
  else
    let e := (Z.log2 (Z.abs z) - 52)%Z in
    let q := (Z.abs z / 2 ^ e)%Z in
    let r := (Z.abs z mod 2 ^ e)%Z in
    let half := (2 ^ (e - 1))%Z in
    let q' := if (r <? half)%Z then q
              else if (half <? r)%Z then (q + 1)%Z
              else if Z.even q then q else (q + 1)%Z in
    (Z.sgn z * (q' * 2 ^ e))%Z.

(** The Number of an integer: an integer that rounds to 2^1024 or beyond
    overflows to an infinity. *)
Definition to_number (z : Z) : Number :=
  let r := round_to_double z in
  if (Z.abs r <? 2 ^ 1024)%Z then Finite r else Infinity (z <? 0)%Z.

(** Truthiness of a Number. *)
Definition number_truthy (n : Number) : bool :=
  match n with
  | Finite z => negb (z =? 0)%Z
  | Infinity _ => true
  end.

(** [ToInt32], the conversion the bitwise operators apply: an infinity
    converts to 0. *)
Definition toInt32 (n : Number) : Z :=
  match n with
  | Finite z => ((z + 2 ^ 31) mod 2 ^ 32 - 2 ^ 31)%Z
  | Infinity _ => 0%Z
  end.

(** [a & b] *)
Definition bitand (a b : Number) : Z := Z.land (toInt32 a) (toInt32 b).

End Js.

(** An integer is read as the Number it is. *)
Coercion Js.Finite : Z >-> Js.Number.

(** ** Maps and dictionary objects *)

Module JsMap.

(** A [Map] with string keys: entries in insertion order. *)
Definition t (V : Type) : Type := list (string * V).

Section Ops.
Context {V : Type}.

Fixpoint get (m : t V) (k : string) : option V :=
  match m with
  | [] => None
  | (k', v) :: m' => if String.eqb k' k then Some v else get m' k
  end.

Definition has (m : t V) (k : string) : bool :=
  match get m k with Some _ => true | None => false end.

(** [m.set(k, v)]: an existing key keeps its position. *)
Fixpoint set (m : t V) (k : string) (v : V) : t V :=
  match m with
  | [] => [(k, v)]
  | (k', v') :: m' =>
      if String.eqb k' k then (k, v) :: m' else (k', v') :: set m' k v
  end.

Definition keys (m : t V) : list string := map fst m.
Definition values (m : t V) : list V := map snd m.
Definition size (m : t V) : nat := List.length m.

End Ops.
End JsMap.

Module JsObject.

(** The two built-in prototypes a lookup of the program can reach. *)
Inductive Holder : Type := ObjectPrototype | ArrayPrototype.

(** A value that a lookup finds on the prototype chain and that is no
    value of the dictionary itself. *)
Inductive Inherited : Type :=
| Builtin (h : Holder) (k : string)  (* the built-in function [h[k]] *)
| TheObjectPrototype                 (* [Object.prototype], which [__proto__] reads *)
| NumberValue (n : Js.Number)
| TextValue (s : option string).     (* a string, or [null] *)

Definition truthy (i : Inherited) : bool :=
  match i with
  | Builtin _ _ => true
  | TheObjectPrototype => true
  | NumberValue n => Js.number_truthy n
  | TextValue s => Js.truthy s
  end.

(** The names of the data properties of [Object.prototype]; all of them
    are functions.  Its one accessor, [__proto__], is not in the list. *)
Definition prototype_keys : list string :=
  ["constructor"; "__defineGetter__"; "__defineSetter__"; "hasOwnProperty";
   "__lookupGetter__"; "__lookupSetter__"; "isPrototypeOf";
   "propertyIsEnumerable"; "toString"; "valueOf"; "toLocaleString"].

(** An object created by [{}]: its own properties, in the order
    [Object.entries] lists them, and the object that an assignment to
    [__proto__] installed as its prototype; [None] is the prototype it was
    created with, [Object.prototype]. *)
Record t (V : Type) : Type := mkObject {
  own : list (string * V);
  proto : option V
}.

Arguments mkObject {V} own proto.
Arguments own {V} _.
Arguments proto {V} _.

(** What [o[k]] reads: a value of the dictionary, another value, or
    [undefined]. *)
Inductive Lookup (V : Type) : Type :=
| Found (v : V)
| Foreign (i : Inherited)
| Undefined.

Arguments Found {V} v.
Arguments Foreign {V} i.
Arguments Undefined {V}.

(** A key is an array index when it is the canonical decimal form of an
    integer below 2^32 - 1. *)
Fixpoint all_digits (s : string) : bool :=
  match s with
  | "" => true
  | String c t => Js.is_digit c && all_digits t
  end.

Definition array_index (k : string) : option Z :=
  match k with
  | "" => None
  | String c t =>
      if all_digits k && (negb (Ascii.eqb c "0"%char) || String.eqb t "")
      then let v := Js.digits_value 10 0 k in
           if (v <? 2 ^ 32 - 1)%Z then Some v else None
      else None
  end.

Section Ops.
Context {V : Type}.

(** [{}] *)
Definition empty : t V := mkObject [] None.

(** An object with the given own properties and the prototype it was
    created with. *)
Definition literal (properties : list (string * V)) : t V :=
  mkObject properties None.

(** The own property [k]. *)
Definition get_own (o : t V) (k : string) : option V := JsMap.get (own o) k.

(** [Object.hasOwn(o, k)] *)
Definition has (o : t V) (k : string) : bool := JsMap.has (own o) k.

(** Insertion of a new array-index key: before the first key that is not
    an array index or is a larger one. *)
Fixpoint insert_index (o : list (string * V)) (i : Z) (k : string) (v : V)
  : list (string * V) :=
  match o with
  | [] => [(k, v)]
  | (k', v') :: o' =>
      match array_index k' with
      | Some j => if (j <? i)%Z then (k', v') :: insert_index o' i k v
                  else (k, v) :: o
      | None => (k, v) :: o
      end
  end.

(** The own properties after [k] was written: an existing property keeps
    its position, a new one is placed in property order. *)
Definition write (o : list (string * V)) (k : string) (v : V)
  : list (string * V) :=
  if JsMap.has o k then JsMap.set o k v
  else match array_index k with
       | Some i => insert_index o i k v
       | None => o ++ [(k, v)]
       end.

(** [o[k] = v] for a value [v] that is an object.  The key [__proto__],
    when it is no own property, reaches the setter of [Object.prototype],
    which installs [v] as the prototype and creates no property. *)
Definition set (o : t V) (k : string) (v : V) : t V :=
  if negb (has o k) && String.eqb k "__proto__" then mkObject (own o) (Some v)
  else mkObject (write (own o) k v) (proto o).

(** [o[k] = v] for a primitive value [v]: the setter of [__proto__]
    ignores it. *)
Definition set_primitive (o : t V) (k : string) (v : V) : t V :=
  if negb (has o k) && String.eqb k "__proto__" then o
  else mkObject (write (own o) k v) (proto o).

(** What the key reads on [Object.prototype]. *)
Definition object_prototype (k : string) : Lookup V :=
  if existsb (String.eqb k) prototype_keys
  then Foreign (Builtin ObjectPrototype k)
  else Undefined.

(** [o[k]].  [member p k] is what the key reads on an installed prototype
    [p] before the chain reaches [Object.prototype]; the getter of
    [__proto__] returns the prototype of [o]. *)
Definition get (member : V -> string -> option Inherited) (o : t V)
                (k : string) : Lookup V :=
  match get_own o k with
  | Some v => Found v
  | None =>
      match proto o with
      | Some p =>
          match member p k with
          | Some i => Foreign i
          | None => if String.eqb k "__proto__" then Found p
                    else object_prototype k
          end
      | None => if String.eqb k "__proto__" then Foreign TheObjectPrototype
                else object_prototype k
      end
  end.

Definition entries (o : t V) : list (string * V) := own o.
Definition keys (o : t V) : list string := map fst (own o).

End Ops.

(** What a key reads on an array and on [Array.prototype], whose property
    names are [array_prototype]: an element, the length, or a built-in
    function. *)
Definition array_member (array_prototype : list string) (a : list string)
                        (k : string) : option Inherited :=
  match match array_index k with
        | Some i => nth_error a (Z.to_nat i)
        | None => None
        end with
  | Some element => Some (TextValue (Some element))
  | None =>
      if String.eqb k "length"
      then Some (NumberValue (Js.Finite (Z.of_nat (List.length a))))
      else if existsb (String.eqb k) array_prototype
           then Some (Builtin ArrayPrototype k)
           else None
  end.

End JsObject.

(** ** Regular expressions

    A backtracking matcher in continuation-passing style, after the
    matcher of the ECMAScript specification: greedy quantifiers, an
    iteration of a quantifier that consumes nothing is rejected, capture
    groups are numbered as in the source pattern. *)

Module Regex.

Inductive regex : Type :=
| Eps
| Bol                          (* ^ *)
| Eol                          (* $ *)
| Cls (p : ascii -> bool)      (* one character of a class *)
| Seq (a b : regex)
| Alt (a b : regex)            (* a|b *)
| Star (a : regex)             (* a* *)
| Opt (a : regex)              (* a? *)
| Grp (n : nat) (a : regex).   (* the n-th capture group *)

Definition Plus (a : regex) : regex := Seq a (Star a).

Definition Chr (c : ascii) : regex := Cls (Ascii.eqb c).

Fixpoint Lit (s : string) : regex :=
  match s with
  | "" => Eps
  | String c t => Seq (Chr c) (Lit t)
  end.

(** Character classes of the patterns. *)
Definition space := Cls Js.is_space.                                  (* \s *)
Definition nonspace := Cls (fun c => negb (Js.is_space c)).           (* \S *)
Definition word := Cls Js.is_word.                                    (* \w *)
Definition digit := Cls Js.is_digit.                                  (* \d *)
Definition any := Cls (fun c => negb (Js.is_line_terminator c)).      (* . *)
Definition none_of (c : ascii) := Cls (fun d => negb (Ascii.eqb d c)). (* [^c] *)

(** The state of a match: the input not yet consumed, the index reached
    and the captures, most recent first. *)
Record MState : Type := mkMState {
  rest : string;
  pos : nat;
  caps : list (nat * string)
}.

Definition advance (s : MState) (t : string) : MState :=
  mkMState t (S (pos s)) (caps s).

Definition capture (n : nat) (from to : MState) : MState :=
  mkMState (rest to) (pos to)
           ((n, Js.take (pos to - pos from) (rest from)) :: caps to).

Definition progressed (from : MState) (k : MState -> option MState)
                      (to : MState) : option MState :=
  if Nat.eqb (pos to) (pos from) then None else k to.

Definition or_try {A : Type} (x y : option A) : option A :=
  match x with Some _ => x | None => y end.

(** The iterations of [a*]: one more turn of the body if it consumes
    something and the rest of the pattern then matches, none otherwise.
    Every turn consumes a character, so [fuel] above the length of the
    input never runs out. *)
Fixpoint star_loop (body : (MState -> option MState) -> MState -> option MState)
                   (k : MState -> option MState) (fuel : nat) (s : MState)
  {struct fuel} : option MState :=
  match fuel with
  | O => k s
  | S fuel' => or_try (body (progressed s (star_loop body k fuel')) s) (k s)
  end.

Fixpoint rmatch (r : regex) (k : MState -> option MState) (s : MState)
  {struct r} : option MState :=
  match r with
  | Eps => k s
  | Bol => if Nat.eqb (pos s) 0 then k s else None
  | Eol => match rest s with "" => k s | _ => None end
  | Cls p =>
      match rest s with
      | String c t => if p c then k (advance s t) else None
      | "" => None
      end
  | Seq a b => rmatch a (rmatch b k) s
  | Alt a b => or_try (rmatch a k s) (rmatch b k s)
  | Opt a => or_try (rmatch a (progressed s k) s) (k s)
  | Star a => star_loop (rmatch a) k (S (String.length (rest s))) s
  | Grp n a => rmatch a (fun s' => k (capture n s s')) s
  end.

Definition match_at (r : regex) (input : string) (i : nat) : option MState :=
  rmatch r Some (mkMState (Js.drop i input) i []).

(** The leftmost match starting at index [i] or later; [fuel] is the number
    of further start positions to try. *)
Fixpoint search_from (r : regex) (input : string) (i fuel : nat)
  : option (nat * MState) :=
  match match_at r input i with
  | Some m => Some (i, m)
  | None =>
      match fuel with
      | O => None
      | S fuel' => search_from r input (S i) fuel'
      end
  end.

(** [input.match(r)] for a pattern without the [g] flag. *)
Definition search (r : regex) (input : string) : option MState :=
  option_map snd (search_from r input 0 (String.length input)).

(** The value of capture group [n]; [None] is [undefined]. *)
Definition group (m : MState) (n : nat) : option string :=
  option_map snd (find (fun c => Nat.eqb (fst c) n) (caps m)).

(** The matches of [while ((m = r.exec(input)) !== null)] for a pattern
    with the [g] flag that never matches the empty string: each search
    resumes where the previous match ended. *)
Fixpoint exec_loop (r : regex) (input : string) (lastIndex fuel : nat)
  : list MState :=
  match fuel with
  | O => []
  | S fuel' =>
      match search_from r input lastIndex (String.length input - lastIndex) with
      | Some (_, m) => m :: exec_loop r input (pos m) fuel'
      | None => []
      end
  end.

Definition exec_all (r : regex) (input : string) : list MState :=
  exec_loop r input 0 (S (String.length input)).

End Regex.

(** ** Records of the index *)

Record Param : Type := mkParam {
  param_name : string;
  param_optional : bool;
  param_type : string;
  param_description : option string
}.

Record Return : Type := mkReturn {
  return_type : string;
  return_name : option string;
  return_description : option string
}.

(** The provenance tag [_indexFunction] stores in [source]. *)
Inductive Source : Type := blizzard | deprecated_api | wiki | widget | framexml.

(** The value of [gameVersions]: the array of versions, or whatever else
    the flavor map read for the name. *)
Inductive GameVersions : Type :=
| Versions (versions : list string)
| NoVersions (value : JsObject.Inherited).

Record FunctionRecord : Type := mkFunction {
  fullName : string;
  namespace : option string;
  name : string;
  args : string;
  isMethod : bool;
  deprecated : bool;
  replacedBy : option string;
  replacedByUrl : option string;
  wikiUrl : option string;
  description : option string;
  params : list Param;
  returns : list Return;
  deprecatedInPatch : option string;
  source : option Source;
  gameVersions : option GameVersions
}.

Record ClassRecord : Type := mkClass {
  class_name : string;
  inherits : list string;
  fields : list Param;
  class_wikiUrl : option string
}.

Record EventRecord : Type := mkEvent {
  event_name : string;
  payload : option string
}.

(** ** parsers/lua-annotations.mjs *)

Module LuaAnnotations.
Import Regex.

Definition Cat (l : list regex) : regex := fold_right Seq Eps l.

Definition dquote : ascii := ascii_of_nat 34.

(** [v || null] on a capture. *)
Definition or_null (v : option string) : option string :=
  if Js.truthy v then v else None.

(** [!!v] on a capture. *)
Definition to_bool (v : option string) : bool := Js.truthy v.

(** A capture group that took part in the match. *)
Definition group1 (m : MState) (n : nat) : string :=
  match group m n with Some s => s | None => "" end.

(** Pattern "^---\s?" *)
Definition re_marker : regex := Cat [Bol; Lit "---"; Opt space].

(** Pattern "^Deprecated by \[([^\]]+)\]\(([^)]+)\)" *)
Definition re_deprecated_by : regex :=
  Cat [Bol; Lit "Deprecated by ["; Grp 1 (Plus (none_of "]")); Lit "](";
       Grp 2 (Plus (none_of ")")); Lit ")"].

(** Pattern "^\[Documentation\]\(([^)]+)\)" *)
Definition re_documentation : regex :=
  Cat [Bol; Lit "[Documentation]("; Grp 1 (Plus (none_of ")")); Lit ")"].

(** "(\w+)(\?)?\s+(\S+)\s*(.*)?$", the tail shared by "@param" and "@field" *)
Definition re_typed_name : regex :=
  Cat [Grp 1 (Plus word); Opt (Grp 2 (Chr "?")); Plus space;
       Grp 3 (Plus nonspace); Star space; Opt (Grp 4 (Star any)); Eol].

(** Pattern "^@param\s+(\w+)(\?)?\s+(\S+)\s*(.*)?$" *)
Definition re_param : regex :=
  Cat [Bol; Lit "@param"; Plus space; re_typed_name].

(** Pattern "^@return\s+(\S+)\s*(\w+)?\s*(.*)?$" *)
Definition re_return : regex :=
  Cat [Bol; Lit "@return"; Plus space; Grp 1 (Plus nonspace); Star space;
       Opt (Grp 2 (Plus word)); Star space; Opt (Grp 3 (Star any)); Eol].

(** [[\w.]] *)
Definition is_word_dot (c : ascii) : bool := Js.is_word c || Ascii.eqb c ".".

Definition word_dot : regex := Cls is_word_dot.

(** Pattern "^function\s+([\w.]+)\s*\(([^)]*)\)\s*end$" *)
Definition re_function : regex :=
  Cat [Bol; Lit "function"; Plus space; Grp 1 (Plus word_dot); Star space;
       Lit "("; Grp 2 (Star (none_of ")")); Lit ")"; Star space; Lit "end"; Eol].

(** Pattern "^function\s+([\w.]+):([\w]+)\s*\(([^)]*)\)\s*end$" *)
Definition re_method : regex :=
  Cat [Bol; Lit "function"; Plus space; Grp 1 (Plus word_dot); Lit ":";
       Grp 2 (Plus word); Star space;
       Lit "("; Grp 3 (Star (none_of ")")); Lit ")"; Star space; Lit "end"; Eol].

(** Pattern "^---@class\s+([\w.]+)(?:\s*:\s*([\w.,\s]+))?" *)
Definition re_class : regex :=
  Cat [Bol; Lit "---@class"; Plus space; Grp 1 (Plus word_dot);
       Opt (Cat [Star space; Lit ":"; Star space;
                 Grp 2 (Plus (Cls (fun c => Js.is_word c || Ascii.eqb c "."
                                           || Ascii.eqb c "," || Js.is_space c)))])].

(** Pattern "^---@field\s+(\w+)(\?)?\s+(\S+)\s*(.*)?$" *)
Definition re_field : regex :=
  Cat [Bol; Lit "---@field"; Plus space; re_typed_name].

(** Pattern "^---\[Documentation\]\(([^)]+)\)" *)
Definition re_class_documentation : regex :=
  Cat [Bol; Lit "---[Documentation]("; Grp 1 (Plus (none_of ")")); Lit ")"].

(** Pattern "^---@enum\s+([\w.]+)" *)
Definition re_enum : regex :=
  Cat [Bol; Lit "---@enum"; Plus space; Grp 1 (Plus word_dot)].

(** Pattern "^[\w.]+ = \{$" *)
Definition re_enum_open : regex :=
  Cat [Bol; Plus word_dot; Lit " = {"; Eol].

(** Pattern "^(\w+)\s*=\s*(\d+),?$" *)
Definition re_enum_member : regex :=
  Cat [Bol; Grp 1 (Plus word); Star space; Lit "="; Star space;
       Grp 2 (Plus digit); Opt (Lit ","); Eol].

(** Pattern "^\s*---\|Q([^Q]+)Q", where Q is the double quote *)
Definition re_cvar : regex :=
  Cat [Bol; Star space; Lit "---|"; Chr dquote; Grp 1 (Plus (none_of dquote));
       Chr dquote].

(** The pattern of [re_cvar] followed by "(?:\s*#\s*`([^`]*)`)?" *)
Definition re_event : regex :=
  Cat [re_cvar;
       Opt (Cat [Star space; Lit "#"; Star space; Lit "`";
                 Grp 2 (Star (none_of "`")); Lit "`"])].

(** Pattern "Deprecated_(\d+)_(\d+)_(\d+)" *)
Definition re_patch : regex :=
  Cat [Lit "Deprecated_"; Grp 1 (Plus digit); Lit "_"; Grp 2 (Plus digit);
       Lit "_"; Grp 3 (Plus digit)].

(** *** parseAnnotationBlock *)

Record Annotation : Type := mkAnnotation {
  a_deprecated : bool;
  a_replacedBy : option string;
  a_replacedByUrl : option string;
  a_wikiUrl : option string;
  a_params : list Param;
  a_returns : list Return;
  a_descParts : list string
}.

Definition empty_annotation : Annotation :=
  mkAnnotation false None None None [] [] [].

(** [line.replace(re_marker, empty)] *)
Definition strip_marker (line : string) : string :=
  match search re_marker line with
  | Some m => Js.drop (pos m) line
  | None => line
  end.

Definition typed_name_of (m : MState) : Param :=
  mkParam (group1 m 1) (to_bool (group m 2)) (group1 m 3) (or_null (group m 4)).

(** One turn of the loop over the lines of the block. *)
Definition annotation_step (r : Annotation) (line : string) : Annotation :=
  let text := strip_marker line in
  if String.eqb text "@deprecated" then
    mkAnnotation true (a_replacedBy r) (a_replacedByUrl r) (a_wikiUrl r)
                 (a_params r) (a_returns r) (a_descParts r)
  else match search re_deprecated_by text with
  | Some m =>
    mkAnnotation (a_deprecated r) (group m 1) (group m 2) (a_wikiUrl r)
                 (a_params r) (a_returns r) (a_descParts r)
  | None =>
  match search re_documentation text with
  | Some m =>
    mkAnnotation (a_deprecated r) (a_replacedBy r) (a_replacedByUrl r) (group m 1)
                 (a_params r) (a_returns r) (a_descParts r)
  | None =>
  match search re_param text with
  | Some m =>
    mkAnnotation (a_deprecated r) (a_replacedBy r) (a_replacedByUrl r) (a_wikiUrl r)
                 (a_params r ++ [typed_name_of m]) (a_returns r) (a_descParts r)
  | None =>
  match search re_return text with
  | Some m =>
    mkAnnotation (a_deprecated r) (a_replacedBy r) (a_replacedByUrl r) (a_wikiUrl r)
                 (a_params r)
                 (a_returns r ++ [mkReturn (group1 m 1) (or_null (group m 2))
                                           (or_null (group m 3))])
                 (a_descParts r)
  | None =>
    if Js.startsWith text "@" || Js.startsWith text "#" then r
    else if negb (String.eqb (Js.trim text) "") then
      mkAnnotation (a_deprecated r) (a_replacedBy r) (a_replacedByUrl r) (a_wikiUrl r)
                   (a_params r) (a_returns r) (a_descParts r ++ [Js.trim text])
    else r
  end end end end.

Definition parseAnnotationBlock (lines : list string) : Annotation :=
  fold_left annotation_step lines empty_annotation.

(** [descParts.length > 0 ? descParts.join(' ') : null] *)
Definition description_of (r : Annotation) : option string :=
  match a_descParts r with
  | [] => None
  | parts => Some (Js.join " " parts)
  end.

(** *** parseFunctionLine *)

Record FuncInfo : Type := mkFuncInfo {
  fi_fullName : string;
  fi_namespace : option string;
  fi_name : string;
  fi_args : string;
  fi_isMethod : bool
}.

Definition parseFunctionLine (line : string) : option FuncInfo :=
  match search re_function line with
  | Some m =>
      let full := group1 m 1 in
      let args := group1 m 2 in
      match Js.lastIndexOf "." full with
      | Some dotIdx =>
          Some (mkFuncInfo full (Some (Js.take dotIdx full))
                           (Js.drop (dotIdx + 1) full) args false)
      | None => Some (mkFuncInfo full None full args false)
      end
  | None =>
      match search re_method line with
      | Some m =>
          Some (mkFuncInfo (group1 m 1 ++ ":" ++ group1 m 2) (Some (group1 m 1))
                           (group1 m 2) (group1 m 3) true)
      | None => None
      end
  end.

(** [{ ...funcInfo, ...annotation }] *)
Definition make_function (fi : FuncInfo) (a : Annotation) : FunctionRecord :=
  mkFunction (fi_fullName fi) (fi_namespace fi) (fi_name fi) (fi_args fi)
             (fi_isMethod fi) (a_deprecated a) (a_replacedBy a)
             (a_replacedByUrl a) (a_wikiUrl a) (description_of a)
             (a_params a) (a_returns a) None None None.

(** *** parseLuaFile

    The parsers take the content of the file, which the source reads with
    [readFileSync(filePath, 'utf-8')]. *)

Record ParseState : Type := mkParseState {
  ps_functions : list FunctionRecord;
  ps_classes : list ClassRecord;
  ps_annotationLines : list string
}.

(** The inner loop over the block, gathering fields and the documentation
    link of a class. *)
Definition class_gather (c : ClassRecord) (fLine : string) : ClassRecord :=
  let c1 :=
    match search re_field fLine with
    | Some m => mkClass (class_name c) (inherits c)
                        (fields c ++ [typed_name_of m]) (class_wikiUrl c)
    | None => c
    end in
  match search re_class_documentation fLine with
  | Some m => mkClass (class_name c1) (inherits c1) (fields c1) (group m 1)
  | None => c1
  end.

(** [classMatch[2] ? classMatch[2].split(',').map((s) => s.trim()) : []] *)
Definition parents_of (m : MState) : list string :=
  if Js.truthy (group m 2) then map Js.trim (Js.split "," (group1 m 2)) else [].

Definition class_of_match (annotationLines : list string) (m : MState)
  : ClassRecord :=
  fold_left class_gather annotationLines
            (mkClass (group1 m 1) (parents_of m) [] None).

(** The classes declared by the pending block, one per line the class
    pattern matches. *)
Definition classes_of_block (annotationLines : list string) : list ClassRecord :=
  flat_map (fun aLine =>
              match search re_class aLine with
              | Some m => [class_of_match annotationLines m]
              | None => []
              end) annotationLines.

(** One turn of the loop over the lines of the file. *)
Definition lua_step (st : ParseState) (raw : string) : ParseState :=
  let line := Js.trim raw in
  if Js.startsWith line "---" then
    mkParseState (ps_functions st) (ps_classes st) (ps_annotationLines st ++ [line])
  else if Js.startsWith line "function " then
    match parseFunctionLine line with
    | Some funcInfo =>
        mkParseState
          (ps_functions st ++
             [make_function funcInfo (parseAnnotationBlock (ps_annotationLines st))])
          (ps_classes st) []
    | None => mkParseState (ps_functions st) (ps_classes st) []
    end
  else
    mkParseState (ps_functions st)
                 (ps_classes st ++ classes_of_block (ps_annotationLines st)) [].

Definition parseLuaLines (lines : list string) : ParseState :=
  fold_left lua_step lines (mkParseState [] [] []).

(** The result [{ functions, classes, enums }]; [enums] is never filled. *)
Definition parseLuaFile (content : string) : ParseState :=
  parseLuaLines (Js.split_lines content).

(** *** parseEnumFile *)

Definition EnumValues : Type := JsObject.t Js.Number.

(** What a key reads on a table of enum values that was installed as a
    prototype: a member. *)
Definition enum_member (values : EnumValues) (k : string)
  : option JsObject.Inherited :=
  option_map JsObject.NumberValue (JsObject.get_own values k).

Record EnumState : Type := mkEnumState {
  es_enums : JsObject.t EnumValues;
  es_currentEnum : option string;
  es_currentValues : EnumValues
}.

(** [parseInt(digits, 10)] *)
Definition parseInt10 (digits : string) : Js.Number :=
  Js.to_number (Js.digits_value 10 0 digits).

Definition matches (r : regex) (s : string) : bool :=
  match search r s with Some _ => true | None => false end.

Definition enum_step (st : EnumState) (raw : string) : EnumState :=
  let line := Js.trim raw in
  match search re_enum line with
  | Some m => mkEnumState (es_enums st) (Some (group1 m 1)) JsObject.empty
  | None =>
      match es_currentEnum st with
      | Some currentEnum =>
          if negb (String.eqb currentEnum "") then
            if matches re_enum_open line then st
            else if String.eqb line "}" then
              mkEnumState (JsObject.set (es_enums st) currentEnum (es_currentValues st))
                          None JsObject.empty
            else
              match search re_enum_member line with
              | Some m =>
                  mkEnumState (es_enums st) (es_currentEnum st)
                              (JsObject.set_primitive (es_currentValues st)
                                                      (group1 m 1)
                                                      (parseInt10 (group1 m 2)))
              | None => st
              end
          else st
      | None => st
      end
  end.

Definition parseEnumLines (lines : list string) : JsObject.t EnumValues :=
  es_enums (fold_left enum_step lines
                      (mkEnumState JsObject.empty None JsObject.empty)).

Definition parseEnumFile (content : string) : JsObject.t EnumValues :=
  parseEnumLines (Js.split_lines content).

(** *** parseEventFile, parseCVarFile *)

(** What a key reads on an event that was installed as a prototype: one of
    its two properties. *)
Definition event_member (evt : EventRecord) (k : string)
  : option JsObject.Inherited :=
  if String.eqb k "name" then Some (JsObject.TextValue (Some (event_name evt)))
  else if String.eqb k "payload" then Some (JsObject.TextValue (payload evt))
  else None.

Definition event_step (events : JsObject.t EventRecord) (line : string)
  : JsObject.t EventRecord :=
  match search re_event line with
  | Some m => JsObject.set events (group1 m 1)
                           (mkEvent (group1 m 1) (or_null (group m 2)))
  | None => events
  end.

Definition parseEventFile (content : string) : JsObject.t EventRecord :=
  fold_left event_step (Js.split_lines content) JsObject.empty.

Definition cvar_step (cvars : list string) (line : string) : list string :=
  match search re_cvar line with
  | Some m => cvars ++ [group1 m 1]
  | None => cvars
  end.

Definition parseCVarFile (content : string) : list string :=
  fold_left cvar_step (Js.split_lines content) [].

(** *** extractPatchFromFilename *)

Definition extractPatchFromFilename (filename : string) : option string :=
  match search re_patch filename with
  | Some m => Some (group1 m 1 ++ "." ++ group1 m 2 ++ "." ++ group1 m 3)%string
  | None => None
  end.

End LuaAnnotations.

(** ** parsers/ts-data.mjs *)

Module TsData.
Import Regex.

Definition dquote : ascii := LuaAnnotations.dquote.

(** Pattern "\[Q([^Q]+)Q\]\s*:\s*(0x[0-9a-fA-F]+|\d+)" with the [g] flag,
    where Q is the double quote *)
Definition re_flavor : regex :=
  LuaAnnotations.Cat
    [Lit "["; Chr dquote; Grp 1 (Plus (none_of dquote)); Chr dquote; Lit "]";
     Star space; Lit ":"; Star space;
     Grp 2 (Alt (Seq (Lit "0x") (Plus (Cls Js.is_hex))) (Plus digit))].

(** Pattern "Q([^Q]+)Q" with the [g] flag *)
Definition re_quoted : regex :=
  LuaAnnotations.Cat [Chr dquote; Grp 1 (Plus (none_of dquote)); Chr dquote].

(** [parseInt(text)] on a capture of [re_flavor]: hexadecimal after the
    prefix [0x], decimal otherwise. *)
Definition parseInt (text : string) : Js.Number :=
  if Js.startsWith text "0x"
  then Js.to_number (Js.digits_value 16 0 (Js.drop 2 text))
  else Js.to_number (Js.digits_value 10 0 text).

Definition decodeFlavorBitmask (bitmask : Js.Number) : list string :=
  (if (Js.bitand bitmask 1%Z =? 0)%Z then [] else ["Mainline"]) ++
  (if (Js.bitand bitmask 2%Z =? 0)%Z then [] else ["Vanilla"]) ++
  (if (Js.bitand bitmask 4%Z =? 0)%Z then [] else ["Mists"]).

Definition flavor_step (flavorMap : JsObject.t (list string)) (m : MState)
  : JsObject.t (list string) :=
  JsObject.set flavorMap (LuaAnnotations.group1 m 1)
               (decodeFlavorBitmask (parseInt (LuaAnnotations.group1 m 2))).

Definition parseFlavorFile (content : string) : JsObject.t (list string) :=
  fold_left flavor_step (exec_all re_flavor content) JsObject.empty.

Definition parseDeprecatedFile (content : string) : list string :=
  filter (fun name => negb (String.eqb name "__esModule")
                      && negb (String.eqb name "use strict"))
         (map (fun m => LuaAnnotations.group1 m 1) (exec_all re_quoted content)).

End TsData.

(** ** Results of operations that can throw *)

Inductive Result (A : Type) : Type :=
| Ok (a : A)
| Throw (message : string).

Arguments Ok {A} a.
Arguments Throw {A} message.

Definition bind {A B : Type} (x : Result A) (f : A -> Result B) : Result B :=
  match x with
  | Ok a => f a
  | Throw e => Throw e
  end.

Notation "x <- e ;; k" := (bind e (fun x => k))
  (at level 61, e at next level, right associativity).

Fixpoint mapM {A B : Type} (f : A -> Result B) (l : list A) : Result (list B) :=
  match l with
  | [] => Ok []
  | a :: l' => b <- f a ;; bs <- mapM f l' ;; Ok (b :: bs)
  end.

(** ** data-store.mjs *)

Module Store.
Import LuaAnnotations.

(** A reference to a function object: its position in the heap. *)
Definition ref : Type := nat.

Record Widget : Type := mkWidget {
  classInfo : option ClassRecord;
  methods : list ref
}.

Record DataStore : Type := mkStore {
  heap : list FunctionRecord;
  functions : JsMap.t ref;           (* fullName -> function data *)
  namespaces : JsMap.t (list ref);   (* namespace -> [function data] *)
  widgets : JsMap.t Widget;          (* widget class -> { classInfo, methods } *)
  enums : JsObject.t EnumValues;
  events : JsObject.t EventRecord;
  cvars : list string;
  deprecatedList : list string;      (* a Set: no duplicates, insertion order *)
  flavorMap : JsObject.t (list string);
  extensionVersion : option string
}.

(** The constructor. *)
Definition newDataStore : DataStore :=
  mkStore [] [] [] [] JsObject.empty JsObject.empty [] [] JsObject.empty None.

Definition set_heap (s : DataStore) (h : list FunctionRecord) : DataStore :=
  mkStore h (functions s) (namespaces s) (widgets s) (enums s) (events s)
          (cvars s) (deprecatedList s) (flavorMap s) (extensionVersion s).

Definition set_widgets (s : DataStore) (w : JsMap.t Widget) : DataStore :=
  mkStore (heap s) (functions s) (namespaces s) w (enums s) (events s)
          (cvars s) (deprecatedList s) (flavorMap s) (extensionVersion s).

(** [set.add(x)] *)
Definition set_add (l : list string) (x : string) : list string :=
  if existsb (String.eqb x) l then l else l ++ [x].

(** [set.has(x)] *)
Definition set_has (l : list string) (x : string) : bool :=
  existsb (String.eqb x) l.

(** *** Field updates of a function object *)

Definition with_source (f : FunctionRecord) (src : Source) : FunctionRecord :=
  mkFunction (fullName f) (namespace f) (name f) (args f) (isMethod f)
             (deprecated f) (replacedBy f) (replacedByUrl f) (wikiUrl f)
             (description f) (params f) (returns f) (deprecatedInPatch f)
             (Some src) (gameVersions f).

Definition with_gameVersions (f : FunctionRecord) (g : GameVersions)
  : FunctionRecord :=
  mkFunction (fullName f) (namespace f) (name f) (args f) (isMethod f)
             (deprecated f) (replacedBy f) (replacedByUrl f) (wikiUrl f)
             (description f) (params f) (returns f) (deprecatedInPatch f)
             (source f) (Some g).

Definition with_deprecated (f : FunctionRecord) (d : bool) : FunctionRecord :=
  mkFunction (fullName f) (namespace f) (name f) (args f) (isMethod f)
             d (replacedBy f) (replacedByUrl f) (wikiUrl f)
             (description f) (params f) (returns f) (deprecatedInPatch f)
             (source f) (gameVersions f).

Definition with_deprecatedInPatch (f : FunctionRecord) (p : option string)
  : FunctionRecord :=
  mkFunction (fullName f) (namespace f) (name f) (args f) (isMethod f)
             (deprecated f) (replacedBy f) (replacedByUrl f) (wikiUrl f)
             (description f) (params f) (returns f) p
             (source f) (gameVersions f).

(** Truthiness of the field [gameVersions]. *)
Definition versions_truthy (g : option GameVersions) : bool :=
  match g with
  | Some (Versions _) => true
  | Some (NoVersions value) => JsObject.truthy value
  | None => false
  end.

(** *** _indexFunction and _indexClass *)

(** [this.namespaces.get(ns).push(func)], after the array was created when
    the key was missing. *)
Definition push_namespace (m : JsMap.t (list ref)) (ns : string) (r : ref)
  : JsMap.t (list ref) :=
  let m1 := if JsMap.has m ns then m else JsMap.set m ns [] in
  match JsMap.get m1 ns with
  | Some funcs => JsMap.set m1 ns (funcs ++ [r])
  | None => m1
  end.

(** The function object after the two assignments that open
    [_indexFunction]. *)
Definition stamped (func : FunctionRecord) (src : Source) : FunctionRecord :=
  let f1 := with_source func src in
  if versions_truthy (gameVersions f1) then f1
  else with_gameVersions f1 (Versions []).

(** [_indexFunction(func, source)].  The object enters the heap here: until
    then only the caller's local variable holds it. *)
Definition _indexFunction (func : FunctionRecord) (src : Source) (s : DataStore)
  : DataStore :=
  let f := stamped func src in
  let r := List.length (heap s) in
  mkStore (heap s ++ [f])
          (JsMap.set (functions s) (fullName f) r)
          (if Js.truthy (namespace f) && negb (isMethod f)
           then match namespace f with
                | Some ns => push_namespace (namespaces s) ns r
                | None => namespaces s
                end
           else namespaces s)
          (widgets s) (enums s) (events s) (cvars s) (deprecatedList s)
          (flavorMap s) (extensionVersion s).

Definition _indexClass (cls : ClassRecord) (s : DataStore) : DataStore :=
  match JsMap.get (widgets s) (class_name cls) with
  | None => set_widgets s (JsMap.set (widgets s) (class_name cls)
                                     (mkWidget (Some cls) []))
  | Some w => set_widgets s (JsMap.set (widgets s) (class_name cls)
                                       (mkWidget (Some cls) (methods w)))
  end.

(** *** load *)

(** What [load] finds under the extension path.  A file is a pair of its
    path and its content; a list of files is what [findLuaFiles] returns
    for the directory, in its order; [None] is a file that does not exist.
    [frameXmlDocs] lists the files of the five FrameXML subdirectories, one
    subdirectory after the other.  [arrayPrototype] is the one part of the
    JavaScript engine that [load] can reach and that differs between the
    versions of Node.js: the names of the properties of [Array.prototype].
    It is read only when [flavor.js] has an entry named [__proto__]. *)
Record Corpus : Type := mkCorpus {
  arrayPrototype : list string;
  packageJson : option (option string);  (* the version field; None if unreadable *)
  flavorJs : option string;
  deprecatedJs : option string;
  blizzardDocs : list (string * string);
  deprecatedDocs : list (string * string);
  wikiLua : option string;
  widgetDocs : list (string * string);
  frameXmlDocs : list (string * string);
  enumLua : option string;
  eventLua : option string;
  cvarLua : option string
}.

Definition index_all (src : Source) (funcs : list FunctionRecord) (s : DataStore)
  : DataStore :=
  fold_left (fun s func => _indexFunction func src s) funcs s.

Definition index_classes (classes : list ClassRecord) (s : DataStore) : DataStore :=
  fold_left (fun s cls => _indexClass cls s) classes s.

(** 3. Official documentation. *)
Definition blizzard_file (s : DataStore) (file : string * string) : DataStore :=
  let r := parseLuaFile (snd file) in
  index_classes (ps_classes r) (index_all blizzard (ps_functions r) s).

(** 4. Deprecated API files. *)
Definition deprecated_func (patchVersion : option string) (s : DataStore)
                           (func : FunctionRecord) : DataStore :=
  _indexFunction (with_deprecated (with_deprecatedInPatch func patchVersion) true)
                 deprecated_api s.

Definition deprecated_file (s : DataStore) (file : string * string) : DataStore :=
  let patchVersion := extractPatchFromFilename (fst file) in
  fold_left (deprecated_func patchVersion) (ps_functions (parseLuaFile (snd file))) s.

(** 5. Wiki-documented global functions. *)
Definition wiki_func (s : DataStore) (func : FunctionRecord) : DataStore :=
  let func1 :=
    if set_has (deprecatedList s) (Js.or_else (name func) (fullName func))
    then with_deprecated func true else func in
  if negb (JsMap.has (functions s) (fullName func1))
  then _indexFunction func1 wiki s
  else s.

Definition wiki_pass (content : string) (s : DataStore) : DataStore :=
  fold_left wiki_func (ps_functions (parseLuaFile content)) s.

(** 6. Widget API files. *)
Definition push_method (w : JsMap.t Widget) (owner : string) (r : ref)
  : JsMap.t Widget :=
  let w1 := if JsMap.has w owner then w
            else JsMap.set w owner (mkWidget None []) in
  match JsMap.get w1 owner with
  | Some wd => JsMap.set w1 owner (mkWidget (classInfo wd) (methods wd ++ [r]))
  | None => w1
  end.

Definition widget_func (s : DataStore) (func : FunctionRecord) : DataStore :=
  let r := List.length (heap s) in
  let s1 := _indexFunction func widget s in
  if isMethod func && Js.truthy (namespace func)
  then match namespace func with
       | Some owner => set_widgets s1 (push_method (widgets s1) owner r)
       | None => s1
       end
  else s1.

Definition widget_file (s : DataStore) (file : string * string) : DataStore :=
  let r := parseLuaFile (snd file) in
  fold_left widget_func (ps_functions r) (index_classes (ps_classes r) s).

(** 7. FrameXML. *)
Definition framexml_func (s : DataStore) (func : FunctionRecord) : DataStore :=
  if negb (JsMap.has (functions s) (fullName func))
  then _indexFunction func framexml s
  else s.

Definition framexml_file (s : DataStore) (file : string * string) : DataStore :=
  let r := parseLuaFile (snd file) in
  fold_left framexml_func (ps_functions r) (index_classes (ps_classes r) s).

(** The closing loop, which attaches the game versions. *)
Fixpoint replace_nth {A : Type} (n : nat) (l : list A) (a : A) : list A :=
  match n, l with
  | O, _ :: t => a :: t
  | S n', x :: t => x :: replace_nth n' t a
  | _, [] => []
  end.

(** [this.flavorMap[k]] when it is truthy. *)
Definition flavor_lookup (array_prototype : list string)
                         (flavorMap : JsObject.t (list string)) (k : string)
  : option GameVersions :=
  match JsObject.get (JsObject.array_member array_prototype) flavorMap k with
  | JsObject.Found versions => Some (Versions versions)
  | JsObject.Foreign value =>
      if JsObject.truthy value then Some (NoVersions value) else None
  | JsObject.Undefined => None
  end.

Definition apply_flavor (array_prototype : list string)
                        (flavorMap : JsObject.t (list string))
                        (h : list FunctionRecord) (entry : string * ref)
  : list FunctionRecord :=
  let '(key, r) := entry in
  match nth_error h r with
  | Some func =>
      let shortName := Js.or_else (name func) key in
      match flavor_lookup array_prototype flavorMap shortName with
      | Some versions => replace_nth r h (with_gameVersions func versions)
      | None =>
          match flavor_lookup array_prototype flavorMap key with
          | Some versions => replace_nth r h (with_gameVersions func versions)
          | None => h
          end
      end
  | None => h
  end.

Definition apply_flavors (array_prototype : list string) (s : DataStore)
  : DataStore :=
  set_heap s (fold_left (apply_flavor array_prototype (flavorMap s))
                        (functions s) (heap s)).

Definition from_option {A : Type} (o : option A) (d : A) : A :=
  match o with Some a => a | None => d end.

(** 1. and 2. The flavor data and the deprecated list, after the version
    of the extension was read. *)
Definition load_side_tables (c : Corpus) (s : DataStore) : DataStore :=
  mkStore (heap s) (functions s) (namespaces s) (widgets s) (enums s)
          (events s) (cvars s)
          (match deprecatedJs c with
           | Some text => fold_left set_add (TsData.parseDeprecatedFile text)
                                    (deprecatedList s)
           | None => deprecatedList s
           end)
          (match flavorJs c with
           | Some text => TsData.parseFlavorFile text
           | None => flavorMap s
           end)
          (match packageJson c with
           | Some version => version
           | None => Some "unknown"
           end).

(** 3. to 7. The passes over the annotation files. *)
Definition load_passes (c : Corpus) (s : DataStore) : DataStore :=
  let s3 := fold_left blizzard_file (blizzardDocs c) s in
  let s4 := fold_left deprecated_file (deprecatedDocs c) s3 in
  let s5 := match wikiLua c with
            | Some text => wiki_pass text s4
            | None => s4
            end in
  let s6 := fold_left widget_file (widgetDocs c) s5 in
  fold_left framexml_file (frameXmlDocs c) s6.

(** 8. to 10. Enums, events and CVars. *)
Definition load_data_tables (c : Corpus) (s : DataStore) : DataStore :=
  mkStore (heap s) (functions s) (namespaces s) (widgets s)
          (match enumLua c with
           | Some text => parseEnumFile text
           | None => enums s
           end)
          (match eventLua c with
           | Some text => parseEventFile text
           | None => events s
           end)
          (match cvarLua c with
           | Some text => parseCVarFile text
           | None => cvars s
           end)
          (deprecatedList s) (flavorMap s) (extensionVersion s).

(** The body of [load] over a corpus that was found. *)
Definition load_corpus (c : Corpus) (s : DataStore) : DataStore :=
  apply_flavors (arrayPrototype c)
                (load_data_tables c (load_passes c (load_side_tables c s))).

(** [load()]: [None] is an extension path that [findExtensionPath] did not
    find. *)
Definition extension_not_found : string :=
  Js.join (String Js.LF "")
          ["Could not find ketho.wow-api VS Code extension.";
           "Install it: code --install-extension ketho.wow-api";
           "Or set WOW_API_EXT_PATH env var to the extension directory."].

Definition load (found : option Corpus) (s : DataStore) : Result DataStore :=
  match found with
  | None => Throw extension_not_found
  | Some c => Ok (load_corpus c s)
  end.

(** *** Query methods

    [toLowerCase] and [toUpperCase] are the case conversions of the
    JavaScript engine. *)

(** Reading a property of the object a reference designates; on a
    reference that designates nothing the read is one of [undefined]. *)
Definition read_object (o : option FunctionRecord) : Result FunctionRecord :=
  match o with
  | Some func => Ok func
  | None => Throw "TypeError: cannot read properties of undefined"
  end.

Definition deref (s : DataStore) (r : ref) : Result FunctionRecord :=
  read_object (nth_error (heap s) r).

(** The entries [[key, func]] of [this.functions]. *)
Definition function_entries (s : DataStore)
  : Result (list (string * FunctionRecord)) :=
  mapM (fun e => func <- deref s (snd e) ;; Ok (fst e, func)) (functions s).

(** [v.toLowerCase()] on a value that may be [null]. *)
Definition call_on {A : Type} (f : string -> A) (v : option string) : Result A :=
  match v with
  | Some str => Ok (f str)
  | None => Throw "TypeError: cannot read properties of null"
  end.

(** [[...keys].sort()]: insertion into the order of code units. *)
Fixpoint insert_sorted (x : string) (l : list string) : list string :=
  match l with
  | [] => [x]
  | y :: l' => if String.leb x y then x :: l else y :: insert_sorted x l'
  end.

Definition sort (l : list string) : list string :=
  fold_right insert_sorted [] l.

Inductive EnumResult : Type :=
| EnumTable (values : EnumValues)                  (* this.enums[name] *)
| EnumOther (value : JsObject.Inherited)           (* this.enums[name], no table *)
| EnumWrapped (key : string) (values : EnumValues) (* { [key]: values } *)
| EnumNull.

Inductive EventResult : Type :=
| EventOne (evt : EventRecord)                     (* this.events[upperName] *)
| EventOther (value : JsObject.Inherited)          (* this.events[upperName], no event *)
| EventMany (results : list EventRecord)
| EventNull.

Record Stats : Type := mkStats {
  stat_extensionVersion : option string;
  totalFunctions : nat;
  deprecatedFunctions : nat;
  stat_namespaces : nat;
  widgetTypes : nat;
  stat_enums : nat;
  stat_events : nat;
  stat_cvars : nat
}.

Section Queries.

Variable toLowerCase : string -> string.
Variable toUpperCase : string -> string.

Definition lookup_partial (lowerName : string) (e : string * FunctionRecord)
  : bool :=
  let shortName := Js.or_else (name (snd e)) (fst e) in
  String.eqb (toLowerCase shortName) lowerName
  || Js.includes (toLowerCase (fst e)) lowerName.

Definition lookupApi (s : DataStore) (name : string)
  : Result (list FunctionRecord) :=
  (* Exact match first *)
  match JsMap.get (functions s) name with
  | Some r => func <- deref s r ;; Ok [func]
  | None =>
      (* Case-insensitive exact match *)
      let lowerName := toLowerCase name in
      match find (fun e => String.eqb (toLowerCase (fst e)) lowerName)
                 (functions s) with
      | Some (_, r) => func <- deref s r ;; Ok [func]
      | None =>
          (* Partial match on function name *)
          entries <- function_entries s ;;
          Ok (firstn 25 (map snd (filter (lookup_partial lowerName) entries)))
      end
  end.

(** [[fullName, name, description].filter(Boolean).join(' ').toLowerCase()] *)
Definition searchable (func : FunctionRecord) : string :=
  toLowerCase
    (Js.join " " (flat_map (fun v => if Js.truthy v
                                     then match v with Some x => [x] | None => [] end
                                     else [])
                           [Some (fullName func); Some (name func);
                            description func])).

Definition searchApi (s : DataStore) (query : string)
  : Result (list FunctionRecord) :=
  let lowerQuery := toLowerCase query in
  entries <- function_entries s ;;
  Ok (firstn 50 (filter (fun func => Js.includes (searchable func) lowerQuery)
                        (map snd entries))).

(** The three tests of the loop body of [listDeprecated]; [true] keeps the
    function. *)
Definition deprecated_kept (namespaceFilter : option string)
                           (func : FunctionRecord) : Result bool :=
  if negb (deprecated func) then Ok false
  else
    skip1 <-
      (if Js.truthy namespaceFilter && Js.truthy (namespace func) then
         ns <- call_on toLowerCase (namespace func) ;;
         flt <- call_on toLowerCase namespaceFilter ;;
         Ok (negb (Js.includes ns flt))
       else Ok false) ;;
    if (skip1 : bool) then Ok false
    else
      skip2 <-
        (if Js.truthy namespaceFilter && negb (Js.truthy (namespace func)) then
           flt <- call_on toLowerCase namespaceFilter ;;
           Ok (negb (Js.includes (toLowerCase (fullName func)) flt))
         else Ok false) ;;
      Ok (negb skip2).

Fixpoint filterM {A : Type} (f : A -> Result bool) (l : list A)
  : Result (list A) :=
  match l with
  | [] => Ok []
  | a :: l' =>
      b <- f a ;; rest <- filterM f l' ;; Ok (if (b : bool) then a :: rest else rest)
  end.

Definition listDeprecated (s : DataStore) (namespaceFilter : option string)
  : Result (list FunctionRecord) :=
  entries <- function_entries s ;;
  filterM (deprecated_kept namespaceFilter) (map snd entries).

Definition getNamespace (s : DataStore) (name : string)
  : Result (list FunctionRecord) :=
  match JsMap.get (namespaces s) name with
  | Some funcs => mapM (deref s) funcs
  | None =>
      let lowerName := toLowerCase name in
      match find (fun e => String.eqb (toLowerCase (fst e)) lowerName)
                 (namespaces s) with
      | Some (_, funcs) => mapM (deref s) funcs
      | None => Ok []
      end
  end.

Definition listNamespaces (s : DataStore) : list string :=
  sort (JsMap.keys (namespaces s)).

(** A widget as a caller reads it: class info and the method objects. *)
Definition read_widget (s : DataStore) (w : Widget)
  : Result (option (option ClassRecord * list FunctionRecord)) :=
  ms <- mapM (deref s) (methods w) ;; Ok (Some (classInfo w, ms)).

Definition getWidgetMethods (s : DataStore) (widgetType : string)
  : Result (option (option ClassRecord * list FunctionRecord)) :=
  match JsMap.get (widgets s) widgetType with
  | Some w => read_widget s w
  | None =>
      let lowerType := toLowerCase widgetType in
      match find (fun e => String.eqb (toLowerCase (fst e)) lowerType)
                 (widgets s) with
      | Some (_, w) => read_widget s w
      | None => Ok None
      end
  end.

Definition listWidgets (s : DataStore) : list string :=
  sort (JsMap.keys (widgets s)).

(** The case-insensitive and partial match of [getEnum]. *)
Definition getEnum_partial (s : DataStore) (name : string) : EnumResult :=
  let lowerName := toLowerCase name in
  match find (fun e => String.eqb (toLowerCase (fst e)) lowerName
                       || Js.includes (toLowerCase (fst e)) lowerName)
             (JsObject.entries (enums s)) with
  | Some (key, values) => EnumWrapped key values
  | None => EnumNull
  end.

Definition getEnum (s : DataStore) (name : string) : EnumResult :=
  match JsObject.get enum_member (enums s) name with
  | JsObject.Found values => EnumTable values
  | JsObject.Foreign value =>
      if JsObject.truthy value then EnumOther value else getEnum_partial s name
  | JsObject.Undefined => getEnum_partial s name
  end.

Definition searchEnums (s : DataStore) (query : string)
  : JsObject.t EnumValues :=
  let lowerQuery := toLowerCase query in
  fold_left (fun results e =>
               if Js.includes (toLowerCase (fst e)) lowerQuery
               then JsObject.set results (fst e) (snd e) else results)
            (JsObject.entries (enums s)) JsObject.empty.

(** The partial match of [getEvent]. *)
Definition getEvent_partial (s : DataStore) (upperName : string) : EventResult :=
  match map snd (filter (fun e => Js.includes (fst e) upperName)
                        (JsObject.entries (events s))) with
  | [] => EventNull
  | results => EventMany results
  end.

Definition getEvent (s : DataStore) (name : string) : EventResult :=
  let upperName := toUpperCase name in
  match JsObject.get event_member (events s) upperName with
  | JsObject.Found evt => EventOne evt
  | JsObject.Foreign value =>
      if JsObject.truthy value then EventOther value
      else getEvent_partial s upperName
  | JsObject.Undefined => getEvent_partial s upperName
  end.

Definition getStats (s : DataStore) : Result Stats :=
  entries <- function_entries s ;;
  Ok (mkStats (extensionVersion s)
              (JsMap.size (functions s))
              (List.length (filter deprecated (map snd entries)))
              (JsMap.size (namespaces s))
              (JsMap.size (widgets s))
              (List.length (JsObject.keys (enums s)))
              (List.length (JsObject.keys (events s)))
              (List.length (cvars s))).

End Queries.

End Store.

(** ** Invariants of the index *)

Import Store.

(** A function object without its game versions, the one field that is
    assigned after the object is indexed. *)
Definition frozen (f : FunctionRecord) : FunctionRecord :=
  with_gameVersions f (Versions []).

(** [h'] holds every object of [h], at the same reference, up to game
    versions. *)
Definition heap_extends (h h' : list FunctionRecord) : Prop :=
  forall r f, nth_error h r = Some f ->
              exists f', nth_error h' r = Some f' /\ frozen f' = frozen f.

(** The reference designates an object whose fields, game versions apart,
    satisfy [P]. *)
Definition designates (h : list FunctionRecord) (P : FunctionRecord -> Prop)
                      (r : ref) : Prop :=
  exists f, nth_error h r = Some f /\ P (frozen f).

(** Every key of the function table designates an object of that full
    name. *)
Definition functions_ok (s : DataStore) : Prop :=
  Forall (fun e => designates (heap s) (fun f => fullName f = fst e) (snd e))
         (functions s).

(** Every object filed under a namespace key is a function of that
    namespace and no method. *)
Definition namespaces_ok (s : DataStore) : Prop :=
  Forall (fun e =>
            Forall (designates (heap s)
                      (fun f => isMethod f = false /\ namespace f = Some (fst e)))
                   (snd e))
         (namespaces s).

(** Every object in the method list of a widget is a method of that
    owner. *)
Definition widgets_ok (s : DataStore) : Prop :=
  Forall (fun e =>
            Forall (designates (heap s)
                      (fun f => isMethod f = true /\ namespace f = Some (fst e)))
                   (methods (snd e)))
         (widgets s).

Definition well_formed (s : DataStore) : Prop :=
  functions_ok s /\ namespaces_ok s /\ widgets_ok s.

(** ** Sample corpora *)

Module Samples.
Import Store.

Definition lines (l : list string) : string := Js.join (String Js.LF "") l.

Definition quoted (s : string) : string :=
  (String LuaAnnotations.dquote s ++ String LuaAnnotations.dquote "")%string.

(** The names of the properties of [Array.prototype] in Node.js 20. *)
Definition array_prototype : list string :=
  ["length"; "constructor"; "at"; "concat"; "copyWithin"; "fill"; "find";
   "findIndex"; "findLast"; "findLastIndex"; "lastIndexOf"; "pop"; "push";
   "reverse"; "shift"; "unshift"; "slice"; "sort"; "splice"; "includes";
   "indexOf"; "join"; "keys"; "entries"; "values"; "forEach"; "filter";
   "flat"; "flatMap"; "map"; "every"; "some"; "reduce"; "reduceRight";
   "toReversed"; "toSorted"; "toSpliced"; "with"; "toLocaleString";
   "toString"].

Definition empty_corpus : Corpus :=
  mkCorpus array_prototype None None None [] [] None [] [] None None None.

(** A small extension: one documented function that a deprecated file
    declares again, a wiki file, a widget with a method and a namespace of
    the same name, and the side tables. *)
Definition corpus : Corpus :=
  mkCorpus
    array_prototype
    (Some (Some "0.20.3"))
    (Some ("exports.data = { [" ++ quoted "IsSpellKnown" ++ "]: 0x5, ["
             ++ quoted "UnitName" ++ "]: 0x7 }")%string)
    (Some ("exports.data = [" ++ quoted "UnitName" ++ "]")%string)
    [("Annotations/Core/Blizzard_APIDocumentationGenerated/SpellBookDocumentation.lua",
      lines ["---[Documentation](https://warcraft.wiki.gg/wiki/API_C_SpellBook.IsSpellKnown)";
             "---@param spellID number";
             "---@return boolean isKnown";
             "function C_SpellBook.IsSpellKnown(spellID) end"])]
    [("Annotations/Core/FrameXML/Blizzard_Deprecated/Deprecated_11_0_5.lua",
      lines ["---@deprecated";
             "---Deprecated by [C_SpellBook.IsSpellInSpellBook](https://x)";
             "function C_SpellBook.IsSpellKnown(spellID) end"])]
    (Some (lines ["---Found on the wiki.";
                  "function C_SpellBook.IsSpellKnown(id, isPet) end";
                  "";
                  "function UnitName(unit) end"]))
    [("Annotations/Core/Widget/Frame.lua",
      lines ["---@class Frame : ScriptRegion, Region";
             "local Frame = {}";
             "";
             "function Frame:Show() end"])]
    [("Annotations/Core/FrameXML/Blizzard_SharedXML/Frame.lua",
      lines ["function Frame.Create(name) end"])]
    (Some (lines ["---@enum Enum.Foo"; "Enum.Foo = {"; "A = 0,"; "B = 1,"; "}"]))
    (Some (lines ["---@alias FrameEvent string";
                  ("---|" ++ quoted "PLAYER_LOGIN" ++ " # `arg1, arg2`")%string]))
    (Some (lines ["---@alias CVar string"; ("---|" ++ quoted "nameplateShowAll")%string])).

Definition store : DataStore := load_corpus corpus newDataStore.

(** The store when the wiki pass starts, and the text of the wiki file. *)
Definition before_wiki : DataStore :=
  fold_left deprecated_file (deprecatedDocs corpus)
            (fold_left blizzard_file (blizzardDocs corpus) newDataStore).

Definition wiki_text : string := from_option (wikiLua corpus) "".

(** The enum file of the round trip, with the comment marker on its first
    line and without it. *)
Definition enum_lines : list string :=
  ["---@enum Enum.Foo"; "Enum.Foo = {"; "A = 0,"; "B = 1,"; "}"].

Definition enum_lines_unmarked : list string :=
  ["@enum Enum.Foo"; "Enum.Foo = {"; "A = 0,"; "B = 1,"; "}"].

Definition enum_corpus (l : list string) : Corpus :=
  mkCorpus array_prototype None None None [] [] None [] [] (Some (lines l)) None None.

End Samples.

(** Sample annotation files for the class extractor. *)
Module ClassSamples.

Definition block : list string :=
  ["---A frame."; "---@class Frame : ScriptRegion, Region"; "---@field x number"].

Definition file : list string :=
  ["function Foo.Bar() end"] ++ block ++ "local Frame = {}" :: [""].

(** A class block that a function line follows, and one that ends the
    file. *)
Definition before_function : list string :=
  ["---@class Foo"; "function Foo:Bar() end"].

Definition at_end_of_file : list string := ["local x = 1"; "---@class Foo"].

End ClassSamples.

(** Sample corpora for the deprecated pass: a documented function that a
    deprecated file declares again, in a file whose name carries no
    version, and in a versioned file when a widget file declares the same
    name. *)
Module DeprecatedSamples.
Import Store.





End DeprecatedSamples.


(** The record of the deprecated pass: the key designates an object that
    the deprecated pass produced from one of the files. *)
Definition deprecated_entry (files : list (string * string)) (k : string)
                            (h : list FunctionRecord) (m : JsMap.t ref) : Prop :=
  exists r f file,
    JsMap.get m k = Some r
    /\ nth_error h r = Some f
    /\ deprecated f = true
    /\ source f = Some deprecated_api
    /\ In file files
    /\ (exists func, In func (LuaAnnotations.ps_functions
                                (LuaAnnotations.parseLuaFile (snd file)))
                     /\ fullName func = k)
    /\ deprecatedInPatch f = LuaAnnotations.extractPatchFromFilename (fst file).

(** [deprecated_entry] read off a store. *)
Definition deprecated_in (files : list (string * string)) (k : string)
                         (s : DataStore) : Prop :=
  deprecated_entry files k (heap s) (functions s).

(** ** The function table as the queries read it *)

(** The function table with every reference replaced by the object it
    designates. *)
Definition function_view (s : DataStore) : JsMap.t (option FunctionRecord) :=
  map (fun e => (fst e, nth_error (heap s) (snd e))) (functions s).

(** The writes of the passes to the function table: the object, as
    [_indexFunction] stores it, is filed under its full name either
    unconditionally or only if the name is not yet a key. *)
Inductive Write : Type :=
| Always (f : FunctionRecord)
| IfAbsent (f : FunctionRecord).

Definition written (w : Write) : FunctionRecord :=
  match w with Always f => f | IfAbsent f => f end.

Definition apply_write (V : JsMap.t (option FunctionRecord)) (w : Write)
  : JsMap.t (option FunctionRecord) :=
  match w with
  | Always f => JsMap.set V (fullName f) (Some f)
  | IfAbsent f =>
      if JsMap.has V (fullName f) then V else JsMap.set V (fullName f) (Some f)
  end.

(** The cross-reference of the wiki pass with the deprecated list. *)
Definition mark_deprecated (dl : list string) (func : FunctionRecord)
  : FunctionRecord :=
  if set_has dl (Js.or_else (name func) (fullName func))
  then with_deprecated func true else func.

Definition parsed_functions (content : string) : list FunctionRecord :=
  LuaAnnotations.ps_functions (LuaAnnotations.parseLuaFile content).

Definition blizzard_writes (file : string * string) : list Write :=
  map (fun func => Always (stamped func blizzard)) (parsed_functions (snd file)).

Definition deprecated_writes (file : string * string) : list Write :=
  map (fun func =>
         Always (stamped (with_deprecated
                            (with_deprecatedInPatch func
                               (LuaAnnotations.extractPatchFromFilename (fst file)))
                            true)
                         deprecated_api))
      (parsed_functions (snd file)).

Definition wiki_writes (dl : list string) (content : string) : list Write :=
  map (fun func => IfAbsent (stamped (mark_deprecated dl func) wiki))
      (parsed_functions content).

Definition widget_writes (file : string * string) : list Write :=
  map (fun func => Always (stamped func widget)) (parsed_functions (snd file)).

Definition framexml_writes (file : string * string) : list Write :=
  map (fun func => IfAbsent (stamped func framexml)) (parsed_functions (snd file)).

(** The writes of passes 3 to 7, in order, for a deprecated list [dl]. *)
Definition plan (dl : list string) (c : Corpus) : list Write :=
  flat_map blizzard_writes (blizzardDocs c)
  ++ flat_map deprecated_writes (deprecatedDocs c)
  ++ match wikiLua c with Some text => wiki_writes dl text | None => [] end
  ++ flat_map widget_writes (widgetDocs c)
  ++ flat_map framexml_writes (frameXmlDocs c).

(** The last unconditional write to a key, if any. *)
Fixpoint last_always (ops : list Write) (k : string) : option FunctionRecord :=
  match ops with
  | [] => None
  | w :: ops' =>
      match last_always ops' k with
      | Some f => Some f
      | None =>
          match w with
          | Always f => if String.eqb (fullName f) k then Some f else None
          | IfAbsent _ => None
          end
      end
  end.

(** The object after the closing loop of [load] visited it under [key]. *)
Definition flavored (ap : list string) (fm : JsObject.t (list string))
                    (key : string) (func : FunctionRecord) : FunctionRecord :=
  match flavor_lookup ap fm (Js.or_else (name func) key) with
  | Some versions => with_gameVersions func versions
  | None =>
      match flavor_lookup ap fm key with
      | Some versions => with_gameVersions func versions
      | None => func
      end
  end.

Definition flavor_entry (ap : list string) (fm : JsObject.t (list string))
                        (e : string * option FunctionRecord)
  : string * option FunctionRecord :=
  (fst e, option_map (flavored ap fm (fst e)) (snd e)).

(** The store mirrors a view of the function table. *)
Definition tracks (dl : list string) (s : DataStore)
                  (V : JsMap.t (option FunctionRecord)) : Prop :=
  functions_ok s /\ deprecatedList s = dl /\ function_view s = V.

(** The tables that the passes over the annotation files do not write. *)
Definition side_tables (s : DataStore) :=
  (enums s, events s, cvars s, deprecatedList s, flavorMap s, extensionVersion s).

(** The namespace key under which [_indexFunction] files a function, and
    the widget key under which the widget pass files a method. *)
Definition filed_under (func : FunctionRecord) : option string :=
  if Js.truthy (namespace func) && negb (isMethod func) then namespace func
  else None.

Definition method_owner (func : FunctionRecord) : option string :=
  if isMethod func && Js.truthy (namespace func) then namespace func else None.

Definition parsed_classes (content : string) : list ClassRecord :=
  LuaAnnotations.ps_classes (LuaAnnotations.parseLuaFile content).

(** The store has a key for everything a load of the corpus files: the
    full name of every function, the namespace of every function of the
    unconditional passes, the owner of every widget method and the name of
    every class. *)
Definition saturated (c : Corpus) (t : DataStore) : Prop :=
  (forall file func,
      In file (blizzardDocs c ++ deprecatedDocs c ++ widgetDocs c
               ++ frameXmlDocs c) ->
      In func (parsed_functions (snd file)) ->
      JsMap.has (functions t) (fullName func) = true)
  /\ (forall text func,
         wikiLua c = Some text -> In func (parsed_functions text) ->
         JsMap.has (functions t) (fullName func) = true)
  /\ (forall file func ns,
         In file (blizzardDocs c ++ deprecatedDocs c ++ widgetDocs c) ->
         In func (parsed_functions (snd file)) ->
         filed_under func = Some ns ->
         JsMap.has (namespaces t) ns = true)
  /\ (forall file func owner,
         In file (widgetDocs c) -> In func (parsed_functions (snd file)) ->
         method_owner func = Some owner ->
         JsMap.has (widgets t) owner = true)
  /\ (forall file cls,
         In file (blizzardDocs c ++ widgetDocs c ++ frameXmlDocs c) ->
         In cls (parsed_classes (snd file)) ->
         JsMap.has (widgets t) (class_name cls) = true).

(** The three tables of the index that are keyed by name. *)
Inductive Table : Type := FunctionTable | NamespaceTable | WidgetTable.

Definition has_key (table : Table) (s : DataStore) (k : string) : bool :=
  match table with
  | FunctionTable => JsMap.has (functions s) k
  | NamespaceTable => JsMap.has (namespaces s) k
  | WidgetTable => JsMap.has (widgets s) k
  end.

(** The key is in the table. *)
Definition key_present (table : Table) (k : string) (s : DataStore) : Prop :=
  has_key table s k = true.

(** The store [s] has every function key of [t] and the namespace and
    widget keys of [t], in the same order. *)
Definition same_keys (t s : DataStore) : Prop :=
  (forall k, JsMap.has (functions t) k = true -> JsMap.has (functions s) k = true)
  /\ JsMap.keys (namespaces s) = JsMap.keys (namespaces t)
  /\ JsMap.keys (widgets s) = JsMap.keys (widgets t).

(** The sample store after a second load. *)
Definition reloaded : DataStore := load_corpus Samples.corpus Samples.store.

(** ** The declarations that decide the function table *)

(** The first write of any kind to a key. *)
Definition first_written (ops : list Write) (k : string) : option FunctionRecord :=
  option_map written
             (find (fun w => String.eqb (fullName (written w)) k) ops).

(** The write that decides the record of a key: the last unconditional
    one, and the first write when none is unconditional. *)
Definition resolve (ops : list Write) (k : string) : option FunctionRecord :=
  match last_always ops k with
  | Some f => Some f
  | None => first_written ops k
  end.

(** The contents of the annotation files that passes 3 to 7 read. *)
Definition annotation_texts (c : Corpus) : list string :=
  map snd (blizzardDocs c) ++ map snd (deprecatedDocs c)
  ++ match wikiLua c with Some text => [text] | None => [] end
  ++ map snd (widgetDocs c) ++ map snd (frameXmlDocs c).

(** Some annotation file of the corpus declares a function of that full
    name. *)
Definition declared (c : Corpus) (k : string) : Prop :=
  exists text func,
    In text (annotation_texts c) /\ In func (parsed_functions text)
    /\ fullName func = k.

(** The game versions the closing loop of [load] gives the record filed
    under [key]: what the flavor map reads for its short name when that is
    truthy, else what it reads for the key, else the empty list of
    [_indexFunction]. *)
Definition versions_for (ap : list string) (fm : JsObject.t (list string))
                        (key : string) (func : FunctionRecord) : GameVersions :=
  match Store.flavor_lookup ap fm (Js.or_else (name func) key) with
  | Some versions => versions
  | None =>
      match Store.flavor_lookup ap fm key with
      | Some versions => versions
      | None => Versions []
      end
  end.

(** A key whose read never leaves the own properties of a dictionary with
    the prototype it was created with: it is neither [__proto__] nor the
    name of a property of [Object.prototype]. *)
Definition plain_key (k : string) : Prop :=
  k <> "__proto__"%string /\ ~ In k JsObject.prototype_keys.

(** [[^)]]: what the argument list of a function line consists of. *)
Definition not_paren (c : ascii) : bool := negb (Ascii.eqb c ")").

(** [\S] and [.] as predicates on a character. *)
Definition non_space (c : ascii) : bool := negb (Js.is_space c).
Definition non_terminator (c : ascii) : bool := negb (Js.is_line_terminator c).

(** A text that a pattern can take after the white space that precedes it:
    it does not start with white space and holds no line terminator. *)
Definition free_text (s : string) : Prop :=
  s <> ""%string /\ Js.all non_terminator s = true
  /\ match s with String c _ => Js.is_space c = false | EmptyString => True end.

(** The fields of an annotation with a parameter appended. *)
Definition add_param (a : LuaAnnotations.Annotation) (p : Param)
  : LuaAnnotations.Annotation :=
  LuaAnnotations.mkAnnotation
    (LuaAnnotations.a_deprecated a) (LuaAnnotations.a_replacedBy a)
    (LuaAnnotations.a_replacedByUrl a) (LuaAnnotations.a_wikiUrl a)
    (LuaAnnotations.a_params a ++ [p]) (LuaAnnotations.a_returns a)
    (LuaAnnotations.a_descParts a).

(** The fields of an annotation with a return value appended. *)
Definition add_return (a : LuaAnnotations.Annotation) (r : Return)
  : LuaAnnotations.Annotation :=
  LuaAnnotations.mkAnnotation
    (LuaAnnotations.a_deprecated a) (LuaAnnotations.a_replacedBy a)
    (LuaAnnotations.a_replacedByUrl a) (LuaAnnotations.a_wikiUrl a)
    (LuaAnnotations.a_params a) (LuaAnnotations.a_returns a ++ [r])
    (LuaAnnotations.a_descParts a).

(** The return value that [parseAnnotationBlock] reads off a match of the
    return pattern. *)
Definition return_of (m : Regex.MState) : Return :=
  mkReturn (LuaAnnotations.group1 m 1)
           (LuaAnnotations.or_null (Regex.group m 2))
           (LuaAnnotations.or_null (Regex.group m 3)).

(** Sample records for the indexing steps: a function of a namespace, a
    second declaration of the same name, a class and one of its methods. *)
Module StoreSamples.

Definition plain (full : string) (ns : option string) (short : string)
                 (method : bool) (desc : option string) : FunctionRecord :=
  mkFunction full ns short "" method false None None None desc [] [] None None None.

Definition foo_bar : FunctionRecord :=
  plain "C_Foo.Bar" (Some "C_Foo") "Bar" false None.

Definition foo_bar_again : FunctionRecord :=
  plain "C_Foo.Bar" (Some "C_Foo") "Bar" false (Some "Declared again.").

Definition frame_class : ClassRecord := mkClass "Frame" ["Region"] [] None.

Definition frame_hide : FunctionRecord :=
  plain "Frame:Hide" (Some "Frame") "Hide" true None.

End StoreSamples.

(** ** The spelling of an enum in [Enum.lua] *)

(** A member line: indentation, key, [ = ], decimal digits and a comma,
    which the last member may lack. *)
Record EnumMember : Type := mkEnumMember {
  em_indent : string;
  em_key : string;
  em_digits : string;
  em_comma : bool
}.

Definition enum_member_line (m : EnumMember) : string :=
  (em_indent m ++ em_key m ++ " = " ++ em_digits m
   ++ (if em_comma m then "," else ""))%string.

(** The lines of one enum: the tag, the opening line, the members and the
    closing brace. *)
Definition enum_block (name : string) (members : list EnumMember) : list string :=
  ("---@enum " ++ name)%string :: (name ++ " = {")%string
  :: map enum_member_line members ++ ["}"%string].

(** The assignments [currentValues[key] = parseInt(digits, 10)], in the
    order of the members. *)
Definition enum_values (members : list EnumMember) (start : LuaAnnotations.EnumValues)
  : LuaAnnotations.EnumValues :=
  fold_left (fun o m => JsObject.set_primitive
                          o (em_key m) (LuaAnnotations.parseInt10 (em_digits m)))
            members start.

Definition member_ok (m : EnumMember) : Prop :=
  Js.all Js.is_space (em_indent m) = true
  /\ em_key m <> ""%string /\ Js.all Js.is_word (em_key m) = true
  /\ em_digits m <> ""%string /\ Js.all Js.is_digit (em_digits m) = true.

Module EnumSamples.

Definition members : list EnumMember :=
  [mkEnumMember (String (ascii_of_nat 9) "") "Player" "0" true;
   mkEnumMember "  " "Pet" "1" false].

End EnumSamples.

(** The last character of the string is no white space. *)
Definition ends_with_text (s : string) : Prop :=
  exists a c, s = (a ++ String c "")%string /\ Js.is_space c = false.

(** The first character of the string is no white space. *)
Definition starts_with_text (s : string) : Prop :=
  match s with String c _ => Js.is_space c = false | EmptyString => False end.

(** ** The lines of [Event.lua] and [CVar.lua] *)

(** The loops of [parseEventFile] and [parseCVarFile] over the lines of
    the file. *)
Definition parseEventLines (lines : list string) : JsObject.t EventRecord :=
  fold_left LuaAnnotations.event_step lines JsObject.empty.

Definition parseCVarLines (lines : list string) : list string :=
  fold_left LuaAnnotations.cvar_step lines [].

(** An alias line: indentation, [---|] and the quoted name. *)
Definition alias_line (indent name : string) : string :=
  (indent ++ "---|" ++ Samples.quoted name)%string.

(** The comment that gives the payload of an event. *)
Definition payload_comment (payload : string) : string :=
  (" # `" ++ payload ++ "`")%string.

Definition not_quote (c : ascii) : bool := negb (Ascii.eqb c LuaAnnotations.dquote).
Definition not_backtick (c : ascii) : bool := negb (Ascii.eqb c "`").

(** ** The file system

    [findLuaFiles] of parsers/lua-annotations.mjs and the discovery of the
    extension of data-store.mjs read the file system; [path.join] is a
    parameter of both. *)

Module FileSystem.

(** [s.endsWith(suffix)] *)
Definition endsWith (s suffix : string) : bool :=
  Nat.leb (String.length suffix) (String.length s)
  && String.eqb (Js.drop (String.length s - String.length suffix) s) suffix.

(** What [statSync] and [readdirSync] find at a path: a file, an entry on
    which [statSync] throws (a dangling link), or a directory with the
    names [readdirSync] lists and what is found at each; a directory on
    which [readdirSync] throws has no listing. *)
#[warnings="-register-all"] Inductive Node : Type :=
| File
| Broken
| Dir (listing : option (list (string * Node))).

(** Induction on what a directory contains. *)
Fixpoint Node_induction (P : Node -> Prop)
         (HFile : P File) (HBroken : P Broken) (HNone : P (Dir None))
         (HDir : forall entries,
             Forall (fun e => P (snd e)) entries -> P (Dir (Some entries)))
         (n : Node) {struct n} : P n :=
  match n with
  | File => HFile
  | Broken => HBroken
  | Dir None => HNone
  | Dir (Some entries) =>
      HDir entries
           ((fix all (es : list (string * Node)) : Forall (fun e => P (snd e)) es :=
               match es with
               | [] => Forall_nil _
               | e :: es' =>
                   Forall_cons e
                     (Node_induction P HFile HBroken HNone HDir (snd e))
                     (all es')
               end) entries)
  end.

Section Walk.

(** [path.join] *)
Variable join : list string -> string.

(** The loop over the entries of [dir].  An entry on which [statSync]
    throws ends the loop: the [catch] keeps what was pushed before. *)
Definition scan_entries (find : string -> Node -> list string) (dir : string)
  : list (string * Node) -> list string :=
  fix scan (es : list (string * Node)) : list string :=
    match es with
    | [] => []
    | e :: rest =>
        let fullPath := join [dir; fst e] in
        match snd e with
        | Broken => []
        | Dir listing => find fullPath (snd e) ++ scan rest
        | File => if endsWith (fst e) ".lua" then fullPath :: scan rest
                  else scan rest
        end
    end.

(** [findLuaFiles(dir)], where [n] is what is found at [dir]. *)
Fixpoint findLuaFiles (dir : string) (n : Node) {struct n} : list string :=
  match n with
  | Dir (Some entries) => scan_entries findLuaFiles dir entries
  | _ => []
  end.

(** The entries that the loop reaches: those before the first one on
    which [statSync] throws. *)
Definition reached (es : list (string * Node)) : Prop :=
  Forall (fun e => snd e <> Broken) es.

(** [p] is the path of a file named [*.lua] that a walk from [dir], at
    which [n] is found, reaches. *)
Inductive lists : string -> Node -> string -> Prop :=
| lists_file dir before entry after :
    reached before -> endsWith entry ".lua" = true ->
    lists dir (Dir (Some (before ++ (entry, File) :: after))) (join [dir; entry])
| lists_below dir before entry listing after p :
    reached before ->
    lists (join [dir; entry]) (Dir listing) p ->
    lists dir (Dir (Some (before ++ (entry, Dir listing) :: after))) p.

End Walk.

(** *** The discovery of the extension *)

(** The list is in ascending order of code units. *)
Fixpoint ascending (l : list string) : Prop :=
  match l with
  | [] => True
  | x :: rest => Forall (fun y => String.leb x y = true) rest /\ ascending rest
  end.

Record Env : Type := mkEnv {
  WOW_API_EXT_PATH : option string;
  USERPROFILE : option string;
  HOME : option string
}.

Definition candidates : list string :=
  [".vscode"; ".vscode-insiders"; ".vscode-oss"; ".cursor"].

Section Discovery.

Variable join : list string -> string.

(** [readdirSync]; [None] when it throws. *)
Variable readdirSync : string -> option (list string).

Variable existsSync : string -> bool.

Definition scanExtensionsDir (extensionsDir : string) : option string :=
  match readdirSync extensionsDir with
  | Some entries =>
      match rev (Store.sort (filter (fun e => Js.startsWith e "ketho.wow-api-")
                                    entries)) with
      | latest :: _ => Some (join [extensionsDir; latest])
      | [] => None
      end
  | None => None
  end.

(** The loop over the candidate directories under the home directory. *)
Fixpoint first_found (homeDir : string) (cs : list string) : option string :=
  match cs with
  | [] => None
  | candidate :: cs' =>
      let result := scanExtensionsDir (join [homeDir; candidate; "extensions"]) in
      if Js.truthy result then result else first_found homeDir cs'
  end.

(** [findExtensionPath()].  Without override and without home directory
    [path.join] is called on [undefined] and throws. *)
Definition findExtensionPath (env : Env) : Result (option string) :=
  if Js.truthy (WOW_API_EXT_PATH env) then
    match WOW_API_EXT_PATH env with
    | Some extPath =>
        if existsSync (join [extPath; "Annotations"]) then Ok (Some extPath)
        else Ok (scanExtensionsDir extPath)
    | None => Ok None
    end
  else
    match (if Js.truthy (USERPROFILE env) then USERPROFILE env else HOME env) with
    | Some homeDir => Ok (first_found homeDir candidates)
    | None => Throw "TypeError: The path argument must be of type string. Received undefined"
    end.

(** The directories [findExtensionPath] scans: the override alone when it
    is set, and the candidates under the home directory otherwise. *)
Definition scanned (env : Env) (dir : string) : Prop :=
  (Js.truthy (WOW_API_EXT_PATH env) = true /\ WOW_API_EXT_PATH env = Some dir)
  \/ (Js.truthy (WOW_API_EXT_PATH env) = false
      /\ exists homeDir candidate,
           (if Js.truthy (USERPROFILE env) then USERPROFILE env else HOME env)
           = Some homeDir
           /\ In candidate candidates
           /\ dir = join [homeDir; candidate; "extensions"]).

End Discovery.

(** A sample file system: a home directory with two versions of the
    extension under [.vscode], and an annotation directory with a dangling
    link. *)
Module Samples.

Definition join (parts : list string) : string := String.concat "/" parts.

Definition readdirSync (dir : string) : option (list string) :=
  if String.eqb dir "/home/u/.vscode/extensions"
  then Some ["ketho.wow-api-0.9.0"; "ms-python.python-1.0.0"; "ketho.wow-api-0.10.0"]
  else None.

Definition existsSync (path : string) : bool := false.

Definition env : Env := mkEnv None None (Some "/home/u").

Definition widget_dir : Node :=
  Dir (Some [("Frame.lua", File); ("notes.txt", File);
             ("Sub.lua", Dir (Some [("Button.lua", File)]));
             ("dangling", Broken); ("Late.lua", File)]).

End Samples.

End FileSystem.

(** ** The spelling of the data files of the extension *)

(** A text made of tokens, each followed by a text that is none: what
    stands before the first token, and the tokens with what follows
    them. *)
Definition tokens_text (lead : string) (items : list (string * string)) : string :=
  (lead ++ String.concat "" (map (fun it => (fst it ++ snd it)%string) items))%string.

(** The pattern [r], which matches only where a character of [starts]
    stands, matches the token whole wherever it stands before its trailing
    text, and [o] is what [obs] reads off the match. *)
Definition token_ok (r : Regex.regex) (starts : ascii -> bool) (X : Type)
    (obs : Regex.MState -> X) (it : string * string) (o : X) : Prop :=
  Js.all (fun c => negb (starts c)) (snd it) = true
  /\ forall pre rest1,
       exists m,
         Regex.match_at r (pre ++ fst it ++ snd it ++ rest1) (String.length pre)
         = Some m
         /\ Regex.pos m = String.length pre + String.length (fst it)
         /\ obs m = o.

Definition not_open_bracket (c : ascii) : bool := negb (Ascii.eqb c "[").

(** [deprecated.js] as it is spelled: quoted names, each followed by a
    text without a quote. *)
Definition deprecated_text (lead : string) (items : list (string * string))
  : string :=
  tokens_text lead (map (fun it => (Samples.quoted (fst it), snd it)) items).

(** An entry of [flavor.js]: the quoted name in brackets, a colon and the
    bitmask. *)
Definition flavor_entry_text (e : string * string) : string :=
  ("[" ++ Samples.quoted (fst e) ++ "]: " ++ snd e)%string.

(** [flavor.js] as it is spelled: entries, each followed by a text that is
    none. *)
Definition flavor_text (lead : string) (items : list ((string * string) * string))
  : string :=
  tokens_text lead (map (fun it => (flavor_entry_text (fst it), snd it)) items).

(** A bitmask as [flavor.js] spells it: hexadecimal with the prefix [0x],
    or decimal. *)
Definition bitmask_text (value : string) : Prop :=
  (exists h, value = ("0x" ++ h)%string /\ h <> ""%string
             /\ Js.all Js.is_hex h = true)
  \/ (value <> ""%string /\ Js.all Js.is_digit value = true).

(** A text after a bitmask: it is not empty, holds no opening bracket and
    does not go on with a digit or with the [x] of a prefix. *)
Definition after_bitmask (junk : string) : Prop :=
  Js.all not_open_bracket junk = true
  /\ match junk with
     | String c _ => Js.is_hex c = false /\ Ascii.eqb c "x" = false
     | EmptyString => False
     end.

(** The assignments [flavorMap[name] = decodeFlavorBitmask(parseInt(value))]
    in the order of the entries. *)
Definition flavor_table (entries : list (string * string))
  : JsObject.t (list string) :=
  fold_left (fun o e => JsObject.set o (fst e)
                          (TsData.decodeFlavorBitmask (TsData.parseInt (snd e))))
            entries JsObject.empty.

Definition is_sentinel (name : string) : bool :=
  String.eqb name "__esModule" || String.eqb name "use strict".

Module TsSamples.

Definition deprecated_items : list (string * string) :=
  [("use strict", String ";" (String Js.LF "exports.data = ["));
   ("UnitName", ", ");
   ("GetSpellInfo", "];")].

Definition flavor_items : list ((string * string) * string) :=
  [(("UnitName", "0x7"), ", ");
   (("GetSpellInfo", "4"), " };")].

End TsSamples.

(** * Properties *)

(** ** The version bitmask *)

Section Bitmask.
Local Open Scope Z_scope.

Lemma toInt32_low_bits (z : Z) (n : Z) :
  0 <= n < 32 -> Z.testbit (Js.toInt32 z) n = Z.testbit z n.
Proof.
  intros Hn. cbn [Js.toInt32].
  rewrite <- (Z.mod_pow2_bits_low _ 32 n) by lia.
  rewrite <- (Z.mod_pow2_bits_low z 32 n) by lia.
  f_equal.
  rewrite Zminus_mod_idemp_l.
  f_equal. lia.
Qed.

Lemma land_pow2_zero (x n : Z) :
  0 <= n -> (Z.land x (2 ^ n) =? 0) = negb (Z.testbit x n).
Proof.
  intros Hn.
  destruct (Z.testbit x n) eqn:Hb; simpl.
  - apply Z.eqb_neq. intros H0.
    assert (Hc : Z.testbit (Z.land x (2 ^ n)) n = true).
    { rewrite Z.land_spec, Hb, Z.pow2_bits_true by lia. reflexivity. }
    rewrite H0, Z.bits_0 in Hc. discriminate.
  - apply Z.eqb_eq. apply Z.bits_inj'. intros m Hm.
    rewrite Z.land_spec, Z.bits_0, Z.pow2_bits_eqb by lia.
    destruct (Z.eqb_spec n m) as [->|]; [rewrite Hb|]; auto using andb_false_r.
Qed.

Lemma bitand_bit (z n : Z) :
  0 <= n < 31 -> (Js.bitand z (2 ^ n) =? 0) = negb (Z.testbit z n).
Proof.
  intros Hn. unfold Js.bitand.
  assert (Hs : Js.toInt32 (2 ^ n) = 2 ^ n).
  { cbn [Js.toInt32].
    assert (0 < 2 ^ n < 2 ^ 31) by (split; [lia | apply Z.pow_lt_mono_r; lia]).
    rewrite Z.mod_small; lia. }
  rewrite Hs, land_pow2_zero, toInt32_low_bits by lia. reflexivity.
Qed.

(** The tags are decided by the three low bits alone. *)
Lemma decode_by_bits (b : Z) :
  TsData.decodeFlavorBitmask b =
  (if Z.testbit b 0 then ["Mainline"%string] else []) ++
  (if Z.testbit b 1 then ["Vanilla"%string] else []) ++
  (if Z.testbit b 2 then ["Mists"%string] else []).
Proof.
  unfold TsData.decodeFlavorBitmask.
  pose proof (bitand_bit b 0) as H0; pose proof (bitand_bit b 1) as H1;
    pose proof (bitand_bit b 2) as H2.
  change (2 ^ 0) with 1 in H0; change (2 ^ 1) with 2 in H1; change (2 ^ 2) with 4 in H2.
  rewrite H0, H1, H2 by lia.
  destruct (Z.testbit b 0), (Z.testbit b 1), (Z.testbit b 2); reflexivity.
Qed.

(** C7. The bitmask 0x5 decodes to exactly the bit-0 and the bit-2 tags,
    Mainline and Mists; 0x0 decodes to no tag; and for every integer the
    bits above bit 2 contribute nothing: the decoded list is that of the
    three low bits, and flipping bit 3 + k, for any k, leaves it unchanged. *)
Theorem decodeFlavorBitmask_bits :
  TsData.decodeFlavorBitmask 5 = ["Mainline"%string; "Mists"%string]
  /\ TsData.decodeFlavorBitmask 0 = []
  /\ (forall b : Z,
        TsData.decodeFlavorBitmask b = TsData.decodeFlavorBitmask (Z.land b 7))
  /\ (forall (b : Z) (k : N),
        TsData.decodeFlavorBitmask (Z.lxor b (2 ^ (3 + Z.of_N k)))
        = TsData.decodeFlavorBitmask b).
Proof.
  split; [reflexivity | split; [reflexivity | split]].
  - intros b. rewrite !decode_by_bits.
    change 7 with (Z.ones 3).
    rewrite !Z.land_spec, !Z.ones_spec_low by lia.
    rewrite !andb_true_r. reflexivity.
  - intros b k. rewrite !decode_by_bits.
    rewrite !Z.lxor_spec, !Z.pow2_bits_false by lia.
    rewrite !xorb_false_r. reflexivity.
Qed.

End Bitmask.

(** ** Maps *)

Section MapFacts.
Context {V : Type}.
Implicit Types (m : JsMap.t V) (k : string) (v : V).

Lemma get_set_same m k v : JsMap.get (JsMap.set m k v) k = Some v.
Proof.
  induction m as [|[k' v'] m IH]; simpl.
  - now rewrite String.eqb_refl.
  - destruct (String.eqb_spec k' k); simpl.
    + now rewrite String.eqb_refl.
    + destruct (String.eqb_spec k' k); [contradiction | exact IH].
Qed.

Lemma get_set_other m k v k0 :
  k <> k0 -> JsMap.get (JsMap.set m k v) k0 = JsMap.get m k0.
Proof.
  intros Hne. induction m as [|[k' v'] m IH]; simpl.
  - destruct (String.eqb_spec k k0); [contradiction | reflexivity].
  - destruct (String.eqb_spec k' k) as [->|Hk]; simpl.
    + destruct (String.eqb_spec k k0); [contradiction | reflexivity].
    + destruct (String.eqb_spec k' k0); [reflexivity | exact IH].
Qed.

Lemma in_set m k v e :
  In e (JsMap.set m k v) -> e = (k, v) \/ In e m.
Proof.
  induction m as [|[k' v'] m IH]; simpl.
  - intros [<-|[]]; auto.
  - destruct (String.eqb_spec k' k); simpl.
    + intros [<-|H]; auto.
    + intros [<-|H]; auto. destruct (IH H); auto.
Qed.

Lemma Forall_set (P : string * V -> Prop) m k v :
  Forall P m -> P (k, v) -> Forall P (JsMap.set m k v).
Proof.
  intros Hm Hkv. apply Forall_forall. intros e He.
  destruct (in_set _ _ _ _ He) as [->|Hin]; [exact Hkv|].
  rewrite Forall_forall in Hm. auto.
Qed.

Lemma get_in m k v : JsMap.get m k = Some v -> In (k, v) m.
Proof.
  induction m as [|[k' v'] m IH]; simpl; [discriminate|].
  destruct (String.eqb_spec k' k) as [->|]; intros H.
  - injection H as ->. now left.
  - right. auto.
Qed.

Lemma in_keys_get m k : In k (JsMap.keys m) -> exists v, JsMap.get m k = Some v.
Proof.
  induction m as [|[k' v'] m IH]; simpl; [intros []|].
  intros [->|H].
  - rewrite String.eqb_refl. eauto.
  - destruct (String.eqb_spec k' k); eauto.
Qed.

Lemma has_get m k : JsMap.has m k = true -> exists v, JsMap.get m k = Some v.
Proof.
  unfold JsMap.has. destruct (JsMap.get m k); [eauto | discriminate].
Qed.

Lemma has_set_same m k v : JsMap.has (JsMap.set m k v) k = true.
Proof. unfold JsMap.has. now rewrite get_set_same. Qed.

Lemma keys_set_present m k v :
  JsMap.has m k = true -> JsMap.keys (JsMap.set m k v) = JsMap.keys m.
Proof.
  unfold JsMap.has, JsMap.keys.
  induction m as [|[k' v'] m IH]; simpl; [discriminate|].
  destruct (String.eqb_spec k' k) as [->|]; simpl; [reflexivity|].
  intros H. now rewrite IH.
Qed.

Lemma keys_set_absent m k v :
  JsMap.has m k = false -> JsMap.keys (JsMap.set m k v) = JsMap.keys m ++ [k].
Proof.
  unfold JsMap.has, JsMap.keys.
  induction m as [|[k' v'] m IH]; simpl; [reflexivity|].
  destruct (String.eqb_spec k' k) as [->|]; simpl; [discriminate|].
  intros H. now rewrite IH.
Qed.

Lemma find_in (p : string * V -> bool) m e : find p m = Some e -> In e m.
Proof. intros H. now apply find_some in H. Qed.

End MapFacts.

Lemma fold_left_invariant {A B : Type} (P : A -> Prop) (f : A -> B -> A)
      (l : list B) (a : A) :
  (forall a b, P a -> P (f a b)) -> P a -> P (fold_left f l a).
Proof.
  intros Hstep. revert a. induction l as [|b l IH]; simpl; auto.
Qed.

Lemma fold_left_invariant_in {A B : Type} (P : A -> Prop) (f : A -> B -> A)
      (l : list B) (a : A) :
  (forall a b, In b l -> P a -> P (f a b)) -> P a -> P (fold_left f l a).
Proof.
  revert a. induction l as [|b l IH]; simpl; intros a Hstep Ha; [assumption|].
  apply IH; [intros; apply Hstep; auto | apply Hstep; auto].
Qed.


(** ** The heap and the well-formedness of the tables *)

Lemma heap_extends_refl h : heap_extends h h.
Proof. intros r f H. eauto. Qed.

Lemma heap_extends_trans h1 h2 h3 :
  heap_extends h1 h2 -> heap_extends h2 h3 -> heap_extends h1 h3.
Proof.
  intros H12 H23 r f Hr.
  destruct (H12 _ _ Hr) as (f2 & Hr2 & E2).
  destruct (H23 _ _ Hr2) as (f3 & Hr3 & E3).
  exists f3. split; [assumption | congruence].
Qed.

Lemma heap_extends_app h x : heap_extends h (h ++ [x]).
Proof.
  intros r f Hr. exists f. split; [|reflexivity].
  rewrite nth_error_app1; [assumption|].
  apply nth_error_Some. congruence.
Qed.

Lemma nth_error_replace_same {A} (l : list A) n a :
  n < List.length l -> nth_error (replace_nth n l a) n = Some a.
Proof.
  revert n; induction l as [|x l IH]; intros [|n] Hn; simpl in *; try lia; auto.
  apply IH. lia.
Qed.

Lemma nth_error_replace_other {A} (l : list A) n m a :
  n <> m -> nth_error (replace_nth n l a) m = nth_error l m.
Proof.
  revert n m; induction l as [|x l IH]; intros [|n] [|m] Hne; simpl; auto.
  congruence.
Qed.

Lemma heap_extends_replace h r f g :
  nth_error h r = Some f -> heap_extends h (replace_nth r h (with_gameVersions f g)).
Proof.
  intros Hr r0 f0 Hr0.
  destruct (Nat.eq_dec r r0) as [<-|Hne].
  - rewrite nth_error_replace_same by (apply nth_error_Some; congruence).
    eexists; split; [reflexivity|].
    assert (f0 = f) by congruence. subst f0. reflexivity.
  - rewrite nth_error_replace_other by assumption. eauto.
Qed.

Lemma frozen_fullName f f' : frozen f' = frozen f -> fullName f' = fullName f.
Proof. intros E. apply (f_equal fullName) in E. exact E. Qed.

Lemma frozen_name f f' : frozen f' = frozen f -> name f' = name f.
Proof. intros E. apply (f_equal name) in E. exact E. Qed.




Lemma designates_extends h h' P r :
  heap_extends h h' -> designates h P r -> designates h' P r.
Proof.
  intros Hext (f & Hr & HP).
  destruct (Hext _ _ Hr) as (f' & Hr' & E).
  exists f'. split; [assumption | now rewrite E].
Qed.

Lemma designates_new h x (P : FunctionRecord -> Prop) :
  P (frozen x) -> designates (h ++ [x]) P (List.length h).
Proof.
  intros HP. exists x. split; [|assumption].
  rewrite nth_error_app2, Nat.sub_diag by lia. reflexivity.
Qed.

(** Growing or enriching the heap keeps the three tables well formed. *)
Lemma functions_ok_extends h h' (m : JsMap.t ref) :
  heap_extends h h' ->
  Forall (fun e => designates h (fun f => fullName f = fst e) (snd e)) m ->
  Forall (fun e => designates h' (fun f => fullName f = fst e) (snd e)) m.
Proof.
  intros Hext. apply Forall_impl. intros e. now apply designates_extends.
Qed.

Lemma namespaces_ok_extends h h' (m : JsMap.t (list ref)) :
  heap_extends h h' ->
  Forall (fun e => Forall (designates h
            (fun f => isMethod f = false /\ namespace f = Some (fst e))) (snd e)) m ->
  Forall (fun e => Forall (designates h'
            (fun f => isMethod f = false /\ namespace f = Some (fst e))) (snd e)) m.
Proof.
  intros Hext. apply Forall_impl. intros e. apply Forall_impl.
  intros r. now apply designates_extends.
Qed.

Lemma widgets_ok_extends h h' (m : JsMap.t Widget) :
  heap_extends h h' ->
  Forall (fun e => Forall (designates h
            (fun f => isMethod f = true /\ namespace f = Some (fst e)))
            (methods (snd e))) m ->
  Forall (fun e => Forall (designates h'
            (fun f => isMethod f = true /\ namespace f = Some (fst e)))
            (methods (snd e))) m.
Proof.
  intros Hext. apply Forall_impl. intros e. apply Forall_impl.
  intros r. now apply designates_extends.
Qed.

Lemma well_formed_new : well_formed newDataStore.
Proof. repeat split; constructor. Qed.

Lemma push_namespace_ok h (m : JsMap.t (list ref)) ns r :
  Forall (fun e => Forall (designates h
            (fun f => isMethod f = false /\ namespace f = Some (fst e))) (snd e)) m ->
  designates h (fun f => isMethod f = false /\ namespace f = Some ns) r ->
  Forall (fun e => Forall (designates h
            (fun f => isMethod f = false /\ namespace f = Some (fst e))) (snd e))
         (push_namespace m ns r).
Proof.
  intros Hm Hr. unfold push_namespace.
  set (m1 := if JsMap.has m ns then m else JsMap.set m ns []).
  assert (Hm1 : Forall (fun e => Forall (designates h
            (fun f => isMethod f = false /\ namespace f = Some (fst e))) (snd e)) m1).
  { subst m1. destruct (JsMap.has m ns); [assumption|].
    apply Forall_set; [assumption | constructor]. }
  destruct (JsMap.get m1 ns) as [funcs|] eqn:Hget; [|assumption].
  apply Forall_set; [assumption|]. simpl.
  apply Forall_app. split; [|now constructor].
  apply get_in in Hget. rewrite Forall_forall in Hm1. exact (Hm1 _ Hget).
Qed.

Lemma push_method_ok h (m : JsMap.t Widget) owner r :
  Forall (fun e => Forall (designates h
            (fun f => isMethod f = true /\ namespace f = Some (fst e)))
            (methods (snd e))) m ->
  designates h (fun f => isMethod f = true /\ namespace f = Some owner) r ->
  Forall (fun e => Forall (designates h
            (fun f => isMethod f = true /\ namespace f = Some (fst e)))
            (methods (snd e)))
         (push_method m owner r).
Proof.
  intros Hm Hr. unfold push_method.
  set (m1 := if JsMap.has m owner then m else JsMap.set m owner (mkWidget None [])).
  assert (Hm1 : Forall (fun e => Forall (designates h
            (fun f => isMethod f = true /\ namespace f = Some (fst e)))
            (methods (snd e))) m1).
  { subst m1. destruct (JsMap.has m owner); [assumption|].
    apply Forall_set; [assumption | constructor]. }
  destruct (JsMap.get m1 owner) as [wd|] eqn:Hget; [|assumption].
  apply Forall_set; [assumption|]. simpl.
  apply Forall_app. split; [|now constructor].
  apply get_in in Hget. rewrite Forall_forall in Hm1. exact (Hm1 _ Hget).
Qed.

Lemma stamped_frozen func src :
  frozen (stamped func src) = frozen (with_source func src).
Proof. unfold stamped. destruct (versions_truthy (gameVersions (with_source func src))); reflexivity. Qed.

Lemma stamped_fullName func src : fullName (stamped func src) = fullName func.
Proof. unfold stamped. destruct (versions_truthy (gameVersions (with_source func src))); reflexivity. Qed.

Lemma stamped_namespace func src : namespace (stamped func src) = namespace func.
Proof. unfold stamped. destruct (versions_truthy (gameVersions (with_source func src))); reflexivity. Qed.

Lemma stamped_isMethod func src : isMethod (stamped func src) = isMethod func.
Proof. unfold stamped. destruct (versions_truthy (gameVersions (with_source func src))); reflexivity. Qed.

Lemma apply_flavor_extends ap fm h e : heap_extends h (apply_flavor ap fm h e).
Proof.
  destruct e as [key r]. unfold apply_flavor.
  destruct (nth_error h r) as [func|] eqn:Hr; [|apply heap_extends_refl].
  destruct (flavor_lookup ap fm (Js.or_else (name func) key));
    [now apply heap_extends_replace|].
  destruct (flavor_lookup ap fm key);
    [now apply heap_extends_replace | apply heap_extends_refl].
Qed.

Lemma fold_apply_flavor_extends ap fm m h :
  heap_extends h (fold_left (apply_flavor ap fm) m h).
Proof.
  revert h. induction m as [|e m IH]; intros h; simpl.
  - apply heap_extends_refl.
  - eapply heap_extends_trans; [apply apply_flavor_extends | apply IH].
Qed.

Lemma apply_flavors_extends ap s :
  heap_extends (heap s) (heap (apply_flavors ap s)).
Proof. apply fold_apply_flavor_extends. Qed.

(** *** An induction principle for [load]

    A property of the store that every elementary step of the passes
    keeps is kept by [load]. *)

Section LoadInduction.

Variable P : DataStore -> Prop.

Hypothesis P_indexFunction :
  forall func src s, P s -> P (_indexFunction func src s).
Hypothesis P_indexClass : forall cls s, P s -> P (_indexClass cls s).
Hypothesis P_widget_func : forall s func, P s -> P (widget_func s func).
Hypothesis P_heap :
  forall s h, heap_extends (heap s) h -> P s -> P (set_heap s h).
Hypothesis P_side_tables :
  forall s en ev cv dl fm ver,
    P s -> P (mkStore (heap s) (functions s) (namespaces s) (widgets s)
                      en ev cv dl fm ver).

Lemma index_all_keeps src funcs s : P s -> P (index_all src funcs s).
Proof. apply fold_left_invariant. intros; now apply P_indexFunction. Qed.

Lemma index_classes_keeps classes s : P s -> P (index_classes classes s).
Proof. apply fold_left_invariant. intros; now apply P_indexClass. Qed.

Lemma wiki_func_keeps s func : P s -> P (wiki_func s func).
Proof.
  intros Hs. unfold wiki_func.
  match goal with |- context [if negb ?b then _ else _] => destruct b end; simpl;
    [assumption | now apply P_indexFunction].
Qed.

Lemma framexml_func_keeps s func : P s -> P (framexml_func s func).
Proof.
  intros Hs. unfold framexml_func.
  destruct (JsMap.has (functions s) (fullName func)); simpl;
    [assumption | now apply P_indexFunction].
Qed.

Lemma blizzard_file_keeps s file : P s -> P (blizzard_file s file).
Proof.
  intros Hs. unfold blizzard_file.
  apply index_classes_keeps. now apply index_all_keeps.
Qed.

Lemma deprecated_file_keeps s file : P s -> P (deprecated_file s file).
Proof.
  intros Hs. unfold deprecated_file.
  apply fold_left_invariant; [|assumption].
  intros; unfold deprecated_func; now apply P_indexFunction.
Qed.

Lemma wiki_pass_keeps text s : P s -> P (wiki_pass text s).
Proof.
  intros Hs. unfold wiki_pass. apply fold_left_invariant; [|assumption].
  intros; now apply wiki_func_keeps.
Qed.

Lemma widget_file_keeps s file : P s -> P (widget_file s file).
Proof.
  intros Hs. unfold widget_file.
  apply fold_left_invariant; [intros; now apply P_widget_func|].
  now apply index_classes_keeps.
Qed.

Lemma framexml_file_keeps s file : P s -> P (framexml_file s file).
Proof.
  intros Hs. unfold framexml_file.
  apply fold_left_invariant; [intros; now apply framexml_func_keeps|].
  now apply index_classes_keeps.
Qed.

Lemma load_passes_keeps c s : P s -> P (load_passes c s).
Proof.
  intros Hs. unfold load_passes.
  apply fold_left_invariant; [intros; now apply framexml_file_keeps|].
  apply fold_left_invariant; [intros; now apply widget_file_keeps|].
  assert (H4 : forall s4, P s4 ->
                 P (match wikiLua c with
                    | Some text => wiki_pass text s4
                    | None => s4 end)).
  { intros s4 H. destruct (wikiLua c); [now apply wiki_pass_keeps | assumption]. }
  apply H4.
  apply fold_left_invariant; [intros; now apply deprecated_file_keeps|].
  apply fold_left_invariant; [intros; now apply blizzard_file_keeps|].
  assumption.
Qed.

Lemma load_corpus_keeps c s : P s -> P (load_corpus c s).
Proof.
  intros Hs. unfold load_corpus.
  apply P_heap; [apply fold_apply_flavor_extends|].
  apply P_side_tables. apply load_passes_keeps. now apply P_side_tables.
Qed.

End LoadInduction.

(** *** The three tables stay well formed *)

Lemma functions_ok_indexFunction func src s :
  functions_ok s -> functions_ok (_indexFunction func src s).
Proof.
  intros Hf. unfold functions_ok, _indexFunction; simpl.
  apply Forall_set.
  - apply (functions_ok_extends (heap s)); [apply heap_extends_app | exact Hf].
  - apply designates_new. rewrite stamped_frozen. simpl.
    now rewrite stamped_fullName.
Qed.

Lemma namespaces_ok_indexFunction func src s :
  namespaces_ok s -> namespaces_ok (_indexFunction func src s).
Proof.
  intros Hn. unfold namespaces_ok, _indexFunction; simpl.
  pose proof (namespaces_ok_extends _ _ _
                (heap_extends_app (heap s) (stamped func src)) Hn) as Hn'.
  rewrite stamped_namespace, stamped_isMethod.
  destruct (Js.truthy (namespace func) && negb (isMethod func)) eqn:Hc;
    [|assumption].
  destruct (namespace func) as [ns|] eqn:Hns; [|assumption].
  apply push_namespace_ok; [assumption|].
  apply designates_new. rewrite stamped_frozen. simpl.
  apply andb_prop in Hc. destruct Hc as [_ Hm].
  apply negb_true_iff in Hm. auto.
Qed.

Lemma widgets_ok_indexFunction func src s :
  widgets_ok s -> widgets_ok (_indexFunction func src s).
Proof.
  intros Hw. unfold widgets_ok, _indexFunction; simpl.
  apply (widgets_ok_extends (heap s)); [apply heap_extends_app | exact Hw].
Qed.

Lemma widgets_ok_indexClass cls s : widgets_ok s -> widgets_ok (_indexClass cls s).
Proof.
  intros Hw. unfold _indexClass.
  destruct (JsMap.get (widgets s) (class_name cls)) as [w|] eqn:Hget;
    unfold widgets_ok; simpl; (apply Forall_set; [assumption|]); simpl.
  - apply get_in in Hget. unfold widgets_ok in Hw.
    rewrite Forall_forall in Hw. exact (Hw _ Hget).
  - constructor.
Qed.

Lemma indexClass_tables cls s :
  heap (_indexClass cls s) = heap s
  /\ functions (_indexClass cls s) = functions s
  /\ namespaces (_indexClass cls s) = namespaces s.
Proof.
  unfold _indexClass.
  destruct (JsMap.get (widgets s) (class_name cls)); repeat split.
Qed.

Lemma widget_func_tables s func :
  heap (widget_func s func) = heap (_indexFunction func widget s)
  /\ functions (widget_func s func) = functions (_indexFunction func widget s)
  /\ namespaces (widget_func s func) = namespaces (_indexFunction func widget s).
Proof.
  unfold widget_func.
  destruct (isMethod func && Js.truthy (namespace func)); [|repeat split].
  destruct (namespace func); repeat split.
Qed.

Lemma widgets_ok_widget_func s func : widgets_ok s -> widgets_ok (widget_func s func).
Proof.
  intros Hs. unfold widget_func.
  pose proof (widgets_ok_indexFunction func widget s Hs) as Hw.
  destruct (isMethod func && Js.truthy (namespace func)) eqn:Hc; [|assumption].
  destruct (namespace func) as [owner|] eqn:Hns; [|assumption].
  unfold widgets_ok; simpl. apply push_method_ok; [exact Hw|].
  apply designates_new. rewrite stamped_frozen. simpl.
  apply andb_prop in Hc. destruct Hc as [Hm _]. auto.
Qed.

Lemma functions_ok_load_corpus c s : functions_ok s -> functions_ok (load_corpus c s).
Proof.
  apply load_corpus_keeps.
  - intros; now apply functions_ok_indexFunction.
  - intros cls s0 H. unfold functions_ok in *.
    destruct (indexClass_tables cls s0) as (-> & -> & _). exact H.
  - intros s0 func H. unfold functions_ok.
    destruct (widget_func_tables s0 func) as (-> & -> & _).
    now apply functions_ok_indexFunction.
  - intros s0 h Hext H. now apply (functions_ok_extends (heap s0)).
  - intros; assumption.
Qed.

Lemma namespaces_ok_load_corpus c s :
  namespaces_ok s -> namespaces_ok (load_corpus c s).
Proof.
  apply load_corpus_keeps.
  - intros; now apply namespaces_ok_indexFunction.
  - intros cls s0 H. unfold namespaces_ok in *.
    destruct (indexClass_tables cls s0) as (-> & _ & ->). exact H.
  - intros s0 func H. unfold namespaces_ok.
    destruct (widget_func_tables s0 func) as (-> & _ & ->).
    now apply namespaces_ok_indexFunction.
  - intros s0 h Hext H. now apply (namespaces_ok_extends (heap s0)).
  - intros; assumption.
Qed.

Lemma widgets_ok_load_corpus c s : widgets_ok s -> widgets_ok (load_corpus c s).
Proof.
  apply load_corpus_keeps.
  - intros; now apply widgets_ok_indexFunction.
  - intros; now apply widgets_ok_indexClass.
  - intros; now apply widgets_ok_widget_func.
  - intros s0 h Hext H. now apply (widgets_ok_extends (heap s0)).
  - intros; assumption.
Qed.

(** [load] keeps the tables well formed. *)
Lemma well_formed_load_corpus c s : well_formed s -> well_formed (load_corpus c s).
Proof.
  intros (Hf & Hn & Hw).
  split; [|split];
    auto using functions_ok_load_corpus, namespaces_ok_load_corpus,
               widgets_ok_load_corpus.
Qed.

Lemma well_formed_loaded c s :
  load (Some c) newDataStore = Ok s -> well_formed s.
Proof.
  intros H. injection H as <-. apply well_formed_load_corpus, well_formed_new.
Qed.

(** ** The query engine on a well-formed store *)

Lemma mapM_ok {A B : Type} (f : A -> Result B) (Q : B -> Prop) (l : list A) :
  Forall (fun a => exists b, f a = Ok b /\ Q b) l ->
  exists bs, mapM f l = Ok bs /\ Forall Q bs /\ List.length bs = List.length l.
Proof.
  induction 1 as [|a l (b & Hb & HQ) _ (bs & Hbs & HQs & Hlen)]; simpl.
  - exists []. repeat split. constructor.
  - exists (b :: bs). rewrite Hb; simpl. rewrite Hbs; simpl.
    repeat split; [now constructor | now rewrite Hlen].
Qed.

Lemma deref_designates s P r :
  designates (heap s) P r -> exists f, deref s r = Ok f /\ P (frozen f).
Proof. intros (f & Hr & HP). exists f. unfold deref. now rewrite Hr. Qed.

Lemma function_entries_ok s :
  functions_ok s ->
  exists entries,
    function_entries s = Ok entries
    /\ Forall (fun e => fullName (snd e) = fst e) entries
    /\ List.length entries = List.length (functions s).
Proof.
  intros Hf. unfold function_entries. apply mapM_ok.
  unfold functions_ok in Hf. revert Hf. apply Forall_impl.
  intros [k r] Hd. simpl in *.
  destruct (deref_designates _ _ _ Hd) as (f & Hf & HP).
  exists (k, f). rewrite Hf. simpl. auto.
Qed.

Lemma lookup_key_ok s k r :
  functions_ok s -> In (k, r) (functions s) ->
  exists func, deref s r = Ok func /\ fullName func = k.
Proof.
  intros Hf Hin. unfold functions_ok in Hf. rewrite Forall_forall in Hf.
  destruct (deref_designates _ _ _ (Hf _ Hin)) as (f & Hd & HP). eauto.
Qed.

Lemma deref_all_ok s (P : FunctionRecord -> Prop) refs :
  Forall (designates (heap s) P) refs ->
  exists l, mapM (deref s) refs = Ok l /\ Forall (fun f => P (frozen f)) l.
Proof.
  intros H.
  destruct (mapM_ok (deref s) (fun f => P (frozen f)) refs) as (l & Hl & HQ & _).
  - revert H. apply Forall_impl. intros r. apply deref_designates.
  - eauto.
Qed.

Lemma filterM_ok {A : Type} (f : A -> Result bool) (l : list A) :
  (forall a, exists b, f a = Ok b) -> exists r, filterM f l = Ok r.
Proof.
  intros Hf. induction l as [|a l (r & Hr)]; simpl; [eauto|].
  destruct (Hf a) as (b & ->). simpl. rewrite Hr. simpl. eauto.
Qed.

Section QueryFacts.

Variable toLowerCase : string -> string.
Variable toUpperCase : string -> string.

Lemma lookupApi_ok s q :
  functions_ok s ->
  exists l, lookupApi toLowerCase s q = Ok l /\ List.length l <= 25.
Proof.
  intros Hf. unfold lookupApi.
  destruct (JsMap.get (functions s) q) as [r|] eqn:Hget.
  - apply get_in in Hget.
    destruct (lookup_key_ok _ _ _ Hf Hget) as (func & -> & _).
    simpl. exists [func]. split; [reflexivity | simpl; lia].
  - destruct (find _ (functions s)) as [[k r]|] eqn:Hfind.
    + apply find_in in Hfind.
      destruct (lookup_key_ok _ _ _ Hf Hfind) as (func & -> & _).
      simpl. exists [func]. split; [reflexivity | simpl; lia].
    + destruct (function_entries_ok s Hf) as (entries & -> & _). unfold bind.
      eexists. split; [reflexivity | apply firstn_le_length].
Qed.

Lemma searchApi_ok s q :
  functions_ok s ->
  exists l, searchApi toLowerCase s q = Ok l /\ List.length l <= 50.
Proof.
  intros Hf. unfold searchApi.
  destruct (function_entries_ok s Hf) as (entries & -> & _). unfold bind.
  eexists. split; [reflexivity | apply firstn_le_length].
Qed.

(** The guards of [listDeprecated] keep [toLowerCase] away from [null]. *)
Lemma deprecated_kept_ok flt func :
  exists b, deprecated_kept toLowerCase flt func = Ok b.
Proof.
  unfold deprecated_kept.
  destruct (deprecated func); simpl; [|eauto].
  destruct flt as [flt|]; simpl; [|eauto].
  destruct (String.eqb flt ""); simpl; [eauto|].
  destruct (namespace func) as [ns|]; simpl.
  - destruct (String.eqb ns ""); simpl.
    + eauto.
    + destruct (Js.includes (toLowerCase ns) (toLowerCase flt)); simpl; eauto.
  - eauto.
Qed.

Lemma listDeprecated_ok s flt :
  functions_ok s -> exists l, listDeprecated toLowerCase s flt = Ok l.
Proof.
  intros Hf. unfold listDeprecated.
  destruct (function_entries_ok s Hf) as (entries & -> & _). simpl.
  apply filterM_ok. apply deprecated_kept_ok.
Qed.

Lemma getNamespace_ok s q :
  namespaces_ok s ->
  exists l, getNamespace toLowerCase s q = Ok l
            /\ Forall (fun f => isMethod f = false
                                /\ exists K, In K (JsMap.keys (namespaces s))
                                             /\ namespace f = Some K) l.
Proof.
  intros Hn. unfold namespaces_ok in Hn. rewrite Forall_forall in Hn.
  assert (Hkey : forall K refs, In (K, refs) (namespaces s) ->
            exists l, mapM (deref s) refs = Ok l
                      /\ Forall (fun f => isMethod f = false
                                /\ exists K, In K (JsMap.keys (namespaces s))
                                             /\ namespace f = Some K) l).
  { intros K refs Hin.
    destruct (deref_all_ok s _ refs (Hn _ Hin)) as (l & Hl & HP).
    exists l. split; [assumption|].
    revert HP. apply Forall_impl. simpl. intros f [Hm Hns].
    split; [exact Hm|]. exists K. split; [|exact Hns].
    unfold JsMap.keys. apply (in_map fst) in Hin. exact Hin. }
  unfold getNamespace.
  destruct (JsMap.get (namespaces s) q) as [refs|] eqn:Hget.
  - apply get_in in Hget. eauto.
  - destruct (find _ (namespaces s)) as [[K refs]|] eqn:Hfind.
    + apply find_in in Hfind. eauto.
    + exists []. split; [reflexivity | constructor].
Qed.

Lemma getWidgetMethods_ok s q :
  widgets_ok s -> exists w, getWidgetMethods toLowerCase s q = Ok w.
Proof.
  intros Hw. unfold widgets_ok in Hw. rewrite Forall_forall in Hw.
  assert (Hkey : forall K w, In (K, w) (widgets s) ->
                             exists x, read_widget s w = Ok x).
  { intros K w Hin. unfold read_widget.
    destruct (deref_all_ok s _ _ (Hw _ Hin)) as (l & Hl & _).
    simpl in Hl. rewrite Hl. simpl. eauto. }
  unfold getWidgetMethods.
  destruct (JsMap.get (widgets s) q) as [w|] eqn:Hget.
  - apply get_in in Hget. eauto.
  - destruct (find _ (widgets s)) as [[K w]|] eqn:Hfind.
    + apply find_in in Hfind. eauto.
    + eauto.
Qed.

Lemma getStats_ok s : functions_ok s -> exists st, getStats s = Ok st.
Proof.
  intros Hf. unfold getStats.
  destruct (function_entries_ok s Hf) as (entries & -> & _). simpl. eauto.
Qed.

End QueryFacts.

(** ** Lookup by exact name *)

(** C1. After load, looking up a qualified name that is a key of the
    function index returns exactly one record, the one filed under that
    key, and its qualified name is the name looked up; this is the exact
    step, taken whatever the case conversion makes of the other keys. *)
Theorem lookupApi_exact_key (toLowerCase : string -> string)
        (c : Corpus) (s : DataStore) (k : string) :
  load (Some c) newDataStore = Ok s ->
  In k (JsMap.keys (functions s)) ->
  exists r func,
    JsMap.get (functions s) k = Some r
    /\ deref s r = Ok func
    /\ lookupApi toLowerCase s k = Ok [func]
    /\ fullName func = k.
Proof.
  intros Hload Hk.
  destruct (well_formed_loaded _ _ Hload) as (Hf & _).
  destruct (in_keys_get _ _ Hk) as (r & Hget).
  destruct (lookup_key_ok _ _ _ Hf (get_in _ _ _ Hget)) as (func & Hd & Hname).
  exists r, func. unfold lookupApi. rewrite Hget, Hd. auto.
Qed.

Lemma lookupApi_exact_key_witness :
  exists r func,
    JsMap.get (functions Samples.store) "C_SpellBook.IsSpellKnown" = Some r
    /\ deref Samples.store r = Ok func
    /\ lookupApi Js.ascii_toLowerCase Samples.store "C_SpellBook.IsSpellKnown"
       = Ok [func]
    /\ fullName func = "C_SpellBook.IsSpellKnown"%string.
Proof.
  apply (lookupApi_exact_key Js.ascii_toLowerCase Samples.corpus).
  - reflexivity.
  - vm_compute. left. reflexivity.
Defined.

(** ** Result caps *)

(** C4. After load, for every query string [searchApi] returns at most 50
    records and [lookupApi] at most 25; in particular on the partial-match
    path, where the result is the first 25 of the matching entries. *)
Theorem result_caps (toLowerCase : string -> string)
        (c : Corpus) (s : DataStore) (q : string) :
  load (Some c) newDataStore = Ok s ->
  (exists l, searchApi toLowerCase s q = Ok l /\ List.length l <= 50)
  /\ (exists l, lookupApi toLowerCase s q = Ok l /\ List.length l <= 25)
  /\ (JsMap.get (functions s) q = None ->
      find (fun e => String.eqb (toLowerCase (fst e)) (toLowerCase q))
           (functions s) = None ->
      exists entries,
        function_entries s = Ok entries
        /\ lookupApi toLowerCase s q
           = Ok (firstn 25 (map snd (filter (lookup_partial toLowerCase
                                                            (toLowerCase q))
                                            entries)))).
Proof.
  intros Hload.
  destruct (well_formed_loaded _ _ Hload) as (Hf & _).
  split; [now apply searchApi_ok | split; [now apply lookupApi_ok|]].
  intros Hget Hfind.
  destruct (function_entries_ok s Hf) as (entries & He & _).
  exists entries. split; [assumption|].
  unfold lookupApi. rewrite Hget, Hfind, He. reflexivity.
Qed.

Lemma result_caps_witness :
  (exists l, searchApi Js.ascii_toLowerCase Samples.store "spell" = Ok l
             /\ List.length l <= 50)
  /\ (exists l, lookupApi Js.ascii_toLowerCase Samples.store "spell" = Ok l
                /\ List.length l <= 25).
Proof.
  destruct (result_caps Js.ascii_toLowerCase Samples.corpus Samples.store "spell"
                        eq_refl) as (H1 & H2 & _).
  exact (conj H1 H2).
Defined.

(** ** Queries on a name that nothing matches *)

(** C8. A name that nothing matches is not always answered by the absent
    value.  [getEnum] reads [this.enums[name]], which goes on to the
    prototype chain: on a table that has no enum of that name, a name of
    a property of [Object.prototype], such as [constructor] or
    [toString], is answered by the built-in function of that name, and
    [__proto__] by [Object.prototype] itself, not by [null]. *)
Theorem getEnum_reads_prototype (toLowerCase : string -> string)
        (s : DataStore) (k : string) :
  JsObject.get_own (enums s) k = None ->
  JsObject.proto (enums s) = None ->
  (In k JsObject.prototype_keys ->
   getEnum toLowerCase s k
   = EnumOther (JsObject.Builtin JsObject.ObjectPrototype k))
  /\ (k = "__proto__"%string ->
      getEnum toLowerCase s k = EnumOther JsObject.TheObjectPrototype).
Proof.
  intros Hown Hproto. unfold getEnum, JsObject.get. rewrite Hown, Hproto.
  split.
  - intros Hin.
    assert (Hk : String.eqb k "__proto__" = false).
    { apply String.eqb_neq. intros ->. simpl in Hin.
      repeat (destruct Hin as [Hin|Hin]; [discriminate Hin|]). exact Hin. }
    rewrite Hk. unfold JsObject.object_prototype.
    replace (existsb (String.eqb k) JsObject.prototype_keys) with true;
      [reflexivity|].
    symmetry. apply existsb_exists. exists k. split; [exact Hin|].
    apply String.eqb_refl.
  - intros ->. reflexivity.
Qed.

Lemma getEnum_reads_prototype_witness :
  getEnum Js.ascii_toLowerCase Samples.store "constructor"
  = EnumOther (JsObject.Builtin JsObject.ObjectPrototype "constructor")
  /\ getEnum Js.ascii_toLowerCase
             (load_corpus Samples.empty_corpus newDataStore) "toString"
     = EnumOther (JsObject.Builtin JsObject.ObjectPrototype "toString").
Proof.
  split.
  - apply (getEnum_reads_prototype Js.ascii_toLowerCase Samples.store
                                   "constructor");
      [reflexivity | reflexivity | left; reflexivity].
  - apply (getEnum_reads_prototype Js.ascii_toLowerCase
             (load_corpus Samples.empty_corpus newDataStore) "toString");
      [reflexivity | reflexivity | simpl; tauto].
Defined.

(** ** The namespace table *)

(** C10. The invariant of the namespace-to-functions table: every object
    filed under a namespace key K has method-flag false and namespace K.
    It holds of the store the constructor makes, [_indexFunction] keeps
    it, whatever the function and the source, and so does a whole load;
    consequently every record [getNamespace] returns has method-flag
    false and the namespace of a key of the table, also when methods of
    an owner of the queried name exist. *)
Theorem namespace_table_invariant (toLowerCase : string -> string)
        (s : DataStore) :
  namespaces_ok s ->
  namespaces_ok newDataStore
  /\ (forall func src, namespaces_ok (_indexFunction func src s))
  /\ (forall c, namespaces_ok (load_corpus c s))
  /\ (forall q, exists l,
         getNamespace toLowerCase s q = Ok l
         /\ Forall (fun f => isMethod f = false
                             /\ exists K, In K (JsMap.keys (namespaces s))
                                          /\ namespace f = Some K) l).
Proof.
  intros Hn. split; [constructor | split; [|split]].
  - intros. now apply namespaces_ok_indexFunction.
  - intros. now apply namespaces_ok_load_corpus.
  - intros. now apply getNamespace_ok.
Qed.

Lemma namespaces_ok_sample : namespaces_ok Samples.store.
Proof.
  apply namespaces_ok_load_corpus. constructor.
Defined.

Lemma namespace_table_invariant_witness :
  exists l,
    getNamespace Js.ascii_toLowerCase Samples.store "frame" = Ok l
    /\ Forall (fun f => isMethod f = false
                        /\ exists K, In K (JsMap.keys (namespaces Samples.store))
                                     /\ namespace f = Some K) l.
Proof.
  destruct (namespace_table_invariant Js.ascii_toLowerCase Samples.store
                                      namespaces_ok_sample) as (_ & _ & _ & H).
  exact (H "frame"%string).
Defined.

(** ** The supplemental pass does not overwrite *)

Lemma indexFunction_keeps_entry func src s k r f :
  fullName func <> k ->
  JsMap.get (functions s) k = Some r -> nth_error (heap s) r = Some f ->
  JsMap.get (functions (_indexFunction func src s)) k = Some r
  /\ nth_error (heap (_indexFunction func src s)) r = Some f.
Proof.
  intros Hne Hget Hr. unfold _indexFunction; simpl. split.
  - rewrite get_set_other; [assumption | now rewrite stamped_fullName].
  - rewrite nth_error_app1; [assumption | apply nth_error_Some; congruence].
Qed.

Lemma wiki_func_present s func :
  JsMap.has (functions s) (fullName func) = true -> wiki_func s func = s.
Proof.
  intros Hhas. unfold wiki_func.
  destruct (set_has _ _); simpl; now rewrite Hhas.
Qed.

Lemma wiki_func_keeps_entry s func k r f :
  JsMap.get (functions s) k = Some r -> nth_error (heap s) r = Some f ->
  JsMap.get (functions (wiki_func s func)) k = Some r
  /\ nth_error (heap (wiki_func s func)) r = Some f.
Proof.
  intros Hget Hr.
  destruct (JsMap.has (functions s) (fullName func)) eqn:Hhas.
  - rewrite wiki_func_present by assumption. auto.
  - assert (Hne : fullName func <> k).
    { intros E. unfold JsMap.has in Hhas. rewrite E, Hget in Hhas. discriminate. }
    unfold wiki_func.
    destruct (set_has _ _); simpl; rewrite Hhas; simpl;
      now apply indexFunction_keeps_entry.
Qed.

(** C3. A function present in the index when the supplemental (wiki)
    pass runs is out of its reach: a wiki function of the same qualified
    name, whatever its description and parameters, leaves the whole store
    as it was, and after the whole pass the key designates the same
    object with the same fields. *)
Theorem wiki_pass_keeps_indexed (s : DataStore) (k : string) (r : ref)
        (f : FunctionRecord) :
  JsMap.get (functions s) k = Some r ->
  nth_error (heap s) r = Some f ->
  (forall func, fullName func = k -> wiki_func s func = s)
  /\ (forall text,
         JsMap.get (functions (wiki_pass text s)) k = Some r
         /\ nth_error (heap (wiki_pass text s)) r = Some f).
Proof.
  intros Hget Hr. split.
  - intros func <-. apply wiki_func_present. unfold JsMap.has. now rewrite Hget.
  - intros text. unfold wiki_pass.
    apply (fold_left_invariant
             (fun s' => JsMap.get (functions s') k = Some r
                        /\ nth_error (heap s') r = Some f)); [|auto].
    intros s' func [Hg Hn]. now apply wiki_func_keeps_entry.
Qed.

Lemma wiki_pass_keeps_indexed_witness :
  JsMap.get (functions (wiki_pass Samples.wiki_text Samples.before_wiki))
            "C_SpellBook.IsSpellKnown" = Some 1
  /\ option_map deprecatedInPatch
       (nth_error (heap (wiki_pass Samples.wiki_text Samples.before_wiki)) 1)
     = Some (Some "11.0.5"%string).
Proof.
  assert (Hg : JsMap.get (functions Samples.before_wiki)
                         "C_SpellBook.IsSpellKnown" = Some 1)
    by (vm_compute; reflexivity).
  destruct (nth_error (heap Samples.before_wiki) 1) as [f|] eqn:Hf;
    [|vm_compute in Hf; discriminate Hf].
  destruct (wiki_pass_keeps_indexed Samples.before_wiki
              "C_SpellBook.IsSpellKnown" 1 f Hg Hf) as (_ & H).
  destruct (H Samples.wiki_text) as (H1 & H2). split; [exact H1|].
  rewrite H2. vm_compute in Hf. injection Hf as <-. reflexivity.
Defined.

(** ** The matcher on a run of a character class *)

Section Matcher.
Import Regex LuaAnnotations.

Lemma search_from_hit r input i fuel m :
  match_at r input i = Some m -> search_from r input i fuel = Some (i, m).
Proof. intros H. destruct fuel; simpl; now rewrite H. Qed.

Lemma search_hit r input m :
  match_at r input 0 = Some m -> search r input = Some m.
Proof.
  intros H. unfold search. now rewrite (search_from_hit _ _ _ _ _ H).
Qed.

Lemma star_loop_step body k fuel s :
  star_loop body k (S fuel) s
  = or_try (body (progressed s (star_loop body k fuel)) s) (k s).
Proof. reflexivity. Qed.

Lemma rmatch_cls p k s :
  rmatch (Cls p) k s
  = match rest s with
    | String c t => if p c then k (advance s t) else None
    | EmptyString => None
    end.
Proof. reflexivity. Qed.

Lemma star_cls_run p K run tail fuel pos0 caps0 res :
  Js.all p run = true ->
  match tail with EmptyString => True | String d _ => p d = false end ->
  String.length run < fuel ->
  K (mkMState tail (pos0 + String.length run) caps0) = Some res ->
  star_loop (rmatch (Cls p)) K fuel (mkMState (run ++ tail) pos0 caps0) = Some res.
Proof.
  revert fuel pos0.
  induction run as [|c t IH]; intros fuel pos0 Hall Htail Hfuel HK;
    (destruct fuel as [|fuel]; [simpl in Hfuel; lia|]);
    rewrite star_loop_step, rmatch_cls.
  - simpl in HK. rewrite Nat.add_0_r in HK. simpl.
    destruct tail as [|d tl]; simpl; [exact HK|].
    rewrite Htail. simpl. exact HK.
  - simpl in Hall. apply andb_prop in Hall. destruct Hall as [Hc Ht].
    cbn [rest String.append]. rewrite Hc. unfold progressed, advance. cbn [pos caps].
    replace (Nat.eqb (S pos0) pos0) with false
      by (symmetry; apply Nat.eqb_neq; lia).
    rewrite (IH fuel (S pos0)); [reflexivity | assumption | assumption | |].
    + simpl in Hfuel. lia.
    + rewrite <- HK. f_equal. f_equal. simpl. lia.
Qed.

Lemma append_empty_r (s : string) : (s ++ "")%string = s.
Proof. induction s as [|c t IH]; simpl; [reflexivity | now rewrite IH]. Qed.

Lemma star_cls_all p K run fuel pos0 caps0 res :
  Js.all p run = true ->
  String.length run < fuel ->
  K (mkMState "" (pos0 + String.length run) caps0) = Some res ->
  star_loop (rmatch (Cls p)) K fuel (mkMState run pos0 caps0) = Some res.
Proof.
  intros Hall Hfuel HK.
  pose proof (star_cls_run p K run "" fuel pos0 caps0 res Hall I Hfuel HK) as H.
  now rewrite append_empty_r in H.
Qed.

Lemma star_cls_none p K d tail fuel pos0 caps0 :
  p d = false ->
  star_loop (rmatch (Cls p)) K (S fuel) (mkMState (String d tail) pos0 caps0)
  = K (mkMState (String d tail) pos0 caps0).
Proof.
  intros Hd. rewrite star_loop_step, rmatch_cls. cbn [rest]. now rewrite Hd.
Qed.

Lemma take_all_app run tail : Js.take (String.length run) (run ++ tail) = run.
Proof. induction run as [|c t IH]; simpl; [now destruct tail | now rewrite IH]. Qed.

Lemma take_all run : Js.take (String.length run) run = run.
Proof. induction run as [|c t IH]; simpl; [reflexivity | now rewrite IH]. Qed.

Lemma word_dot_not_space c : is_word_dot c = true -> Js.is_space c = false.
Proof.
  destruct c as [[|] [|] [|] [|] [|] [|] [|] [|]]; vm_compute; congruence.
Qed.

Lemma rmatch_seq a b k s : rmatch (Seq a b) k s = rmatch a (rmatch b k) s.
Proof. reflexivity. Qed.

Lemma rmatch_bol k input caps0 :
  rmatch Bol k (mkMState input 0 caps0) = k (mkMState input 0 caps0).
Proof. reflexivity. Qed.

Lemma rmatch_star a k s :
  rmatch (Star a) k s = star_loop (rmatch a) k (S (String.length (rest s))) s.
Proof. reflexivity. Qed.

Lemma rmatch_grp n a k s :
  rmatch (Grp n a) k s = rmatch a (fun s' => k (capture n s s')) s.
Proof. reflexivity. Qed.

Lemma rmatch_lit l k tail pos0 caps0 :
  rmatch (Lit l) k (mkMState (l ++ tail) pos0 caps0)
  = k (mkMState tail (pos0 + String.length l) caps0).
Proof.
  revert pos0. induction l as [|c l IH]; intros pos0; simpl.
  - now rewrite Nat.add_0_r.
  - rewrite Ascii.eqb_refl. unfold advance; simpl. rewrite IH.
    f_equal. f_equal. lia.
Qed.

Lemma re_class_bare (className : string) :
  className <> ""%string -> Js.all is_word_dot className = true ->
  exists m, search re_class ("---@class " ++ className) = Some m
            /\ group1 m 1 = className /\ parents_of m = [].
Proof.
  intros Hne Hall.
  destruct className as [|c t]; [contradiction|].
  pose proof Hall as Hall'. simpl in Hall'.
  apply andb_prop in Hall'. destruct Hall' as [Hc Ht].
  pose proof (word_dot_not_space c Hc) as Hsp.
  exists (mkMState "" (11 + String.length t) [(1, String c t)]).
  split; [apply search_hit | split; reflexivity].
  unfold match_at, re_class, Cat, Plus.
  cbn [fold_right Js.drop].
  change ("---@class " ++ String c t)%string
    with ("---@class" ++ String " " (String c t))%string.
  rewrite rmatch_seq, rmatch_bol.
  rewrite rmatch_seq, rmatch_lit.
  rewrite rmatch_seq, rmatch_seq. unfold space at 1. rewrite rmatch_cls.
  cbn [rest]. change (Js.is_space " ") with true. cbv iota.
  unfold advance at 1. cbn [pos caps].
  rewrite rmatch_star. cbn [rest String.length]. unfold space.
  rewrite star_cls_none by assumption.
  rewrite rmatch_seq, rmatch_grp, rmatch_seq. unfold word_dot at 1.
  rewrite rmatch_cls. cbn [rest]. rewrite Hc.
  unfold advance at 1. cbn [pos caps].
  rewrite rmatch_star. cbn [rest]. unfold word_dot.
  apply star_cls_all; [assumption | lia |].
  unfold capture. cbn [rest pos caps].
  replace (S (S (0 + 9)) + String.length t - S (0 + 9)) with (S (String.length t))
    by lia.
  cbn [Js.take]. rewrite take_all.
  reflexivity.
Qed.

End Matcher.

(** ** What a match of the patch pattern says *)

Section PatchPattern.
Import Regex LuaAnnotations.

Lemma or_try_some {A} (x y : option A) (m : A) :
  or_try x y = Some m -> x = Some m \/ y = Some m.
Proof. destruct x; simpl; auto. Qed.

(** A successful star over a class consumed a run of the class and the
    rest of the pattern matched after it. *)
Lemma star_cls_inv p K fuel s m :
  star_loop (rmatch (Cls p)) K fuel s = Some m ->
  exists run tail,
    Js.all p run = true /\ rest s = (run ++ tail)%string
    /\ K (mkMState tail (pos s + String.length run) (caps s)) = Some m.
Proof.
  revert s. induction fuel as [|fuel IH]; intros s H.
  - exists ""%string, (rest s). simpl in *. rewrite Nat.add_0_r.
    destruct s; auto.
  - rewrite star_loop_step in H. apply or_try_some in H. destruct H as [H|H].
    + rewrite rmatch_cls in H. destruct (rest s) as [|c t] eqn:Hrest; [discriminate|].
      destruct (p c) eqn:Hc; [|discriminate].
      unfold progressed in H.
      destruct (Nat.eqb (pos (advance s t)) (pos s)); [discriminate|].
      destruct (IH _ H) as (run & tail & Hall & Hr & HK).
      exists (String c run), tail. cbn [rest pos caps advance] in Hr, HK.
      split; [simpl; now rewrite Hc, Hall|].
      split; [simpl; now rewrite Hr|].
      rewrite <- HK. f_equal. f_equal. simpl. lia.
    + exists ""%string, (rest s). simpl. rewrite Nat.add_0_r.
      destruct s; auto.
Qed.

(** A successful group over one or more characters of a class captured a
    non-empty run of the class. *)
Lemma grp_plus_cls_inv n p k s m :
  rmatch (Grp n (Plus (Cls p))) k s = Some m ->
  exists run tail,
    run <> ""%string /\ Js.all p run = true /\ rest s = (run ++ tail)%string
    /\ k (mkMState tail (pos s + String.length run) ((n, run) :: caps s)) = Some m.
Proof.
  unfold Plus. rewrite rmatch_grp, rmatch_seq, rmatch_cls. intros H.
  destruct (rest s) as [|c t] eqn:Hrest; [discriminate|].
  destruct (p c) eqn:Hc; [|discriminate].
  rewrite rmatch_star in H.
  destruct (star_cls_inv _ _ _ _ _ H) as (run & tail & Hall & Hr & HK).
  exists (String c run), tail. cbn [rest pos caps advance] in Hr, HK.
  split; [discriminate|].
  split; [simpl; now rewrite Hc, Hall|].
  split; [simpl; now rewrite Hr|].
  rewrite <- HK. unfold capture. cbn [rest pos caps].
  replace (S (pos s) + String.length run - pos s) with (S (String.length run))
    by lia.
  rewrite Hrest. cbn [Js.take]. rewrite Hr, take_all_app.
  f_equal. f_equal. simpl. lia.
Qed.

Lemma lit_inv l k s m :
  rmatch (Lit l) k s = Some m ->
  exists tail, rest s = (l ++ tail)%string
               /\ k (mkMState tail (pos s + String.length l) (caps s)) = Some m.
Proof.
  revert s. induction l as [|c l IH]; intros s H; simpl in H.
  - exists (rest s). simpl. rewrite Nat.add_0_r. destruct s; auto.
  - destruct (rest s) as [|d t] eqn:Hrest; [discriminate|].
    destruct (Ascii.eqb_spec c d) as [<-|]; [|discriminate].
    destruct (IH _ H) as (tail & Hr & HK). cbn [rest pos caps advance] in Hr, HK.
    exists tail. split; [simpl; now rewrite Hr|].
    rewrite <- HK. f_equal. f_equal. simpl. lia.
Qed.



Lemma string_app_assoc (a b c : string) :
  ((a ++ b) ++ c = a ++ (b ++ c))%string.
Proof. induction a as [|d a IH]; simpl; [reflexivity | now rewrite IH]. Qed.




End PatchPattern.

(** ** Class declarations *)

Section Classes.
Import Regex LuaAnnotations.

Lemma class_gather_identity c fLine :
  class_name (class_gather c fLine) = class_name c
  /\ inherits (class_gather c fLine) = inherits c.
Proof.
  unfold class_gather.
  destruct (search re_field fLine), (search re_class_documentation fLine);
    split; reflexivity.
Qed.

Lemma class_of_match_identity annotationLines m :
  class_name (class_of_match annotationLines m) = group1 m 1
  /\ inherits (class_of_match annotationLines m) = parents_of m.
Proof.
  unfold class_of_match.
  apply (fold_left_invariant
           (fun c => class_name c = group1 m 1 /\ inherits c = parents_of m));
    [|split; reflexivity].
  intros c fLine [Hn Hi].
  destruct (class_gather_identity c fLine) as [-> ->]. auto.
Qed.

(** A matching line of the block contributes its class. *)
Lemma classes_of_block_in annotationLines aLine m :
  In aLine annotationLines -> search re_class aLine = Some m ->
  In (class_of_match annotationLines m) (classes_of_block annotationLines).
Proof.
  intros Hin Hm. unfold classes_of_block. apply in_flat_map.
  exists aLine. split; [assumption|]. rewrite Hm. now left.
Qed.

(** Classes are only ever added. *)
Lemma lua_step_classes st raw c :
  In c (ps_classes st) -> In c (ps_classes (lua_step st raw)).
Proof.
  intros Hin. unfold lua_step.
  destruct (Js.startsWith (Js.trim raw) "---"); [exact Hin|].
  destruct (Js.startsWith (Js.trim raw) "function ").
  - destruct (parseFunctionLine (Js.trim raw)); exact Hin.
  - simpl. apply in_or_app. now left.
Qed.

Lemma fold_lua_step_classes lines st c :
  In c (ps_classes st) -> In c (ps_classes (fold_left lua_step lines st)).
Proof.
  apply (fold_left_invariant (fun st => In c (ps_classes st))).
  intros; now apply lua_step_classes.
Qed.

(** Comment lines accumulate in the pending block. *)
Lemma fold_lua_step_block block st :
  Forall (fun x => Js.startsWith (Js.trim x) "---" = true) block ->
  ps_annotationLines (fold_left lua_step block st)
  = ps_annotationLines st ++ map Js.trim block.
Proof.
  intros Hb. revert st.
  induction Hb as [|x block Hx _ IH]; intros st; simpl.
  - now rewrite app_nil_r.
  - rewrite IH. unfold lua_step. rewrite Hx. simpl.
    now rewrite <- app_assoc.
Qed.

(** C6, as the parser has it.  A line of the pending comment block that
    the class pattern matches yields a class record with the matched name
    and the comma-split, trimmed parents (none when the pattern matched no
    parent list), wherever the line stands in the block, provided the block
    is followed by a line that is neither a comment line nor starts with
    [function ].  On a bare declaration [---@class Name] the matched name
    is [Name] and there is no parent. *)
Theorem class_declared_in_block (pre block post : list string)
        (next aLine : string) (m : MState) :
  Forall (fun x => Js.startsWith (Js.trim x) "---" = true) block ->
  In aLine block ->
  search re_class (Js.trim aLine) = Some m ->
  Js.startsWith (Js.trim next) "---" = false ->
  Js.startsWith (Js.trim next) "function " = false ->
  (exists c,
      In c (ps_classes (parseLuaLines (pre ++ block ++ next :: post)))
      /\ class_name c = group1 m 1
      /\ inherits c = parents_of m)
  /\ (forall className,
         Js.trim aLine = ("---@class " ++ className)%string ->
         className <> ""%string -> Js.all is_word_dot className = true ->
         group1 m 1 = className /\ parents_of m = []).
Proof.
  intros Hblock Hin Hm Hnc Hnf. split.
  2:{ intros className Hline Hne Hall.
      destruct (re_class_bare className Hne Hall) as (m' & Hm' & Hg & Hp).
      rewrite Hline, Hm' in Hm. injection Hm as <-. auto. }
  unfold parseLuaLines. rewrite !fold_left_app. simpl.
  set (st0 := fold_left lua_step pre (mkParseState [] [] [])).
  set (st1 := fold_left lua_step block st0).
  exists (class_of_match (ps_annotationLines st1) m).
  split; [|apply class_of_match_identity].
  apply fold_lua_step_classes.
  unfold lua_step. rewrite Hnc, Hnf. simpl.
  apply in_or_app. right.
  apply classes_of_block_in with (aLine := Js.trim aLine); [|assumption].
  subst st1. rewrite fold_lua_step_block by assumption.
  apply in_or_app. right. now apply in_map.
Qed.

Lemma class_declared_in_block_witness :
  exists c,
    In c (ps_classes (parseLuaLines ClassSamples.file))
    /\ class_name c = "Frame"%string
    /\ inherits c = ["ScriptRegion"%string; "Region"%string].
Proof.
  destruct (class_declared_in_block
              ["function Foo.Bar() end"%string] ClassSamples.block [""%string]
              "local Frame = {}" "---@class Frame : ScriptRegion, Region"
              (mkMState "" 38 [(2, "ScriptRegion, Region"%string);
                               (1, "Frame"%string)]))
    as ((c & Hc & Hn & Hi) & _).
  - repeat constructor.
  - right. left. reflexivity.
  - vm_compute. reflexivity.
  - reflexivity.
  - reflexivity.
  - exists c. split; [exact Hc | split; [exact Hn | exact Hi]].
Defined.

(** C6, as stated, fails: a class block that a function line follows, or
    that ends the file, yields no class although the class pattern matches
    its line. *)
Lemma class_block_dropped :
  search re_class "---@class Foo" <> None
  /\ ps_classes (parseLuaLines ClassSamples.before_function) = []
  /\ ps_classes (parseLuaLines ClassSamples.at_end_of_file) = [].
Proof.
  split; [vm_compute; discriminate | split; vm_compute; reflexivity].
Qed.

End Classes.

(** ** The enum round trip *)

(** C5, as the parser has it.  The five lines, the first one carrying the
    comment marker of an annotation ([---@enum Enum.Foo]), parsed by the
    enum-file parser and loaded into the store, make [getEnum "Enum.Foo"]
    return exactly the mapping A -> 0, B -> 1. *)
Theorem enum_round_trip (toLowerCase : string -> string) :
  LuaAnnotations.parseEnumLines Samples.enum_lines
  = JsObject.literal
      [("Enum.Foo"%string,
        JsObject.literal [("A"%string, Js.Finite 0); ("B"%string, Js.Finite 1)])]
  /\ getEnum toLowerCase
             (load_corpus (Samples.enum_corpus Samples.enum_lines) newDataStore)
             "Enum.Foo"
     = EnumTable (JsObject.literal [("A"%string, Js.Finite 0);
                                    ("B"%string, Js.Finite 1)]).
Proof.
  split; [vm_compute; reflexivity|].
  unfold getEnum.
  replace (JsObject.get LuaAnnotations.enum_member
             (enums (load_corpus (Samples.enum_corpus Samples.enum_lines)
                                 newDataStore)) "Enum.Foo")
    with (JsObject.Found
            (JsObject.literal [("A"%string, Js.Finite 0); ("B"%string, Js.Finite 1)]))
    by (vm_compute; reflexivity).
  reflexivity.
Qed.

(** C5, as stated, fails: without the comment marker the first line opens
    no enum, nothing is parsed and [getEnum] finds nothing. *)
Lemma enum_lines_unmarked_lost :
  LuaAnnotations.parseEnumLines Samples.enum_lines_unmarked = JsObject.empty
  /\ getEnum Js.ascii_toLowerCase
             (load_corpus (Samples.enum_corpus Samples.enum_lines_unmarked)
                          newDataStore)
             "Enum.Foo"
     = EnumNull.
Proof. split; vm_compute; reflexivity. Qed.

(** ** The deprecated pass *)

Section DeprecatedPass.
Import LuaAnnotations.

Variable files : list (string * string).

Local Abbreviation entry := (deprecated_in files).












End DeprecatedPass.


(** ** Loading twice *)

(** *** Writes on a view of the function table *)

Section Views.

Implicit Types (V : JsMap.t (option FunctionRecord)) (w : Write)
               (ops : list Write) (k : string).

Lemma has_false_not_key {A} (m : JsMap.t A) k :
  JsMap.has m k = false -> ~ In k (JsMap.keys m).
Proof.
  intros Hhas Hin. destruct (in_keys_get _ _ Hin) as (v & Hv).
  unfold JsMap.has in Hhas. now rewrite Hv in Hhas.
Qed.

Lemma get_has {A} (m : JsMap.t A) k v : JsMap.get m k = Some v -> JsMap.has m k = true.
Proof. intros H. unfold JsMap.has. now rewrite H. Qed.

Lemma has_keys {A} (m : JsMap.t A) k : JsMap.has m k = true -> In k (JsMap.keys m).
Proof.
  intros H. destruct (has_get _ _ H) as (v & Hv).
  apply get_in in Hv. now apply (in_map fst) in Hv.
Qed.

Lemma keys_has {A} (m : JsMap.t A) k : In k (JsMap.keys m) -> JsMap.has m k = true.
Proof. intros H. destruct (in_keys_get _ _ H) as (v & Hv). now apply get_has in Hv. Qed.

Lemma has_same_keys {A B} (m : JsMap.t A) (m' : JsMap.t B) k :
  JsMap.keys m = JsMap.keys m' -> JsMap.has m k = JsMap.has m' k.
Proof.
  intros E. destruct (JsMap.has m' k) eqn:H'.
  - apply keys_has. rewrite E. now apply has_keys.
  - destruct (JsMap.has m k) eqn:H; [|reflexivity].
    apply has_keys in H. rewrite E in H. apply keys_has in H. congruence.
Qed.

Lemma has_set_mono {A} (m : JsMap.t A) k v k0 :
  JsMap.has m k0 = true -> JsMap.has (JsMap.set m k v) k0 = true.
Proof.
  intros H. destruct (String.string_dec k k0) as [->|Hne].
  - apply has_set_same.
  - unfold JsMap.has. now rewrite get_set_other.
Qed.

Lemma nodup_keys_set {A} (m : JsMap.t A) k v :
  NoDup (JsMap.keys m) -> NoDup (JsMap.keys (JsMap.set m k v)).
Proof.
  intros Hnd. destruct (JsMap.has m k) eqn:Hhas.
  - now rewrite keys_set_present.
  - rewrite keys_set_absent by assumption.
    apply NoDup_app; [assumption | repeat constructor; intros [] |].
    intros x Hx [E|[]]. subst x. now apply (has_false_not_key m k).
Qed.

(** Two maps with the same keys in the same order and the same value for
    every key are equal. *)
Lemma map_eq_by_get {A} (m m' : JsMap.t A) :
  JsMap.keys m = JsMap.keys m' -> NoDup (JsMap.keys m) ->
  (forall k, JsMap.get m k = JsMap.get m' k) -> m = m'.
Proof.
  revert m'. induction m as [|[k v] m IH]; intros [|[k' v'] m'] Hk Hnd Hg;
    simpl in *; try discriminate; [reflexivity|].
  injection Hk as Ek Hk. subst k'.
  inversion Hnd as [|? ? Hnotin Hnd']; subst.
  pose proof (Hg k) as Hgk. rewrite String.eqb_refl in Hgk.
  injection Hgk as Ev. subst v'.
  f_equal. apply IH; [assumption | assumption|].
  intros k0. specialize (Hg k0).
  destruct (String.eqb_spec k k0) as [E|Hne]; [subst k0|exact Hg].
  destruct (JsMap.get m k) eqn:E1.
  - exfalso. apply Hnotin. apply get_in in E1. now apply (in_map fst) in E1.
  - destruct (JsMap.get m' k) eqn:E2; [|reflexivity].
    exfalso. apply Hnotin. unfold JsMap.keys in *. rewrite Hk.
    apply get_in in E2. now apply (in_map fst) in E2.
Qed.

Lemma has_apply_write V w k :
  JsMap.has V k = true -> JsMap.has (apply_write V w) k = true.
Proof.
  intros H. destruct w as [f|f]; simpl.
  - now apply has_set_mono.
  - destruct (JsMap.has V (fullName f)); [assumption | now apply has_set_mono].
Qed.

Lemma has_apply_write_key V w :
  JsMap.has (apply_write V w) (fullName (written w)) = true.
Proof.
  destruct w as [f|f]; simpl.
  - apply has_set_same.
  - destruct (JsMap.has V (fullName f)) eqn:H; [assumption | apply has_set_same].
Qed.

Lemma has_fold_write ops V k :
  JsMap.has V k = true -> JsMap.has (fold_left apply_write ops V) k = true.
Proof.
  apply (fold_left_invariant (fun V => JsMap.has V k = true)).
  intros; now apply has_apply_write.
Qed.

(** Every key written is a key of the result. *)
Lemma written_key_present ops V w :
  In w ops -> JsMap.has (fold_left apply_write ops V) (fullName (written w)) = true.
Proof.
  revert V. induction ops as [|w0 ops IH]; intros V; simpl; [intros []|].
  intros [->|Hin]; [|now apply IH].
  apply has_fold_write, has_apply_write_key.
Qed.

Lemma nodup_apply_write V w :
  NoDup (JsMap.keys V) -> NoDup (JsMap.keys (apply_write V w)).
Proof.
  intros H. destruct w as [f|f]; simpl.
  - now apply nodup_keys_set.
  - destruct (JsMap.has V (fullName f)); [assumption | now apply nodup_keys_set].
Qed.

Lemma nodup_fold_write ops V :
  NoDup (JsMap.keys V) -> NoDup (JsMap.keys (fold_left apply_write ops V)).
Proof.
  apply (fold_left_invariant (fun V => NoDup (JsMap.keys V))).
  intros; now apply nodup_apply_write.
Qed.

(** On a view that has every key of the writes, the writes keep the keys
    and their order. *)
Lemma keys_fold_write_present ops V :
  (forall w, In w ops -> JsMap.has V (fullName (written w)) = true) ->
  JsMap.keys (fold_left apply_write ops V) = JsMap.keys V.
Proof.
  revert V. induction ops as [|w ops IH]; intros V Hall; simpl; [reflexivity|].
  assert (Hw : JsMap.keys (apply_write V w) = JsMap.keys V).
  { pose proof (Hall w (or_introl eq_refl)) as Hk.
    destruct w as [f|f]; simpl in *.
    - now apply keys_set_present.
    - now rewrite Hk. }
  rewrite IH, Hw; [reflexivity|].
  intros w' Hin. apply has_apply_write. apply Hall. now right.
Qed.

(** A key that no unconditional write touches keeps its value once it is
    present. *)
Lemma get_fold_write_untouched ops V k :
  JsMap.has V k = true -> last_always ops k = None ->
  JsMap.get (fold_left apply_write ops V) k = JsMap.get V k.
Proof.
  revert V. induction ops as [|w ops IH]; intros V Hhas Hlast; simpl; [reflexivity|].
  simpl in Hlast. destruct (last_always ops k) eqn:Hrest; [discriminate|].
  rewrite IH; [|now apply has_apply_write | reflexivity].
  destruct w as [f|f]; simpl.
  - destruct (String.eqb_spec (fullName f) k) as [E|Hne]; [discriminate|].
    now apply get_set_other.
  - destruct (JsMap.has V (fullName f)) eqn:Hf; [reflexivity|].
    apply get_set_other. intros E. rewrite E in Hf. congruence.
Qed.

(** The last unconditional write to a key decides its value. *)
Lemma get_fold_write_last ops V k f :
  last_always ops k = Some f ->
  JsMap.get (fold_left apply_write ops V) k = Some (Some f).
Proof.
  revert V. induction ops as [|w ops IH]; intros V Hlast; simpl in *; [discriminate|].
  destruct (last_always ops k) eqn:Hrest.
  - injection Hlast as ->. now apply IH.
  - destruct w as [g|g]; [|discriminate].
    destruct (String.eqb_spec (fullName g) k) as [E|Hne]; [|discriminate].
    injection Hlast as ->. subst k.
    rewrite get_fold_write_untouched; [apply get_set_same | apply has_set_same
                                       | assumption].
Qed.

Lemma get_fold_write_present ops V k :
  (forall w, In w ops -> JsMap.has V (fullName (written w)) = true) ->
  JsMap.get (fold_left apply_write ops V) k
  = match last_always ops k with
    | Some f => Some (Some f)
    | None => JsMap.get V k
    end.
Proof.
  intros Hall. destruct (last_always ops k) as [f|] eqn:Hlast.
  - now apply get_fold_write_last.
  - revert V Hall. induction ops as [|w ops IH]; intros V Hall; simpl; [reflexivity|].
    simpl in Hlast. destruct (last_always ops k) eqn:Hrest; [discriminate|].
    rewrite IH; [|reflexivity|].
    + pose proof (Hall w (or_introl eq_refl)) as Hk.
      destruct w as [f|f]; simpl in *.
      * destruct (String.eqb_spec (fullName f) k) as [E|Hne]; [discriminate|].
        now apply get_set_other.
      * now rewrite Hk.
    + intros w' Hin. apply has_apply_write. apply Hall. now right.
Qed.

(** *** The closing loop on a view *)

Lemma keys_flavor ap fm V : JsMap.keys (map (flavor_entry ap fm) V) = JsMap.keys V.
Proof. unfold JsMap.keys. rewrite map_map. reflexivity. Qed.

Lemma get_flavor ap fm V k :
  JsMap.get (map (flavor_entry ap fm) V) k
  = option_map (option_map (flavored ap fm k)) (JsMap.get V k).
Proof.
  induction V as [|[k' o] V IH]; simpl; [reflexivity|].
  destruct (String.eqb_spec k' k) as [->|Hne]; [reflexivity | exact IH].
Qed.

Lemma flavored_idempotent ap fm k f :
  flavored ap fm k (flavored ap fm k f) = flavored ap fm k f.
Proof.
  unfold flavored at 2 3.
  destruct (flavor_lookup ap fm (Js.or_else (name f) k)) as [v|] eqn:E1.
  - unfold flavored. change (name (with_gameVersions f v)) with (name f).
    now rewrite E1.
  - destruct (flavor_lookup ap fm k) as [v|] eqn:E2.
    + unfold flavored. change (name (with_gameVersions f v)) with (name f).
      now rewrite E1, E2.
    + unfold flavored. now rewrite E1, E2.
Qed.

(** *** The writes of a load applied twice

    On the view that a first run of the writes and the closing loop
    produced, a second run followed by the closing loop changes nothing. *)
Lemma view_reload ap fm ops :
  map (flavor_entry ap fm)
      (fold_left apply_write ops
                 (map (flavor_entry ap fm) (fold_left apply_write ops [])))
  = map (flavor_entry ap fm) (fold_left apply_write ops []).
Proof.
  set (W1 := fold_left apply_write ops []).
  set (V1 := map (flavor_entry ap fm) W1).
  assert (Hcover : forall w, In w ops -> JsMap.has V1 (fullName (written w)) = true).
  { intros w Hin. subst V1.
    rewrite (has_same_keys _ W1) by apply keys_flavor.
    now apply written_key_present. }
  assert (Hnd : NoDup (JsMap.keys W1)) by (apply nodup_fold_write; constructor).
  apply map_eq_by_get.
  - rewrite keys_flavor, keys_fold_write_present by assumption. reflexivity.
  - rewrite keys_flavor, keys_fold_write_present by assumption.
    subst V1. now rewrite keys_flavor.
  - intros k. rewrite get_flavor, get_fold_write_present by assumption.
    destruct (last_always ops k) as [f|] eqn:Hlast.
    + subst V1. rewrite get_flavor.
      now rewrite (get_fold_write_last ops [] k f Hlast
                   : JsMap.get W1 k = Some (Some f)).
    + subst V1. rewrite get_flavor.
      destruct (JsMap.get W1 k) as [[f|]|]; simpl; try reflexivity.
      now rewrite flavored_idempotent.
Qed.

End Views.

(** *** The passes as writes on the view *)

Section Tracking.
Import LuaAnnotations.

Variable dl : list string.

Lemma map_set_values {A B} (h : A -> B) (m : JsMap.t A) k v :
  map (fun e => (fst e, h (snd e))) (JsMap.set m k v)
  = JsMap.set (map (fun e => (fst e, h (snd e))) m) k (h v).
Proof.
  induction m as [|[k' v'] m IH]; simpl; [reflexivity|].
  destruct (String.eqb k' k); simpl; [reflexivity | now rewrite IH].
Qed.

Lemma keys_function_view s : JsMap.keys (function_view s) = JsMap.keys (functions s).
Proof. unfold function_view, JsMap.keys. now rewrite map_map. Qed.

Lemma has_function_view s k :
  JsMap.has (function_view s) k = JsMap.has (functions s) k.
Proof. apply has_same_keys, keys_function_view. Qed.

Lemma function_view_index func src s :
  functions_ok s ->
  function_view (_indexFunction func src s)
  = apply_write (function_view s) (Always (stamped func src)).
Proof.
  intros Hf. unfold function_view, _indexFunction; simpl.
  rewrite (map_set_values (nth_error (heap s ++ [stamped func src]))).
  rewrite nth_error_app2, Nat.sub_diag by lia. simpl.
  f_equal. apply map_ext_in. intros [k r] Hin. simpl. f_equal.
  unfold functions_ok in Hf. rewrite Forall_forall in Hf.
  destruct (Hf _ Hin) as (f & Hr & _). simpl in Hr.
  apply nth_error_app1. apply nth_error_Some. congruence.
Qed.

Lemma tracks_index func src s V :
  tracks dl s V ->
  tracks dl (_indexFunction func src s) (apply_write V (Always (stamped func src))).
Proof.
  intros (Hf & Hd & <-). split; [|split].
  - now apply functions_ok_indexFunction.
  - exact Hd.
  - now apply function_view_index.
Qed.

Lemma tracks_if_absent func src s V :
  tracks dl s V ->
  tracks dl (if negb (JsMap.has (functions s) (fullName func))
             then _indexFunction func src s else s)
         (apply_write V (IfAbsent (stamped func src))).
Proof.
  intros Ht. pose proof Ht as (Hf & Hd & <-). simpl.
  rewrite stamped_fullName, has_function_view.
  destruct (JsMap.has (functions s) (fullName func)); simpl; [exact Ht|].
  pose proof (tracks_index func src s _ Ht) as H. simpl in H.
  now rewrite stamped_fullName in H.
Qed.

Lemma tracks_wiki func s V :
  tracks dl s V ->
  tracks dl (wiki_func s func)
         (apply_write V (IfAbsent (stamped (mark_deprecated dl func) wiki))).
Proof.
  intros Ht. pose proof Ht as (_ & Hd & _).
  unfold wiki_func. rewrite Hd. fold (mark_deprecated dl func).
  now apply tracks_if_absent.
Qed.

Lemma tracks_framexml func s V :
  tracks dl s V ->
  tracks dl (framexml_func s func) (apply_write V (IfAbsent (stamped func framexml))).
Proof. intros Ht. unfold framexml_func. now apply tracks_if_absent. Qed.

Lemma tracks_class cls s V : tracks dl s V -> tracks dl (_indexClass cls s) V.
Proof.
  intros (Hf & Hd & Hv). unfold tracks, functions_ok, function_view.
  destruct (indexClass_tables cls s) as (-> & -> & _).
  split; [exact Hf | split; [|exact Hv]].
  unfold _indexClass. destruct (JsMap.get (widgets s) (class_name cls)); exact Hd.
Qed.

Lemma tracks_classes classes s V :
  tracks dl s V -> tracks dl (index_classes classes s) V.
Proof.
  apply (fold_left_invariant (fun s => tracks dl s V)).
  intros; now apply tracks_class.
Qed.

Lemma tracks_widget func s V :
  tracks dl s V ->
  tracks dl (widget_func s func) (apply_write V (Always (stamped func widget))).
Proof.
  intros Ht. pose proof (tracks_index func widget s V Ht) as (Hf & Hd & Hv).
  unfold tracks, functions_ok, function_view.
  destruct (widget_func_tables s func) as (-> & -> & _).
  split; [exact Hf | split; [|exact Hv]].
  unfold widget_func.
  destruct (isMethod func && Js.truthy (namespace func)); [|exact Hd].
  destruct (namespace func); exact Hd.
Qed.

(** A loop over functions is the run of their writes. *)
Lemma tracks_loop {X} (step : DataStore -> X -> DataStore) (g : X -> Write) l :
  (forall s V x, tracks dl s V -> tracks dl (step s x) (apply_write V (g x))) ->
  forall s V, tracks dl s V ->
              tracks dl (fold_left step l s) (fold_left apply_write (map g l) V).
Proof.
  intros Hstep. induction l as [|x l IH]; intros s V Ht; simpl; [exact Ht|].
  apply IH. now apply Hstep.
Qed.

(** A loop over files is the run of the writes of each file in turn. *)
Lemma tracks_files (step : DataStore -> string * string -> DataStore)
      (g : string * string -> list Write) files :
  (forall s V file, tracks dl s V ->
                    tracks dl (step s file) (fold_left apply_write (g file) V)) ->
  forall s V, tracks dl s V ->
              tracks dl (fold_left step files s)
                     (fold_left apply_write (flat_map g files) V).
Proof.
  intros Hstep. induction files as [|file files IH]; intros s V Ht; simpl;
    [exact Ht|].
  rewrite fold_left_app. apply IH. now apply Hstep.
Qed.

Lemma tracks_blizzard_file s V file :
  tracks dl s V ->
  tracks dl (blizzard_file s file) (fold_left apply_write (blizzard_writes file) V).
Proof.
  intros Ht. unfold blizzard_file, blizzard_writes, index_all.
  apply tracks_classes.
  apply (tracks_loop (fun s func => _indexFunction func blizzard s)); [|exact Ht].
  intros; now apply tracks_index.
Qed.

Lemma tracks_deprecated_file s V file :
  tracks dl s V ->
  tracks dl (deprecated_file s file)
         (fold_left apply_write (deprecated_writes file) V).
Proof.
  intros Ht. unfold deprecated_file, deprecated_writes.
  apply (tracks_loop (deprecated_func (extractPatchFromFilename (fst file))));
    [|exact Ht].
  intros; unfold deprecated_func; now apply tracks_index.
Qed.

Lemma tracks_wiki_pass s V text :
  tracks dl s V ->
  tracks dl (wiki_pass text s) (fold_left apply_write (wiki_writes dl text) V).
Proof.
  intros Ht. unfold wiki_pass, wiki_writes.
  apply (tracks_loop wiki_func); [|exact Ht].
  intros; now apply tracks_wiki.
Qed.

Lemma tracks_widget_file s V file :
  tracks dl s V ->
  tracks dl (widget_file s file) (fold_left apply_write (widget_writes file) V).
Proof.
  intros Ht. unfold widget_file, widget_writes.
  apply (tracks_loop widget_func); [intros; now apply tracks_widget|].
  now apply tracks_classes.
Qed.

Lemma tracks_framexml_file s V file :
  tracks dl s V ->
  tracks dl (framexml_file s file) (fold_left apply_write (framexml_writes file) V).
Proof.
  intros Ht. unfold framexml_file, framexml_writes.
  apply (tracks_loop framexml_func); [intros; now apply tracks_framexml|].
  now apply tracks_classes.
Qed.

(** Passes 3 to 7 are the run of the plan. *)
Lemma tracks_load_passes c s V :
  tracks dl s V ->
  tracks dl (load_passes c s) (fold_left apply_write (plan dl c) V).
Proof.
  intros Ht. unfold load_passes, plan. rewrite !fold_left_app.
  apply (tracks_files framexml_file); [intros; now apply tracks_framexml_file|].
  apply (tracks_files widget_file); [intros; now apply tracks_widget_file|].
  assert (H5 : forall s4 V4, tracks dl s4 V4 ->
             tracks dl (match wikiLua c with
                        | Some text => wiki_pass text s4 | None => s4 end)
                    (fold_left apply_write
                       (match wikiLua c with
                        | Some text => wiki_writes dl text | None => [] end) V4)).
  { intros s4 V4 H. destruct (wikiLua c); [now apply tracks_wiki_pass | exact H]. }
  apply H5.
  apply (tracks_files deprecated_file); [intros; now apply tracks_deprecated_file|].
  apply (tracks_files blizzard_file); [intros; now apply tracks_blizzard_file|].
  exact Ht.
Qed.

End Tracking.

(** *** The closing loop on the heap *)

Lemma apply_flavor_at ap fm h k r :
  nth_error (apply_flavor ap fm h (k, r)) r
  = option_map (flavored ap fm k) (nth_error h r).
Proof.
  unfold apply_flavor, flavored.
  destruct (nth_error h r) as [func|] eqn:Hr; simpl; [|exact Hr].
  assert (Hlt : r < List.length h) by (apply nth_error_Some; congruence).
  destruct (flavor_lookup ap fm (Js.or_else (name func) k));
    [now apply nth_error_replace_same|].
  destruct (flavor_lookup ap fm k); [now apply nth_error_replace_same | exact Hr].
Qed.

Lemma apply_flavor_other ap fm h k r r' :
  r <> r' -> nth_error (apply_flavor ap fm h (k, r)) r' = nth_error h r'.
Proof.
  intros Hne. unfold apply_flavor.
  destruct (nth_error h r) as [func|]; [|reflexivity].
  destruct (flavor_lookup ap fm (Js.or_else (name func) k));
    [now apply nth_error_replace_other|].
  destruct (flavor_lookup ap fm k); [now apply nth_error_replace_other | reflexivity].
Qed.

Lemma fold_apply_flavor_other ap fm es h r' :
  ~ In r' (map snd es) ->
  nth_error (fold_left (apply_flavor ap fm) es h) r' = nth_error h r'.
Proof.
  revert h. induction es as [|[k r] es IH]; intros h Hnotin; simpl; [reflexivity|].
  simpl in Hnotin. rewrite IH by tauto.
  apply apply_flavor_other. tauto.
Qed.

Lemma fold_apply_flavor_view ap fm es h :
  NoDup (map snd es) ->
  map (fun e => (fst e, nth_error (fold_left (apply_flavor ap fm) es h) (snd e))) es
  = map (fun e => flavor_entry ap fm (fst e, nth_error h (snd e))) es.
Proof.
  revert h. induction es as [|[k r] es IH]; intros h Hnd;
    cbn [fold_left map fst snd]; [reflexivity|].
  cbn [map snd] in Hnd.
  inversion Hnd as [|? ? Hnotin Hnd']; subst. f_equal.
  - unfold flavor_entry; cbn [fst snd]. f_equal.
    rewrite fold_apply_flavor_other by assumption. apply apply_flavor_at.
  - rewrite IH by assumption. apply map_ext_in. intros [k' r'] Hin. cbn [fst snd].
    rewrite apply_flavor_other; [reflexivity|].
    intros ->. apply Hnotin. now apply (in_map snd) in Hin.
Qed.

(** Distinct keys designate distinct objects. *)
Lemma refs_nodup s :
  functions_ok s -> NoDup (JsMap.keys (functions s)) ->
  NoDup (map snd (functions s)).
Proof.
  unfold functions_ok, JsMap.keys.
  generalize (heap s) as h. induction (functions s) as [|[k r] m IH];
    intros h Hf Hnd; simpl; [constructor|].
  inversion Hf as [|? ? Hd Hf']; subst. inversion Hnd as [|? ? Hnotin Hnd']; subst.
  constructor; [|now apply (IH h)].
  intros Hin. apply Hnotin. apply in_map_iff in Hin.
  destruct Hin as ([k' r'] & Er & Hin). simpl in Er. subst r'.
  rewrite Forall_forall in Hf'. destruct (Hf' _ Hin) as (f' & Hr' & Hk').
  destruct Hd as (f & Hr & Hk). simpl in *.
  assert (f' = f) by congruence. subst f'.
  assert (Ek : k' = k) by congruence.
  apply (in_map fst) in Hin. simpl in Hin. now rewrite Ek in Hin.
Qed.

Lemma function_view_flavors ap s :
  functions_ok s -> NoDup (JsMap.keys (functions s)) ->
  function_view (apply_flavors ap s)
  = map (flavor_entry ap (flavorMap s)) (function_view s).
Proof.
  intros Hf Hnd. unfold function_view, apply_flavors; simpl.
  rewrite fold_apply_flavor_view by now apply refs_nodup.
  now rewrite map_map.
Qed.

(** *** The side tables *)

Lemma side_tables_load_passes c s :
  side_tables (load_passes c s) = side_tables s.
Proof.
  apply (load_passes_keeps (fun s' => side_tables s' = side_tables s));
    [| | |reflexivity].
  - intros func src s' H. exact H.
  - intros cls s' H. rewrite <- H. unfold _indexClass.
    destruct (JsMap.get (widgets s') (class_name cls)); reflexivity.
  - intros s' func H. rewrite <- H. unfold widget_func.
    destruct (isMethod func && Js.truthy (namespace func)); [|reflexivity].
    destruct (namespace func); reflexivity.
Qed.

Lemma set_add_present l x : set_has l x = true -> set_add l x = l.
Proof. unfold set_add, set_has. now intros ->. Qed.

Lemma set_has_add_mono l x y : set_has l y = true -> set_has (set_add l x) y = true.
Proof.
  unfold set_add, set_has. intros H.
  destruct (existsb (String.eqb x) l); [exact H|].
  rewrite existsb_app, H. reflexivity.
Qed.

Lemma set_has_add_same l x : set_has (set_add l x) x = true.
Proof.
  unfold set_add, set_has. destruct (existsb (String.eqb x) l) eqn:H; [exact H|].
  rewrite existsb_app. simpl. rewrite String.eqb_refl. apply orb_true_r.
Qed.

Lemma set_has_fold_add names l x :
  set_has l x = true \/ In x names -> set_has (fold_left set_add names l) x = true.
Proof.
  revert l. induction names as [|n names IH]; intros l [H|H]; simpl;
    try assumption; try contradiction.
  - apply IH. left. now apply set_has_add_mono.
  - apply IH. destruct H as [->|H]; [left; apply set_has_add_same | now right].
Qed.

Lemma fold_add_present names l :
  (forall x, In x names -> set_has l x = true) -> fold_left set_add names l = l.
Proof.
  induction names as [|n names IH]; intros H; simpl; [reflexivity|].
  rewrite set_add_present by (apply H; now left).
  apply IH. intros; apply H; now right.
Qed.

(** Adding the same names again changes nothing. *)
Lemma fold_add_twice names l :
  fold_left set_add names (fold_left set_add names l) = fold_left set_add names l.
Proof.
  apply fold_add_present. intros x Hx. apply set_has_fold_add. now right.
Qed.

(** *** The function table after a load *)

Lemma function_view_load_corpus c s :
  functions_ok s -> NoDup (JsMap.keys (functions s)) ->
  function_view (load_corpus c s)
  = map (flavor_entry (arrayPrototype c) (flavorMap (load_side_tables c s)))
        (fold_left apply_write (plan (deprecatedList (load_side_tables c s)) c)
                   (function_view s)).
Proof.
  intros Hf Hnd.
  set (s0 := load_side_tables c s). set (dl := deprecatedList s0).
  assert (Ht : tracks dl (load_passes c s0)
                      (fold_left apply_write (plan dl c) (function_view s))).
  { apply tracks_load_passes. repeat split. exact Hf. }
  destruct Ht as (Hf7 & _ & Hv7).
  pose proof (side_tables_load_passes c s0) as Hside.
  assert (Hfm : flavorMap (load_passes c s0) = flavorMap s0).
  { unfold side_tables in Hside. injection Hside. auto. }
  unfold load_corpus. fold s0.
  rewrite function_view_flavors.
  - change (map (flavor_entry (arrayPrototype c) (flavorMap (load_passes c s0)))
                (function_view (load_passes c s0))
            = map (flavor_entry (arrayPrototype c) (flavorMap s0))
                  (fold_left apply_write (plan dl c) (function_view s))).
    now rewrite Hfm, Hv7.
  - exact Hf7.
  - change (NoDup (JsMap.keys (functions (load_passes c s0)))).
    rewrite <- keys_function_view, Hv7.
    apply nodup_fold_write. now rewrite keys_function_view.
Qed.

Lemma side_tables_load_corpus c s :
  deprecatedList (load_corpus c s) = deprecatedList (load_side_tables c s)
  /\ flavorMap (load_corpus c s) = flavorMap (load_side_tables c s)
  /\ extensionVersion (load_corpus c s) = extensionVersion (load_side_tables c s)
  /\ enums (load_corpus c s)
     = match enumLua c with
       | Some text => LuaAnnotations.parseEnumFile text
       | None => enums s
       end
  /\ events (load_corpus c s)
     = match eventLua c with
       | Some text => LuaAnnotations.parseEventFile text
       | None => events s
       end
  /\ cvars (load_corpus c s)
     = match cvarLua c with
       | Some text => LuaAnnotations.parseCVarFile text
       | None => cvars s
       end.
Proof.
  pose proof (side_tables_load_passes c (load_side_tables c s)) as Hside.
  unfold side_tables in Hside. injection Hside as He Hev Hc Hd Hfm Hver.
  unfold load_corpus, apply_flavors, load_data_tables; simpl.
  rewrite He, Hev, Hc, Hd, Hfm, Hver. repeat split.
Qed.

(** A second load finds the side tables of the first. *)
Lemma side_tables_reload c :
  deprecatedList (load_side_tables c (load_corpus c newDataStore))
  = deprecatedList (load_side_tables c newDataStore)
  /\ flavorMap (load_side_tables c (load_corpus c newDataStore))
     = flavorMap (load_side_tables c newDataStore).
Proof.
  destruct (side_tables_load_corpus c newDataStore) as (Hd & Hfm & _).
  unfold load_side_tables at 1 3. cbn [deprecatedList flavorMap].
  rewrite Hd, Hfm. unfold load_side_tables. cbn [deprecatedList flavorMap].
  split.
  - destruct (deprecatedJs c); [apply fold_add_twice | reflexivity].
  - destruct (flavorJs c); reflexivity.
Qed.

Lemma nodup_keys_load_corpus c s :
  functions_ok s -> NoDup (JsMap.keys (functions s)) ->
  NoDup (JsMap.keys (functions (load_corpus c s))).
Proof.
  intros Hf Hnd. rewrite <- keys_function_view, function_view_load_corpus by assumption.
  rewrite keys_flavor. apply nodup_fold_write. now rewrite keys_function_view.
Qed.

(** The function table after two loads is the one after the first. *)
Lemma function_view_reload c :
  function_view (load_corpus c (load_corpus c newDataStore))
  = function_view (load_corpus c newDataStore).
Proof.
  assert (Hf0 : functions_ok newDataStore) by constructor.
  assert (Hn0 : NoDup (JsMap.keys (functions newDataStore))) by constructor.
  rewrite (function_view_load_corpus c (load_corpus c newDataStore));
    [|now apply functions_ok_load_corpus | now apply nodup_keys_load_corpus].
  destruct (side_tables_reload c) as (-> & ->).
  rewrite (function_view_load_corpus c newDataStore) by assumption.
  apply view_reload.
Qed.

(** *** The queries read the function table through its view *)

Lemma get_function_view s k :
  JsMap.get (function_view s) k
  = option_map (nth_error (heap s)) (JsMap.get (functions s) k).
Proof.
  unfold function_view. induction (functions s) as [|[k' r] m IH]; simpl;
    [reflexivity|].
  destruct (String.eqb k' k); [reflexivity | exact IH].
Qed.

Lemma find_function_view s (p : string -> bool) :
  option_map snd (find (fun e => p (fst e)) (function_view s))
  = option_map (fun e => nth_error (heap s) (snd e))
               (find (fun e => p (fst e)) (functions s)).
Proof.
  unfold function_view. induction (functions s) as [|[k' r] m IH]; simpl;
    [reflexivity|].
  destruct (p k'); [reflexivity | exact IH].
Qed.

Lemma mapM_map {A B C} (f : B -> Result C) (g : A -> B) l :
  mapM f (map g l) = mapM (fun a => f (g a)) l.
Proof. induction l as [|a l IH]; simpl; [reflexivity | now rewrite IH]. Qed.

Lemma function_entries_view s :
  function_entries s
  = mapM (fun e => func <- read_object (snd e) ;; Ok (fst e, func))
         (function_view s).
Proof. unfold function_entries, function_view. now rewrite mapM_map. Qed.

Section SameView.

Variable toLowerCase : string -> string.
Variables s s' : DataStore.
Hypothesis same_view : function_view s = function_view s'.

Lemma function_entries_same : function_entries s = function_entries s'.
Proof. now rewrite !function_entries_view, same_view. Qed.

Lemma lookupApi_same q : lookupApi toLowerCase s q = lookupApi toLowerCase s' q.
Proof.
  unfold lookupApi.
  pose proof (get_function_view s q) as H1.
  rewrite same_view, get_function_view in H1.
  destruct (JsMap.get (functions s) q) as [r|], (JsMap.get (functions s') q) as [r'|];
    simpl in H1; try discriminate.
  - injection H1 as H1. unfold deref. now rewrite H1.
  - set (p := fun k => String.eqb (toLowerCase k) (toLowerCase q)).
    pose proof (find_function_view s p) as H2.
    rewrite same_view, find_function_view in H2.
    change (find (fun e : string * ref => String.eqb (toLowerCase (fst e))
                                                     (toLowerCase q)))
      with (find (fun e : string * ref => p (fst e))).
    destruct (find (fun e => p (fst e)) (functions s)) as [[k r]|],
             (find (fun e => p (fst e)) (functions s')) as [[k' r']|];
      simpl in H2; try discriminate.
    + injection H2 as H2. unfold deref. now rewrite H2.
    + now rewrite function_entries_same.
Qed.

Lemma searchApi_same q : searchApi toLowerCase s q = searchApi toLowerCase s' q.
Proof. unfold searchApi. now rewrite function_entries_same. Qed.

Lemma listDeprecated_same flt :
  listDeprecated toLowerCase s flt = listDeprecated toLowerCase s' flt.
Proof. unfold listDeprecated. now rewrite function_entries_same. Qed.

End SameView.

(** *** The keys of the namespace and widget tables *)

Lemma keys_push_namespace m ns r :
  JsMap.has m ns = true -> JsMap.keys (push_namespace m ns r) = JsMap.keys m.
Proof.
  intros Hhas. unfold push_namespace. rewrite Hhas.
  destruct (JsMap.get m ns); [now apply keys_set_present | reflexivity].
Qed.

Lemma has_push_namespace m ns r k :
  JsMap.has m k = true -> JsMap.has (push_namespace m ns r) k = true.
Proof.
  intros Hhas. unfold push_namespace.
  set (m1 := if JsMap.has m ns then m else JsMap.set m ns []).
  assert (H1 : JsMap.has m1 k = true).
  { subst m1. destruct (JsMap.has m ns); [assumption | now apply has_set_mono]. }
  destruct (JsMap.get m1 ns); [now apply has_set_mono | assumption].
Qed.

Lemma has_push_namespace_key m ns r : JsMap.has (push_namespace m ns r) ns = true.
Proof.
  unfold push_namespace.
  set (m1 := if JsMap.has m ns then m else JsMap.set m ns []).
  assert (H1 : JsMap.has m1 ns = true).
  { subst m1. destruct (JsMap.has m ns) eqn:E; [assumption | apply has_set_same]. }
  destruct (JsMap.get m1 ns); [apply has_set_same | assumption].
Qed.

Lemma keys_push_method m owner r :
  JsMap.has m owner = true -> JsMap.keys (push_method m owner r) = JsMap.keys m.
Proof.
  intros Hhas. unfold push_method. rewrite Hhas.
  destruct (JsMap.get m owner); [now apply keys_set_present | reflexivity].
Qed.

Lemma has_push_method m owner r k :
  JsMap.has m k = true -> JsMap.has (push_method m owner r) k = true.
Proof.
  intros Hhas. unfold push_method.
  set (m1 := if JsMap.has m owner then m else JsMap.set m owner (mkWidget None [])).
  assert (H1 : JsMap.has m1 k = true).
  { subst m1. destruct (JsMap.has m owner); [assumption | now apply has_set_mono]. }
  destruct (JsMap.get m1 owner); [now apply has_set_mono | assumption].
Qed.

Lemma has_push_method_key m owner r : JsMap.has (push_method m owner r) owner = true.
Proof.
  unfold push_method.
  set (m1 := if JsMap.has m owner then m else JsMap.set m owner (mkWidget None [])).
  assert (H1 : JsMap.has m1 owner = true).
  { subst m1. destruct (JsMap.has m owner) eqn:E; [assumption | apply has_set_same]. }
  destruct (JsMap.get m1 owner); [apply has_set_same | assumption].
Qed.

(** The tables after the elementary steps. *)
Lemma namespaces_indexFunction func src s :
  namespaces (_indexFunction func src s)
  = match filed_under func with
    | Some ns => push_namespace (namespaces s) ns (List.length (heap s))
    | None => namespaces s
    end.
Proof.
  unfold _indexFunction, filed_under; simpl.
  rewrite stamped_namespace, stamped_isMethod.
  destruct (Js.truthy (namespace func) && negb (isMethod func)); [|reflexivity].
  destruct (namespace func); reflexivity.
Qed.

Lemma widgets_widget_func s func :
  widgets (widget_func s func)
  = match method_owner func with
    | Some owner => push_method (widgets s) owner (List.length (heap s))
    | None => widgets s
    end.
Proof.
  unfold widget_func, method_owner.
  destruct (isMethod func && Js.truthy (namespace func)); [|reflexivity].
  destruct (namespace func); reflexivity.
Qed.

Lemma widgets_indexClass cls s :
  widgets (_indexClass cls s)
  = JsMap.set (widgets s) (class_name cls)
              (mkWidget (Some cls)
                        (match JsMap.get (widgets s) (class_name cls) with
                         | Some w => methods w
                         | None => []
                         end)).
Proof.
  unfold _indexClass. destruct (JsMap.get (widgets s) (class_name cls)); reflexivity.
Qed.

(** The three tables only gain keys. *)
Lemma has_key_indexFunction table k func src s :
  has_key table s k = true -> has_key table (_indexFunction func src s) k = true.
Proof.
  destruct table; simpl; intros H.
  - now apply has_set_mono.
  - change (JsMap.has (namespaces (_indexFunction func src s)) k = true).
    rewrite namespaces_indexFunction.
    destruct (filed_under func); [now apply has_push_namespace | assumption].
  - assumption.
Qed.

Lemma has_key_indexClass table k cls s :
  has_key table s k = true -> has_key table (_indexClass cls s) k = true.
Proof.
  destruct (indexClass_tables cls s) as (_ & Hf & Hn).
  destruct table; simpl; intros H.
  - now rewrite Hf.
  - now rewrite Hn.
  - rewrite widgets_indexClass. now apply has_set_mono.
Qed.

Lemma has_key_widget_func table k s func :
  has_key table s k = true -> has_key table (widget_func s func) k = true.
Proof.
  intros H. apply (has_key_indexFunction table k func widget) in H.
  destruct (widget_func_tables s func) as (_ & Hf & Hn).
  destruct table; simpl in *.
  - now rewrite Hf.
  - now rewrite Hn.
  - rewrite widgets_widget_func.
    destruct (method_owner func); [now apply has_push_method | assumption].
Qed.

(** What each step files. *)
Lemma indexFunction_files func src s :
  has_key FunctionTable (_indexFunction func src s) (fullName func) = true
  /\ (forall ns, filed_under func = Some ns ->
                 has_key NamespaceTable (_indexFunction func src s) ns = true).
Proof.
  split.
  - simpl. rewrite stamped_fullName. apply has_set_same.
  - intros ns Hns. simpl.
    change (JsMap.has (namespaces (_indexFunction func src s)) ns = true).
    rewrite namespaces_indexFunction, Hns. apply has_push_namespace_key.
Qed.

Lemma if_absent_files func src s :
  has_key FunctionTable
          (if negb (JsMap.has (functions s) (fullName func))
           then _indexFunction func src s else s)
          (fullName func) = true.
Proof.
  destruct (JsMap.has (functions s) (fullName func)) eqn:H; simpl.
  - exact H.
  - rewrite stamped_fullName. apply has_set_same.
Qed.

Lemma widget_func_files s func :
  has_key FunctionTable (widget_func s func) (fullName func) = true
  /\ (forall ns, filed_under func = Some ns ->
                 has_key NamespaceTable (widget_func s func) ns = true)
  /\ (forall owner, method_owner func = Some owner ->
                    has_key WidgetTable (widget_func s func) owner = true).
Proof.
  destruct (widget_func_tables s func) as (_ & Hf & Hn).
  destruct (indexFunction_files func widget s) as (H1 & H2).
  split; [|split].
  - simpl in *. now rewrite Hf.
  - intros ns Hns. simpl. rewrite Hn. now apply H2.
  - intros owner Ho. simpl. rewrite widgets_widget_func, Ho.
    apply has_push_method_key.
Qed.

Lemma indexClass_files cls s :
  has_key WidgetTable (_indexClass cls s) (class_name cls) = true.
Proof. simpl. rewrite widgets_indexClass. apply has_set_same. Qed.

(** *** What a load files is there when it ends *)

Lemma fold_left_establishes {A B : Type} (Q : A -> Prop) (f : A -> B -> A)
      (l : list B) (x : B) (a : A) :
  (forall a b, Q a -> Q (f a b)) -> In x l -> (forall a, Q (f a x)) ->
  Q (fold_left f l a).
Proof.
  intros Hmono Hin Hx. revert a.
  induction l as [|b l IH]; intros a; simpl; [contradiction|].
  destruct Hin as [->|Hin]; [|now apply IH].
  apply fold_left_invariant; [exact Hmono | apply Hx].
Qed.

Section Established.
Import LuaAnnotations.

Variable table : Table.
Variable k : string.

Local Abbreviation Q := (key_present table k).

Lemma key_kept_indexFunction func src s : Q s -> Q (_indexFunction func src s).
Proof. apply has_key_indexFunction. Qed.

Lemma key_kept_indexClass cls s : Q s -> Q (_indexClass cls s).
Proof. apply has_key_indexClass. Qed.

Lemma key_kept_widget_func s func : Q s -> Q (widget_func s func).
Proof. apply has_key_widget_func. Qed.

Variable c : Corpus.

(** Once a key is there, the later files and passes keep it. *)
Lemma kept_after_blizzard s :
  Q s ->
  Q (fold_left framexml_file (frameXmlDocs c)
       (fold_left widget_file (widgetDocs c)
          (match wikiLua c with
           | Some text => wiki_pass text
                            (fold_left deprecated_file (deprecatedDocs c) s)
           | None => fold_left deprecated_file (deprecatedDocs c) s
           end))).
Proof.
  intros H.
  apply fold_left_invariant;
    [intros; now apply (framexml_file_keeps Q key_kept_indexFunction key_kept_indexClass)|].
  apply fold_left_invariant;
    [intros; now apply (widget_file_keeps Q key_kept_indexClass key_kept_widget_func)|].
  assert (H4 : Q (fold_left deprecated_file (deprecatedDocs c) s)).
  { apply fold_left_invariant; [|exact H].
    intros; now apply (deprecated_file_keeps Q key_kept_indexFunction). }
  destruct (wikiLua c); [now apply (wiki_pass_keeps Q key_kept_indexFunction) | exact H4].
Qed.

Lemma kept_after_deprecated s :
  Q s ->
  Q (fold_left framexml_file (frameXmlDocs c)
       (fold_left widget_file (widgetDocs c)
          (match wikiLua c with
           | Some text => wiki_pass text s
           | None => s
           end))).
Proof.
  intros H.
  apply fold_left_invariant;
    [intros; now apply (framexml_file_keeps Q key_kept_indexFunction key_kept_indexClass)|].
  apply fold_left_invariant;
    [intros; now apply (widget_file_keeps Q key_kept_indexClass key_kept_widget_func)|].
  destruct (wikiLua c); [now apply (wiki_pass_keeps Q key_kept_indexFunction) | exact H].
Qed.

Lemma kept_after_wiki s :
  Q s ->
  Q (fold_left framexml_file (frameXmlDocs c)
       (fold_left widget_file (widgetDocs c) s)).
Proof.
  intros H.
  apply fold_left_invariant;
    [intros; now apply (framexml_file_keeps Q key_kept_indexFunction key_kept_indexClass)|].
  apply fold_left_invariant;
    [intros; now apply (widget_file_keeps Q key_kept_indexClass key_kept_widget_func) | exact H].
Qed.

Lemma kept_after_widget s :
  Q s -> Q (fold_left framexml_file (frameXmlDocs c) s).
Proof.
  intros H. apply fold_left_invariant;
    [intros; now apply (framexml_file_keeps Q key_kept_indexFunction key_kept_indexClass) | exact H].
Qed.

(** A file that files the key in one of the five passes. *)
Lemma established_blizzard s file :
  In file (blizzardDocs c) -> (forall a, Q (blizzard_file a file)) ->
  Q (load_passes c s).
Proof.
  intros Hin Hfile. unfold load_passes. apply kept_after_blizzard.
  apply (fold_left_establishes Q blizzard_file _ file); [|assumption|assumption].
  intros; now apply (blizzard_file_keeps Q key_kept_indexFunction key_kept_indexClass).
Qed.

Lemma established_deprecated s file :
  In file (deprecatedDocs c) -> (forall a, Q (deprecated_file a file)) ->
  Q (load_passes c s).
Proof.
  intros Hin Hfile. unfold load_passes. apply kept_after_deprecated.
  apply (fold_left_establishes Q deprecated_file _ file); [|assumption|assumption].
  intros; now apply (deprecated_file_keeps Q key_kept_indexFunction).
Qed.

Lemma established_wiki s text :
  wikiLua c = Some text -> (forall a, Q (wiki_pass text a)) ->
  Q (load_passes c s).
Proof.
  intros Hw Hpass. unfold load_passes. rewrite Hw. apply kept_after_wiki.
  apply Hpass.
Qed.

Lemma established_widget s file :
  In file (widgetDocs c) -> (forall a, Q (widget_file a file)) ->
  Q (load_passes c s).
Proof.
  intros Hin Hfile. unfold load_passes. apply kept_after_widget.
  apply (fold_left_establishes Q widget_file _ file); [|assumption|assumption].
  intros; now apply (widget_file_keeps Q key_kept_indexClass key_kept_widget_func).
Qed.

Lemma established_framexml s file :
  In file (frameXmlDocs c) -> (forall a, Q (framexml_file a file)) ->
  Q (load_passes c s).
Proof.
  intros Hin Hfile. unfold load_passes.
  apply (fold_left_establishes Q framexml_file _ file); [|assumption|assumption].
  intros; now apply (framexml_file_keeps Q key_kept_indexFunction key_kept_indexClass).
Qed.

(** A function or a class of a file that files the key. *)
Lemma blizzard_file_function a file func :
  In func (parsed_functions (snd file)) ->
  (forall a, Q (_indexFunction func blizzard a)) -> Q (blizzard_file a file).
Proof.
  intros Hin Hf. unfold blizzard_file.
  apply (index_classes_keeps Q key_kept_indexClass). unfold index_all.
  apply (fold_left_establishes Q (fun s func => _indexFunction func blizzard s)
                               _ func); [|exact Hin|exact Hf].
  intros; now apply key_kept_indexFunction.
Qed.

Lemma blizzard_file_class a file cls :
  In cls (parsed_classes (snd file)) ->
  (forall a, Q (_indexClass cls a)) -> Q (blizzard_file a file).
Proof.
  intros Hin Hc. unfold blizzard_file, index_classes.
  apply (fold_left_establishes Q (fun s cls => _indexClass cls s) _ cls);
    [|exact Hin|exact Hc].
  intros; now apply key_kept_indexClass.
Qed.

Lemma deprecated_file_function a file func :
  In func (parsed_functions (snd file)) ->
  (forall a, Q (deprecated_func (extractPatchFromFilename (fst file)) a func)) ->
  Q (deprecated_file a file).
Proof.
  intros Hin Hf. unfold deprecated_file.
  apply (fold_left_establishes Q _ _ func); [|exact Hin|exact Hf].
  intros; unfold deprecated_func; now apply key_kept_indexFunction.
Qed.

Lemma wiki_pass_function a text func :
  In func (parsed_functions text) ->
  (forall a, Q (wiki_func a func)) -> Q (wiki_pass text a).
Proof.
  intros Hin Hf. unfold wiki_pass.
  apply (fold_left_establishes Q _ _ func); [|exact Hin|exact Hf].
  intros; now apply (wiki_func_keeps Q key_kept_indexFunction).
Qed.

Lemma widget_file_function a file func :
  In func (parsed_functions (snd file)) ->
  (forall a, Q (widget_func a func)) -> Q (widget_file a file).
Proof.
  intros Hin Hf. unfold widget_file.
  apply (fold_left_establishes Q _ _ func); [|exact Hin|exact Hf].
  intros; now apply key_kept_widget_func.
Qed.

Lemma widget_file_class a file cls :
  In cls (parsed_classes (snd file)) ->
  (forall a, Q (_indexClass cls a)) -> Q (widget_file a file).
Proof.
  intros Hin Hc. unfold widget_file.
  apply fold_left_invariant; [intros; now apply key_kept_widget_func|].
  unfold index_classes.
  apply (fold_left_establishes Q (fun s cls => _indexClass cls s) _ cls);
    [|exact Hin|exact Hc].
  intros; now apply key_kept_indexClass.
Qed.

Lemma framexml_file_function a file func :
  In func (parsed_functions (snd file)) ->
  (forall a, Q (framexml_func a func)) -> Q (framexml_file a file).
Proof.
  intros Hin Hf. unfold framexml_file.
  apply (fold_left_establishes Q _ _ func); [|exact Hin|exact Hf].
  intros; now apply (framexml_func_keeps Q key_kept_indexFunction).
Qed.

Lemma framexml_file_class a file cls :
  In cls (parsed_classes (snd file)) ->
  (forall a, Q (_indexClass cls a)) -> Q (framexml_file a file).
Proof.
  intros Hin Hc. unfold framexml_file.
  apply fold_left_invariant; [intros; now apply (framexml_func_keeps Q key_kept_indexFunction)|].
  unfold index_classes.
  apply (fold_left_establishes Q (fun s cls => _indexClass cls s) _ cls);
    [|exact Hin|exact Hc].
  intros; now apply key_kept_indexClass.
Qed.

End Established.

(** *** A load saturates the store *)

Section Saturation.
Import LuaAnnotations.

Variable c : Corpus.

Lemma deprecated_func_files patch a func :
  has_key FunctionTable (deprecated_func patch a func) (fullName func) = true
  /\ (forall ns, filed_under func = Some ns ->
                 has_key NamespaceTable (deprecated_func patch a func) ns = true).
Proof.
  unfold deprecated_func.
  apply (indexFunction_files
           (with_deprecated (with_deprecatedInPatch func patch) true)).
Qed.

Lemma wiki_func_files a func :
  has_key FunctionTable (wiki_func a func) (fullName func) = true.
Proof.
  unfold wiki_func.
  destruct (set_has (deprecatedList a) (Js.or_else (name func) (fullName func))).
  - apply (if_absent_files (with_deprecated func true)).
  - apply if_absent_files.
Qed.

Lemma load_passes_saturates s : saturated c (load_passes c s).
Proof.
  unfold saturated. split; [|split; [|split; [|split]]].
  - intros file func Hfile Hfunc.
    change (has_key FunctionTable (load_passes c s) (fullName func) = true).
    rewrite !in_app_iff in Hfile. destruct Hfile as [H|[H|[H|H]]].
    + apply (established_blizzard _ _ c s file H). intros a.
      apply (blizzard_file_function _ _ a file func Hfunc). intros a'.
      apply indexFunction_files.
    + apply (established_deprecated _ _ c s file H). intros a.
      apply (deprecated_file_function _ _ a file func Hfunc). intros a'.
      apply deprecated_func_files.
    + apply (established_widget _ _ c s file H). intros a.
      apply (widget_file_function _ _ a file func Hfunc). intros a'.
      apply widget_func_files.
    + apply (established_framexml _ _ c s file H). intros a.
      apply (framexml_file_function _ _ a file func Hfunc). intros a'.
      apply if_absent_files.
  - intros text func Htext Hfunc.
    change (has_key FunctionTable (load_passes c s) (fullName func) = true).
    apply (established_wiki _ _ c s text Htext). intros a.
    apply (wiki_pass_function _ _ a text func Hfunc). intros a'.
    apply wiki_func_files.
  - intros file func ns Hfile Hfunc Hns.
    change (has_key NamespaceTable (load_passes c s) ns = true).
    rewrite !in_app_iff in Hfile. destruct Hfile as [H|[H|H]].
    + apply (established_blizzard _ _ c s file H). intros a.
      apply (blizzard_file_function _ _ a file func Hfunc). intros a'.
      now apply indexFunction_files.
    + apply (established_deprecated _ _ c s file H). intros a.
      apply (deprecated_file_function _ _ a file func Hfunc). intros a'.
      now apply deprecated_func_files.
    + apply (established_widget _ _ c s file H). intros a.
      apply (widget_file_function _ _ a file func Hfunc). intros a'.
      now apply widget_func_files.
  - intros file func owner Hfile Hfunc Ho.
    change (has_key WidgetTable (load_passes c s) owner = true).
    apply (established_widget _ _ c s file Hfile). intros a.
    apply (widget_file_function _ _ a file func Hfunc). intros a'.
    now apply widget_func_files.
  - intros file cls Hfile Hcls.
    change (has_key WidgetTable (load_passes c s) (class_name cls) = true).
    rewrite !in_app_iff in Hfile. destruct Hfile as [H|[H|H]].
    + apply (established_blizzard _ _ c s file H). intros a.
      apply (blizzard_file_class _ _ a file cls Hcls). intros a'.
      apply indexClass_files.
    + apply (established_widget _ _ c s file H). intros a.
      apply (widget_file_class _ _ a file cls Hcls). intros a'.
      apply indexClass_files.
    + apply (established_framexml _ _ c s file H). intros a.
      apply (framexml_file_class _ _ a file cls Hcls). intros a'.
      apply indexClass_files.
Qed.

(** *** A load into a saturated store adds no key *)

Variable t : DataStore.
Hypothesis Hsat : saturated c t.

Local Abbreviation same_keys := (same_keys t).

Lemma same_keys_index func src s :
  (forall ns, filed_under func = Some ns -> JsMap.has (namespaces t) ns = true) ->
  same_keys s -> same_keys (_indexFunction func src s).
Proof.
  intros Hns (Hf & Hn & Hw). split; [|split].
  - intros k Hk. apply (has_key_indexFunction FunctionTable). now apply Hf.
  - rewrite namespaces_indexFunction.
    destruct (filed_under func) as [ns|]; [|exact Hn].
    rewrite keys_push_namespace; [exact Hn|].
    rewrite (has_same_keys _ (namespaces t)) by exact Hn. now apply Hns.
  - exact Hw.
Qed.

Lemma same_keys_class cls s :
  JsMap.has (widgets t) (class_name cls) = true ->
  same_keys s -> same_keys (_indexClass cls s).
Proof.
  intros Hc (Hf & Hn & Hw).
  destruct (indexClass_tables cls s) as (_ & Ef & En).
  split; [|split].
  - now rewrite Ef.
  - now rewrite En.
  - rewrite widgets_indexClass, keys_set_present; [exact Hw|].
    now rewrite (has_same_keys _ (widgets t)) by exact Hw.
Qed.

Lemma same_keys_classes file s :
  In file (blizzardDocs c ++ widgetDocs c ++ frameXmlDocs c) ->
  same_keys s -> same_keys (index_classes (ps_classes (parseLuaFile (snd file))) s).
Proof.
  intros Hfile. unfold index_classes.
  apply (fold_left_invariant_in same_keys).
  intros a cls Hcls Ha. apply same_keys_class; [|exact Ha].
  destruct Hsat as (_ & _ & _ & _ & H5). now apply (H5 file).
Qed.

Lemma same_keys_widget func s :
  (forall ns, filed_under func = Some ns -> JsMap.has (namespaces t) ns = true) ->
  (forall owner, method_owner func = Some owner ->
                 JsMap.has (widgets t) owner = true) ->
  same_keys s -> same_keys (widget_func s func).
Proof.
  intros Hns Ho Hs.
  pose proof (same_keys_index func widget s Hns Hs) as (Hf & Hn & Hw).
  destruct (widget_func_tables s func) as (_ & Ef & En).
  split; [|split].
  - now rewrite Ef.
  - now rewrite En.
  - rewrite widgets_widget_func.
    destruct (method_owner func) as [owner|]; [|apply Hs].
    destruct Hs as (_ & _ & Hw0).
    rewrite keys_push_method; [exact Hw0|].
    rewrite (has_same_keys _ (widgets t)) by exact Hw0. now apply Ho.
Qed.

Lemma load_passes_same_keys s : same_keys s -> same_keys (load_passes c s).
Proof.
  destruct Hsat as (H1 & H2 & H3 & H4 & H5).
  intros Hs. unfold load_passes.
  (* FrameXML: every name is taken *)
  apply (fold_left_invariant_in same_keys).
  { intros a file Hfile Ha. unfold framexml_file.
    apply (fold_left_invariant_in same_keys).
    - intros a' func Hfunc Ha'. unfold framexml_func.
      destruct Ha' as (Hf & Hn & Hw).
      rewrite Hf; [simpl; repeat split; assumption|].
      apply (H1 file func); [|exact Hfunc]. rewrite !in_app_iff. auto.
    - apply same_keys_classes; [|exact Ha]. rewrite !in_app_iff. auto. }
  (* Widget *)
  apply (fold_left_invariant_in same_keys).
  { intros a file Hfile Ha. unfold widget_file.
    apply (fold_left_invariant_in same_keys).
    - intros a' func Hfunc Ha'. apply same_keys_widget; [| |exact Ha'].
      + intros ns Hns. apply (H3 file func ns); [|exact Hfunc|exact Hns].
        rewrite !in_app_iff. auto.
      + intros owner Ho. now apply (H4 file func owner).
    - apply same_keys_classes; [|exact Ha]. rewrite !in_app_iff. auto. }
  (* Wiki: every name is taken *)
  assert (Hwiki : forall s4, same_keys s4 ->
            same_keys (match wikiLua c with
                       | Some text => wiki_pass text s4 | None => s4 end)).
  { intros s4 H. destruct (wikiLua c) as [text|] eqn:Htext; [|exact H].
    unfold wiki_pass. apply (fold_left_invariant_in same_keys); [|exact H].
    intros a func Hfunc Ha. rewrite wiki_func_present; [exact Ha|].
    destruct Ha as (Hf & _). apply Hf. now apply (H2 text). }
  apply Hwiki.
  (* Deprecated *)
  apply (fold_left_invariant_in same_keys).
  { intros a file Hfile Ha. unfold deprecated_file.
    apply (fold_left_invariant_in same_keys); [|exact Ha].
    intros a' func Hfunc Ha'. unfold deprecated_func.
    apply same_keys_index; [|exact Ha'].
    intros ns Hns. apply (H3 file func ns); [|exact Hfunc|exact Hns].
    rewrite !in_app_iff. auto. }
  (* Blizzard *)
  apply (fold_left_invariant_in same_keys); [|exact Hs].
  intros a file Hfile Ha. unfold blizzard_file.
  apply same_keys_classes; [rewrite !in_app_iff; auto|].
  unfold index_all. apply (fold_left_invariant_in same_keys); [|exact Ha].
  intros a' func Hfunc Ha'. apply same_keys_index; [|exact Ha'].
  intros ns Hns. apply (H3 file func ns); [|exact Hfunc|exact Hns].
  rewrite !in_app_iff. auto.
Qed.

End Saturation.

(** The namespace and widget keys after two loads are those after one. *)
Lemma keys_reload c :
  JsMap.keys (namespaces (load_corpus c (load_corpus c newDataStore)))
  = JsMap.keys (namespaces (load_corpus c newDataStore))
  /\ JsMap.keys (widgets (load_corpus c (load_corpus c newDataStore)))
     = JsMap.keys (widgets (load_corpus c newDataStore)).
Proof.
  set (s7 := load_passes c (load_side_tables c newDataStore)).
  set (t := load_side_tables c (load_corpus c newDataStore)).
  assert (Hsat : saturated c t).
  { pose proof (load_passes_saturates c (load_side_tables c newDataStore)) as H.
    exact H. }
  destruct (load_passes_same_keys c t Hsat t) as (_ & Hn & Hw).
  { repeat split. auto. }
  split; [exact Hn | exact Hw].
Qed.

Lemma size_keys {A} (m : JsMap.t A) : JsMap.size m = List.length (JsMap.keys m).
Proof. unfold JsMap.size, JsMap.keys. now rewrite length_map. Qed.

(** C9, as [load] has it.  [load] does not reset the store.  A second
    load of an unchanged corpus into the same store leaves the function
    table as the first load left it, key for key and field for field, and
    with it the answers of [lookupApi], [searchApi] and [listDeprecated];
    the enum, event and CVar tables, the version of the extension, the
    keys of the namespace and widget tables and the answers of [getEnum],
    [searchEnums], [getEvent], [listNamespaces], [listWidgets] and
    [getStats] are those of the first load as well. *)
Theorem reload_keeps_function_table (toLowerCase toUpperCase : string -> string)
        (c : Corpus) (once twice : DataStore) (q : string) (flt : option string) :
  load (Some c) newDataStore = Ok once ->
  load (Some c) once = Ok twice ->
  function_view twice = function_view once
  /\ lookupApi toLowerCase twice q = lookupApi toLowerCase once q
  /\ searchApi toLowerCase twice q = searchApi toLowerCase once q
  /\ listDeprecated toLowerCase twice flt = listDeprecated toLowerCase once flt
  /\ getEnum toLowerCase twice q = getEnum toLowerCase once q
  /\ searchEnums toLowerCase twice q = searchEnums toLowerCase once q
  /\ getEvent toUpperCase twice q = getEvent toUpperCase once q
  /\ listNamespaces twice = listNamespaces once
  /\ listWidgets twice = listWidgets once
  /\ getStats twice = getStats once
  /\ cvars twice = cvars once
  /\ extensionVersion twice = extensionVersion once.
Proof.
  intros H1 H2. injection H1 as <-. injection H2 as <-.
  pose proof (function_view_reload c) as Hv.
  destruct (side_tables_load_corpus c newDataStore)
    as (_ & _ & Hver1 & Hen1 & Hev1 & Hcv1).
  destruct (side_tables_load_corpus c (load_corpus c newDataStore))
    as (_ & _ & Hver2 & Hen2 & Hev2 & Hcv2).
  assert (Hen : enums (load_corpus c (load_corpus c newDataStore))
                = enums (load_corpus c newDataStore)).
  { rewrite Hen2. destruct (enumLua c); [now rewrite Hen1 | reflexivity]. }
  assert (Hev : events (load_corpus c (load_corpus c newDataStore))
                = events (load_corpus c newDataStore)).
  { rewrite Hev2. destruct (eventLua c); [now rewrite Hev1 | reflexivity]. }
  split; [exact Hv|].
  split; [now apply lookupApi_same|].
  split; [now apply searchApi_same|].
  split; [now apply listDeprecated_same|].
  split; [unfold getEnum, getEnum_partial; now rewrite Hen|].
  split; [unfold searchEnums; now rewrite Hen|].
  split; [unfold getEvent, getEvent_partial; now rewrite Hev|].
  destruct (keys_reload c) as (Hn & Hw).
  assert (Hcv : cvars (load_corpus c (load_corpus c newDataStore))
                = cvars (load_corpus c newDataStore)).
  { rewrite Hcv2. destruct (cvarLua c); [now rewrite Hcv1 | reflexivity]. }
  assert (Hver : extensionVersion (load_corpus c (load_corpus c newDataStore))
                 = extensionVersion (load_corpus c newDataStore)).
  { rewrite Hver2, Hver1. reflexivity. }
  split; [unfold listNamespaces; now rewrite Hn|].
  split; [unfold listWidgets; now rewrite Hw|].
  split; [|split; assumption].
  unfold getStats. rewrite (function_entries_same _ _ Hv).
  rewrite !size_keys, Hn, Hw, Hen, Hev, Hcv, Hver.
  rewrite <- !keys_function_view, Hv. reflexivity.
Qed.

Lemma reload_keeps_function_table_witness :
  function_view reloaded = function_view Samples.store
  /\ lookupApi Js.ascii_toLowerCase reloaded "isspellknown"
     = lookupApi Js.ascii_toLowerCase Samples.store "isspellknown".
Proof.
  destruct (reload_keeps_function_table Js.ascii_toLowerCase Js.ascii_toUpperCase
              Samples.corpus Samples.store reloaded "isspellknown" None
              eq_refl eq_refl) as (H1 & H2 & _).
  exact (conj H1 H2).
Defined.

(** C9, as stated, fails: the second load files the functions of the
    unconditional passes again, so the list of a namespace and the method
    list of a widget come back longer than after one load. *)
Lemma reload_accumulates :
  option_map (@List.length ref) (JsMap.get (namespaces Samples.store) "C_SpellBook")
  = Some 2
  /\ option_map (@List.length ref) (JsMap.get (namespaces reloaded) "C_SpellBook")
     = Some 4
  /\ getNamespace Js.ascii_toLowerCase reloaded "C_SpellBook"
     <> getNamespace Js.ascii_toLowerCase Samples.store "C_SpellBook"
  /\ getWidgetMethods Js.ascii_toLowerCase reloaded "Frame"
     <> getWidgetMethods Js.ascii_toLowerCase Samples.store "Frame".
Proof.
  split; [vm_compute; reflexivity|].
  split; [vm_compute; reflexivity|].
  split; vm_compute; discriminate.
Qed.

(** ** Which declaration a fresh load keeps *)

Section Precedence.

Lemma get_fold_write ops V k :
  JsMap.get (fold_left apply_write ops V) k
  = match last_always ops k with
    | Some f => Some (Some f)
    | None =>
        match JsMap.get V k with
        | Some x => Some x
        | None => option_map Some (first_written ops k)
        end
    end.
Proof.
  revert V. induction ops as [|w ops IH]; intros V; simpl.
  - unfold first_written. simpl. now destruct (JsMap.get V k).
  - rewrite IH. destruct (last_always ops k) as [f|] eqn:Hrest; [reflexivity|].
    unfold first_written. simpl.
    destruct w as [g|g]; simpl.
    + destruct (String.eqb_spec (fullName g) k) as [E|Hne].
      * subst k. now rewrite get_set_same.
      * rewrite get_set_other by assumption. reflexivity.
    + destruct (String.eqb_spec (fullName g) k) as [E|Hne].
      * subst k. unfold JsMap.has.
        destruct (JsMap.get V (fullName g)) as [x|] eqn:Hg.
        -- now rewrite Hg.
        -- now rewrite get_set_same.
      * destruct (JsMap.has V (fullName g)); [reflexivity|].
        rewrite get_set_other by assumption. reflexivity.
Qed.

Lemma get_fresh_view c k :
  JsMap.get (function_view (load_corpus c newDataStore)) k
  = option_map
      (fun f => Some (flavored (arrayPrototype c) (flavorMap (load_corpus c newDataStore)) k f))
      (resolve (plan (deprecatedList (load_corpus c newDataStore)) c) k).
Proof.
  destruct (side_tables_load_corpus c newDataStore) as (-> & -> & _).
  rewrite function_view_load_corpus by constructor.
  rewrite get_flavor, get_fold_write. unfold resolve. simpl.
  destruct (last_always _ k); [reflexivity|].
  now destruct (first_written _ k).
Qed.

End Precedence.

Section Declared.

Lemma last_always_written ops k f :
  last_always ops k = Some f -> In (Always f) ops /\ fullName f = k.
Proof.
  induction ops as [|w ops IH]; simpl; [discriminate|].
  destruct (last_always ops k) as [g|].
  - intros E. injection E as ->. destruct (IH eq_refl). auto.
  - destruct w as [g|g]; [|discriminate].
    destruct (String.eqb_spec (fullName g) k); [|discriminate].
    intros E. injection E as ->. auto.
Qed.

Lemma resolve_written ops k f :
  resolve ops k = Some f ->
  exists w, In w ops /\ written w = f /\ fullName f = k.
Proof.
  unfold resolve. destruct (last_always ops k) as [g|] eqn:Hl.
  - intros E. injection E as ->. destruct (last_always_written _ _ _ Hl).
    exists (Always f). auto.
  - unfold first_written.
    destruct (find _ ops) as [w|] eqn:Hf; [|discriminate].
    intros E. injection E as <-. apply find_some in Hf. destruct Hf as (Hin & He).
    apply String.eqb_eq in He. exists w. auto.
Qed.

Lemma resolve_finds ops k w :
  In w ops -> fullName (written w) = k -> resolve ops k <> None.
Proof.
  intros Hin Hk. unfold resolve. destruct (last_always ops k); [discriminate|].
  unfold first_written.
  destruct (find _ ops) as [w'|] eqn:Hf; [discriminate|].
  apply (find_none _ _ Hf) in Hin. rewrite Hk, String.eqb_refl in Hin.
  discriminate.
Qed.

Lemma mark_deprecated_fullName dl func :
  fullName (mark_deprecated dl func) = fullName func.
Proof. unfold mark_deprecated. now destruct (set_has dl _). Qed.

Lemma mark_deprecated_name dl func : name (mark_deprecated dl func) = name func.
Proof. unfold mark_deprecated. now destruct (set_has dl _). Qed.

Lemma names_of_writes (g : FunctionRecord -> Write) files :
  (forall func, fullName (written (g func)) = fullName func) ->
  map (fun w => fullName (written w))
      (flat_map (fun file : string * string => map g (parsed_functions (snd file)))
                files)
  = flat_map (fun text => map fullName (parsed_functions text)) (map snd files).
Proof.
  intros Hg. induction files as [|file files IH]; simpl; [reflexivity|].
  rewrite map_app, IH, map_map. f_equal. apply map_ext. exact Hg.
Qed.

(** The keys the plan writes are the full names the files declare, in
    the order of the passes. *)
Lemma plan_names dl c :
  map (fun w => fullName (written w)) (plan dl c)
  = flat_map (fun text => map fullName (parsed_functions text))
             (annotation_texts c).
Proof.
  unfold plan, annotation_texts. rewrite !map_app, !flat_map_app.
  f_equal; [|f_equal; [|f_equal; [|f_equal]]].
  - apply (names_of_writes (fun func => Always (stamped func blizzard))).
    intros. apply stamped_fullName.
  - unfold deprecated_writes.
    induction (deprecatedDocs c) as [|file files IH]; simpl; [reflexivity|].
    rewrite map_app, IH, map_map. f_equal. apply map_ext.
    intros func. simpl. now rewrite stamped_fullName.
  - destruct (wikiLua c) as [text|]; simpl; [|reflexivity].
    unfold wiki_writes. rewrite map_map, app_nil_r. apply map_ext.
    intros func. simpl. now rewrite stamped_fullName, mark_deprecated_fullName.
  - apply (names_of_writes (fun func => Always (stamped func widget))).
    intros. apply stamped_fullName.
  - apply (names_of_writes (fun func => IfAbsent (stamped func framexml))).
    intros. apply stamped_fullName.
Qed.

Lemma declared_in_plan dl c k :
  declared c k <-> exists w, In w (plan dl c) /\ fullName (written w) = k.
Proof.
  assert (E : In k (map (fun w => fullName (written w)) (plan dl c))
              <-> declared c k).
  { rewrite plan_names, in_flat_map. unfold declared. split.
    - intros (text & Hin & Hk). apply in_map_iff in Hk.
      destruct Hk as (func & Hk & Hf). now exists text, func.
    - intros (text & func & Hin & Hf & Hk). exists text. split; [assumption|].
      apply in_map_iff. now exists func. }
  rewrite <- E, in_map_iff. split; intros (w & H1 & H2); exists w; auto.
Qed.

End Declared.

(** The record a fresh load files under a key, as the queries reach it. *)
Lemma fresh_view_resolved c k :
  (forall (toLowerCase : string -> string) f,
      resolve (plan (deprecatedList (load_corpus c newDataStore)) c) k = Some f ->
      lookupApi toLowerCase (load_corpus c newDataStore) k
      = Ok [flavored (arrayPrototype c) (flavorMap (load_corpus c newDataStore)) k f])
  /\ (resolve (plan (deprecatedList (load_corpus c newDataStore)) c) k = None ->
      JsMap.has (functions (load_corpus c newDataStore)) k = false).
Proof.
  pose proof (get_fresh_view c k) as Hv. rewrite get_function_view in Hv.
  remember (load_corpus c newDataStore) as s eqn:Hs. clear Hs.
  destruct (resolve _ k) as [f|]; unfold option_map in Hv.
  - split; [|discriminate]. intros toLowerCase f' E. injection E as <-.
    unfold lookupApi, deref.
    destruct (JsMap.get (functions s) k) as [r|]; [|discriminate].
    injection Hv as Hv. rewrite Hv. reflexivity.
  - split; [discriminate|]. intros _.
    unfold JsMap.has. now destruct (JsMap.get (functions s) k).
Qed.

(** X1.  After a load into a fresh store the record filed under a full
    name is decided by the declarations of that name in the order of the
    passes: the last one among the official, deprecated and widget files
    if there is one, and the first one among the wiki and FrameXML files
    otherwise; the closing loop then assigns to [gameVersions] what the
    flavor map reads for the short name or for the full name, a read that
    goes on to the prototype chain of the map.  A name that no file
    declares is no key. *)
Theorem fresh_load_precedence (toLowerCase : string -> string)
        (c : Corpus) (k : string) :
  match resolve (plan (deprecatedList (load_corpus c newDataStore)) c) k with
  | Some f =>
      lookupApi toLowerCase (load_corpus c newDataStore) k
      = Ok [flavored (arrayPrototype c) (flavorMap (load_corpus c newDataStore)) k f]
  | None => JsMap.has (functions (load_corpus c newDataStore)) k = false
  end.
Proof.
  destruct (fresh_view_resolved c k) as (H1 & H2).
  destruct (resolve _ k) as [f|]; [now apply H1 | now apply H2].
Qed.

(** X2.  After a load into a fresh store a full name is a key of the
    function table exactly when some annotation file of the corpus
    declares a function of that name: no declaration is dropped and no
    other name appears. *)
Theorem indexed_iff_declared (c : Corpus) (k : string) :
  JsMap.has (functions (load_corpus c newDataStore)) k = true <-> declared c k.
Proof.
  rewrite (declared_in_plan (deprecatedList (load_corpus c newDataStore))).
  pose proof (get_fresh_view c k) as Hv. rewrite get_function_view in Hv.
  remember (load_corpus c newDataStore) as s eqn:Hs. clear Hs.
  unfold JsMap.has. split.
  - intros Hh.
    destruct (resolve _ k) as [f|] eqn:Hr.
    + destruct (resolve_written _ _ _ Hr) as (w & Hin & Hw & Hk).
      exists w. subst f. auto.
    + unfold option_map in Hv.
      destruct (JsMap.get (functions s) k); discriminate.
  - intros (w & Hin & Hk).
    pose proof (resolve_finds _ _ _ Hin Hk) as Hne.
    destruct (resolve _ k) as [f|]; [|contradiction].
    destruct (JsMap.get (functions s) k); [reflexivity | discriminate].
Qed.

Section Provenance.

(** The parser leaves the fields that the index sets later unset. *)
Lemma parsed_function_raw text func :
  In func (parsed_functions text) ->
  source func = None /\ gameVersions func = None /\ deprecatedInPatch func = None.
Proof.
  unfold parsed_functions, LuaAnnotations.parseLuaFile,
    LuaAnnotations.parseLuaLines.
  set (P := fun st : LuaAnnotations.ParseState =>
              Forall (fun f => source f = None /\ gameVersions f = None
                               /\ deprecatedInPatch f = None)
                     (LuaAnnotations.ps_functions st)).
  assert (HP : P (fold_left LuaAnnotations.lua_step (Js.split_lines text)
                            (LuaAnnotations.mkParseState [] [] []))).
  { apply fold_left_invariant.
    - intros st raw Hst. unfold P, LuaAnnotations.lua_step in *.
      destruct (Js.startsWith (Js.trim raw) "---"); [exact Hst|].
      destruct (Js.startsWith (Js.trim raw) "function "); [|exact Hst].
      destruct (LuaAnnotations.parseFunctionLine (Js.trim raw)); [|exact Hst].
      simpl. apply Forall_app. split; [exact Hst|]. constructor; [|constructor].
      repeat split.
    - constructor. }
  intros Hin. unfold P in HP. rewrite Forall_forall in HP. now apply HP.
Qed.

Lemma plan_written_stamped dl c w :
  In w (plan dl c) ->
  exists src, source (written w) = Some src /\ gameVersions (written w) = Some (Versions []).
Proof.
  assert (Hst : forall func src text,
             In func (parsed_functions text) ->
             gameVersions (stamped func src) = Some (Versions [])
             /\ source (stamped func src) = Some src).
  { intros func src text Hin.
    destruct (parsed_function_raw _ _ Hin) as (_ & Hg & _).
    unfold stamped. simpl. now rewrite Hg. }
  assert (Hdep : forall func src p, gameVersions func = None ->
             gameVersions (stamped (with_deprecated
                                      (with_deprecatedInPatch func p) true) src)
             = Some (Versions [])
             /\ source (stamped (with_deprecated
                                   (with_deprecatedInPatch func p) true) src)
                = Some src).
  { intros func src p Hg. unfold stamped. simpl. now rewrite Hg. }
  unfold plan. rewrite !in_app_iff. intros [H|[H|[H|[H|H]]]].
  - apply in_flat_map in H. destruct H as (file & _ & H).
    apply in_map_iff in H. destruct H as (func & <- & Hin).
    exists blizzard. simpl. destruct (Hst func blizzard _ Hin). auto.
  - apply in_flat_map in H. destruct H as (file & _ & H).
    apply in_map_iff in H. destruct H as (func & <- & Hin).
    exists deprecated_api. simpl.
    destruct (parsed_function_raw _ _ Hin) as (_ & Hg & _).
    destruct (Hdep func deprecated_api
                   (LuaAnnotations.extractPatchFromFilename (fst file)) Hg).
    auto.
  - destruct (wikiLua c) as [text|]; [|contradiction].
    apply in_map_iff in H. destruct H as (func & <- & Hin).
    exists wiki. simpl.
    destruct (parsed_function_raw _ _ Hin) as (_ & Hg & _).
    unfold mark_deprecated. destruct (set_has dl _); unfold stamped; simpl;
      rewrite Hg; auto.
  - apply in_flat_map in H. destruct H as (file & _ & H).
    apply in_map_iff in H. destruct H as (func & <- & Hin).
    exists widget. simpl. destruct (Hst func widget _ Hin). auto.
  - apply in_flat_map in H. destruct H as (file & _ & H).
    apply in_map_iff in H. destruct H as (func & <- & Hin).
    exists framexml. simpl. destruct (Hst func framexml _ Hin). auto.
Qed.

Lemma flavored_versions ap fm k f :
  gameVersions f = Some (Versions []) ->
  gameVersions (flavored ap fm k f) = Some (versions_for ap fm k (flavored ap fm k f))
  /\ source (flavored ap fm k f) = source f.
Proof.
  intros Hg.
  assert (Hn : name (flavored ap fm k f) = name f).
  { unfold flavored. destruct (flavor_lookup ap fm (Js.or_else (name f) k));
      [reflexivity|]. now destruct (flavor_lookup ap fm k). }
  unfold versions_for. rewrite Hn. unfold flavored.
  destruct (flavor_lookup ap fm (Js.or_else (name f) k)); [now split|].
  destruct (flavor_lookup ap fm k); now split.
Qed.

(** On a key that is read from the own properties alone the flavor map
    gives a list of versions or nothing. *)
Lemma flavor_lookup_plain ap (fm : JsObject.t (list string)) k :
  JsObject.proto fm = None -> plain_key k ->
  flavor_lookup ap fm k = option_map Versions (JsObject.get_own fm k).
Proof.
  intros Hp (Hk & Hnames). unfold flavor_lookup, JsObject.get.
  destruct (JsObject.get_own fm k); [reflexivity|].
  rewrite Hp, (proj2 (String.eqb_neq k "__proto__") Hk).
  unfold JsObject.object_prototype.
  destruct (existsb (String.eqb k) JsObject.prototype_keys) eqn:E;
    [|reflexivity].
  exfalso. apply Hnames. apply existsb_exists in E.
  destruct E as (x & Hx & Ex). apply String.eqb_eq in Ex. now subst x.
Qed.

End Provenance.

(** X3.  After a load into a fresh store every indexed function carries
    the tag of the pass that filed it, and its [gameVersions] is what the
    flavor map reads for its short name when that is truthy, else what it
    reads for its full name, else the empty list.  The read goes on to
    the prototype chain, so the value need not be a list; it is the list
    of the own entry of the short name, else of the full name, else the
    empty list, when both names are plain keys and no entry of
    [flavor.js] is named [__proto__].  The flavor map is the parse of
    [flavor.js], and empty when the file is missing. *)
Theorem loaded_game_versions (toLowerCase : string -> string)
        (c : Corpus) (k : string) :
  In k (JsMap.keys (functions (load_corpus c newDataStore))) ->
  flavorMap (load_corpus c newDataStore)
  = match flavorJs c with
    | Some text => TsData.parseFlavorFile text
    | None => JsObject.empty
    end
  /\ exists f src,
       lookupApi toLowerCase (load_corpus c newDataStore) k = Ok [f]
       /\ source f = Some src
       /\ gameVersions f
          = Some (versions_for (arrayPrototype c)
                               (flavorMap (load_corpus c newDataStore)) k f)
       /\ (JsObject.proto (flavorMap (load_corpus c newDataStore)) = None ->
           plain_key (Js.or_else (name f) k) -> plain_key k ->
           gameVersions f
           = Some (Versions
                     (match JsObject.get_own
                              (flavorMap (load_corpus c newDataStore))
                              (Js.or_else (name f) k) with
                      | Some versions => versions
                      | None =>
                          match JsObject.get_own
                                  (flavorMap (load_corpus c newDataStore)) k with
                          | Some versions => versions
                          | None => []
                          end
                      end))).
Proof.
  intros Hk. split.
  { destruct (side_tables_load_corpus c newDataStore) as (_ & -> & _).
    reflexivity. }
  apply keys_has in Hk.
  pose proof (fresh_view_resolved c k) as Hr.
  remember (load_corpus c newDataStore) as s eqn:Hs. clear Hs.
  destruct Hr as (Hget & Hres).
  destruct (resolve _ k) as [f0|] eqn:Hf0.
  - destruct (resolve_written _ _ _ Hf0) as (w & Hin & <- & _).
    destruct (plan_written_stamped _ _ _ Hin) as (src & Hsrc & Hgv).
    destruct (flavored_versions (arrayPrototype c) (flavorMap s) k _ Hgv)
      as (Hv1 & Hv2).
    exists (flavored (arrayPrototype c) (flavorMap s) k (written w)), src.
    split; [apply Hget; reflexivity|]. split; [congruence|].
    split; [exact Hv1|].
    intros Hp Hshort Hkey. rewrite Hv1. f_equal. unfold versions_for.
    rewrite !flavor_lookup_plain by assumption.
    destruct (JsObject.get_own (flavorMap s) (Js.or_else _ k)); [reflexivity|].
    now destruct (JsObject.get_own (flavorMap s) k).
  - rewrite Hres in Hk by reflexivity. discriminate.
Qed.

Lemma loaded_game_versions_witness :
  exists f,
    lookupApi Js.ascii_toLowerCase (load_corpus Samples.corpus newDataStore)
              "UnitName" = Ok [f]
    /\ source f = Some wiki
    /\ gameVersions f
       = Some (Versions ["Mainline"%string; "Vanilla"%string; "Mists"%string]).
Proof.
  destruct (loaded_game_versions Js.ascii_toLowerCase Samples.corpus "UnitName")
    as (_ & f & src & Hl & Hs & _ & Hv).
  - vm_compute. right. left. reflexivity.
  - exists f. split; [exact Hl|].
    assert (E : Ok [f] = lookupApi Js.ascii_toLowerCase
                           (load_corpus Samples.corpus newDataStore) "UnitName")
      by (symmetry; exact Hl).
    vm_compute in E. injection E as ->.
    split; [reflexivity|]. reflexivity.
Defined.

(** ** The indexing steps and the queries *)

Section IndexSteps.


Lemma set_set_same {V} (m : JsMap.t V) k v v' :
  JsMap.set (JsMap.set m k v) k v' = JsMap.set m k v'.
Proof.
  induction m as [|[k0 v0] m IH]; simpl.
  - now rewrite String.eqb_refl.
  - destruct (String.eqb k0 k) eqn:E; simpl.
    + now rewrite String.eqb_refl.
    + now rewrite E, IH.
Qed.

Lemma has_true_get {V} (m : JsMap.t V) k :
  JsMap.has m k = true -> exists v, JsMap.get m k = Some v.
Proof. unfold JsMap.has. destruct (JsMap.get m k); [eauto | discriminate]. Qed.

Lemma push_namespace_eq m ns r :
  push_namespace m ns r
  = JsMap.set m ns (from_option (JsMap.get m ns) [] ++ [r]).
Proof.
  unfold push_namespace, JsMap.has.
  destruct (JsMap.get m ns) as [old|] eqn:Hg; simpl.
  - now rewrite Hg.
  - rewrite get_set_same. apply set_set_same.
Qed.

Lemma push_method_eq w owner r :
  push_method w owner r
  = JsMap.set w owner
      (mkWidget (match JsMap.get w owner with
                 | Some wd => classInfo wd
                 | None => None
                 end)
                (match JsMap.get w owner with
                 | Some wd => methods wd
                 | None => []
                 end ++ [r])).
Proof.
  unfold push_method, JsMap.has.
  destruct (JsMap.get w owner) as [wd|] eqn:Hg; simpl.
  - now rewrite Hg.
  - rewrite get_set_same. apply set_set_same.
Qed.

Lemma heap_indexFunction func src s :
  heap (_indexFunction func src s) = heap s ++ [stamped func src].
Proof. reflexivity. Qed.

Lemma deref_new func src s :
  deref (_indexFunction func src s) (List.length (heap s)) = Ok (stamped func src).
Proof.
  unfold deref. rewrite heap_indexFunction, nth_error_app2 by lia.
  now rewrite Nat.sub_diag.
Qed.

Lemma deref_old func src s r f :
  nth_error (heap s) r = Some f -> deref (_indexFunction func src s) r = Ok f.
Proof.
  intros Hr. unfold deref. rewrite heap_indexFunction, nth_error_app1.
  - now rewrite Hr.
  - apply nth_error_Some. congruence.
Qed.

Lemma mapM_app {A B} (f : A -> Result B) l1 l2 :
  mapM f (l1 ++ l2)
  = (a <- mapM f l1 ;; b <- mapM f l2 ;; Ok (a ++ b)).
Proof.
  induction l1 as [|x l1 IH]; simpl.
  - destruct (mapM f l2); reflexivity.
  - destruct (f x); simpl; [|reflexivity]. rewrite IH.
    destruct (mapM f l1); simpl; [|reflexivity].
    destruct (mapM f l2); reflexivity.
Qed.

Lemma mapM_ext_in {A B} (f g : A -> Result B) l :
  (forall a, In a l -> f a = g a) -> mapM f l = mapM g l.
Proof.
  induction l as [|x l IH]; intros H; simpl; [reflexivity|].
  rewrite (H x) by now left. rewrite IH; [reflexivity|].
  intros a Ha. apply H. now right.
Qed.

End IndexSteps.

(** X4.  Indexing a function and looking its full name up returns the
    indexed record, stamped with the source tag and with its game
    versions, the empty list when the function has none or a falsy value;
    in a well-formed store the exact lookup of every other key answers as
    before. *)
Theorem indexFunction_then_lookup (toLowerCase : string -> string)
        (func : FunctionRecord) (src : Source) (s : DataStore) :
  functions_ok s ->
  lookupApi toLowerCase (_indexFunction func src s) (fullName func)
  = Ok [stamped func src]
  /\ source (stamped func src) = Some src
  /\ gameVersions (stamped func src)
     = (if versions_truthy (gameVersions func) then gameVersions func
        else Some (Versions []))
  /\ (forall k, In k (JsMap.keys (functions s)) -> k <> fullName func ->
                lookupApi toLowerCase (_indexFunction func src s) k
                = lookupApi toLowerCase s k).
Proof.
  intros Hok. repeat split.
  - unfold lookupApi.
    change (functions (_indexFunction func src s))
      with (JsMap.set (functions s) (fullName (stamped func src))
                      (List.length (heap s))).
    rewrite stamped_fullName, get_set_same, deref_new. reflexivity.
  - unfold stamped. simpl. now destruct (versions_truthy (gameVersions func)).
  - unfold stamped. simpl. now destruct (versions_truthy (gameVersions func)).
  - intros k Hk Hne. unfold lookupApi.
    change (functions (_indexFunction func src s))
      with (JsMap.set (functions s) (fullName (stamped func src))
                      (List.length (heap s))).
    rewrite stamped_fullName, get_set_other by congruence.
    apply in_keys_get in Hk. destruct Hk as (r & Hr). rewrite Hr.
    unfold functions_ok in Hok. rewrite Forall_forall in Hok.
    destruct (Hok _ (get_in _ _ _ Hr)) as (f & Hf & _). simpl in Hf.
    rewrite (deref_old _ _ _ _ _ Hf). unfold deref. now rewrite Hf.
Qed.

Lemma indexFunction_then_lookup_witness :
  lookupApi Js.ascii_toLowerCase
            (_indexFunction StoreSamples.foo_bar blizzard Samples.store)
            (fullName StoreSamples.foo_bar)
  = Ok [stamped StoreSamples.foo_bar blizzard]
  /\ source (stamped StoreSamples.foo_bar blizzard) = Some blizzard
  /\ gameVersions (stamped StoreSamples.foo_bar blizzard)
     = (if versions_truthy (gameVersions StoreSamples.foo_bar)
        then gameVersions StoreSamples.foo_bar else Some (Versions []))
  /\ (forall k, In k (JsMap.keys (functions Samples.store)) ->
                k <> fullName StoreSamples.foo_bar ->
                lookupApi Js.ascii_toLowerCase
                          (_indexFunction StoreSamples.foo_bar blizzard
                                          Samples.store) k
                = lookupApi Js.ascii_toLowerCase Samples.store k).
Proof.
  apply (indexFunction_then_lookup Js.ascii_toLowerCase StoreSamples.foo_bar
                                   blizzard Samples.store).
  apply functions_ok_load_corpus. constructor.
Defined.

Section Superseded.

Lemma filed_under_some func ns :
  filed_under func = Some ns -> namespace func = Some ns.
Proof.
  unfold filed_under. destruct (Js.truthy (namespace func) && negb (isMethod func));
    [auto | discriminate].
Qed.

Lemma get_namespaces_indexFunction func src s ns :
  filed_under func = Some ns ->
  JsMap.get (namespaces (_indexFunction func src s)) ns
  = Some (from_option (JsMap.get (namespaces s) ns) [] ++ [List.length (heap s)]).
Proof.
  intros Hf. rewrite namespaces_indexFunction, Hf, push_namespace_eq.
  apply get_set_same.
Qed.

End Superseded.

(** X5.  Indexing a second declaration of a function of a namespace
    replaces the record that a lookup of the full name returns, but the
    list of the namespace keeps the superseded record and gains the new
    one: [getNamespace] then returns both, after the records that were
    filed under the namespace before. *)
Theorem superseded_record_stays_listed (toLowerCase : string -> string)
        (f1 f2 : FunctionRecord) (src1 src2 : Source) (ns : string)
        (s : DataStore) :
  namespaces_ok s ->
  fullName f2 = fullName f1 ->
  filed_under f1 = Some ns ->
  filed_under f2 = Some ns ->
  exists before,
    lookupApi toLowerCase (_indexFunction f2 src2 (_indexFunction f1 src1 s))
              (fullName f1)
    = Ok [stamped f2 src2]
    /\ mapM (deref s) (from_option (JsMap.get (namespaces s) ns) []) = Ok before
    /\ getNamespace toLowerCase (_indexFunction f2 src2 (_indexFunction f1 src1 s))
                    ns
       = Ok (before ++ [stamped f1 src1; stamped f2 src2]).
Proof.
  intros Hok Hname H1 H2.
  set (s1 := _indexFunction f1 src1 s).
  set (old := from_option (JsMap.get (namespaces s) ns) []).
  assert (Hold : Forall (fun r => exists f, nth_error (heap s) r = Some f) old).
  { unfold old. destruct (JsMap.get (namespaces s) ns) as [refs|] eqn:Hg;
      [|constructor].
    unfold namespaces_ok in Hok. rewrite Forall_forall in Hok.
    pose proof (Hok _ (get_in _ _ _ Hg)) as Hrefs. simpl in *.
    revert Hrefs. apply Forall_impl. intros r (f & Hf & _). eauto. }
  assert (Hbefore : exists before, mapM (deref s) old = Ok before).
  { destruct (mapM_ok (deref s) (fun _ => True) old) as (l & Hl & _).
    - revert Hold. apply Forall_impl. intros r (f & Hf). exists f.
      unfold deref. now rewrite Hf.
    - eauto. }
  destruct Hbefore as (before & Hbefore).
  exists before. split; [|split].
  - rewrite <- Hname. unfold lookupApi.
    change (functions (_indexFunction f2 src2 s1))
      with (JsMap.set (functions s1) (fullName (stamped f2 src2))
                      (List.length (heap s1))).
    rewrite stamped_fullName, get_set_same, deref_new. reflexivity.
  - exact Hbefore.
  - unfold getNamespace.
    rewrite (get_namespaces_indexFunction f2 src2 s1 ns H2).
    pose proof (get_namespaces_indexFunction f1 src1 s ns H1) as Hg1.
    fold s1 in Hg1. rewrite Hg1. fold old. simpl from_option.
    rewrite <- app_assoc. simpl app.
    rewrite mapM_app.
    assert (E : mapM (deref (_indexFunction f2 src2 s1)) old = Ok before).
    { rewrite <- Hbefore. apply mapM_ext_in. intros r Hr.
      rewrite Forall_forall in Hold. destruct (Hold _ Hr) as (f & Hf).
      unfold deref at 2. rewrite Hf.
      apply deref_old. unfold s1. rewrite heap_indexFunction.
      rewrite nth_error_app1; [assumption|]. apply nth_error_Some. congruence. }
    rewrite E. simpl.
    rewrite (deref_old f2 src2 s1 (List.length (heap s)) (stamped f1 src1)).
    + simpl. rewrite deref_new. reflexivity.
    + unfold s1. rewrite heap_indexFunction, nth_error_app2 by lia.
      now rewrite Nat.sub_diag.
Qed.

Lemma superseded_record_stays_listed_witness :
  exists before,
    lookupApi Js.ascii_toLowerCase
              (_indexFunction StoreSamples.foo_bar_again deprecated_api
                 (_indexFunction StoreSamples.foo_bar blizzard Samples.store))
              (fullName StoreSamples.foo_bar)
    = Ok [stamped StoreSamples.foo_bar_again deprecated_api]
    /\ mapM (deref Samples.store)
            (from_option (JsMap.get (namespaces Samples.store) "C_Foo") [])
       = Ok before
    /\ getNamespace Js.ascii_toLowerCase
                    (_indexFunction StoreSamples.foo_bar_again deprecated_api
                       (_indexFunction StoreSamples.foo_bar blizzard Samples.store))
                    "C_Foo"
       = Ok (before ++ [stamped StoreSamples.foo_bar blizzard;
                        stamped StoreSamples.foo_bar_again deprecated_api]).
Proof.
  apply (superseded_record_stays_listed Js.ascii_toLowerCase StoreSamples.foo_bar
           StoreSamples.foo_bar_again blizzard deprecated_api "C_Foo"
           Samples.store).
  - apply namespaces_ok_load_corpus. constructor.
  - reflexivity.
  - reflexivity.
  - reflexivity.
Defined.

Section ClassAndMethod.

Lemma method_owner_some func owner :
  method_owner func = Some owner ->
  isMethod func = true /\ Js.truthy (namespace func) = true
  /\ namespace func = Some owner.
Proof.
  unfold method_owner. destruct (isMethod func); simpl; [|discriminate].
  destruct (Js.truthy (namespace func)); [auto | discriminate].
Qed.

Lemma store_ext s t :
  heap s = heap t -> functions s = functions t ->
  namespaces s = namespaces t -> widgets s = widgets t ->
  side_tables s = side_tables t -> s = t.
Proof.
  destruct s, t. unfold side_tables. simpl. intros -> -> -> -> E.
  injection E as -> -> -> -> -> ->. reflexivity.
Qed.

Lemma side_tables_indexClass cls s : side_tables (_indexClass cls s) = side_tables s.
Proof.
  unfold _indexClass. destruct (JsMap.get (widgets s) (class_name cls)); reflexivity.
Qed.

Lemma side_tables_widget_func s func :
  side_tables (widget_func s func) = side_tables s.
Proof.
  unfold widget_func.
  destruct (isMethod func && Js.truthy (namespace func)); [|reflexivity].
  destruct (namespace func); reflexivity.
Qed.

End ClassAndMethod.

(** X6.  A class declaration and the indexing of a method of that class
    commute: whichever comes first, the widget holds the class info of the
    declaration and the method after the methods filed before, and the
    method is the object filed under its full name. *)
Theorem class_and_method_commute (cls : ClassRecord) (func : FunctionRecord)
        (s : DataStore) :
  method_owner func = Some (class_name cls) ->
  widget_func (_indexClass cls s) func = _indexClass cls (widget_func s func)
  /\ JsMap.get (widgets (_indexClass cls (widget_func s func))) (class_name cls)
     = Some (mkWidget (Some cls)
                      (match JsMap.get (widgets s) (class_name cls) with
                       | Some w => methods w
                       | None => []
                       end ++ [List.length (heap s)]))
  /\ JsMap.get (functions (_indexClass cls (widget_func s func))) (fullName func)
     = Some (List.length (heap s))
  /\ deref (_indexClass cls (widget_func s func)) (List.length (heap s))
     = Ok (stamped func widget).
Proof.
  intros Hown. destruct (method_owner_some _ _ Hown) as (Hm & Ht & Hns).
  assert (Hw : forall t, widgets (widget_func t func)
                         = push_method (widgets t) (class_name cls)
                                       (List.length (heap t))).
  { intros t. now rewrite widgets_widget_func, Hown. }
  assert (E2 : widgets (_indexClass cls (widget_func s func))
               = JsMap.set (widgets s) (class_name cls)
                   (mkWidget (Some cls)
                      (match JsMap.get (widgets s) (class_name cls) with
                       | Some w => methods w
                       | None => []
                       end ++ [List.length (heap s)]))).
  { rewrite widgets_indexClass, Hw, push_method_eq, get_set_same, set_set_same.
    reflexivity. }
  assert (E1 : widgets (widget_func (_indexClass cls s) func)
               = widgets (_indexClass cls (widget_func s func))).
  { rewrite E2, Hw, push_method_eq, widgets_indexClass, get_set_same,
      set_set_same.
    destruct (indexClass_tables cls s) as (-> & _). reflexivity. }
  split; [|split; [|split]].
  - destruct (widget_func_tables (_indexClass cls s) func) as (Ha & Hb & Hc).
    destruct (indexClass_tables cls (widget_func s func)) as (Ha' & Hb' & Hc').
    destruct (widget_func_tables s func) as (Ha2 & Hb2 & Hc2).
    destruct (indexClass_tables cls s) as (Ha3 & Hb3 & Hc3).
    apply store_ext.
    + rewrite Ha, Ha', Ha2. unfold _indexFunction. simpl. now rewrite Ha3.
    + rewrite Hb, Hb', Hb2. unfold _indexFunction. simpl. now rewrite Ha3, Hb3.
    + rewrite Hc, Hc', Hc2. unfold _indexFunction. simpl. now rewrite Ha3, Hc3.
    + exact E1.
    + now rewrite side_tables_widget_func, !side_tables_indexClass,
        side_tables_widget_func.
  - now rewrite E2, get_set_same.
  - destruct (indexClass_tables cls (widget_func s func)) as (_ & -> & _).
    destruct (widget_func_tables s func) as (_ & -> & _).
    change (functions (_indexFunction func widget s))
      with (JsMap.set (functions s) (fullName (stamped func widget))
                      (List.length (heap s))).
    now rewrite stamped_fullName, get_set_same.
  - unfold deref.
    destruct (indexClass_tables cls (widget_func s func)) as (-> & _).
    destruct (widget_func_tables s func) as (-> & _).
    apply deref_new.
Qed.

Lemma class_and_method_commute_witness :
  widget_func (_indexClass StoreSamples.frame_class Samples.store)
              StoreSamples.frame_hide
  = _indexClass StoreSamples.frame_class
                (widget_func Samples.store StoreSamples.frame_hide)
  /\ JsMap.get (widgets (_indexClass StoreSamples.frame_class
                           (widget_func Samples.store StoreSamples.frame_hide)))
               (class_name StoreSamples.frame_class)
     = Some (mkWidget (Some StoreSamples.frame_class)
                      (match JsMap.get (widgets Samples.store)
                                       (class_name StoreSamples.frame_class) with
                       | Some w => methods w
                       | None => []
                       end ++ [List.length (heap Samples.store)]))
  /\ JsMap.get (functions (_indexClass StoreSamples.frame_class
                             (widget_func Samples.store StoreSamples.frame_hide)))
               (fullName StoreSamples.frame_hide)
     = Some (List.length (heap Samples.store))
  /\ deref (_indexClass StoreSamples.frame_class
              (widget_func Samples.store StoreSamples.frame_hide))
           (List.length (heap Samples.store))
     = Ok (stamped StoreSamples.frame_hide widget).
Proof.
  apply (class_and_method_commute StoreSamples.frame_class StoreSamples.frame_hide
                                  Samples.store).
  reflexivity.
Defined.

(** *** Every list of a namespace has a function *)

Section NamespaceLists.

Lemma in_insert_sorted x y l : In y (insert_sorted x l) <-> y = x \/ In y l.
Proof.
  induction l as [|z l IH]; simpl.
  - intuition.
  - destruct (String.leb x z); simpl; [intuition|]. rewrite IH. intuition.
Qed.

Lemma in_sort y l : In y (sort l) <-> In y l.
Proof.
  unfold sort. induction l as [|z l IH]; simpl; [reflexivity|].
  rewrite in_insert_sorted, IH. intuition.
Qed.

Lemma namespace_lists_nonempty c s :
  Forall (fun e => snd e <> []) (namespaces s) ->
  Forall (fun e => snd e <> []) (namespaces (load_corpus c s)).
Proof.
  apply (load_corpus_keeps
           (fun s' => Forall (fun e : string * list ref => snd e <> [])
                             (namespaces s'))).
  - intros func src s' H. rewrite namespaces_indexFunction.
    destruct (filed_under func) as [ns|]; [|exact H].
    rewrite push_namespace_eq. apply Forall_set; [exact H|]. simpl.
    now destruct (from_option (JsMap.get (namespaces s') ns) []).
  - intros cls s' H. now destruct (indexClass_tables cls s') as (_ & _ & ->).
  - intros s' func H. destruct (widget_func_tables s' func) as (_ & _ & ->).
    rewrite namespaces_indexFunction.
    destruct (filed_under func) as [ns|]; [|exact H].
    rewrite push_namespace_eq. apply Forall_set; [exact H|]. simpl.
    now destruct (from_option (JsMap.get (namespaces s') ns) []).
  - intros s' h _ H. exact H.
  - intros s' en ev cv dl fm ver H. exact H.
Qed.

End NamespaceLists.

(** X7.  After a load into a fresh store every name that [listNamespaces]
    lists is a namespace with at least one function: [getNamespace] on the
    name returns a non-empty list, and each record in it is a function of
    exactly that namespace and no method. *)
Theorem listed_namespace_is_nonempty (toLowerCase : string -> string)
        (c : Corpus) (s : DataStore) (k : string) :
  load (Some c) newDataStore = Ok s ->
  In k (listNamespaces s) ->
  exists f l,
    getNamespace toLowerCase s k = Ok (f :: l)
    /\ Forall (fun g => namespace g = Some k /\ isMethod g = false) (f :: l).
Proof.
  intros Hload Hk. simpl in Hload. injection Hload as <-.
  assert (Hne : Forall (fun e : string * list ref => snd e <> [])
                       (namespaces (load_corpus c newDataStore))).
  { apply namespace_lists_nonempty. constructor. }
  assert (Hok : namespaces_ok (load_corpus c newDataStore)).
  { apply namespaces_ok_load_corpus. constructor. }
  remember (load_corpus c newDataStore) as s eqn:Hs. clear Hs.
  unfold listNamespaces in Hk. rewrite in_sort in Hk.
  apply in_keys_get in Hk. destruct Hk as (refs & Hrefs).
  pose proof (get_in _ _ _ Hrefs) as Hin.
  rewrite Forall_forall in Hne. pose proof (Hne _ Hin) as Hnil. simpl in Hnil.
  unfold namespaces_ok in Hok. rewrite Forall_forall in Hok.
  pose proof (Hok _ Hin) as Hd. simpl in Hd.
  destruct (mapM_ok (deref s)
                    (fun g => namespace g = Some k /\ isMethod g = false) refs)
    as (l & Hl & HP & Hlen).
  { revert Hd. apply Forall_impl. intros r (f & Hf & Hm & Hn).
    exists f. unfold deref. rewrite Hf. split; [reflexivity|].
    split; [exact Hn | exact Hm]. }
  unfold getNamespace. rewrite Hrefs, Hl.
  destruct l as [|f l].
  - destruct refs; [contradiction | discriminate].
  - exists f, l. split; [reflexivity | exact HP].
Qed.

Lemma listed_namespace_is_nonempty_witness :
  exists f l,
    getNamespace Js.ascii_toLowerCase Samples.store "C_SpellBook" = Ok (f :: l)
    /\ Forall (fun g => namespace g = Some "C_SpellBook"%string
                        /\ isMethod g = false) (f :: l).
Proof.
  apply (listed_namespace_is_nonempty Js.ascii_toLowerCase Samples.corpus
                                      Samples.store "C_SpellBook").
  - reflexivity.
  - vm_compute. left. reflexivity.
Defined.

(** ** How the queries compose *)

Section DeprecatedListing.

Variable toLowerCase : string -> string.

Lemma filterM_pure {A} (p : A -> bool) (f : A -> Result bool) l :
  (forall a, f a = Ok (p a)) -> filterM f l = Ok (filter p l).
Proof.
  intros Hf. induction l as [|a l IH]; simpl; [reflexivity|].
  rewrite Hf, IH. simpl. now destruct (p a).
Qed.

Lemma filterM_sound {A} (p : A -> bool) (f : A -> Result bool) l l' :
  (forall a, f a = Ok true -> p a = true) ->
  filterM f l = Ok l' -> incl l' (filter p l).
Proof.
  intros Hf. revert l'. induction l as [|a l IH]; simpl; intros l' H.
  - injection H as <-. apply incl_refl.
  - destruct (f a) as [b|] eqn:Hb; simpl in H; [|discriminate].
    destruct (filterM f l) as [rest|]; simpl in H; [|discriminate].
    injection H as <-. specialize (IH rest eq_refl).
    destruct b.
    + rewrite (Hf a Hb). apply incl_cons; [now left|].
      intros x Hx. right. now apply IH.
    + intros x Hx. apply IH in Hx. destruct (p a); [now right | assumption].
Qed.

Lemma deprecated_kept_unfiltered flt func :
  Js.truthy flt = false ->
  deprecated_kept toLowerCase flt func = Ok (deprecated func).
Proof.
  intros Hflt. unfold deprecated_kept. rewrite Hflt.
  now destruct (deprecated func).
Qed.

Lemma deprecated_kept_deprecated flt func :
  deprecated_kept toLowerCase flt func = Ok true -> deprecated func = true.
Proof.
  unfold deprecated_kept. destruct (deprecated func); [reflexivity|].
  simpl. discriminate.
Qed.

Lemma mapM_length {A B} (f : A -> Result B) l l' :
  mapM f l = Ok l' -> List.length l' = List.length l.
Proof.
  revert l'. induction l as [|a l IH]; simpl; intros l' H.
  - now injection H as <-.
  - destruct (f a); simpl in H; [|discriminate].
    destruct (mapM f l) as [bs|]; simpl in H; [|discriminate].
    injection H as <-. simpl. now rewrite (IH bs eq_refl).
Qed.

End DeprecatedListing.

(** X8.  The number of deprecated functions that [getStats] reports is
    the length of the unfiltered deprecated listing, and never above the
    total; an empty filter is no filter; whatever the filter, the listing
    returns deprecated records only, each one a record of the unfiltered
    listing. *)
Theorem deprecated_count_is_listing (toLowerCase : string -> string)
        (s : DataStore) (st : Stats) :
  getStats s = Ok st ->
  exists l,
    listDeprecated toLowerCase s None = Ok l
    /\ listDeprecated toLowerCase s (Some ""%string) = Ok l
    /\ List.length l = deprecatedFunctions st
    /\ deprecatedFunctions st <= totalFunctions st
    /\ Forall (fun f => deprecated f = true) l
    /\ (forall flt l', listDeprecated toLowerCase s flt = Ok l' -> incl l' l).
Proof.
  unfold getStats, listDeprecated.
  destruct (function_entries s) as [entries|] eqn:He; simpl; [|discriminate].
  intros E. injection E as <-. simpl.
  exists (filter deprecated (map snd entries)).
  split; [|split; [|split; [|split; [|split]]]].
  - apply filterM_pure. intros a. now apply deprecated_kept_unfiltered.
  - apply filterM_pure. intros a. now apply deprecated_kept_unfiltered.
  - reflexivity.
  - unfold function_entries in He. apply mapM_length in He.
    unfold JsMap.size. rewrite <- He, <- (length_map snd entries).
    apply filter_length_le.
  - apply Forall_forall. intros f Hf. apply filter_In in Hf. tauto.
  - intros flt l' H. apply (filterM_sound deprecated _ _ _ (deprecated_kept_deprecated toLowerCase flt) H).
Qed.

Lemma deprecated_count_is_listing_witness :
  exists l,
    listDeprecated Js.ascii_toLowerCase Samples.store None = Ok l
    /\ listDeprecated Js.ascii_toLowerCase Samples.store (Some ""%string) = Ok l
    /\ List.length l = 2
    /\ 2 <= 4
    /\ Forall (fun f => deprecated f = true) l
    /\ (forall flt l',
           listDeprecated Js.ascii_toLowerCase Samples.store flt = Ok l' ->
           incl l' l).
Proof.
  apply (deprecated_count_is_listing Js.ascii_toLowerCase Samples.store
           (mkStats (Some "0.20.3"%string) 4 2 2 1 1 1 1)).
  vm_compute. reflexivity.
Defined.

Section EnumQueries.

Lemma fold_no_match {A B} (p : B -> bool) (g : A -> B -> A) l a :
  (forall e, In e l -> p e = false) ->
  fold_left (fun acc e => if p e then g acc e else acc) l a = a.
Proof.
  revert a. induction l as [|e l IH]; intros a H; simpl; [reflexivity|].
  rewrite (H e) by now left. apply IH. intros e' He'. apply H. now right.
Qed.

End EnumQueries.

(** X9.  When [getEnum] finds nothing, [searchEnums] with the same text
    finds nothing either: a search that follows a failed [getEnum] always
    comes back empty. *)
Theorem getEnum_null_search_empty (toLowerCase : string -> string)
        (s : DataStore) (q : string) :
  getEnum toLowerCase s q = EnumNull ->
  searchEnums toLowerCase s q = JsObject.empty.
Proof.
  intros H.
  assert (Hp : getEnum_partial toLowerCase s q = EnumNull).
  { unfold getEnum in H.
    destruct (JsObject.get _ (enums s) q) as [v|i|]; [discriminate | | exact H].
    destruct (JsObject.truthy i); [discriminate | exact H]. }
  clear H. revert Hp. unfold getEnum_partial, searchEnums.
  destruct (find _ (JsObject.entries (enums s))) as [[k v]|] eqn:Hf;
    [discriminate|].
  intros _. apply (fold_no_match
                     (fun e : string * LuaAnnotations.EnumValues =>
                        Js.includes (toLowerCase (fst e)) (toLowerCase q))
                     (fun results e => JsObject.set results (fst e) (snd e))).
  intros e He. apply (find_none _ _ Hf) in He.
  apply orb_false_iff in He. tauto.
Qed.

Lemma getEnum_null_search_empty_witness :
  searchEnums Js.ascii_toLowerCase Samples.store "Bar" = JsObject.empty.
Proof.
  apply (getEnum_null_search_empty Js.ascii_toLowerCase Samples.store "Bar").
  vm_compute. reflexivity.
Defined.

Section EmptyQuery.

Lemma includes_empty s : Js.includes s "" = true.
Proof. destruct s; reflexivity. Qed.

Lemma filter_all {A} (p : A -> bool) l :
  (forall a, p a = true) -> filter p l = l.
Proof.
  intros H. induction l as [|a l IH]; simpl; [reflexivity|].
  now rewrite H, IH.
Qed.

End EmptyQuery.

(** X10.  The empty query matches every function: [searchApi] on the
    empty string returns the first fifty functions of the table, in the
    order in which their names were first indexed. *)
Theorem searchApi_empty_query (toLowerCase : string -> string) (s : DataStore)
        (entries : list (string * FunctionRecord)) :
  toLowerCase ""%string = ""%string ->
  function_entries s = Ok entries ->
  map fst entries = JsMap.keys (functions s)
  /\ searchApi toLowerCase s "" = Ok (firstn 50 (map snd entries)).
Proof.
  intros Hl He. split.
  - unfold function_entries in He. unfold JsMap.keys.
    revert entries He. induction (functions s) as [|[k r] m IH]; simpl;
      intros entries He.
    + now injection He as <-.
    + destruct (deref s r); simpl in He; [|discriminate].
      destruct (mapM _ m) as [rest|]; simpl in He; [|discriminate].
      injection He as <-. simpl. now rewrite (IH rest eq_refl).
  - unfold searchApi. rewrite He, Hl. simpl. rewrite filter_all; [reflexivity|].
    intros a. apply includes_empty.
Qed.

Lemma searchApi_empty_query_witness :
  map fst [("C_Foo.Bar"%string, stamped StoreSamples.foo_bar blizzard)]
  = JsMap.keys (functions (_indexFunction StoreSamples.foo_bar blizzard
                                          newDataStore))
  /\ searchApi Js.ascii_toLowerCase
               (_indexFunction StoreSamples.foo_bar blizzard newDataStore) ""
     = Ok (firstn 50 (map snd [("C_Foo.Bar"%string,
                                stamped StoreSamples.foo_bar blizzard)])).
Proof.
  apply (searchApi_empty_query Js.ascii_toLowerCase).
  - reflexivity.
  - vm_compute. reflexivity.
Defined.

(** ** The matcher on rendered lines *)

Section MatcherSteps.
Import Regex LuaAnnotations.

(** A pattern that opens with the start anchor matches at index 0 or
    nowhere. *)
Lemma search_from_anchored r input i fuel :
  search_from (Seq Bol r) input (S i) fuel = None.
Proof.
  revert i. induction fuel as [|fuel IH]; intros i; simpl; [reflexivity|].
  apply IH.
Qed.

Lemma search_anchored r input :
  search (Seq Bol r) input = match_at (Seq Bol r) input 0.
Proof.
  unfold search. destruct (String.length input) as [|n]; simpl.
  - now destruct (match_at (Seq Bol r) input 0).
  - destruct (match_at (Seq Bol r) input 0); [reflexivity|].
    now rewrite search_from_anchored.
Qed.

Lemma match_at_bol r input :
  match_at (Seq Bol r) input 0 = rmatch r Some (mkMState input 0 []).
Proof. unfold match_at. now destruct input. Qed.

Lemma length_app_string (a b : string) :
  String.length (a ++ b) = String.length a + String.length b.
Proof. induction a as [|c a IH]; simpl; [reflexivity | now rewrite IH]. Qed.

Lemma rmatch_star_cls_run p K run tail pos0 caps0 res :
  Js.all p run = true ->
  match tail with EmptyString => True | String d _ => p d = false end ->
  K (mkMState tail (pos0 + String.length run) caps0) = Some res ->
  rmatch (Star (Cls p)) K (mkMState (run ++ tail) pos0 caps0) = Some res.
Proof.
  intros Hall Htail HK. rewrite rmatch_star. cbn [rest].
  apply star_cls_run; try assumption.
  rewrite length_app_string. lia.
Qed.

Lemma rmatch_plus_cls_run p K run tail pos0 caps0 res :
  run <> ""%string ->
  Js.all p run = true ->
  match tail with EmptyString => True | String d _ => p d = false end ->
  K (mkMState tail (pos0 + String.length run) caps0) = Some res ->
  rmatch (Plus (Cls p)) K (mkMState (run ++ tail) pos0 caps0) = Some res.
Proof.
  intros Hne Hall Htail HK. destruct run as [|c t]; [contradiction|].
  simpl in Hall. apply andb_prop in Hall. destruct Hall as [Hc Ht].
  unfold Plus. rewrite rmatch_seq, rmatch_cls. cbn [rest String.append].
  rewrite Hc. unfold advance. cbn [pos caps].
  apply rmatch_star_cls_run; try assumption.
  rewrite <- HK. f_equal. f_equal. simpl. lia.
Qed.

Lemma capture_run n run tail pos0 caps0 caps1 :
  capture n (mkMState (run ++ tail) pos0 caps0)
            (mkMState tail (pos0 + String.length run) caps1)
  = mkMState tail (pos0 + String.length run) ((n, run) :: caps1).
Proof.
  unfold capture. cbn [rest pos caps].
  replace (pos0 + String.length run - pos0) with (String.length run) by lia.
  now rewrite take_all_app.
Qed.

Lemma rmatch_grp_plus_cls_run n p K run tail pos0 caps0 res :
  run <> ""%string ->
  Js.all p run = true ->
  match tail with EmptyString => True | String d _ => p d = false end ->
  K (mkMState tail (pos0 + String.length run) ((n, run) :: caps0)) = Some res ->
  rmatch (Grp n (Plus (Cls p))) K (mkMState (run ++ tail) pos0 caps0) = Some res.
Proof.
  intros Hne Hall Htail HK. rewrite rmatch_grp.
  apply rmatch_plus_cls_run; try assumption.
  now rewrite capture_run.
Qed.

Lemma rmatch_grp_star_cls_run n p K run tail pos0 caps0 res :
  Js.all p run = true ->
  match tail with EmptyString => True | String d _ => p d = false end ->
  K (mkMState tail (pos0 + String.length run) ((n, run) :: caps0)) = Some res ->
  rmatch (Grp n (Star (Cls p))) K (mkMState (run ++ tail) pos0 caps0) = Some res.
Proof.
  intros Hall Htail HK. rewrite rmatch_grp.
  apply rmatch_star_cls_run; try assumption.
  now rewrite capture_run.
Qed.

(** A literal that is no prefix of the input fails. *)
Lemma rmatch_lit_mismatch l k s :
  String.prefix l (rest s) = false -> rmatch (Lit l) k s = None.
Proof.
  revert s. induction l as [|c l IH]; intros s H.
  - simpl in H. destruct (rest s); discriminate.
  - cbn [Lit]. rewrite rmatch_seq. unfold Chr. rewrite rmatch_cls.
    destruct (rest s) as [|d t] eqn:Hr; [reflexivity|].
    destruct (Ascii.eqb_spec c d) as [<-|Hne]; [|reflexivity].
    apply IH. cbn [rest advance]. simpl in H.
    now destruct (ascii_dec c c).
Qed.

(** A star over a class fails when the rest of the pattern fails after
    every prefix of the run it can consume. *)
Lemma star_cls_fail p K fuel s :
  (forall i, Js.all p (Js.take i (rest s)) = true ->
             K (mkMState (Js.drop i (rest s)) (pos s + i) (caps s)) = None) ->
  star_loop (rmatch (Cls p)) K fuel s = None.
Proof.
  revert s. induction fuel as [|fuel IH]; intros s H.
  - simpl. specialize (H 0). simpl in H. rewrite Nat.add_0_r in H.
    destruct s. simpl in *. apply H. now destruct rest0.
  - rewrite star_loop_step.
    assert (H0 : K s = None).
    { specialize (H 0). simpl in H. rewrite Nat.add_0_r in H.
      destruct s. simpl in *. apply H. now destruct rest0. }
    rewrite H0. rewrite rmatch_cls.
    destruct (rest s) as [|c t] eqn:Hr; [reflexivity|].
    destruct (p c) eqn:Hc; [|reflexivity].
    unfold progressed. cbn [advance pos].
    replace (Nat.eqb (S (pos s)) (pos s)) with false
      by (symmetry; apply Nat.eqb_neq; lia).
    rewrite IH; [reflexivity|].
    intros i Hi. cbn [rest pos caps advance].
    specialize (H (S i)). simpl in H. rewrite Hc in H. simpl in H.
    rewrite <- (H Hi). f_equal. f_equal. lia.
Qed.

Lemma rmatch_plus_cls_fail p K s :
  (forall i, 1 <= i -> Js.all p (Js.take i (rest s)) = true ->
             K (mkMState (Js.drop i (rest s)) (pos s + i) (caps s)) = None) ->
  rmatch (Plus (Cls p)) K s = None.
Proof.
  intros H. unfold Plus. rewrite rmatch_seq, rmatch_cls.
  destruct (rest s) as [|c t] eqn:Hr; [reflexivity|].
  destruct (p c) eqn:Hc; [|reflexivity].
  rewrite rmatch_star. apply star_cls_fail.
  intros i Hi. cbn [rest pos caps advance].
  specialize (H (S i)). simpl in H. rewrite Hc in H. simpl in H.
  rewrite <- (H ltac:(lia) Hi). f_equal. f_equal. lia.
Qed.

Lemma rmatch_opt a k s :
  rmatch (Opt a) k s = or_try (rmatch a (progressed s k) s) (k s).
Proof. reflexivity. Qed.

Lemma rmatch_star_cls_all p K run pos0 caps0 res :
  Js.all p run = true ->
  K (mkMState "" (pos0 + String.length run) caps0) = Some res ->
  rmatch (Star (Cls p)) K (mkMState run pos0 caps0) = Some res.
Proof.
  intros Hall HK.
  pose proof (rmatch_star_cls_run p K run "" pos0 caps0 res Hall I HK) as H.
  now rewrite append_empty_r in H.
Qed.

Lemma capture_all n run pos0 caps0 caps1 :
  capture n (mkMState run pos0 caps0)
            (mkMState "" (pos0 + String.length run) caps1)
  = mkMState "" (pos0 + String.length run) ((n, run) :: caps1).
Proof.
  pose proof (capture_run n run "" pos0 caps0 caps1) as H.
  now rewrite append_empty_r in H.
Qed.

Lemma rmatch_eol k pos0 caps0 :
  rmatch Eol k (mkMState "" pos0 caps0) = k (mkMState "" pos0 caps0).
Proof. reflexivity. Qed.

End MatcherSteps.

(** ** Function lines *)

(** One literal of a pattern, on an input that starts with it. *)
Ltac lit_step tail :=
  rewrite rmatch_seq;
  match goal with
  | |- Regex.rmatch (Regex.Lit ?l) ?k (Regex.mkMState _ ?p ?c) = ?rhs =>
      change (Regex.rmatch (Regex.Lit l) k
                (Regex.mkMState (l ++ tail)%string p c) = rhs);
      rewrite (rmatch_lit l k tail p c)
  end.

Section FunctionLines.
Import Regex LuaAnnotations.

Lemma re_function_hit full args :
  full <> ""%string -> Js.all is_word_dot full = true ->
  Js.all not_paren args = true ->
  exists m,
    search re_function ("function " ++ full ++ "(" ++ args ++ ") end") = Some m
    /\ group1 m 1 = full /\ group1 m 2 = args.
Proof.
  intros Hne Hfull Hargs.
  eexists. split.
  - unfold re_function, Cat. cbn [fold_right].
    rewrite search_anchored, match_at_bol.
    lit_step (" " ++ (full ++ ("(" ++ (args ++ ") end"))))%string.
    rewrite rmatch_seq. unfold space.
    apply rmatch_plus_cls_run; [discriminate | reflexivity | |].
    { destruct full as [|c t]; [contradiction|]. simpl in Hfull.
      apply andb_prop in Hfull. simpl. apply word_dot_not_space. tauto. }
    rewrite rmatch_seq. unfold word_dot.
    apply rmatch_grp_plus_cls_run; [assumption | assumption | reflexivity |].
    rewrite rmatch_seq.
    apply (rmatch_star_cls_run _ _ ""%string); [reflexivity | reflexivity |].
    lit_step (args ++ ") end")%string.
    rewrite rmatch_seq. unfold none_of.
    apply rmatch_grp_star_cls_run; [exact Hargs | reflexivity |].
    lit_step " end"%string.
    rewrite rmatch_seq.
    apply (rmatch_star_cls_run _ _ " "%string); [reflexivity | reflexivity |].
    lit_step ""%string.
    rewrite rmatch_seq, rmatch_eol. reflexivity.
  - split; reflexivity.
Qed.

Lemma drop_in_run p run d tail i :
  Js.all p run = true -> p d = false ->
  Js.all p (Js.take i (run ++ String d tail)) = true ->
  exists c' t', Js.drop i (run ++ String d tail) = String c' t'
                /\ (p c' = true \/ c' = d).
Proof.
  revert i. induction run as [|c r IH]; intros i Hrun Hd Hi.
  - destruct i as [|i]; simpl in *; [eauto|]. rewrite Hd in Hi. discriminate.
  - simpl in Hrun. apply andb_prop in Hrun. destruct Hrun as [Hc Hr].
    destruct i as [|i]; simpl in *; [eauto|].
    rewrite Hc in Hi. simpl in Hi. now apply IH.
Qed.

Lemma word_dot_not_open c : is_word_dot c = true -> Ascii.eqb "(" c = false.
Proof.
  destruct c as [[|] [|] [|] [|] [|] [|] [|] [|]]; vm_compute; congruence.
Qed.

Lemma prefix_head_mismatch c d l t :
  Ascii.eqb c d = false -> String.prefix (String c l) (String d t) = false.
Proof.
  intros H. cbn [String.prefix].
  destruct (ascii_dec c d) as [E|]; [|reflexivity].
  subst. rewrite Ascii.eqb_refl in H. discriminate.
Qed.

(** The pattern of a function line does not match a method line. *)
Lemma re_function_miss owner rest :
  owner <> ""%string -> Js.all is_word_dot owner = true ->
  search re_function ("function " ++ owner ++ ":" ++ rest) = None.
Proof.
  intros Hne Hown.
  unfold re_function, Cat. cbn [fold_right].
  rewrite search_anchored, match_at_bol.
  lit_step (" " ++ (owner ++ (":" ++ rest)))%string.
  rewrite rmatch_seq. unfold space.
  apply rmatch_plus_cls_fail. cbn [Regex.rest pos caps].
  intros i Hi Hall.
  destruct owner as [|c t]; [contradiction|].
  pose proof Hown as Hown'. simpl in Hown'. apply andb_prop in Hown'.
  destruct Hown' as [Hc Ht].
  destruct i as [|[|i]]; [lia| |].
  2:{ simpl in Hall. rewrite (word_dot_not_space c Hc) in Hall. discriminate. }
  cbn [Js.drop String.append].
  rewrite rmatch_seq, rmatch_grp. unfold word_dot.
  apply rmatch_plus_cls_fail. cbn [Regex.rest pos caps].
  intros j Hj Hrun.
  destruct (drop_in_run is_word_dot (String c t) ":" rest j Hown eq_refl Hrun)
    as (c' & t' & Hdrop & Hc').
  change (String c (t ++ String ":" rest))
    with (String c t ++ String ":" rest)%string.
  rewrite Hdrop. unfold capture. cbn [Regex.rest pos caps].
  assert (Hsp : Js.is_space c' = false).
  { destruct Hc' as [H| ->]; [now apply word_dot_not_space | reflexivity]. }
  assert (Hop : Ascii.eqb "(" c' = false).
  { destruct Hc' as [H| ->]; [now apply word_dot_not_open | reflexivity]. }
  rewrite rmatch_seq, rmatch_star. cbn [Regex.rest].
  rewrite star_cls_none by assumption.
  rewrite rmatch_seq. apply rmatch_lit_mismatch. cbn [Regex.rest].
  now apply prefix_head_mismatch.
Qed.

Lemma re_method_hit owner short args :
  owner <> ""%string -> Js.all is_word_dot owner = true ->
  short <> ""%string -> Js.all Js.is_word short = true ->
  Js.all not_paren args = true ->
  exists m,
    search re_method ("function " ++ owner ++ ":" ++ short ++ "(" ++ args ++ ") end")
    = Some m
    /\ group1 m 1 = owner /\ group1 m 2 = short /\ group1 m 3 = args.
Proof.
  intros Hne Hown Hns Hshort Hargs.
  eexists. split.
  - unfold re_method, Cat. cbn [fold_right].
    rewrite search_anchored, match_at_bol.
    lit_step (" " ++ (owner ++ (":" ++ (short ++ ("(" ++ (args ++ ") end"))))))%string.
    rewrite rmatch_seq. unfold space.
    apply rmatch_plus_cls_run; [discriminate | reflexivity | |].
    { destruct owner as [|c t]; [contradiction|]. simpl in Hown.
      apply andb_prop in Hown. simpl. apply word_dot_not_space. tauto. }
    rewrite rmatch_seq. unfold word_dot.
    apply rmatch_grp_plus_cls_run; [assumption | assumption | reflexivity |].
    lit_step (short ++ ("(" ++ (args ++ ") end")))%string.
    rewrite rmatch_seq. unfold word.
    apply rmatch_grp_plus_cls_run; [assumption | assumption | reflexivity |].
    rewrite rmatch_seq.
    apply (rmatch_star_cls_run _ _ ""%string); [reflexivity | reflexivity |].
    lit_step (args ++ ") end")%string.
    rewrite rmatch_seq. unfold none_of.
    apply rmatch_grp_star_cls_run; [exact Hargs | reflexivity |].
    lit_step " end"%string.
    rewrite rmatch_seq.
    apply (rmatch_star_cls_run _ _ " "%string); [reflexivity | reflexivity |].
    lit_step ""%string.
    rewrite rmatch_seq, rmatch_eol. reflexivity.
  - repeat split; reflexivity.
Qed.

Lemma lastIndexOf_absent c s :
  Js.all (fun d => negb (Ascii.eqb d c)) s = true -> Js.lastIndexOf c s = None.
Proof.
  induction s as [|d t IH]; simpl; [reflexivity|].
  intros H. apply andb_prop in H. destruct H as [Hd Ht].
  rewrite (IH Ht). now destruct (Ascii.eqb d c).
Qed.

Lemma lastIndexOf_last c a b :
  Js.all (fun d => negb (Ascii.eqb d c)) b = true ->
  Js.lastIndexOf c (a ++ String c b) = Some (String.length a).
Proof.
  intros Hb. induction a as [|d a IH]; simpl.
  - now rewrite (lastIndexOf_absent c b Hb), Ascii.eqb_refl.
  - now rewrite IH.
Qed.

Lemma all_weaken (p q : ascii -> bool) s :
  (forall c, p c = true -> q c = true) -> Js.all p s = true -> Js.all q s = true.
Proof.
  intros Hpq. induction s as [|c t IH]; simpl; [reflexivity|].
  intros H. apply andb_prop in H. destruct H as [Hc Ht].
  now rewrite (Hpq c Hc), IH.
Qed.

Lemma all_app p a b : Js.all p (a ++ b) = Js.all p a && Js.all p b.
Proof.
  induction a as [|c a IH]; simpl; [reflexivity|].
  now rewrite IH, andb_assoc.
Qed.

Lemma word_is_word_dot c : Js.is_word c = true -> is_word_dot c = true.
Proof. unfold is_word_dot. now intros ->. Qed.

Lemma word_not_dot c : Js.is_word c = true -> negb (Ascii.eqb c ".") = true.
Proof.
  destruct c as [[|] [|] [|] [|] [|] [|] [|] [|]]; vm_compute; congruence.
Qed.

Lemma drop_app_length (a b : string) : Js.drop (String.length a) (a ++ b) = b.
Proof. induction a as [|c a IH]; simpl; [now destruct b | exact IH]. Qed.

End FunctionLines.

(** X11.  A function line in its canonical spelling parses back into its
    parts.  [function Owner.Name(args) end] gives the full name
    [Owner.Name], the namespace [Owner], which may itself contain dots,
    and the short name [Name]; [function Owner:Name(args) end] gives a
    method of [Owner]; [function Name(args) end] gives a global function
    without namespace. *)
Theorem parseFunctionLine_round_trip (owner short args : string) :
  owner <> ""%string -> Js.all LuaAnnotations.is_word_dot owner = true ->
  short <> ""%string -> Js.all Js.is_word short = true ->
  Js.all not_paren args = true ->
  LuaAnnotations.parseFunctionLine
    ("function " ++ owner ++ "." ++ short ++ "(" ++ args ++ ") end")
  = Some (LuaAnnotations.mkFuncInfo (owner ++ "." ++ short) (Some owner) short
                                    args false)
  /\ LuaAnnotations.parseFunctionLine
       ("function " ++ owner ++ ":" ++ short ++ "(" ++ args ++ ") end")
     = Some (LuaAnnotations.mkFuncInfo (owner ++ ":" ++ short) (Some owner) short
                                       args true)
  /\ LuaAnnotations.parseFunctionLine ("function " ++ short ++ "(" ++ args ++ ") end")
     = Some (LuaAnnotations.mkFuncInfo short None short args false).
Proof.
  intros Hne Hown Hns Hshort Hargs.
  pose proof (all_weaken _ _ short word_is_word_dot Hshort) as Hshort'.
  pose proof (all_weaken _ _ short word_not_dot Hshort) as Hnodot.
  split; [|split].
  - destruct (re_function_hit (owner ++ "." ++ short) args) as (m & Hm & H1 & H2);
      [now destruct owner | | assumption |].
    { rewrite all_app, Hown. simpl. exact Hshort'. }
    unfold LuaAnnotations.parseFunctionLine.
    rewrite !string_app_assoc in Hm. rewrite Hm, H1, H2.
    change (owner ++ "." ++ short)%string with (owner ++ String "." short)%string.
    rewrite (lastIndexOf_last "." owner short Hnodot).
    rewrite take_all_app.
    replace (String.length owner + 1) with (String.length (owner ++ "."))
      by (rewrite length_app_string; reflexivity).
    change (owner ++ String "." short)%string with (owner ++ ("." ++ short))%string.
    rewrite <- string_app_assoc, drop_app_length. reflexivity.
  - unfold LuaAnnotations.parseFunctionLine.
    rewrite (re_function_miss owner _ Hne Hown).
    destruct (re_method_hit owner short args Hne Hown Hns Hshort Hargs)
      as (m & Hm & H1 & H2 & H3).
    rewrite Hm, H1, H2, H3. reflexivity.
  - destruct (re_function_hit short args Hns Hshort' Hargs) as (m & Hm & H1 & H2).
    unfold LuaAnnotations.parseFunctionLine.
    rewrite Hm, H1, H2. now rewrite (lastIndexOf_absent "." short Hnodot).
Qed.

Lemma parseFunctionLine_round_trip_witness :
  LuaAnnotations.parseFunctionLine "function C_Item.GetItemInfo(itemInfo) end"
  = Some (LuaAnnotations.mkFuncInfo "C_Item.GetItemInfo" (Some "C_Item"%string)
                                    "GetItemInfo" "itemInfo" false)
  /\ LuaAnnotations.parseFunctionLine "function C_Item:GetItemInfo(itemInfo) end"
     = Some (LuaAnnotations.mkFuncInfo "C_Item:GetItemInfo" (Some "C_Item"%string)
                                       "GetItemInfo" "itemInfo" true)
  /\ LuaAnnotations.parseFunctionLine "function GetItemInfo(itemInfo) end"
     = Some (LuaAnnotations.mkFuncInfo "GetItemInfo" None "GetItemInfo" "itemInfo"
                                       false).
Proof.
  apply (parseFunctionLine_round_trip "C_Item" "GetItemInfo" "itemInfo");
    first [discriminate | reflexivity].
Defined.

(** ** What an accepted function line looks like *)

Section FunctionShape.
Import Regex LuaAnnotations.

Lemma plus_cls_inv p k s m :
  rmatch (Plus (Cls p)) k s = Some m ->
  exists run tail,
    run <> ""%string /\ Js.all p run = true /\ rest s = (run ++ tail)%string
    /\ k (mkMState tail (pos s + String.length run) (caps s)) = Some m.
Proof.
  unfold Plus. rewrite rmatch_seq, rmatch_cls. intros H.
  destruct (rest s) as [|c t] eqn:Hrest; [discriminate|].
  destruct (p c) eqn:Hc; [|discriminate].
  rewrite rmatch_star in H.
  destruct (star_cls_inv _ _ _ _ _ H) as (run & tail & Hall & Hr & HK).
  exists (String c run), tail. cbn [rest pos caps advance] in Hr, HK.
  split; [discriminate|].
  split; [simpl; now rewrite Hc, Hall|].
  split; [simpl; now rewrite Hr|].
  rewrite <- HK. f_equal. f_equal. simpl. lia.
Qed.

Lemma rmatch_star_cls_inv p k s m :
  rmatch (Star (Cls p)) k s = Some m ->
  exists run tail,
    Js.all p run = true /\ rest s = (run ++ tail)%string
    /\ k (mkMState tail (pos s + String.length run) (caps s)) = Some m.
Proof. rewrite rmatch_star. apply star_cls_inv. Qed.

Lemma grp_star_cls_inv n p k s m :
  rmatch (Grp n (Star (Cls p))) k s = Some m ->
  exists run tail,
    Js.all p run = true /\ rest s = (run ++ tail)%string
    /\ k (mkMState tail (pos s + String.length run) ((n, run) :: caps s)) = Some m.
Proof.
  rewrite rmatch_grp. intros H.
  destruct (rmatch_star_cls_inv _ _ _ _ H) as (run & tail & Hall & Hr & HK).
  exists run, tail. split; [assumption|]. split; [assumption|].
  rewrite <- HK. unfold capture. cbn [rest pos caps].
  replace (pos s + String.length run - pos s) with (String.length run) by lia.
  now rewrite Hr, take_all_app.
Qed.

Lemma eol_inv k s m :
  rmatch Eol k s = Some m -> rest s = ""%string /\ k s = Some m.
Proof. simpl. destruct (rest s); [auto | discriminate]. Qed.

Lemma search_anchored_inv r line m :
  search (Seq Bol r) line = Some m -> rmatch r Some (mkMState line 0 []) = Some m.
Proof. now rewrite search_anchored, match_at_bol. Qed.

Lemma re_function_inv line m :
  search re_function line = Some m ->
  Js.all is_word_dot (group1 m 1) = true /\ group1 m 1 <> ""%string
  /\ Js.all not_paren (group1 m 2) = true.
Proof.
  unfold re_function, Cat. cbn [fold_right]. intros H.
  apply search_anchored_inv in H. rewrite rmatch_seq in H.
  apply lit_inv in H. destruct H as (t1 & _ & H). rewrite rmatch_seq in H.
  apply plus_cls_inv in H. destruct H as (sp1 & t2 & _ & _ & _ & H).
  rewrite rmatch_seq in H.
  apply grp_plus_cls_inv in H. destruct H as (full & t3 & Hne & Hfull & _ & H).
  rewrite rmatch_seq in H.
  apply rmatch_star_cls_inv in H. destruct H as (sp2 & t4 & _ & _ & H).
  rewrite rmatch_seq in H.
  apply lit_inv in H. destruct H as (t5 & _ & H). rewrite rmatch_seq in H.
  apply grp_star_cls_inv in H. destruct H as (args & t6 & Hargs & _ & H).
  rewrite rmatch_seq in H.
  apply lit_inv in H. destruct H as (t7 & _ & H). rewrite rmatch_seq in H.
  apply rmatch_star_cls_inv in H. destruct H as (sp3 & t8 & _ & _ & H).
  rewrite rmatch_seq in H.
  apply lit_inv in H. destruct H as (t9 & _ & H). rewrite rmatch_seq in H.
  apply eol_inv in H. destruct H as (_ & H).
  cbn [rmatch] in H. injection H as <-.
  unfold group1, group. cbn. auto.
Qed.

Lemma re_method_inv line m :
  search re_method line = Some m ->
  Js.all is_word_dot (group1 m 1) = true /\ group1 m 1 <> ""%string
  /\ Js.all Js.is_word (group1 m 2) = true /\ group1 m 2 <> ""%string
  /\ Js.all not_paren (group1 m 3) = true.
Proof.
  unfold re_method, Cat. cbn [fold_right]. intros H.
  apply search_anchored_inv in H. rewrite rmatch_seq in H.
  apply lit_inv in H. destruct H as (t1 & _ & H). rewrite rmatch_seq in H.
  apply plus_cls_inv in H. destruct H as (sp1 & t2 & _ & _ & _ & H).
  rewrite rmatch_seq in H.
  apply grp_plus_cls_inv in H. destruct H as (owner & t3 & Hne & Hown & _ & H).
  rewrite rmatch_seq in H.
  apply lit_inv in H. destruct H as (t4 & _ & H). rewrite rmatch_seq in H.
  apply grp_plus_cls_inv in H. destruct H as (short & t5 & Hns & Hshort & _ & H).
  rewrite rmatch_seq in H.
  apply rmatch_star_cls_inv in H. destruct H as (sp2 & t6 & _ & _ & H).
  rewrite rmatch_seq in H.
  apply lit_inv in H. destruct H as (t7 & _ & H). rewrite rmatch_seq in H.
  apply grp_star_cls_inv in H. destruct H as (args & t8 & Hargs & _ & H).
  rewrite rmatch_seq in H.
  apply lit_inv in H. destruct H as (t9 & _ & H). rewrite rmatch_seq in H.
  apply rmatch_star_cls_inv in H. destruct H as (sp3 & t10 & _ & _ & H).
  rewrite rmatch_seq in H.
  apply lit_inv in H. destruct H as (t11 & _ & H). rewrite rmatch_seq in H.
  apply eol_inv in H. destruct H as (_ & H).
  cbn [rmatch] in H. injection H as <-.
  unfold group1, group. cbn. auto.
Qed.

Lemma lastIndexOf_none c s :
  Js.lastIndexOf c s = None ->
  Js.all (fun d => negb (Ascii.eqb d c)) s = true.
Proof.
  induction s as [|d t IH]; simpl; [reflexivity|].
  destruct (Js.lastIndexOf c t); [discriminate|].
  destruct (Ascii.eqb d c); [discriminate|]. intros _. now rewrite IH.
Qed.

Lemma lastIndexOf_split c s i :
  Js.lastIndexOf c s = Some i ->
  s = (Js.take i s ++ String c (Js.drop (i + 1) s))%string
  /\ Js.all (fun d => negb (Ascii.eqb d c)) (Js.drop (i + 1) s) = true.
Proof.
  revert i. induction s as [|d t IH]; simpl; intros i; [discriminate|].
  destruct (Js.lastIndexOf c t) as [j|] eqn:Hj.
  - intros E. injection E as <-. destruct (IH j eq_refl) as (E1 & E2).
    simpl. split; [now rewrite <- E1 | exact E2].
  - destruct (Ascii.eqb_spec d c) as [->|]; [|discriminate].
    intros E. injection E as <-. simpl.
    split; [now destruct t|]. rewrite (lastIndexOf_none c t Hj). now destruct t.
Qed.

Lemma all_and p q s :
  Js.all p s = true -> Js.all q s = true ->
  Js.all (fun c => p c && q c) s = true.
Proof.
  induction s as [|c t IH]; simpl; [reflexivity|].
  intros H1 H2. apply andb_prop in H1, H2.
  destruct H1 as [-> H1], H2 as [-> H2]. simpl. now apply IH.
Qed.

Lemma word_dot_no_dot_is_word c :
  is_word_dot c && negb (Ascii.eqb c ".") = true -> Js.is_word c = true.
Proof.
  unfold is_word_dot. destruct (Js.is_word c); [reflexivity|]. simpl.
  now destruct (Ascii.eqb c ".").
Qed.

End FunctionShape.

(** X12.  Whatever line [parseFunctionLine] accepts, the names it returns
    are identifiers.  A method has a non-empty owner of word characters and
    dots, a non-empty short name of word characters, and the full name
    [owner:name].  A function has a non-empty full name of word characters
    and dots and a short name of word characters only; with a namespace the
    full name is [namespace.name], split at the last dot, and without one
    the short name is the full name.  The argument text holds no closing
    parenthesis. *)
Theorem parseFunctionLine_shape (line : string) (fi : LuaAnnotations.FuncInfo) :
  LuaAnnotations.parseFunctionLine line = Some fi ->
  Js.all not_paren (LuaAnnotations.fi_args fi) = true
  /\ Js.all Js.is_word (LuaAnnotations.fi_name fi) = true
  /\ if LuaAnnotations.fi_isMethod fi
     then exists owner,
            LuaAnnotations.fi_namespace fi = Some owner
            /\ owner <> ""%string
            /\ Js.all LuaAnnotations.is_word_dot owner = true
            /\ LuaAnnotations.fi_name fi <> ""%string
            /\ LuaAnnotations.fi_fullName fi
               = (owner ++ ":" ++ LuaAnnotations.fi_name fi)%string
     else LuaAnnotations.fi_fullName fi <> ""%string
          /\ Js.all LuaAnnotations.is_word_dot (LuaAnnotations.fi_fullName fi) = true
          /\ match LuaAnnotations.fi_namespace fi with
             | Some ns =>
                 LuaAnnotations.fi_fullName fi
                 = (ns ++ "." ++ LuaAnnotations.fi_name fi)%string
             | None => LuaAnnotations.fi_fullName fi = LuaAnnotations.fi_name fi
             end.
Proof.
  unfold LuaAnnotations.parseFunctionLine.
  destruct (Regex.search LuaAnnotations.re_function line) as [m|] eqn:Hf.
  - destruct (re_function_inv _ _ Hf) as (Hfull & Hne & Hargs).
    destruct (Js.lastIndexOf "." (LuaAnnotations.group1 m 1)) as [i|] eqn:Hi;
      intros E; injection E as <-; cbn.
    + destruct (lastIndexOf_split _ _ _ Hi) as (Hsplit & Hnodot).
      split; [exact Hargs|]. split.
      * apply (all_weaken _ _ _ word_dot_no_dot_is_word).
        apply all_and; [|exact Hnodot].
        rewrite Hsplit, all_app in Hfull. apply andb_prop in Hfull.
        destruct Hfull as [_ Hfull]. simpl in Hfull. exact Hfull.
      * split; [exact Hne|]. split; [exact Hfull | exact Hsplit].
    + split; [exact Hargs|]. split.
      * apply (all_weaken _ _ _ word_dot_no_dot_is_word).
        apply all_and; [exact Hfull | now apply lastIndexOf_none].
      * auto.
  - destruct (Regex.search LuaAnnotations.re_method line) as [m|] eqn:Hm;
      [|discriminate].
    destruct (re_method_inv _ _ Hm) as (Hown & Hne & Hshort & Hns & Hargs).
    intros E. injection E as <-. cbn.
    split; [exact Hargs|]. split; [exact Hshort|].
    exists (LuaAnnotations.group1 m 1). auto.
Qed.

Lemma parseFunctionLine_shape_witness :
  Js.all not_paren "unit" = true
  /\ Js.all Js.is_word "UnitName" = true
  /\ ("UnitName"%string <> ""%string
      /\ Js.all LuaAnnotations.is_word_dot "UnitName" = true
      /\ "UnitName"%string = "UnitName"%string).
Proof.
  apply (parseFunctionLine_shape "function UnitName(unit) end"
           (LuaAnnotations.mkFuncInfo "UnitName" None "UnitName" "unit" false)).
  vm_compute. reflexivity.
Defined.

(** ** Annotation blocks *)

Section AnnotationFlags.
Import Regex LuaAnnotations.

Lemma prefix_split x s :
  String.prefix x s = true -> exists tail, s = (x ++ tail)%string.
Proof.
  revert s. induction x as [|c x IH]; intros s H; [now exists s|].
  destruct s as [|d t]; [discriminate|]. cbn [String.prefix] in H.
  destruct (ascii_dec c d) as [<-|]; [|discriminate].
  destruct (IH t H) as (tail & ->). now exists tail.
Qed.

(** [line.replace("^---\s?", empty)]: the marker and one white-space
    character after it are removed. *)
Lemma strip_marker_eq line :
  strip_marker line
  = if String.prefix "---" line
    then match Js.drop 3 line with
         | String c t => if Js.is_space c then t else String c t
         | EmptyString => EmptyString
         end
    else line.
Proof.
  unfold strip_marker, re_marker, Cat. cbn [fold_right].
  rewrite search_anchored, match_at_bol.
  destruct (String.prefix "---" line) eqn:Hp.
  - destruct (prefix_split _ _ Hp) as (tail & ->).
    rewrite rmatch_seq, (rmatch_lit "---" _ tail).
    change (Js.drop 3 ("---" ++ tail)) with tail.
    rewrite rmatch_seq. cbn [rmatch]. unfold space, progressed.
    rewrite rmatch_cls. cbn [rest pos advance].
    destruct tail as [|c t]; [reflexivity|].
    destruct (Js.is_space c); reflexivity.
  - rewrite rmatch_seq, rmatch_lit_mismatch; [reflexivity | exact Hp].
Qed.

Lemma strip_marker_deprecated line :
  strip_marker line = "@deprecated"%string
  <-> line = "---@deprecated"%string \/ line = "@deprecated"%string
      \/ exists c, Js.is_space c = true
                   /\ line = ("---" ++ String c "@deprecated")%string.
Proof.
  rewrite strip_marker_eq. split.
  - destruct (String.prefix "---" line) eqn:Hp; [|auto].
    destruct (prefix_split _ _ Hp) as (tail & ->).
    change (Js.drop 3 ("---" ++ tail)) with tail.
    destruct tail as [|c t]; [discriminate|].
    destruct (Js.is_space c) eqn:Hc.
    + intros ->. right. right. now exists c.
    + intros ->. now left.
  - intros [->|[->|(c & Hc & ->)]]; [reflexivity | reflexivity |].
    cbn. now rewrite Hc.
Qed.

Lemma annotation_step_deprecated r line :
  a_deprecated (annotation_step r line)
  = a_deprecated r || String.eqb (strip_marker line) "@deprecated".
Proof.
  unfold annotation_step.
  destruct (String.eqb (strip_marker line) "@deprecated");
    [now rewrite orb_true_r|].
  rewrite orb_false_r.
  destruct (search re_deprecated_by _); [reflexivity|].
  destruct (search re_documentation _); [reflexivity|].
  destruct (search re_param _); [reflexivity|].
  destruct (search re_return _); [reflexivity|].
  destruct (Js.startsWith _ "@" || Js.startsWith _ "#"); [reflexivity|].
  now destruct (negb _).
Qed.

Lemma fold_annotation_deprecated lines r :
  a_deprecated (fold_left annotation_step lines r)
  = a_deprecated r
    || existsb (fun line => String.eqb (strip_marker line) "@deprecated") lines.
Proof.
  revert r. induction lines as [|line lines IH]; intros r; simpl.
  - now rewrite orb_false_r.
  - now rewrite IH, annotation_step_deprecated, orb_assoc.
Qed.

End AnnotationFlags.

(** X13.  An annotation block marks its function deprecated exactly when
    one of its lines is the bare tag: [---@deprecated], the same with one
    white-space character after the marker, or the tag without marker.  A
    tag that is followed by a text, or a [Deprecated by] reference alone,
    does not set the flag. *)
Theorem deprecated_flag_needs_bare_tag (lines : list string) :
  (LuaAnnotations.a_deprecated (LuaAnnotations.parseAnnotationBlock lines) = true
   <-> exists line,
         In line lines
         /\ (line = "---@deprecated"%string \/ line = "@deprecated"%string
             \/ exists c, Js.is_space c = true
                          /\ line = ("---" ++ String c "@deprecated")%string))
  /\ LuaAnnotations.a_deprecated
       (LuaAnnotations.parseAnnotationBlock ["---@deprecated Use C_Foo.Bar"])
     = false
  /\ (let a := LuaAnnotations.parseAnnotationBlock
                 ["---Deprecated by [C_Foo.Bar](https://warcraft.wiki.gg/Bar)"] in
      LuaAnnotations.a_deprecated a = false
      /\ LuaAnnotations.a_replacedBy a = Some "C_Foo.Bar"%string).
Proof.
  split; [|split; [|split]]; try (vm_compute; reflexivity).
  unfold LuaAnnotations.parseAnnotationBlock.
  rewrite fold_annotation_deprecated. simpl. rewrite existsb_exists.
  split; intros (line & Hin & H); exists line; (split; [exact Hin|]).
  - apply String.eqb_eq in H. now apply strip_marker_deprecated.
  - apply String.eqb_eq. now apply strip_marker_deprecated.
Qed.

Section ParamLines.
Import Regex LuaAnnotations.

Lemma word_not_space c : Js.is_word c = true -> Js.is_space c = false.
Proof. intros H. apply word_dot_not_space. now apply word_is_word_dot. Qed.

Lemma word_not_question c : Js.is_word c = true -> Ascii.eqb "?" c = false.
Proof.
  destruct c as [[|] [|] [|] [|] [|] [|] [|] [|]]; vm_compute; congruence.
Qed.

(** The tail of a typed name or of a return value: nothing, or white
    space and a free text, which group [g] captures. *)
Lemma tail_hit g k sp desc pos0 caps0 res :
  Js.all Js.is_space sp = true ->
  free_text desc ->
  k (mkMState "" (pos0 + String.length sp + String.length desc)
              ((g, desc) :: caps0)) = Some res ->
  rmatch (Seq (Star space) (Seq (Opt (Grp g (Star any))) (Seq Eol Eps))) k
         (mkMState (sp ++ desc) pos0 caps0)
  = Some res.
Proof.
  intros Hsp (Hne & Hall & Hfirst) Hk.
  rewrite rmatch_seq. unfold space.
  apply (rmatch_star_cls_run _ _ sp desc); [exact Hsp | |].
  { destruct desc; [exact I | exact Hfirst]. }
  rewrite rmatch_seq, rmatch_opt, rmatch_grp. unfold any.
  rewrite (rmatch_star_cls_all _ _ desc _ _ res); [reflexivity | exact Hall |].
  rewrite capture_all. unfold progressed. cbn [pos].
  replace (Nat.eqb (pos0 + String.length sp + String.length desc)
                   (pos0 + String.length sp)) with false.
  - rewrite rmatch_seq, rmatch_eol. exact Hk.
  - symmetry. apply Nat.eqb_neq. destruct desc; [contradiction|]. simpl. lia.
Qed.

Lemma tail_none g k pos0 caps0 :
  rmatch (Seq (Star space) (Seq (Opt (Grp g (Star any))) (Seq Eol Eps))) k
         (mkMState "" pos0 caps0)
  = k (mkMState "" pos0 caps0).
Proof.
  cbn. unfold progressed, capture. cbn [pos]. now rewrite Nat.eqb_refl.
Qed.

Lemma non_space_first ty :
  ty <> ""%string -> Js.all non_space ty = true ->
  match ty with String d _ => Js.is_space d = false | EmptyString => True end.
Proof.
  destruct ty as [|d t]; [contradiction|]. simpl. intros _ H.
  apply andb_prop in H. destruct H as [H _]. unfold non_space in H.
  now destruct (Js.is_space d).
Qed.

Lemma word_first n :
  n <> ""%string -> Js.all Js.is_word n = true ->
  match n with String d _ => Js.is_space d = false | EmptyString => True end.
Proof.
  destruct n as [|d t]; [contradiction|]. simpl. intros _ H.
  apply andb_prop in H. destruct H as [H _]. now apply word_not_space.
Qed.

(** A parameter line: name, optional question mark, type and description. *)
Lemma re_param_hit n (opt : bool) ty (desc : option string) :
  n <> ""%string -> Js.all Js.is_word n = true ->
  ty <> ""%string -> Js.all non_space ty = true ->
  match desc with Some d => free_text d | None => True end ->
  exists m,
    search re_param ("@param " ++ n ++ (if opt then "?" else "") ++ " " ++ ty
                     ++ match desc with Some d => " " ++ d | None => "" end)
    = Some m
    /\ typed_name_of m = mkParam n opt ty desc.
Proof.
  intros Hn Hnw Hty Htys Hdesc.
  pose proof (non_space_first ty Hty Htys) as Hty1.
  set (tail := match desc with Some d => (" " ++ d)%string | None => ""%string end).
  set (q := if opt then "?"%string else ""%string).
  set (caps1 := (if opt then [(2, "?"%string)] else []) ++ [(1, n)]).
  assert (Htail : forall pos0,
             exists m,
               rmatch (Seq (Star space) (Seq (Opt (Grp 4 (Star any))) (Seq Eol Eps)))
                      (rmatch Eps Some) (mkMState tail pos0 ((3, ty) :: caps1))
               = Some m
               /\ typed_name_of m = mkParam n opt ty desc).
  { intros pos0. unfold tail. destruct desc as [d|].
    - eexists. split.
      + apply (tail_hit 4 _ " "%string); [reflexivity | exact Hdesc | reflexivity].
      + destruct Hdesc as (Hd & _).
        unfold typed_name_of, group1, group, caps1.
        destruct opt; cbn; unfold or_null, Js.truthy;
          (destruct d; [contradiction | reflexivity]).
    - eexists. split.
      + rewrite tail_none. reflexivity.
      + unfold typed_name_of, group1, group, caps1. destruct opt; reflexivity. }
  assert (Hmid : forall pos0,
             exists m,
               rmatch (Seq (Plus space)
                        (Seq (Grp 3 (Plus nonspace))
                           (Seq (Star space)
                              (Seq (Opt (Grp 4 (Star any))) (Seq Eol Eps)))))
                      (rmatch Eps Some)
                      (mkMState (" " ++ ty ++ tail) pos0 caps1)
               = Some m
               /\ typed_name_of m = mkParam n opt ty desc).
  { intros pos0.
    destruct (Htail (pos0 + 1 + String.length ty)) as (m & Hm & Hp).
    exists m. split; [|exact Hp].
    rewrite rmatch_seq. unfold space.
    apply (rmatch_plus_cls_run _ _ " "%string (ty ++ tail));
      [discriminate | reflexivity | |].
    { destruct ty; [contradiction | exact Hty1]. }
    rewrite rmatch_seq. unfold nonspace.
    apply rmatch_grp_plus_cls_run; [exact Hty | exact Htys | | exact Hm].
    unfold tail. now destruct desc. }
  unfold re_param, re_typed_name, Cat. cbn [fold_right].
  rewrite search_anchored, match_at_bol.
  set (p1 := 0 + String.length "@param" + String.length " " + String.length n).
  destruct (Hmid (if opt then S p1 else p1)) as (m & Hm & Hp).
  exists m. split; [|exact Hp].
  lit_step (" " ++ (n ++ (q ++ (" " ++ (ty ++ tail)))))%string.
  rewrite rmatch_seq. unfold space.
  apply (rmatch_plus_cls_run _ _ " "%string); [discriminate | reflexivity | |].
  { destruct n; [contradiction|]. simpl. apply (word_first _ Hn Hnw). }
  rewrite rmatch_seq, rmatch_seq. unfold word.
  apply rmatch_grp_plus_cls_run; [exact Hn | exact Hnw | |].
  { unfold q. now destruct opt. }
  rewrite rmatch_seq, rmatch_opt, rmatch_grp. unfold Chr. rewrite rmatch_cls.
  fold p1. unfold q, caps1 in *. destruct opt; cbn [rest String.append].
  - change (Ascii.eqb "?" "?") with true. cbv iota.
    unfold progressed, advance, capture. cbn [pos rest caps].
    replace (Nat.eqb (S p1) p1) with false
      by (symmetry; apply Nat.eqb_neq; lia).
    replace (S p1 - p1) with 1 by lia.
    cbn [Js.take].
    match goal with
    | |- or_try ?x _ = _ => replace x with (Some m) by (symmetry; exact Hm)
    end.
    reflexivity.
  - change (Ascii.eqb "?" " ") with false. cbv iota. cbn [or_try].
    exact Hm.
Qed.

End ParamLines.

Section TagLines.
Import Regex LuaAnnotations.

(** A text that starts with the tag sign is neither a [Deprecated by]
    reference nor a documentation link. *)
Lemma tag_is_no_reference t :
  search re_deprecated_by (String "@" t) = None
  /\ search re_documentation (String "@" t) = None.
Proof.
  unfold re_deprecated_by, re_documentation, Cat. cbn [fold_right].
  rewrite !search_anchored, !match_at_bol, !rmatch_seq.
  split; apply rmatch_lit_mismatch; reflexivity.
Qed.

Lemma annotation_step_param r n (opt : bool) ty desc :
  n <> ""%string -> Js.all Js.is_word n = true ->
  ty <> ""%string -> Js.all non_space ty = true ->
  match desc with Some d => free_text d | None => True end ->
  annotation_step r ("---@param " ++ n ++ (if opt then "?" else "") ++ " " ++ ty
                     ++ match desc with Some d => " " ++ d | None => "" end)
  = add_param r (mkParam n opt ty desc).
Proof.
  intros Hn Hnw Hty Htys Hdesc.
  destruct (re_param_hit n opt ty desc Hn Hnw Hty Htys Hdesc) as (m & Hm & Hp).
  unfold annotation_step. rewrite strip_marker_eq.
  cbn [String.prefix String.append Js.drop].
  repeat (match goal with
          | |- context [ascii_dec ?a ?b] =>
              destruct (ascii_dec a b); [|contradiction]
          end).
  change (Js.is_space "@") with false. cbv iota.
  match goal with
  | |- context [String.eqb ?x "@deprecated"] =>
      change (String.eqb x "@deprecated") with false
  end.
  cbv iota.
  match goal with
  | |- context [search re_deprecated_by (String "@" ?t)] =>
      destruct (tag_is_no_reference t) as (-> & ->)
  end.
  cbn [String.append] in Hm. rewrite Hm, Hp. reflexivity.
Qed.

End TagLines.

(** X14.  A parameter line in its canonical spelling, [---@param], the
    name, a question mark if the parameter is optional, the type and a
    description, adds to the block exactly that parameter and changes no
    other field; without description the parameter has none. *)
Theorem param_line_round_trip (lines : list string) (n : string) (opt : bool)
        (ty : string) (desc : option string) :
  n <> ""%string -> Js.all Js.is_word n = true ->
  ty <> ""%string -> Js.all non_space ty = true ->
  match desc with Some d => free_text d | None => True end ->
  LuaAnnotations.parseAnnotationBlock
    (lines ++ [("---@param " ++ n ++ (if opt then "?" else "") ++ " " ++ ty
                ++ match desc with Some d => " " ++ d | None => "" end)%string])
  = add_param (LuaAnnotations.parseAnnotationBlock lines) (mkParam n opt ty desc).
Proof.
  intros Hn Hnw Hty Htys Hdesc.
  unfold LuaAnnotations.parseAnnotationBlock. rewrite fold_left_app. simpl fold_left.
  now apply annotation_step_param.
Qed.

Lemma param_line_round_trip_witness :
  LuaAnnotations.parseAnnotationBlock
    (["---@deprecated"%string]
       ++ ["---@param spellID? number The spell to look up"%string])
  = add_param (LuaAnnotations.parseAnnotationBlock ["---@deprecated"%string])
              (mkParam "spellID" true "number" (Some "The spell to look up"%string)).
Proof.
  apply (param_line_round_trip ["---@deprecated"%string] "spellID" true "number"
                               (Some "The spell to look up"%string)).
  - discriminate.
  - reflexivity.
  - discriminate.
  - reflexivity.
  - repeat split. discriminate.
Defined.

Section ReturnLines.
Import Regex LuaAnnotations.

Lemma grp_plus_cls_miss n p K s :
  match rest s with String c _ => p c = false | EmptyString => True end ->
  rmatch (Grp n (Plus (Cls p))) K s = None.
Proof.
  intros H. unfold Plus. rewrite rmatch_grp, rmatch_seq, rmatch_cls.
  destruct (rest s); [reflexivity|]. now rewrite H.
Qed.

Lemma or_null_some d : d <> ""%string -> or_null (Some d) = Some d.
Proof. intros H. unfold or_null, Js.truthy. now destruct d. Qed.

(** What follows the type of a return line: a name, a description, both
    or nothing. *)
Lemma return_rest_hit ty (name desc : option string) pos0 :
  match name with
  | Some nm => nm <> ""%string /\ Js.all Js.is_word nm = true
  | None => match desc with
            | Some (String c _) => Js.is_word c = false
            | _ => True
            end
  end ->
  match desc with Some d => free_text d | None => True end ->
  exists m,
    rmatch (Seq (Star space)
              (Seq (Opt (Grp 2 (Plus word)))
                 (Seq (Star space) (Seq (Opt (Grp 3 (Star any))) (Seq Eol Eps)))))
           (rmatch Eps Some)
           (mkMState (match name with Some nm => " " ++ nm | None => "" end
                      ++ match desc with Some d => " " ++ d | None => "" end)
                     pos0 [(1, ty)])
    = Some m
    /\ return_of m = mkReturn ty name desc.
Proof.
  intros Hname Hdesc. destruct name as [nm|].
  - destruct Hname as (Hnm & Hnw).
    set (dpart := match desc with Some d => (" " ++ d)%string | None => ""%string end).
    assert (Htail : exists m,
               rmatch (Seq (Star space) (Seq (Opt (Grp 3 (Star any))) (Seq Eol Eps)))
                      (rmatch Eps Some)
                      (mkMState dpart (pos0 + String.length " " + String.length nm)
                                [(2, nm); (1, ty)])
               = Some m
               /\ return_of m = mkReturn ty (Some nm) desc).
    { unfold dpart. destruct desc as [d|].
      - eexists. split.
        + apply (tail_hit 3 _ " "%string); [reflexivity | exact Hdesc | reflexivity].
        + unfold return_of, group1, group. cbn.
          destruct Hdesc as (Hd & _). now rewrite !or_null_some.
      - eexists. split; [rewrite tail_none; reflexivity|].
        unfold return_of, group1, group. cbn. now rewrite or_null_some. }
    destruct Htail as (m & Hm & Hr). exists m. split; [|exact Hr].
    rewrite rmatch_seq. unfold space.
    rewrite string_app_assoc.
    apply (rmatch_star_cls_run _ _ " "%string (nm ++ dpart)); [reflexivity | |].
    { destruct nm; [contradiction|]. simpl. apply (word_first _ Hnm Hnw). }
    rewrite rmatch_seq, rmatch_opt. unfold word.
    rewrite (rmatch_grp_plus_cls_run 2 _ _ nm dpart _ _ m);
      [reflexivity | exact Hnm | exact Hnw | |].
    { unfold dpart. now destruct desc. }
    unfold progressed. cbn [pos].
    replace (Nat.eqb (pos0 + String.length " " + String.length nm)
                     (pos0 + String.length " ")) with false.
    + exact Hm.
    + symmetry. apply Nat.eqb_neq. destruct nm; [contradiction|]. simpl. lia.
  - destruct desc as [d|].
    + pose proof Hdesc as (Hd & Hall & Hfirst).
      eexists. split.
      * cbn [String.append].
        rewrite rmatch_seq. unfold space.
        apply (rmatch_star_cls_run _ _ " "%string d); [reflexivity | |].
        { destruct d; [exact I | exact Hfirst]. }
        rewrite rmatch_seq, rmatch_opt. unfold word.
        rewrite grp_plus_cls_miss by (cbn [rest]; destruct d; [exact I | exact Hname]).
        cbn [or_try].
        apply (tail_hit 3 _ ""%string d); [reflexivity | exact Hdesc | reflexivity].
      * unfold return_of, group1, group. cbn. now rewrite or_null_some.
    + eexists. split.
      * cbn [String.append]. rewrite rmatch_seq. unfold space.
        apply (rmatch_star_cls_run _ _ ""%string ""%string); [reflexivity | exact I |].
        rewrite rmatch_seq, rmatch_opt. unfold word.
        rewrite grp_plus_cls_miss by exact I. cbn [or_try].
        rewrite tail_none. reflexivity.
      * reflexivity.
Qed.

Lemma re_return_hit ty (name desc : option string) :
  ty <> ""%string -> Js.all non_space ty = true ->
  match name with
  | Some nm => nm <> ""%string /\ Js.all Js.is_word nm = true
  | None => match desc with
            | Some (String c _) => Js.is_word c = false
            | _ => True
            end
  end ->
  match desc with Some d => free_text d | None => True end ->
  exists m,
    search re_return ("@return " ++ ty
                      ++ match name with Some nm => " " ++ nm | None => "" end
                      ++ match desc with Some d => " " ++ d | None => "" end)
    = Some m
    /\ return_of m = mkReturn ty name desc.
Proof.
  intros Hty Htys Hname Hdesc.
  set (rest1 := (match name with Some nm => " " ++ nm | None => "" end
                 ++ match desc with Some d => " " ++ d | None => "" end)%string).
  destruct (return_rest_hit ty name desc
              (0 + String.length "@return" + String.length " " + String.length ty)
              Hname Hdesc) as (m & Hm & Hr).
  fold rest1 in Hm.
  exists m. split; [|exact Hr].
  unfold re_return, Cat. cbn [fold_right].
  rewrite search_anchored, match_at_bol.
  lit_step (" " ++ (ty ++ rest1))%string.
  rewrite rmatch_seq. unfold space.
  apply (rmatch_plus_cls_run _ _ " "%string); [discriminate | reflexivity | |].
  { destruct ty; [contradiction|]. apply (non_space_first _ Hty Htys). }
  rewrite rmatch_seq. unfold nonspace.
  apply rmatch_grp_plus_cls_run; [exact Hty | exact Htys | | exact Hm].
  unfold rest1. destruct name as [nm|]; [reflexivity|].
  destruct desc as [d|]; reflexivity.
Qed.

Lemma annotation_step_return r ty (name desc : option string) :
  ty <> ""%string -> Js.all non_space ty = true ->
  match name with
  | Some nm => nm <> ""%string /\ Js.all Js.is_word nm = true
  | None => match desc with
            | Some (String c _) => Js.is_word c = false
            | _ => True
            end
  end ->
  match desc with Some d => free_text d | None => True end ->
  annotation_step r ("---@return " ++ ty
                     ++ match name with Some nm => " " ++ nm | None => "" end
                     ++ match desc with Some d => " " ++ d | None => "" end)
  = add_return r (mkReturn ty name desc).
Proof.
  intros Hty Htys Hname Hdesc.
  destruct (re_return_hit ty name desc Hty Htys Hname Hdesc) as (m & Hm & Hr).
  unfold annotation_step. rewrite strip_marker_eq.
  cbn [String.prefix String.append Js.drop].
  repeat (match goal with
          | |- context [ascii_dec ?a ?b] =>
              destruct (ascii_dec a b); [|contradiction]
          end).
  change (Js.is_space "@") with false. cbv iota.
  match goal with
  | |- context [String.eqb ?x "@deprecated"] =>
      change (String.eqb x "@deprecated") with false
  end.
  cbv iota.
  match goal with
  | |- context [search re_deprecated_by (String "@" ?t)] =>
      destruct (tag_is_no_reference t) as (-> & ->)
  end.
  match goal with
  | |- context [search re_param ?t] =>
      assert (Hp : search re_param t = None)
  end.
  { unfold re_param, Cat. cbn [fold_right].
    rewrite search_anchored, match_at_bol, rmatch_seq.
    apply rmatch_lit_mismatch. reflexivity. }
  rewrite Hp.
  cbn [String.append] in Hm. rewrite Hm. unfold return_of in Hr.
  unfold add_return. now rewrite <- Hr.
Qed.

End ReturnLines.

(** X15.  A return line in its canonical spelling, [---@return], the type,
    a name and a description, adds to the block exactly that return value
    and changes no other field.  The word that follows the type is always
    taken as the name: a description is kept without a name only when it
    does not start with a word character. *)
Theorem return_line_round_trip (lines : list string) (ty : string)
        (name desc : option string) :
  ty <> ""%string -> Js.all non_space ty = true ->
  match name with
  | Some nm => nm <> ""%string /\ Js.all Js.is_word nm = true
  | None => match desc with
            | Some (String c _) => Js.is_word c = false
            | _ => True
            end
  end ->
  match desc with Some d => free_text d | None => True end ->
  LuaAnnotations.parseAnnotationBlock
    (lines ++ [("---@return " ++ ty
                ++ match name with Some nm => " " ++ nm | None => "" end
                ++ match desc with Some d => " " ++ d | None => "" end)%string])
  = add_return (LuaAnnotations.parseAnnotationBlock lines) (mkReturn ty name desc).
Proof.
  intros Hty Htys Hname Hdesc.
  unfold LuaAnnotations.parseAnnotationBlock. rewrite fold_left_app. simpl fold_left.
  now apply annotation_step_return.
Qed.

Lemma return_line_round_trip_witness :
  LuaAnnotations.parseAnnotationBlock
    ([] ++ ["---@return boolean isKnown Whether the spell is known"%string])
  = add_return (LuaAnnotations.parseAnnotationBlock [])
               (mkReturn "boolean" (Some "isKnown"%string)
                         (Some "Whether the spell is known"%string)).
Proof.
  apply (return_line_round_trip [] "boolean" (Some "isKnown"%string)
                                (Some "Whether the spell is known"%string)).
  - discriminate.
  - reflexivity.
  - split; [discriminate | reflexivity].
  - repeat split. discriminate.
Defined.

(** ** The lines of an annotation file *)

Section LuaLines.
Import LuaAnnotations.

(** The loop adds to the functions and classes found so far and looks at
    nothing but the pending block. *)
Lemma lua_step_additive F C A raw :
  lua_step (mkParseState F C A) raw
  = mkParseState (F ++ ps_functions (lua_step (mkParseState [] [] A) raw))
                 (C ++ ps_classes (lua_step (mkParseState [] [] A) raw))
                 (ps_annotationLines (lua_step (mkParseState [] [] A) raw)).
Proof.
  unfold lua_step. cbn [ps_functions ps_classes ps_annotationLines].
  destruct (Js.startsWith (Js.trim raw) "---"); cbn; [now rewrite !app_nil_r|].
  destruct (Js.startsWith (Js.trim raw) "function ").
  - destruct (parseFunctionLine (Js.trim raw)); cbn; now rewrite !app_nil_r.
  - cbn. now rewrite !app_nil_r.
Qed.

Lemma fold_lua_step_additive lines F C A :
  fold_left lua_step lines (mkParseState F C A)
  = mkParseState
      (F ++ ps_functions (fold_left lua_step lines (mkParseState [] [] A)))
      (C ++ ps_classes (fold_left lua_step lines (mkParseState [] [] A)))
      (ps_annotationLines (fold_left lua_step lines (mkParseState [] [] A))).
Proof.
  revert F C A. induction lines as [|raw lines IH]; intros F C A; simpl.
  - now rewrite !app_nil_r.
  - rewrite lua_step_additive.
    destruct (lua_step (mkParseState [] [] A) raw) as [dF dC A'] eqn:E.
    cbn [ps_functions ps_classes ps_annotationLines].
    rewrite IH, (IH dF dC A'). cbn [ps_functions ps_classes ps_annotationLines].
    now rewrite !app_assoc.
Qed.

Lemma lua_step_barrier st raw :
  Js.startsWith (Js.trim raw) "---" = false ->
  Js.startsWith (Js.trim raw) "function " = false ->
  lua_step st raw
  = mkParseState (ps_functions st)
                 (ps_classes st ++ classes_of_block (ps_annotationLines st)) [].
Proof. intros H1 H2. unfold lua_step. now rewrite H1, H2. Qed.

Lemma function_prefix_no_marker line :
  Js.startsWith line "function " = true -> Js.startsWith line "---" = false.
Proof.
  unfold Js.startsWith. destruct line as [|c t]; [discriminate|].
  cbn [String.prefix]. destruct (ascii_dec "f" c) as [<-|]; [|discriminate].
  reflexivity.
Qed.

End LuaLines.

(** X16.  A line that is neither a comment nor a function line divides an
    annotation file: the functions of the whole are those of the part
    before it followed by those of the part after it, and likewise the
    classes, the block that was pending at the line included. *)
Theorem parseLuaLines_splits_at_barrier (before after : list string)
        (barrier : string) :
  Js.startsWith (Js.trim barrier) "---" = false ->
  Js.startsWith (Js.trim barrier) "function " = false ->
  LuaAnnotations.ps_functions
    (LuaAnnotations.parseLuaLines (before ++ barrier :: after))
  = LuaAnnotations.ps_functions (LuaAnnotations.parseLuaLines before)
    ++ LuaAnnotations.ps_functions (LuaAnnotations.parseLuaLines after)
  /\ LuaAnnotations.ps_classes
       (LuaAnnotations.parseLuaLines (before ++ barrier :: after))
     = LuaAnnotations.ps_classes (LuaAnnotations.parseLuaLines (before ++ [barrier]))
       ++ LuaAnnotations.ps_classes (LuaAnnotations.parseLuaLines after).
Proof.
  intros H1 H2. unfold LuaAnnotations.parseLuaLines.
  rewrite !fold_left_app. cbn [fold_left].
  rewrite (lua_step_barrier _ _ H1 H2).
  rewrite fold_lua_step_additive.
  cbn [LuaAnnotations.ps_functions LuaAnnotations.ps_classes]. split; reflexivity.
Qed.

Lemma parseLuaLines_splits_at_barrier_witness :
  LuaAnnotations.ps_functions
    (LuaAnnotations.parseLuaLines
       (["function Foo.Bar() end"%string] ++ ""%string :: ClassSamples.file))
  = LuaAnnotations.ps_functions
      (LuaAnnotations.parseLuaLines ["function Foo.Bar() end"%string])
    ++ LuaAnnotations.ps_functions (LuaAnnotations.parseLuaLines ClassSamples.file)
  /\ LuaAnnotations.ps_classes
       (LuaAnnotations.parseLuaLines
          (["function Foo.Bar() end"%string] ++ ""%string :: ClassSamples.file))
     = LuaAnnotations.ps_classes
         (LuaAnnotations.parseLuaLines
            (["function Foo.Bar() end"%string] ++ [""%string]))
       ++ LuaAnnotations.ps_classes (LuaAnnotations.parseLuaLines ClassSamples.file).
Proof.
  apply (parseLuaLines_splits_at_barrier ["function Foo.Bar() end"%string]
                                         ClassSamples.file ""%string);
    reflexivity.
Defined.

(** X17.  A function takes the comment lines that stand directly above
    it: a function line that follows a block of comment lines yields one
    record, built from the line and from the annotations of the lines
    pending since the last line that was no comment, the block included.
    The block is used up: nothing is pending after the function line. *)
Theorem function_takes_block_above (pre block : list string) (fline : string)
        (fi : LuaAnnotations.FuncInfo) :
  Forall (fun x => Js.startsWith (Js.trim x) "---" = true) block ->
  Js.startsWith (Js.trim fline) "function " = true ->
  LuaAnnotations.parseFunctionLine (Js.trim fline) = Some fi ->
  LuaAnnotations.ps_functions
    (LuaAnnotations.parseLuaLines (pre ++ block ++ [fline]))
  = LuaAnnotations.ps_functions (LuaAnnotations.parseLuaLines pre)
    ++ [LuaAnnotations.make_function fi
          (LuaAnnotations.parseAnnotationBlock
             (LuaAnnotations.ps_annotationLines (LuaAnnotations.parseLuaLines pre)
              ++ map Js.trim block))]
  /\ LuaAnnotations.ps_annotationLines
       (LuaAnnotations.parseLuaLines (pre ++ block ++ [fline])) = []
  /\ LuaAnnotations.ps_classes
       (LuaAnnotations.parseLuaLines (pre ++ block ++ [fline]))
     = LuaAnnotations.ps_classes (LuaAnnotations.parseLuaLines pre).
Proof.
  intros Hblock Hf Hfi. unfold LuaAnnotations.parseLuaLines.
  rewrite !fold_left_app. cbn [fold_left].
  set (st := fold_left LuaAnnotations.lua_step pre
                       (LuaAnnotations.mkParseState [] [] [])).
  pose proof (fold_lua_step_block block st Hblock) as Hpending.
  assert (Hkeep : forall st0,
             LuaAnnotations.ps_functions
               (fold_left LuaAnnotations.lua_step block st0)
             = LuaAnnotations.ps_functions st0
             /\ LuaAnnotations.ps_classes
                  (fold_left LuaAnnotations.lua_step block st0)
                = LuaAnnotations.ps_classes st0).
  { clear Hpending. induction Hblock as [|x l Hx _ IH]; intros st0;
      [split; reflexivity|].
    simpl. destruct (IH (LuaAnnotations.lua_step st0 x)) as (-> & ->).
    unfold LuaAnnotations.lua_step. rewrite Hx. split; reflexivity. }
  destruct (Hkeep st) as (HF & HC).
  unfold LuaAnnotations.lua_step at 1 3 5.
  rewrite (function_prefix_no_marker _ Hf), Hf, Hfi.
  cbn [LuaAnnotations.ps_functions LuaAnnotations.ps_annotationLines
       LuaAnnotations.ps_classes].
  rewrite HF, HC, Hpending. repeat split; reflexivity.
Qed.

Lemma function_takes_block_above_witness :
  LuaAnnotations.ps_functions
    (LuaAnnotations.parseLuaLines
       ([""%string] ++ ["---Hides the frame."%string] ++ ["function Frame:Hide() end"%string]))
  = LuaAnnotations.ps_functions (LuaAnnotations.parseLuaLines [""%string])
    ++ [LuaAnnotations.make_function
          (LuaAnnotations.mkFuncInfo "Frame:Hide" (Some "Frame"%string) "Hide" "" true)
          (LuaAnnotations.parseAnnotationBlock
             (LuaAnnotations.ps_annotationLines
                (LuaAnnotations.parseLuaLines [""%string])
              ++ map Js.trim ["---Hides the frame."%string]))]
  /\ LuaAnnotations.ps_annotationLines
       (LuaAnnotations.parseLuaLines
          ([""%string] ++ ["---Hides the frame."%string]
             ++ ["function Frame:Hide() end"%string])) = []
  /\ LuaAnnotations.ps_classes
       (LuaAnnotations.parseLuaLines
          ([""%string] ++ ["---Hides the frame."%string]
             ++ ["function Frame:Hide() end"%string]))
     = LuaAnnotations.ps_classes (LuaAnnotations.parseLuaLines [""%string]).
Proof.
  apply (function_takes_block_above [""%string] ["---Hides the frame."%string]
           "function Frame:Hide() end"
           (LuaAnnotations.mkFuncInfo "Frame:Hide" (Some "Frame"%string) "Hide" ""
                                      true)).
  - repeat constructor.
  - reflexivity.
  - vm_compute. reflexivity.
Defined.

(** ** Enum files *)

Section TrimFacts.

Lemma only_space_app_false a c b :
  Js.is_space c = false -> Js.only_space (a ++ String c b) = false.
Proof.
  intros Hc. induction a as [|d a IH]; simpl.
  - now rewrite Hc.
  - rewrite IH. apply andb_false_r.
Qed.

Lemma trimEnd_last a c :
  Js.is_space c = false -> Js.trimEnd (a ++ String c "") = (a ++ String c "")%string.
Proof.
  intros Hc. induction a as [|d a IH].
  - simpl. now rewrite Hc.
  - cbn [String.append Js.trimEnd].
    change (Js.only_space (String d (a ++ String c "")))
      with (Js.is_space d && Js.only_space (a ++ String c "")).
    rewrite only_space_app_false by assumption.
    rewrite andb_false_r. now rewrite IH.
Qed.

Lemma trimStart_spaces indent s :
  Js.all Js.is_space indent = true ->
  Js.trimStart (indent ++ s) = Js.trimStart s.
Proof.
  induction indent as [|c t IH]; simpl; [reflexivity|].
  intros H. apply andb_prop in H. destruct H as [-> H]. now apply IH.
Qed.

Lemma last_char s :
  s <> ""%string -> exists a c, s = (a ++ String c "")%string.
Proof.
  induction s as [|d t IH]; [contradiction|]. intros _.
  destruct t as [|e t'].
  - now exists ""%string, d.
  - destruct IH as (a & c & E); [discriminate|].
    exists (String d a), c. simpl. now rewrite E.
Qed.

Lemma all_last p a c : Js.all p (a ++ String c "") = true -> p c = true.
Proof.
  rewrite all_app. simpl. intros H. apply andb_prop in H.
  destruct H as [_ H]. now rewrite andb_true_r in H.
Qed.

(** [trim] removes the indentation of a line whose text starts and ends
    with a character that is no white space. *)
Lemma trim_indented indent first body last :
  Js.all Js.is_space indent = true ->
  Js.is_space first = false -> Js.is_space last = false ->
  Js.trim (indent ++ String first (body ++ String last ""))
  = String first (body ++ String last "").
Proof.
  intros Hi Hf Hl. unfold Js.trim. rewrite trimStart_spaces by assumption.
  cbn [Js.trimStart]. rewrite Hf.
  change (String first (body ++ String last ""))
    with (String first body ++ String last "")%string.
  now apply trimEnd_last.
Qed.

Lemma trim_single c : Js.is_space c = false -> Js.trim (String c "") = String c "".
Proof.
  intros H. unfold Js.trim. cbn [Js.trimStart]. rewrite H.
  cbn [Js.trimEnd Js.only_space]. now rewrite H.
Qed.

End TrimFacts.

Section EnumPatterns.
Import Regex LuaAnnotations.

Lemma rmatch_grp_plus_cls_all n p K run pos0 caps0 res :
  run <> ""%string ->
  Js.all p run = true ->
  K (mkMState "" (pos0 + String.length run) ((n, run) :: caps0)) = Some res ->
  rmatch (Grp n (Plus (Cls p))) K (mkMState run pos0 caps0) = Some res.
Proof.
  intros Hne Hall HK.
  pose proof (rmatch_grp_plus_cls_run n p K run "" pos0 caps0 res Hne Hall I HK)
    as H.
  now rewrite append_empty_r in H.
Qed.

Lemma not_space_not_blank c : Js.is_space c = false -> Ascii.eqb " " c = false.
Proof.
  intros H. destruct (Ascii.eqb_spec " " c) as [<-|]; [discriminate | reflexivity].
Qed.

Lemma word_dot_not_dash c : is_word_dot c = true -> Ascii.eqb "-" c = false.
Proof.
  destruct c as [[|] [|] [|] [|] [|] [|] [|] [|]]; vm_compute; congruence.
Qed.

Lemma word_not_brace c : Js.is_word c = true -> Ascii.eqb c "}" = false.
Proof.
  destruct c as [[|] [|] [|] [|] [|] [|] [|] [|]]; vm_compute; congruence.
Qed.

Lemma digit_not_open c : Js.is_digit c = true -> Ascii.eqb "{" c = false.
Proof.
  destruct c as [[|] [|] [|] [|] [|] [|] [|] [|]]; vm_compute; congruence.
Qed.

Lemma digit_not_space c : Js.is_digit c = true -> Js.is_space c = false.
Proof.
  destruct c as [[|] [|] [|] [|] [|] [|] [|] [|]]; vm_compute; congruence.
Qed.

Lemma prefix_cons c x y : String.prefix (String c x) (String c y) = String.prefix x y.
Proof. cbn [String.prefix]. destruct (ascii_dec c c); [reflexivity | contradiction]. Qed.

Lemma prefix_app_mismatch l c d t :
  Ascii.eqb c d = false ->
  String.prefix (l ++ String c "") (l ++ String d t) = false.
Proof.
  intros H. induction l as [|a l IH]; simpl String.append.
  - now apply prefix_head_mismatch.
  - now rewrite prefix_cons.
Qed.

(** The tag line. *)
Lemma re_enum_hit name :
  name <> ""%string -> Js.all is_word_dot name = true ->
  exists m, search re_enum ("---@enum " ++ name) = Some m /\ group1 m 1 = name.
Proof.
  intros Hne Hall. eexists. split.
  - unfold re_enum, Cat. cbn [fold_right].
    rewrite search_anchored, match_at_bol.
    lit_step (" " ++ name)%string.
    rewrite rmatch_seq. unfold space.
    apply (rmatch_plus_cls_run _ _ " "%string name);
      [discriminate | reflexivity | |].
    { destruct name as [|c t]; [contradiction|]. simpl in Hall.
      apply andb_prop in Hall. apply word_dot_not_space. tauto. }
    rewrite rmatch_seq. unfold word_dot.
    apply rmatch_grp_plus_cls_all; [assumption | assumption | reflexivity].
  - reflexivity.
Qed.

(** A line that does not start with a dash is no tag line. *)
Lemma re_enum_miss c t :
  Ascii.eqb "-" c = false -> search re_enum (String c t) = None.
Proof.
  intros H. unfold re_enum, Cat. cbn [fold_right].
  rewrite search_anchored, match_at_bol, rmatch_seq.
  apply rmatch_lit_mismatch. now apply prefix_head_mismatch.
Qed.

(** The opening line. *)
Lemma re_enum_open_hit name :
  name <> ""%string -> Js.all is_word_dot name = true ->
  matches re_enum_open (name ++ " = {") = true.
Proof.
  intros Hne Hall. unfold matches.
  assert (H : exists m, search re_enum_open (name ++ " = {") = Some m).
  { eexists. unfold re_enum_open, Cat. cbn [fold_right].
    rewrite search_anchored, match_at_bol, rmatch_seq. unfold word_dot.
    apply rmatch_plus_cls_run; [assumption | assumption | reflexivity |].
    lit_step ""%string. rewrite rmatch_seq, rmatch_eol. reflexivity. }
  destruct H as (m & ->). reflexivity.
Qed.

Lemma drop_in_run_tail p run d tail i :
  Js.all p run = true -> p d = false ->
  Js.all p (Js.take i (run ++ String d tail)) = true ->
  exists c' t', Js.drop i (run ++ String d tail) = String c' t'
                /\ (p c' = true \/ (c' = d /\ t' = tail)).
Proof.
  revert i. induction run as [|c r IH]; intros i Hrun Hd Hi.
  - destruct i as [|i]; simpl in *.
    + exists d, tail. auto.
    + rewrite Hd in Hi. discriminate.
  - simpl in Hrun. apply andb_prop in Hrun. destruct Hrun as [Hc Hr].
    destruct i as [|i]; simpl in *.
    + exists c, (r ++ String d tail)%string. auto.
    + rewrite Hc in Hi. simpl in Hi. now apply IH.
Qed.

(** A member line is no opening line. *)
Lemma re_enum_open_miss key digits rest :
  Js.all Js.is_word key = true ->
  digits <> ""%string -> Js.all Js.is_digit digits = true ->
  matches re_enum_open (key ++ " = " ++ digits ++ rest) = false.
Proof.
  intros Hkey Hd Hds. unfold matches.
  assert (H : search re_enum_open (key ++ " = " ++ digits ++ rest) = None).
  { unfold re_enum_open, Cat. cbn [fold_right].
    rewrite search_anchored, match_at_bol, rmatch_seq. unfold word_dot.
    apply rmatch_plus_cls_fail. cbn [Regex.rest pos caps].
    intros i _ Hrun.
    pose proof (all_weaken _ _ key word_is_word_dot Hkey) as Hkey'.
    change (key ++ " = " ++ digits ++ rest)%string
      with (key ++ String " " ("= " ++ digits ++ rest))%string in *.
    destruct (drop_in_run_tail is_word_dot key " " _ i Hkey' eq_refl Hrun)
      as (c' & t' & -> & Hc').
    rewrite rmatch_seq. apply rmatch_lit_mismatch. cbn [Regex.rest].
    destruct Hc' as [Hc'|[-> ->]].
    - apply prefix_head_mismatch. apply not_space_not_blank.
      now apply word_dot_not_space.
    - destruct digits as [|d0 dt]; [contradiction|].
      simpl in Hds. apply andb_prop in Hds. destruct Hds as [Hd0 _].
      change (String " " ("= " ++ String d0 dt ++ rest))
        with (" = " ++ String d0 (dt ++ rest))%string.
      change " = {"%string with (" = " ++ String "{" "")%string.
      apply prefix_app_mismatch. now apply digit_not_open. }
  now rewrite H.
Qed.

(** A member line. *)
Lemma re_enum_member_hit key digits (comma : bool) :
  key <> ""%string -> Js.all Js.is_word key = true ->
  digits <> ""%string -> Js.all Js.is_digit digits = true ->
  exists m,
    search re_enum_member (key ++ " = " ++ digits ++ (if comma then "," else ""))
    = Some m
    /\ group1 m 1 = key /\ group1 m 2 = digits.
Proof.
  intros Hk Hkw Hd Hds.
  assert (Hd0 : match digits with
                | String d0 _ => Js.is_space d0 = false
                | EmptyString => True
                end).
  { destruct digits as [|d0 dt]; [exact I|]. simpl in Hds.
    apply andb_prop in Hds. apply digit_not_space. tauto. }
  destruct comma.
  - eexists. split.
    { unfold re_enum_member, Cat. cbn [fold_right].
      rewrite search_anchored, match_at_bol, rmatch_seq. unfold word.
      apply rmatch_grp_plus_cls_run; [assumption | assumption | reflexivity |].
      rewrite rmatch_seq. unfold space.
      apply (rmatch_star_cls_run _ _ " "%string); [reflexivity | reflexivity |].
      lit_step (" " ++ digits ++ ",")%string.
      rewrite rmatch_seq.
      apply (rmatch_star_cls_run _ _ " "%string);
        [reflexivity | destruct digits; [contradiction | exact Hd0] |].
      rewrite rmatch_seq. unfold digit.
      apply rmatch_grp_plus_cls_run; [assumption | assumption | reflexivity |].
      rewrite rmatch_seq, rmatch_opt.
      rewrite (rmatch_lit "," _ ""%string). unfold progressed. cbn [pos].
      match goal with
      | |- context [Nat.eqb (?a + String.length ",") ?a] =>
          replace (Nat.eqb (a + String.length ",") a) with false
            by (symmetry; apply Nat.eqb_neq; simpl; lia)
      end.
      rewrite rmatch_seq, rmatch_eol. reflexivity. }
    split; reflexivity.
  - eexists. split.
    { unfold re_enum_member, Cat. cbn [fold_right].
      rewrite search_anchored, match_at_bol, rmatch_seq. unfold word.
      apply rmatch_grp_plus_cls_run; [assumption | assumption | reflexivity |].
      rewrite rmatch_seq. unfold space.
      apply (rmatch_star_cls_run _ _ " "%string); [reflexivity | reflexivity |].
      lit_step (" " ++ digits ++ "")%string.
      rewrite rmatch_seq.
      apply (rmatch_star_cls_run _ _ " "%string);
        [reflexivity | destruct digits; [contradiction | exact Hd0] |].
      rewrite rmatch_seq. unfold digit.
      apply rmatch_grp_plus_cls_run; [assumption | assumption | reflexivity |].
      rewrite rmatch_seq, rmatch_opt.
      rewrite rmatch_lit_mismatch by reflexivity. cbn [or_try].
      rewrite rmatch_seq, rmatch_eol. reflexivity. }
    split; reflexivity.
Qed.

End EnumPatterns.

Section EnumLoop.
Import Regex LuaAnnotations.

Lemma ends_app a b : ends_with_text b -> ends_with_text (a ++ b).
Proof.
  intros (x & c & -> & Hc). exists (a ++ x)%string, c.
  now rewrite string_app_assoc.
Qed.

Lemma ends_all (p : ascii -> bool) s :
  (forall c, p c = true -> Js.is_space c = false) ->
  s <> ""%string -> Js.all p s = true -> ends_with_text s.
Proof.
  intros Hp Hne Hall. destruct (last_char s Hne) as (a & c & ->).
  exists a, c. split; [reflexivity|]. apply Hp. now apply (all_last p a c).
Qed.

Lemma trim_keep indent s :
  Js.all Js.is_space indent = true ->
  starts_with_text s -> ends_with_text s -> Js.trim (indent ++ s) = s.
Proof.
  intros Hi Hs (a & c & E & Hc). unfold Js.trim.
  rewrite trimStart_spaces by assumption.
  destruct s as [|f t]; [contradiction|]. simpl in Hs.
  cbn [Js.trimStart]. rewrite Hs, E. now apply trimEnd_last.
Qed.

Lemma trim_plain s : starts_with_text s -> ends_with_text s -> Js.trim s = s.
Proof. intros Hs He. now apply (trim_keep "" s). Qed.

Lemma starts_word_dot name rest :
  name <> ""%string -> Js.all is_word_dot name = true ->
  starts_with_text (name ++ rest).
Proof.
  destruct name as [|c t]; [contradiction|]. simpl. intros _ H.
  apply andb_prop in H. apply word_dot_not_space. tauto.
Qed.

Lemma first_word_dot name rest :
  name <> ""%string -> Js.all is_word_dot name = true ->
  exists c t, (name ++ rest)%string = String c t /\ is_word_dot c = true.
Proof.
  destruct name as [|c t]; [contradiction|]. simpl. intros _ H.
  apply andb_prop in H. exists c, (t ++ rest)%string. tauto.
Qed.

Lemma enum_step_tag st name :
  name <> ""%string -> Js.all is_word_dot name = true ->
  enum_step st ("---@enum " ++ name)
  = mkEnumState (es_enums st) (Some name) JsObject.empty.
Proof.
  intros Hne Hall. unfold enum_step.
  rewrite (trim_plain ("---@enum " ++ name)); [|reflexivity|].
  - destruct (re_enum_hit name Hne Hall) as (m & -> & ->). reflexivity.
  - apply ends_app. apply (ends_all is_word_dot); auto using word_dot_not_space.
Qed.

Lemma enum_step_open E name V :
  name <> ""%string -> Js.all is_word_dot name = true ->
  enum_step (mkEnumState E (Some name) V) (name ++ " = {")
  = mkEnumState E (Some name) V.
Proof.
  intros Hne Hall. unfold enum_step.
  rewrite (trim_plain (name ++ " = {")); [|now apply starts_word_dot|].
  - destruct (first_word_dot name " = {" Hne Hall) as (c & t & E1 & Hc).
    rewrite E1, re_enum_miss by now apply word_dot_not_dash. rewrite <- E1.
    cbn [es_currentEnum].
    replace (String.eqb name "") with false by (now destruct name).
    cbn [negb]. now rewrite re_enum_open_hit.
  - apply ends_app. exists " = "%string, "{"%char. split; reflexivity.
Qed.

Lemma enum_step_member E name V m :
  name <> ""%string -> member_ok m ->
  enum_step (mkEnumState E (Some name) V) (enum_member_line m)
  = mkEnumState E (Some name)
                (JsObject.set_primitive V (em_key m) (parseInt10 (em_digits m))).
Proof.
  intros Hne (Hi & Hk & Hkw & Hd & Hds). unfold enum_step, enum_member_line.
  set (body := (em_key m ++ " = " ++ em_digits m
                ++ (if em_comma m then "," else ""))%string).
  pose proof (all_weaken _ _ _ word_is_word_dot Hkw) as Hkw'.
  rewrite (trim_keep (em_indent m) body);
    [|assumption | now apply starts_word_dot |].
  - destruct (first_word_dot (em_key m)
                (" = " ++ em_digits m ++ (if em_comma m then "," else ""))
                Hk Hkw') as (c & t & E1 & Hc).
    fold body in E1. rewrite E1, re_enum_miss by now apply word_dot_not_dash.
    cbn [es_currentEnum].
    replace (String.eqb name "") with false by (now destruct name).
    cbn [negb]. rewrite <- E1. unfold body.
    rewrite re_enum_open_miss by assumption.
    replace (String.eqb _ "}") with false.
    + destruct (re_enum_member_hit (em_key m) (em_digits m) (em_comma m)
                                   Hk Hkw Hd Hds) as (mm & -> & -> & ->).
      reflexivity.
    + symmetry. destruct (em_key m) as [|k0 kt]; [contradiction|].
      simpl in Hkw. apply andb_prop in Hkw. destruct Hkw as [Hk0 _].
      cbn [String.append String.eqb]. now rewrite (word_not_brace k0 Hk0).
  - unfold body. apply ends_app. apply ends_app.
    destruct (em_comma m).
    + apply ends_app. exists ""%string, ","%char. split; reflexivity.
    + rewrite append_empty_r.
      apply (ends_all Js.is_digit); auto using digit_not_space.
Qed.

Lemma enum_step_close E name V :
  name <> ""%string ->
  enum_step (mkEnumState E (Some name) V) "}"
  = mkEnumState (JsObject.set E name V) None JsObject.empty.
Proof.
  intros Hne. unfold enum_step.
  change (Js.trim "}") with "}"%string.
  change (search re_enum "}") with (@None MState).
  cbn [es_currentEnum].
  replace (String.eqb name "") with false by (now destruct name).
  reflexivity.
Qed.

Lemma fold_enum_members E name members V :
  name <> ""%string -> Forall member_ok members ->
  fold_left enum_step (map enum_member_line members)
            (mkEnumState E (Some name) V)
  = mkEnumState E (Some name) (enum_values members V).
Proof.
  intros Hne Hok. revert V. induction Hok as [|m l Hm _ IH]; intros V;
    [reflexivity|].
  simpl. rewrite enum_step_member by assumption. apply IH.
Qed.

(** A property that was just assigned is read back. *)
Lemma object_get_insert_index {V} (o : list (string * V)) i k v :
  JsObject.array_index k = Some i ->
  JsMap.get (JsObject.insert_index o i k v) k = Some v.
Proof.
  intros Hk.
  induction o as [|[k' v'] o IH]; simpl.
  - now rewrite String.eqb_refl.
  - destruct (JsObject.array_index k') as [j|] eqn:Hj.
    + destruct (j <? i)%Z eqn:Hlt.
      * simpl. destruct (String.eqb_spec k' k) as [->|]; [|exact IH].
        rewrite Hk in Hj. injection Hj as <-. lia.
      * simpl. now rewrite String.eqb_refl.
    + simpl. now rewrite String.eqb_refl.
Qed.

Lemma map_get_app_absent {V} (o : JsMap.t V) k v :
  JsMap.get o k = None -> JsMap.get (o ++ [(k, v)]) k = Some v.
Proof.
  induction o as [|[k' v'] o IH]; simpl.
  - now rewrite String.eqb_refl.
  - destruct (String.eqb k' k); [discriminate | exact IH].
Qed.

Lemma get_write_same {V} (o : list (string * V)) k v :
  JsMap.get (JsObject.write o k v) k = Some v.
Proof.
  unfold JsObject.write, JsMap.has.
  destruct (JsMap.get o k) eqn:Hg.
  - apply get_set_same.
  - destruct (JsObject.array_index k) as [i|] eqn:Hi.
    + now apply object_get_insert_index.
    + now apply map_get_app_absent.
Qed.

(** An assignment is read back, also under the key [__proto__], where the
    value is the prototype that the getter returns, as long as the value
    has no property of that name itself. *)
Lemma object_get_set {V} (member : V -> string -> option JsObject.Inherited)
      (o : JsObject.t V) k v :
  member v "__proto__"%string = None ->
  JsObject.get member (JsObject.set o k v) k = JsObject.Found v.
Proof.
  intros Hm. unfold JsObject.set, JsObject.get, JsObject.get_own.
  destruct (negb (JsObject.has o k) && String.eqb k "__proto__") eqn:Hc.
  - apply andb_prop in Hc. destruct Hc as [Hh Hk].
    apply String.eqb_eq in Hk. subst k. cbn [JsObject.own JsObject.proto].
    unfold JsObject.has, JsMap.has in Hh.
    destruct (JsMap.get (JsObject.own o) "__proto__"); [discriminate|].
    now rewrite Hm.
  - cbn [JsObject.own]. now rewrite get_write_same.
Qed.

Lemma get_insert_index_other {V} (o : list (string * V)) i k v k' :
  k <> k' ->
  JsMap.get (JsObject.insert_index o i k v) k' = JsMap.get o k'.
Proof.
  intros Hne. induction o as [|[k0 v0] o IH]; simpl.
  - now rewrite (proj2 (String.eqb_neq k k')).
  - destruct (JsObject.array_index k0) as [j|].
    + destruct (j <? i)%Z; simpl.
      * now rewrite IH.
      * now rewrite (proj2 (String.eqb_neq k k')).
    + simpl. now rewrite (proj2 (String.eqb_neq k k')).
Qed.

Lemma get_write_other {V} (o : list (string * V)) k v k' :
  k <> k' -> JsMap.get (JsObject.write o k v) k' = JsMap.get o k'.
Proof.
  intros Hne. unfold JsObject.write.
  destruct (JsMap.has o k).
  - now apply get_set_other.
  - destruct (JsObject.array_index k) as [i|].
    + now apply get_insert_index_other.
    + induction o as [|[k0 v0] o IH]; simpl.
      * now rewrite (proj2 (String.eqb_neq k k')).
      * now rewrite IH.
Qed.

(** An assignment of a Number never creates a property [__proto__]. *)
Lemma set_primitive_no_proto {V} (o : JsObject.t V) k v :
  JsObject.get_own o "__proto__" = None ->
  JsObject.get_own (JsObject.set_primitive o k v) "__proto__" = None.
Proof.
  intros H. unfold JsObject.set_primitive.
  destruct (negb (JsObject.has o k) && String.eqb k "__proto__") eqn:Hc;
    [exact H|].
  unfold JsObject.get_own. cbn [JsObject.own].
  destruct (String.eqb_spec k "__proto__") as [->|Hne].
  - rewrite andb_true_r in Hc. apply negb_false_iff in Hc.
    unfold JsObject.has, JsMap.has in Hc. unfold JsObject.get_own in H.
    rewrite H in Hc. discriminate.
  - rewrite get_write_other by assumption. exact H.
Qed.

Lemma enum_values_no_proto members V :
  JsObject.get_own V "__proto__" = None ->
  JsObject.get_own (enum_values members V) "__proto__" = None.
Proof.
  revert V. induction members as [|m l IH]; intros V H; [exact H|].
  simpl. apply IH. now apply set_primitive_no_proto.
Qed.

End EnumLoop.

(** X18.  An enum in the spelling of [Enum.lua] is read back whole: after
    any preceding lines, the tag line, the opening line, the member lines
    (indented or not, the comma after the value optional) and the closing
    brace assign to the enum name the object that the members build one by
    one, each value the Number its digits spell (an infinity when they
    overflow); reading the name from the result returns that object.  The
    assignments are those of JavaScript: a member named [__proto__] is
    ignored, and an enum named [__proto__] becomes the prototype of the
    table, which is what reading that name returns. *)
Theorem parseEnumLines_round_trip (pre : list string) (name : string)
        (members : list EnumMember) :
  name <> ""%string -> Js.all LuaAnnotations.is_word_dot name = true ->
  Forall member_ok members ->
  LuaAnnotations.parseEnumLines (pre ++ enum_block name members)
  = JsObject.set (LuaAnnotations.parseEnumLines pre) name
                 (enum_values members JsObject.empty)
  /\ JsObject.get LuaAnnotations.enum_member
                  (LuaAnnotations.parseEnumLines (pre ++ enum_block name members))
                  name
     = JsObject.Found (enum_values members JsObject.empty).
Proof.
  intros Hne Hall Hok.
  assert (E : LuaAnnotations.parseEnumLines (pre ++ enum_block name members)
              = JsObject.set (LuaAnnotations.parseEnumLines pre) name
                             (enum_values members JsObject.empty)).
  { unfold LuaAnnotations.parseEnumLines, enum_block.
    rewrite fold_left_app. cbn [fold_left].
    rewrite enum_step_tag by assumption.
    rewrite enum_step_open by assumption.
    rewrite fold_left_app. rewrite fold_enum_members by assumption.
    cbn [fold_left]. rewrite enum_step_close by assumption. reflexivity. }
  split; [exact E|]. rewrite E. apply object_get_set.
  unfold LuaAnnotations.enum_member.
  now rewrite enum_values_no_proto.
Qed.

Lemma parseEnumLines_round_trip_witness :
  LuaAnnotations.parseEnumLines
    (Samples.enum_lines ++ enum_block "Enum.UnitKind" EnumSamples.members)
  = JsObject.set (LuaAnnotations.parseEnumLines Samples.enum_lines) "Enum.UnitKind"
                 (enum_values EnumSamples.members JsObject.empty)
  /\ JsObject.get LuaAnnotations.enum_member
                  (LuaAnnotations.parseEnumLines
                     (Samples.enum_lines
                        ++ enum_block "Enum.UnitKind" EnumSamples.members))
                  "Enum.UnitKind"
     = JsObject.Found (enum_values EnumSamples.members JsObject.empty).
Proof.
  apply (parseEnumLines_round_trip Samples.enum_lines "Enum.UnitKind"
                                   EnumSamples.members).
  - discriminate.
  - reflexivity.
  - repeat constructor; discriminate.
Defined.

(** ** Event and CVar files *)

Section AliasLines.
Import Regex LuaAnnotations.

Lemma parseEventFile_lines content :
  parseEventFile content = parseEventLines (Js.split_lines content).
Proof. reflexivity. Qed.

Lemma parseCVarFile_lines content :
  parseCVarFile content = parseCVarLines (Js.split_lines content).
Proof. reflexivity. Qed.

Lemma search_from_none r input i fuel :
  (forall j, match_at r input (S (i + j)) = None) ->
  search_from r input (S i) fuel = None.
Proof.
  revert i. induction fuel as [|fuel IH]; intros i H; simpl.
  - specialize (H 0). rewrite Nat.add_0_r in H. now rewrite H.
  - pose proof (H 0) as H0. rewrite Nat.add_0_r in H0. rewrite H0.
    apply IH. intros j. specialize (H (S j)).
    now replace (S (S i + j)) with (S (i + S j)) by lia.
Qed.

(** The event pattern, which opens with the pattern of a CVar line, matches
    at index 0 or nowhere. *)
Lemma search_event_anchored input :
  search re_event input = match_at re_event input 0.
Proof.
  unfold search. destruct (String.length input) as [|n]; simpl.
  - now destruct (match_at re_event input 0).
  - destruct (match_at re_event input 0); [reflexivity|].
    rewrite search_from_none; [reflexivity|]. intros j. reflexivity.
Qed.

Lemma rmatch_chr c k t pos0 caps0 :
  rmatch (Chr c) k (mkMState (String c t) pos0 caps0)
  = k (mkMState t (S pos0) caps0).
Proof. unfold Chr. rewrite rmatch_cls. cbn [rest]. now rewrite Ascii.eqb_refl. Qed.

(** The part that the two patterns share. *)
Lemma alias_hit k indent name rest1 res :
  Js.all Js.is_space indent = true ->
  name <> ""%string -> Js.all not_quote name = true ->
  k (mkMState rest1 (S (S (0 + String.length indent + String.length "---|")
                          + String.length name))
              [(1, name)]) = Some res ->
  rmatch (Seq (Star space)
            (Seq (Lit "---|")
               (Seq (Chr dquote)
                  (Seq (Grp 1 (Plus (none_of dquote))) (Seq (Chr dquote) Eps)))))
         k (mkMState (alias_line indent name ++ rest1) 0 [])
  = Some res.
Proof.
  intros Hi Hn Hq Hk. unfold alias_line, Samples.quoted.
  rewrite !string_app_assoc.
  rewrite rmatch_seq. unfold space.
  apply rmatch_star_cls_run; [exact Hi | reflexivity |].
  lit_step (String dquote name ++ String dquote "" ++ rest1)%string.
  rewrite rmatch_seq. cbn [String.append]. rewrite rmatch_chr.
  rewrite rmatch_seq. unfold none_of.
  apply rmatch_grp_plus_cls_run; [exact Hn | exact Hq | reflexivity |].
  rewrite rmatch_seq, rmatch_chr. exact Hk.
Qed.

Lemma re_cvar_hit indent name rest1 :
  Js.all Js.is_space indent = true ->
  name <> ""%string -> Js.all not_quote name = true ->
  exists m, search re_cvar (alias_line indent name ++ rest1) = Some m
            /\ group1 m 1 = name.
Proof.
  intros Hi Hn Hq. eexists. split.
  - unfold re_cvar, Cat. cbn [fold_right].
    rewrite search_anchored, match_at_bol.
    apply alias_hit; [assumption | assumption | assumption | reflexivity].
  - reflexivity.
Qed.

Lemma payload_hit k p rest1 pos0 caps0 res :
  Js.all not_backtick p = true ->
  k (mkMState rest1
              (pos0 + String.length " " + String.length "#" + String.length " "
               + String.length "`" + String.length p + String.length "`")
              ((2, p) :: caps0)) = Some res ->
  rmatch (Seq (Star space)
            (Seq (Lit "#")
               (Seq (Star space)
                  (Seq (Lit "`")
                     (Seq (Grp 2 (Star (none_of "`"))) (Seq (Lit "`") Eps))))))
         k (mkMState (payload_comment p ++ rest1) pos0 caps0)
  = Some res.
Proof.
  intros Hp Hk. unfold payload_comment. rewrite !string_app_assoc.
  rewrite rmatch_seq. unfold space.
  apply (rmatch_star_cls_run _ _ " "%string); [reflexivity | reflexivity |].
  lit_step (" `" ++ p ++ "`" ++ rest1)%string.
  rewrite rmatch_seq.
  apply (rmatch_star_cls_run _ _ " "%string); [reflexivity | reflexivity |].
  lit_step (p ++ "`" ++ rest1)%string.
  rewrite rmatch_seq. unfold none_of.
  apply rmatch_grp_star_cls_run; [exact Hp | reflexivity |].
  lit_step rest1. exact Hk.
Qed.

Lemma re_event_hit indent name (payload : option string) rest1 :
  Js.all Js.is_space indent = true ->
  name <> ""%string -> Js.all not_quote name = true ->
  match payload with
  | Some p => Js.all not_backtick p = true
  | None => rest1 = ""%string
  end ->
  exists m,
    search re_event (alias_line indent name
                     ++ match payload with
                        | Some p => payload_comment p
                        | None => ""
                        end ++ rest1)
    = Some m
    /\ group1 m 1 = name /\ group m 2 = payload.
Proof.
  intros Hi Hn Hq Hp. rewrite search_event_anchored.
  unfold match_at, re_event, re_cvar, Cat. cbn [fold_right Js.drop].
  rewrite rmatch_seq, rmatch_seq, rmatch_bol.
  destruct payload as [p|].
  - eexists. split.
    + apply alias_hit; [assumption | assumption | assumption |].
      rewrite rmatch_seq, rmatch_opt.
      erewrite payload_hit; [reflexivity | exact Hp |].
      unfold progressed. cbn [pos].
      match goal with
      | |- (if Nat.eqb ?a ?b then _ else _) = _ =>
          replace (Nat.eqb a b) with false
            by (symmetry; apply Nat.eqb_neq; simpl; lia)
      end.
      reflexivity.
    + split; reflexivity.
  - subst rest1. eexists. split.
    + cbn [String.append].
      apply alias_hit; [assumption | assumption | assumption |].
      rewrite rmatch_seq, rmatch_opt.
      rewrite rmatch_seq. unfold space.
      rewrite rmatch_star. cbn [rest String.length star_loop].
      rewrite rmatch_cls. cbn [rest or_try].
      rewrite rmatch_seq, rmatch_lit_mismatch by reflexivity.
      cbn [or_try rmatch]. reflexivity.
    + split; reflexivity.
Qed.

End AliasLines.

(** X19.  An alias line is read back by both parsers.  A line that
    consists of an indentation, [---|] and a quoted name adds the name to
    the CVar list, whatever follows the closing quote, and assigns to the
    name, in the event table, the event of that name; the payload is the
    text between the backticks of a comment that follows the name, and
    absent when the line ends after the name or the backticks enclose
    nothing.  The assignment is that of JavaScript: an event named
    [__proto__] becomes the prototype of the table, which is what reading
    that name returns. *)
Theorem alias_line_round_trip (lines : list string) (indent name : string)
        (payload : option string) (rest1 : string) :
  Js.all Js.is_space indent = true ->
  name <> ""%string -> Js.all not_quote name = true ->
  match payload with
  | Some p => Js.all not_backtick p = true
  | None => rest1 = ""%string
  end ->
  parseEventLines
    (lines ++ [(alias_line indent name
                ++ match payload with Some p => payload_comment p | None => "" end
                ++ rest1)%string])
  = JsObject.set (parseEventLines lines) name
                 (mkEvent name (LuaAnnotations.or_null payload))
  /\ JsObject.get LuaAnnotations.event_member
       (parseEventLines
          (lines ++ [(alias_line indent name
                      ++ match payload with
                         | Some p => payload_comment p
                         | None => ""
                         end ++ rest1)%string]))
       name
     = JsObject.Found (mkEvent name (LuaAnnotations.or_null payload))
  /\ parseCVarLines
       (lines ++ [(alias_line indent name
                   ++ match payload with
                      | Some p => payload_comment p
                      | None => ""
                      end ++ rest1)%string])
     = parseCVarLines lines ++ [name].
Proof.
  intros Hi Hn Hq Hp.
  destruct (re_event_hit indent name payload rest1 Hi Hn Hq Hp)
    as (m & Hm & H1 & H2).
  destruct (re_cvar_hit indent name
              (match payload with Some p => payload_comment p | None => "" end
               ++ rest1) Hi Hn Hq) as (m' & Hm' & H1').
  assert (E : parseEventLines
                (lines ++ [(alias_line indent name
                            ++ match payload with
                               | Some p => payload_comment p
                               | None => ""
                               end ++ rest1)%string])
              = JsObject.set (parseEventLines lines) name
                             (mkEvent name (LuaAnnotations.or_null payload))).
  { unfold parseEventLines. rewrite fold_left_app. cbn [fold_left].
    unfold LuaAnnotations.event_step at 1. now rewrite Hm, H1, H2. }
  split; [exact E|]. split; [rewrite E; now apply object_get_set|].
  unfold parseCVarLines. rewrite fold_left_app. cbn [fold_left].
  unfold LuaAnnotations.cvar_step at 1. now rewrite Hm', H1'.
Qed.

Lemma alias_line_round_trip_witness :
  parseEventLines
    (["---@alias FrameEvent string"%string]
       ++ [(alias_line "" "PLAYER_LOGIN" ++ payload_comment "arg1, arg2" ++ "")%string])
  = JsObject.set (parseEventLines ["---@alias FrameEvent string"%string])
                 "PLAYER_LOGIN"
                 (mkEvent "PLAYER_LOGIN"
                          (LuaAnnotations.or_null (Some "arg1, arg2"%string)))
  /\ JsObject.get LuaAnnotations.event_member
       (parseEventLines
          (["---@alias FrameEvent string"%string]
             ++ [(alias_line "" "PLAYER_LOGIN" ++ payload_comment "arg1, arg2"
                  ++ "")%string]))
       "PLAYER_LOGIN"
     = JsObject.Found (mkEvent "PLAYER_LOGIN"
                               (LuaAnnotations.or_null (Some "arg1, arg2"%string)))
  /\ parseCVarLines
       (["---@alias FrameEvent string"%string]
          ++ [(alias_line "" "PLAYER_LOGIN" ++ payload_comment "arg1, arg2"
               ++ "")%string])
     = parseCVarLines ["---@alias FrameEvent string"%string] ++ ["PLAYER_LOGIN"%string].
Proof.
  apply (alias_line_round_trip ["---@alias FrameEvent string"%string] ""
                               "PLAYER_LOGIN" (Some "arg1, arg2"%string) "");
    first [discriminate | reflexivity].
Defined.

(** ** The patch version of a file name *)

Section PatchName.
Import Regex LuaAnnotations.

Lemma search_from_first r input n m :
  (forall i, i < n -> match_at r input i = None) ->
  match_at r input n = Some m ->
  forall i fuel, i <= n -> n <= i + fuel ->
                 search_from r input i fuel = Some (n, m).
Proof.
  intros Hnone Hhit i fuel. revert i.
  induction fuel as [|fuel IH]; intros i Hi Hf.
  - assert (i = n) by lia. subst i. simpl. now rewrite Hhit.
  - destruct (Nat.eq_dec i n) as [->|Hne].
    + simpl. now rewrite Hhit.
    + simpl. rewrite Hnone by lia. apply IH; lia.
Qed.

Lemma drop_app_more a b i :
  i <= String.length a -> Js.drop i (a ++ b) = (Js.drop i a ++ b)%string.
Proof.
  revert i. induction a as [|c a IH]; intros i Hi.
  - simpl in Hi. assert (i = 0) by lia. subst i. now destruct b.
  - destruct i as [|i]; [reflexivity|]. simpl in *. apply IH. lia.
Qed.

Lemma prefix_cons_inv c x d y :
  String.prefix (String c x) (String d y) = true -> c = d /\ String.prefix x y = true.
Proof.
  cbn [String.prefix]. destruct (ascii_dec c d); [auto | discriminate].
Qed.

(** An occurrence of the literal that starts in a non-empty text that the
    literal follows lies within the text: no proper end of the literal is
    a start of it. *)
Lemma literal_has_no_border s X :
  s <> ""%string ->
  String.prefix "Deprecated_" (s ++ "Deprecated_" ++ X) = true ->
  String.prefix "Deprecated_" s = true.
Proof.
  intros Hne H.
  repeat (lazymatch goal with
          | H : String.prefix (String _ _) (?t ++ _) = true |- _ =>
              destruct t as [|? ?];
              [ cbn [String.append] in H;
                repeat (lazymatch type of H with
                        | String.prefix (String _ _) (String _ _) = true =>
                            apply prefix_cons_inv in H;
                            let E := fresh "E" in
                            destruct H as [E H]; try discriminate E
                        end);
                try contradiction
              | cbn [String.append] in H; apply prefix_cons_inv in H;
                let E := fresh "E" in
                destruct H as [E H]; subst ]
          end).
  all: try reflexivity.
  all: cbn [String.prefix];
    repeat (lazymatch goal with
            | |- context [ascii_dec ?a ?a] =>
                destruct (ascii_dec a a); [|contradiction]
            end); now destruct s.
Qed.

Lemma includes_app_false pre X i :
  Js.includes pre "Deprecated_" = false -> i < String.length pre ->
  String.prefix "Deprecated_" (Js.drop i (pre ++ "Deprecated_" ++ X)) = false.
Proof.
  revert i. induction pre as [|c t IH]; intros i Hinc Hi; [simpl in Hi; lia|].
  cbn [Js.includes] in Hinc. apply orb_false_iff in Hinc.
  destruct Hinc as [Hhere Hlater].
  destruct i as [|i].
  - cbn [Js.drop].
    destruct (String.prefix "Deprecated_" (String c t ++ "Deprecated_" ++ X))
      eqn:E; [|reflexivity].
    apply literal_has_no_border in E; [congruence | discriminate].
  - cbn [Js.drop String.append]. apply IH; [exact Hlater | simpl in Hi; lia].
Qed.

Lemma digit_not_underscore c : Js.is_digit c = true -> Ascii.eqb c "_" = false.
Proof.
  destruct c as [[|] [|] [|] [|] [|] [|] [|] [|]]; vm_compute; congruence.
Qed.

End PatchName.

(** X20.  The patch version is read off the first place of the path where
    [Deprecated_] stands before three runs of digits separated by
    underscores: when the text before that place does not contain
    [Deprecated_] (a directory named [Blizzard_Deprecated] does not), the
    version is the three runs joined by dots, whatever follows the third
    run. *)
Theorem extractPatch_complete (pre a b c rest1 : string) :
  Js.includes pre "Deprecated_" = false ->
  a <> ""%string -> Js.all Js.is_digit a = true ->
  b <> ""%string -> Js.all Js.is_digit b = true ->
  c <> ""%string -> Js.all Js.is_digit c = true ->
  match rest1 with String d _ => Js.is_digit d = false | EmptyString => True end ->
  LuaAnnotations.extractPatchFromFilename
    (pre ++ "Deprecated_" ++ a ++ "_" ++ b ++ "_" ++ c ++ rest1)
  = Some (a ++ "." ++ b ++ "." ++ c)%string.
Proof.
  intros Hpre Ha Hda Hb Hdb Hc Hdc Hrest.
  set (input := (pre ++ "Deprecated_" ++ a ++ "_" ++ b ++ "_" ++ c ++ rest1)%string).
  assert (Hhit : exists m,
             Regex.match_at LuaAnnotations.re_patch input (String.length pre)
             = Some m
             /\ LuaAnnotations.group1 m 1 = a /\ LuaAnnotations.group1 m 2 = b
             /\ LuaAnnotations.group1 m 3 = c).
  { eexists. split.
    - unfold Regex.match_at, input. rewrite drop_app_length.
      unfold LuaAnnotations.re_patch, LuaAnnotations.Cat. cbn [fold_right].
      lit_step (a ++ "_" ++ b ++ "_" ++ c ++ rest1)%string.
      rewrite rmatch_seq. unfold Regex.digit.
      apply rmatch_grp_plus_cls_run; [assumption | assumption | reflexivity |].
      lit_step (b ++ "_" ++ c ++ rest1)%string.
      rewrite rmatch_seq.
      apply rmatch_grp_plus_cls_run; [assumption | assumption | reflexivity |].
      lit_step (c ++ rest1)%string.
      rewrite rmatch_seq.
      apply rmatch_grp_plus_cls_run; [assumption | assumption | exact Hrest |].
      reflexivity.
    - repeat split; reflexivity. }
  destruct Hhit as (m & Hm & H1 & H2 & H3).
  unfold LuaAnnotations.extractPatchFromFilename, Regex.search. fold input.
  rewrite (search_from_first LuaAnnotations.re_patch input (String.length pre) m).
  - simpl. now rewrite H1, H2, H3.
  - intros i Hi. unfold Regex.match_at, LuaAnnotations.re_patch, LuaAnnotations.Cat.
    cbn [fold_right]. rewrite rmatch_seq. apply rmatch_lit_mismatch.
    cbn [Regex.rest]. unfold input. now apply includes_app_false.
  - exact Hm.
  - lia.
  - unfold input. rewrite length_app_string. lia.
Qed.

Lemma extractPatch_complete_witness :
  LuaAnnotations.extractPatchFromFilename
    ("Annotations/Core/FrameXML/Blizzard_Deprecated/" ++ "Deprecated_" ++ "11"
     ++ "_" ++ "0" ++ "_" ++ "5" ++ ".lua")
  = Some ("11" ++ "." ++ "0" ++ "." ++ "5")%string.
Proof.
  apply (extractPatch_complete "Annotations/Core/FrameXML/Blizzard_Deprecated/"
                               "11" "0" "5" ".lua");
    first [discriminate | reflexivity].
Defined.

(** ** The patch version of a deprecated record *)

Section PatchPresence.
Import Regex LuaAnnotations.







End PatchPresence.



(** ** The walk over the annotation directories *)

Section WalkFacts.
Import FileSystem.

Variable join : list string -> string.

Local Abbreviation find := (findLuaFiles join).
Local Abbreviation scan := (scan_entries join (findLuaFiles join)).

Lemma find_dir dir entries : find dir (Dir (Some entries)) = scan dir entries.
Proof. reflexivity. Qed.

Lemma scan_cons dir e rest :
  scan dir (e :: rest)
  = match snd e with
    | Broken => []
    | Dir listing => find (join [dir; fst e]) (snd e) ++ scan dir rest
    | File => if endsWith (fst e) ".lua"
              then join [dir; fst e] :: scan dir rest
              else scan dir rest
    end.
Proof. reflexivity. Qed.

Lemma scan_broken dir before entry after :
  scan dir (before ++ (entry, Broken) :: after) = scan dir before.
Proof.
  induction before as [|e before IH]; [reflexivity|].
  cbn [app]. rewrite !scan_cons, IH. reflexivity.
Qed.

Lemma scan_app dir before after :
  reached before ->
  scan dir (before ++ after) = scan dir before ++ scan dir after.
Proof.
  induction 1 as [|e before He _ IH]; [reflexivity|].
  cbn [app]. rewrite !scan_cons, IH.
  destruct (snd e); [|contradiction|].
  - now destruct (endsWith (fst e) ".lua").
  - now rewrite app_assoc.
Qed.

Lemma scan_sound dir entries p :
  Forall (fun e => forall d q, In q (find d (snd e)) -> lists join d (snd e) q)
         entries ->
  forall before, reached before -> In p (scan dir entries) ->
                 lists join dir (Dir (Some (before ++ entries))) p.
Proof.
  induction 1 as [|e rest He _ IH]; intros before Hb Hin; [contradiction|].
  assert (Hnext : snd e <> Broken -> In p (scan dir rest) ->
                  lists join dir (Dir (Some (before ++ e :: rest))) p).
  { intros Hne Hr.
    replace (before ++ e :: rest) with ((before ++ [e]) ++ rest)
      by (now rewrite <- app_assoc).
    apply IH; [|exact Hr]. apply Forall_app. split; [exact Hb|].
    constructor; [exact Hne | constructor]. }
  rewrite scan_cons in Hin. destruct e as [entry child]. cbn [fst snd] in *.
  destruct child as [| |listing].
  - destruct (endsWith entry ".lua") eqn:Hlua.
    + destruct Hin as [<-|Hin]; [now apply lists_file|].
      apply Hnext; [discriminate | exact Hin].
    + apply Hnext; [discriminate | exact Hin].
  - contradiction.
  - apply in_app_or in Hin. destruct Hin as [Hin|Hin].
    + apply lists_below; [exact Hb|]. now apply He.
    + apply Hnext; [discriminate | exact Hin].
Qed.

Lemma find_sound n :
  forall dir p, In p (find dir n) -> lists join dir n p.
Proof.
  induction n as [| | |entries IH] using Node_induction; intros dir p Hin;
    try contradiction.
  rewrite find_dir in Hin.
  apply (scan_sound dir entries p IH [] (Forall_nil _) Hin).
Qed.

Lemma find_complete dir n p : lists join dir n p -> In p (find dir n).
Proof.
  induction 1 as [dir before entry after Hb Hlua
                 |dir before entry listing after p Hb _ IH];
    rewrite find_dir, scan_app by assumption; apply in_or_app; right;
    rewrite scan_cons; cbn [fst snd].
  - rewrite Hlua. now left.
  - apply in_or_app. now left.
Qed.

End WalkFacts.

(** X21.  [findLuaFiles] returns exactly the files named [*.lua] that the
    walk reaches: a path is in the result if and only if it is the join of
    the directories on the way and the name of a file that ends in [.lua],
    where in every directory on the way only the entries before the first
    one on which [statSync] throws are reached.  A directory is walked
    whatever its name and is never listed itself; a directory that cannot
    be read contributes nothing. *)
Theorem findLuaFiles_lists (join : list string -> string) (dir : string)
        (n : FileSystem.Node) (p : string) :
  In p (FileSystem.findLuaFiles join dir n) <-> FileSystem.lists join dir n p.
Proof. split; [apply find_sound | apply find_complete]. Qed.

(** X22.  An entry on which [statSync] throws ends the listing of its
    directory without an error: the result is that of the entries before
    it, and the entries after it are never looked at.  Without such an
    entry the result of a directory is the results of its parts, one after
    the other. *)
Theorem findLuaFiles_stops_at_broken_entry
        (join : list string -> string) (dir : string)
        (before after : list (string * FileSystem.Node)) (entry : string) :
  FileSystem.reached before ->
  FileSystem.findLuaFiles join dir
    (FileSystem.Dir (Some (before ++ (entry, FileSystem.Broken) :: after)))
  = FileSystem.findLuaFiles join dir (FileSystem.Dir (Some before))
  /\ FileSystem.findLuaFiles join dir (FileSystem.Dir (Some (before ++ after)))
     = FileSystem.findLuaFiles join dir (FileSystem.Dir (Some before))
       ++ FileSystem.findLuaFiles join dir (FileSystem.Dir (Some after)).
Proof.
  intros Hb. split.
  - rewrite !find_dir. apply scan_broken.
  - rewrite !find_dir. now apply scan_app.
Qed.

Lemma findLuaFiles_stops_at_broken_entry_witness :
  FileSystem.findLuaFiles FileSystem.Samples.join "Widget"
    (FileSystem.Dir
       (Some ([("Frame.lua"%string, FileSystem.File)]
                ++ ("dangling"%string, FileSystem.Broken)
                :: [("Late.lua"%string, FileSystem.File)])))
  = FileSystem.findLuaFiles FileSystem.Samples.join "Widget"
      (FileSystem.Dir (Some [("Frame.lua"%string, FileSystem.File)]))
  /\ FileSystem.findLuaFiles FileSystem.Samples.join "Widget"
       (FileSystem.Dir
          (Some ([("Frame.lua"%string, FileSystem.File)]
                   ++ [("Late.lua"%string, FileSystem.File)])))
     = FileSystem.findLuaFiles FileSystem.Samples.join "Widget"
         (FileSystem.Dir (Some [("Frame.lua"%string, FileSystem.File)]))
       ++ FileSystem.findLuaFiles FileSystem.Samples.join "Widget"
            (FileSystem.Dir (Some [("Late.lua"%string, FileSystem.File)])).
Proof.
  apply (findLuaFiles_stops_at_broken_entry FileSystem.Samples.join "Widget"
           [("Frame.lua"%string, FileSystem.File)]
           [("Late.lua"%string, FileSystem.File)] "dangling").
  repeat constructor. discriminate.
Defined.

(** ** The discovery of the extension *)

Section SortFacts.

Lemma string_compare_trans_le a b c :
  String.leb a b = true -> String.leb b c = true -> String.leb a c = true.
Proof.
  unfold String.leb. revert b c.
  induction a as [|x a IH]; intros [|y b] [|z c]; simpl; try easy.
  unfold Ascii.compare.
  destruct (N.compare_spec (N_of_ascii x) (N_of_ascii y)) as [Exy|Lxy|Gxy];
    destruct (N.compare_spec (N_of_ascii y) (N_of_ascii z)) as [Eyz|Lyz|Gyz];
    destruct (N.compare_spec (N_of_ascii x) (N_of_ascii z)) as [Exz|Lxz|Gxz];
    try easy; try lia.
  apply IH.
Qed.

Lemma insert_sorted_ascending x l :
  FileSystem.ascending l -> FileSystem.ascending (insert_sorted x l).
Proof.
  induction l as [|y l IH]; simpl.
  - intros _. split; constructor.
  - intros (Hy & Hs). destruct (String.leb x y) eqn:Hxy; simpl.
    + split; [|now split]. constructor; [exact Hxy|].
      revert Hy. apply Forall_impl. intros z Hz.
      now apply (string_compare_trans_le x y z).
    + split; [|now apply IH].
      apply Forall_forall. intros z Hz. apply in_insert_sorted in Hz.
      destruct Hz as [->|Hz].
      * destruct (String.leb_total x y) as [H|H]; [congruence | exact H].
      * rewrite Forall_forall in Hy. now apply Hy.
Qed.

Lemma sort_ascending l : FileSystem.ascending (sort l).
Proof.
  unfold sort. induction l as [|x l IH]; simpl; [exact I|].
  now apply insert_sorted_ascending.
Qed.

Lemma string_leb_refl s : String.leb s s = true.
Proof. destruct (String.leb_total s s); assumption. Qed.

(** The last element of an ascending list is the greatest. *)
Lemma ascending_rev_head l latest others :
  FileSystem.ascending l ->
  rev l = latest :: others ->
  In latest l /\ forall e, In e l -> String.leb e latest = true.
Proof.
  intros Hs Hrev.
  assert (Hl : l = rev others ++ [latest]).
  { rewrite <- (rev_involutive l), Hrev. reflexivity. }
  subst l. clear Hrev. split; [apply in_or_app; right; now left|].
  intros e He. induction (rev others) as [|y ys IH]; simpl in *.
  - destruct He as [->|[]]. apply string_leb_refl.
  - destruct Hs as (Hy & Hs').
    destruct He as [->|He]; [|now apply IH].
    rewrite Forall_forall in Hy. apply Hy. apply in_or_app. right. now left.
Qed.

End SortFacts.

Section DiscoveryFacts.
Import FileSystem.

Variable join : list string -> string.
Variable readdirSync : string -> option (list string).
Variable existsSync : string -> bool.

Lemma scan_found dir p :
  scanExtensionsDir join readdirSync dir = Some p ->
  exists entries latest,
    readdirSync dir = Some entries
    /\ In latest entries
    /\ Js.startsWith latest "ketho.wow-api-" = true
    /\ p = join [dir; latest]
    /\ forall e, In e entries -> Js.startsWith e "ketho.wow-api-" = true ->
                 String.leb e latest = true.
Proof.
  unfold scanExtensionsDir.
  destruct (readdirSync dir) as [entries|]; [|discriminate].
  destruct (rev (sort (filter _ entries))) as [|latest others] eqn:Hrev;
    [discriminate|].
  intros E. injection E as <-.
  destruct (ascending_rev_head _ _ _ (sort_ascending _) Hrev) as (Hin & Hmax).
  apply in_sort, filter_In in Hin. destruct Hin as (Hin & Hpre).
  exists entries, latest. repeat split; try assumption.
  intros e He Hp. apply Hmax. apply in_sort, filter_In. now split.
Qed.

Lemma scan_not_found dir :
  scanExtensionsDir join readdirSync dir = None
  <-> readdirSync dir = None
      \/ exists entries,
           readdirSync dir = Some entries
           /\ forall e, In e entries -> Js.startsWith e "ketho.wow-api-" = false.
Proof.
  unfold scanExtensionsDir. split.
  - destruct (readdirSync dir) as [entries|]; [|now left].
    destruct (rev (sort (filter _ entries))) as [|latest others] eqn:Hrev;
      [|discriminate].
    intros _. right. exists entries. split; [reflexivity|].
    intros e He.
    destruct (Js.startsWith e "ketho.wow-api-") eqn:Hp; [|reflexivity].
    assert (Hin : In e (rev (sort (filter (fun e => Js.startsWith e "ketho.wow-api-")
                                          entries)))).
    { apply -> in_rev. apply in_sort, filter_In. now split. }
    rewrite Hrev in Hin. contradiction.
  - intros [->|(entries & -> & Hnone)]; [reflexivity|].
    replace (filter (fun e => Js.startsWith e "ketho.wow-api-") entries)
      with (@nil string); [reflexivity|].
    symmetry. induction entries as [|e entries IH]; [reflexivity|].
    simpl. rewrite (Hnone e) by now left.
    apply IH. intros e' He'. apply Hnone. now right.
Qed.

End DiscoveryFacts.

(** X23.  [scanExtensionsDir] returns the join of the directory and its
    entry that starts with [ketho.wow-api-] and is the greatest of these in
    the order of code units, and [null] exactly when the directory cannot
    be read or has no such entry.  The order is that of the strings, not
    of the versions: of the versions 0.9.0 and 0.10.0 it returns 0.9.0. *)
Theorem scanExtensionsDir_latest (join : list string -> string)
        (readdirSync : string -> option (list string)) (dir : string) :
  (forall p,
      FileSystem.scanExtensionsDir join readdirSync dir = Some p ->
      exists entries latest,
        readdirSync dir = Some entries
        /\ In latest entries
        /\ Js.startsWith latest "ketho.wow-api-" = true
        /\ p = join [dir; latest]
        /\ forall e, In e entries -> Js.startsWith e "ketho.wow-api-" = true ->
                     String.leb e latest = true)
  /\ (FileSystem.scanExtensionsDir join readdirSync dir = None
      <-> readdirSync dir = None
          \/ exists entries,
               readdirSync dir = Some entries
               /\ forall e, In e entries ->
                            Js.startsWith e "ketho.wow-api-" = false)
  /\ (readdirSync dir = Some ["ketho.wow-api-0.9.0"%string;
                               "ketho.wow-api-0.10.0"%string] ->
      FileSystem.scanExtensionsDir join readdirSync dir
      = Some (join [dir; "ketho.wow-api-0.9.0"%string])).
Proof.
  split; [|split].
  - apply scan_found.
  - apply scan_not_found.
  - intros H. unfold FileSystem.scanExtensionsDir. rewrite H. reflexivity.
Qed.

Section PathFacts.
Import FileSystem.

Variable join : list string -> string.
Variable readdirSync : string -> option (list string).
Variable existsSync : string -> bool.

Lemma Ok_inj {A} (a b : A) : Ok a = Ok b -> a = b.
Proof. now intros E; injection E. Qed.

Lemma first_found_in homeDir cs p :
  first_found join readdirSync homeDir cs = Some p ->
  exists candidate,
    In candidate cs
    /\ scanExtensionsDir join readdirSync (join [homeDir; candidate; "extensions"])
       = Some p.
Proof.
  induction cs as [|c cs IH]; simpl; [discriminate|].
  destruct (scanExtensionsDir join readdirSync (join [homeDir; c; "extensions"]))
    as [r|] eqn:Hr; simpl.
  - destruct (String.eqb r ""); simpl.
    + intros H. destruct (IH H) as (c' & Hin & Hc'). exists c'. auto.
    + intros E. injection E as <-. exists c. auto.
  - intros H. destruct (IH H) as (c' & Hin & Hc'). exists c'. auto.
Qed.

End PathFacts.

(** X24.  Whatever path [findExtensionPath] returns is the override, under
    which [Annotations] exists, or the join of a scanned directory and an
    entry of it that starts with [ketho.wow-api-]; the scanned directories
    are the override alone when it is set, and the four candidates under
    the home directory otherwise.  A set override is final: the home
    directory is not consulted, also when nothing is found under the
    override.  The call throws exactly when neither the override nor a
    home directory is set. *)
Theorem findExtensionPath_sound (join : list string -> string)
        (readdirSync : string -> option (list string))
        (existsSync : string -> bool) (env : FileSystem.Env) :
  (forall p,
      FileSystem.findExtensionPath join readdirSync existsSync env = Ok (Some p) ->
      (FileSystem.WOW_API_EXT_PATH env = Some p
       /\ existsSync (join [p; "Annotations"%string]) = true)
      \/ exists dir entries latest,
           FileSystem.scanned join env dir
           /\ readdirSync dir = Some entries
           /\ In latest entries
           /\ Js.startsWith latest "ketho.wow-api-" = true
           /\ p = join [dir; latest])
  /\ (Js.truthy (FileSystem.WOW_API_EXT_PATH env) = true ->
      forall userprofile home,
        FileSystem.findExtensionPath join readdirSync existsSync
          (FileSystem.mkEnv (FileSystem.WOW_API_EXT_PATH env) userprofile home)
        = FileSystem.findExtensionPath join readdirSync existsSync env)
  /\ ((exists message,
          FileSystem.findExtensionPath join readdirSync existsSync env
          = Throw message)
      <-> Js.truthy (FileSystem.WOW_API_EXT_PATH env) = false
          /\ Js.truthy (FileSystem.USERPROFILE env) = false
          /\ FileSystem.HOME env = None).
Proof.
  unfold FileSystem.findExtensionPath.
  destruct env as [override userprofile home]. cbn [FileSystem.WOW_API_EXT_PATH
    FileSystem.USERPROFILE FileSystem.HOME].
  split; [|split].
  - intros p. destruct (Js.truthy override) eqn:Ho.
    + destruct override as [extPath|]; [|discriminate].
      destruct (existsSync (join [extPath; "Annotations"%string])) eqn:Hex.
      * intros E. injection E as <-. left. auto.
      * intros E. apply Ok_inj in E. right.
        destruct (scan_found join readdirSync extPath p E)
          as (entries & latest & H1 & H2 & H3 & H4 & _).
        exists extPath, entries, latest. repeat split; try assumption.
        left. auto.
    + destruct (if Js.truthy userprofile then userprofile else home)
        as [homeDir|] eqn:Hh; [|discriminate].
      intros E. apply Ok_inj in E. right.
      destruct (first_found_in join readdirSync homeDir _ p E)
        as (candidate & Hc & Hs).
      destruct (scan_found join readdirSync _ p Hs)
        as (entries & latest & H1 & H2 & H3 & H4 & _).
      exists (join [homeDir; candidate; "extensions"%string]), entries, latest.
      repeat split; try assumption.
      right. split; [exact Ho|]. exists homeDir, candidate. auto.
  - intros Ho up hm. now rewrite Ho.
  - destruct (Js.truthy override) eqn:Ho.
    + split; [|intros (H & _); discriminate].
      intros (message & H). destruct override as [extPath|]; [|discriminate].
      destruct (existsSync _); discriminate.
    + destruct (Js.truthy userprofile) eqn:Hu.
      * split; [|intros (_ & H & _); discriminate].
        intros (message & H). destruct userprofile; [discriminate | discriminate].
      * destruct home as [h|]; split.
        -- intros (message & H). discriminate.
        -- intros (_ & _ & H). discriminate.
        -- auto.
        -- intros _. eexists. reflexivity.
Qed.

(** ** The data files of the extension *)

Section Tokens.
Import Regex.

Variable r : regex.
Variable starts : ascii -> bool.

(** The pattern matches only where a character of [starts] stands. *)
Hypothesis r_starts :
  forall input i m,
    match_at r input i = Some m ->
    exists c t, Js.drop i input = String c t /\ starts c = true.

Variable X : Type.
Variable obs : MState -> X.

Lemma drop_app_beyond a b i :
  Js.drop (String.length a + i) (a ++ b) = Js.drop i b.
Proof. induction a as [|c a IH]; simpl; [reflexivity | exact IH]. Qed.

Lemma junk_no_match pre junk rest1 i :
  Js.all (fun c => negb (starts c)) junk = true ->
  i < String.length junk ->
  match_at r (pre ++ junk ++ rest1) (String.length pre + i) = None.
Proof.
  intros Hjunk Hi.
  destruct (match_at r (pre ++ junk ++ rest1) (String.length pre + i)) as [m|] eqn:E;
    [|reflexivity].
  exfalso. apply r_starts in E. destruct E as (c & t & Hd & Hc).
  rewrite drop_app_beyond in Hd.
  revert i Hi Hd. induction junk as [|d junk IH]; intros i Hi Hd;
    [simpl in Hi; lia|].
  simpl in Hjunk. apply andb_prop in Hjunk. destruct Hjunk as [Hd0 Hj].
  destruct i as [|i].
  - simpl in Hd. injection Hd as -> _. rewrite Hc in Hd0. discriminate.
  - simpl in Hd, Hi. apply (IH Hj i); [lia | exact Hd].
Qed.

Lemma end_no_match input : match_at r input (String.length input) = None.
Proof.
  destruct (match_at r input (String.length input)) as [m|] eqn:E; [|reflexivity].
  exfalso. apply r_starts in E. destruct E as (c & t & Hd & _).
  pose proof (drop_app_length input "") as H. rewrite append_empty_r in H.
  rewrite H in Hd. discriminate.
Qed.

Lemma search_from_all_none input i fuel :
  (forall j, i <= j -> j <= i + fuel -> match_at r input j = None) ->
  search_from r input i fuel = None.
Proof.
  revert i. induction fuel as [|fuel IH]; intros i H; simpl.
  - rewrite H by lia. reflexivity.
  - rewrite H by lia. apply IH. intros j H1 H2. apply H; lia.
Qed.

Lemma search_from_reaches input n m :
  match_at r input n = Some m ->
  forall fuel i,
    (forall j, i <= j -> j < n -> match_at r input j = None) ->
    i <= n -> n <= i + fuel ->
    search_from r input i fuel = Some (n, m).
Proof.
  intros Hhit. induction fuel as [|fuel IH]; intros i Hnone Hi Hf.
  - assert (i = n) by lia. subst i. simpl. now rewrite Hhit.
  - simpl. destruct (Nat.eq_dec i n) as [->|Hne].
    + now rewrite Hhit.
    + rewrite Hnone by lia. apply IH; [|lia|lia].
      intros j H1 H2. apply Hnone; lia.
Qed.

Lemma exec_loop_junk pre junk fuel :
  Js.all (fun c => negb (starts c)) junk = true ->
  exec_loop r (pre ++ junk) (String.length pre) fuel = [].
Proof.
  intros Hjunk. destruct fuel as [|fuel]; [reflexivity|]. simpl.
  rewrite search_from_all_none; [reflexivity|].
  intros j H1 H2. rewrite length_app_string in H2.
  destruct (Nat.eq_dec j (String.length pre + String.length junk)) as [->|Hne].
  - rewrite <- length_app_string. apply end_no_match.
  - replace j with (String.length pre + (j - String.length pre)) by lia.
    rewrite <- (append_empty_r junk). apply junk_no_match; [exact Hjunk | lia].
Qed.

Lemma tokens_text_cons junk it items :
  tokens_text junk (it :: items)
  = (junk ++ fst it ++ tokens_text (snd it) items)%string.
Proof.
  unfold tokens_text. cbn [map String.concat].
  destruct (map _ items); simpl.
  - now rewrite !append_empty_r.
  - now rewrite !string_app_assoc.
Qed.

Lemma exec_loop_tokens items :
  forall (os : list X) pre junk fuel,
    Forall2 (token_ok r starts X obs) items os ->
    Js.all (fun c => negb (starts c)) junk = true ->
    List.length items < fuel ->
    map obs (exec_loop r (pre ++ tokens_text junk items) (String.length pre) fuel)
    = os.
Proof.
  induction items as [|it items IH]; intros os pre junk fuel Hok Hjunk Hfuel.
  - inversion Hok; subst. unfold tokens_text. simpl. rewrite append_empty_r.
    now rewrite exec_loop_junk.
  - inversion Hok as [|? o ? os' (Hafter & Hhit) Hrest]; subst.
    destruct fuel as [|fuel]; [simpl in Hfuel; lia|].
    rewrite tokens_text_cons. unfold tokens_text at 1.
    set (rest1 := String.concat "" (map (fun it0 => (fst it0 ++ snd it0)%string) items)).
    set (input := (pre ++ junk ++ fst it ++ snd it ++ rest1)%string).
    destruct (Hhit (pre ++ junk)%string rest1) as (m & Hm & Hpos & Hobs).
    rewrite string_app_assoc in Hm. fold input in Hm.
    rewrite length_app_string in Hm, Hpos.
    cbn [exec_loop].
    rewrite (search_from_reaches input (String.length pre + String.length junk) m Hm).
    + cbn [map]. rewrite Hobs. f_equal.
      replace input with ((pre ++ junk ++ fst it) ++ tokens_text (snd it) items)%string.
      * replace (pos m) with (String.length (pre ++ junk ++ fst it)).
        -- apply IH; [exact Hrest | exact Hafter | simpl in Hfuel; lia].
        -- rewrite Hpos, !length_app_string. lia.
      * unfold input, tokens_text. fold rest1. now rewrite !string_app_assoc.
    + intros i Hge Hi.
      replace i with (String.length pre + (i - String.length pre)) by lia.
      unfold input. apply junk_no_match; [exact Hjunk | lia].
    + lia.
    + unfold input. rewrite !length_app_string. lia.
Qed.

End Tokens.

Lemma tokens_text_length lead items :
  Forall (fun it : string * string => fst it <> ""%string) items ->
  List.length items <= String.length (tokens_text lead items).
Proof.
  revert lead. induction items as [|it items IH]; intros lead H; [simpl; lia|].
  inversion H as [|? ? Hne Hrest]; subst.
  rewrite tokens_text_cons, !length_app_string.
  specialize (IH (snd it) Hrest).
  destruct (fst it) as [|c t]; [contradiction|]. simpl. lia.
Qed.

Section DataFiles.
Import Regex LuaAnnotations TsData.

Lemma exec_all_tokens r starts X (obs : MState -> X) lead items os :
  (forall input i m,
      match_at r input i = Some m ->
      exists c t, Js.drop i input = String c t /\ starts c = true) ->
  Forall2 (token_ok r starts X obs) items os ->
  Forall (fun it : string * string => fst it <> ""%string) items ->
  Js.all (fun c => negb (starts c)) lead = true ->
  map obs (exec_all r (tokens_text lead items)) = os.
Proof.
  intros Hstarts Hok Hne Hlead. unfold exec_all.
  apply (exec_loop_tokens r starts Hstarts X obs items os ""%string lead);
    [exact Hok | exact Hlead |].
  pose proof (tokens_text_length lead items Hne). cbn [String.append]. lia.
Qed.

Lemma re_quoted_starts input i m :
  match_at re_quoted input i = Some m ->
  exists c t, Js.drop i input = String c t /\ Ascii.eqb dquote c = true.
Proof.
  unfold match_at, re_quoted, Cat. cbn [fold_right].
  rewrite rmatch_seq. unfold Chr at 1. rewrite rmatch_cls. cbn [rest].
  destruct (Js.drop i input) as [|c t]; [discriminate|].
  destruct (Ascii.eqb dquote c) eqn:E; [|discriminate].
  intros _. now exists c, t.
Qed.

Lemma re_quoted_hit name after pre rest1 :
  name <> ""%string -> Js.all not_quote name = true ->
  exists m,
    match_at re_quoted (pre ++ Samples.quoted name ++ after ++ rest1)
             (String.length pre) = Some m
    /\ pos m = String.length pre + String.length (Samples.quoted name)
    /\ group1 m 1 = name.
Proof.
  intros Hn Hq. eexists. split; [|split].
  - unfold match_at. rewrite drop_app_length. unfold re_quoted, Cat.
    cbn [fold_right]. unfold Samples.quoted. rewrite !string_app_assoc.
    cbn [String.append].
    rewrite rmatch_seq, rmatch_chr, rmatch_seq. unfold none_of.
    apply rmatch_grp_plus_cls_run; [exact Hn | exact Hq | reflexivity|].
    rewrite rmatch_seq, rmatch_chr. reflexivity.
  - cbn [pos]. unfold Samples.quoted. rewrite length_app_string. simpl. lia.
  - reflexivity.
Qed.

Lemma not_quote_starts s :
  Js.all not_quote s = true ->
  Js.all (fun c => negb (Ascii.eqb dquote c)) s = true.
Proof.
  apply all_weaken. intros c. unfold not_quote. now rewrite Ascii.eqb_sym.
Qed.

(** X25. [deprecated.js] round trip: from a text of quoted names, each not
    empty and without a quote, with texts without a quote around them,
    [parseDeprecatedFile] returns the names in the order of the text, less
    [__esModule] and [use strict]. *)
Theorem parseDeprecatedFile_round_trip lead (items : list (string * string)) :
  Js.all not_quote lead = true ->
  Forall (fun it => fst it <> ""%string
                    /\ Js.all not_quote (fst it) = true
                    /\ Js.all not_quote (snd it) = true) items ->
  parseDeprecatedFile (deprecated_text lead items)
  = filter (fun name => negb (is_sentinel name)) (map fst items).
Proof.
  intros Hlead Hitems. unfold parseDeprecatedFile, deprecated_text.
  rewrite (exec_all_tokens re_quoted (Ascii.eqb dquote) string
             (fun m => group1 m 1) lead _ (map fst items)).
  - apply filter_ext. intros name. unfold is_sentinel.
    now rewrite negb_orb.
  - exact re_quoted_starts.
  - induction Hitems as [|it items (Hn & Hq & Ha) _ IH]; cbn [map]; constructor;
      [|exact IH].
    split; cbn [fst snd]; [now apply not_quote_starts|].
    intros pre rest1. now apply re_quoted_hit.
  - induction Hitems as [|it items (Hn & Hq & Ha) _ IH]; cbn [map]; constructor;
      [|exact IH].
    cbn [fst]. unfold Samples.quoted. discriminate.
  - now apply not_quote_starts.
Qed.

Lemma parseDeprecatedFile_round_trip_witness :
  parseDeprecatedFile (deprecated_text "" TsSamples.deprecated_items)
  = ["UnitName"; "GetSpellInfo"].
Proof.
  rewrite (parseDeprecatedFile_round_trip "" TsSamples.deprecated_items).
  - reflexivity.
  - reflexivity.
  - repeat constructor; discriminate.
Defined.

Lemma rmatch_alt a b k s :
  rmatch (Alt a b) k s = or_try (rmatch a k s) (rmatch b k s).
Proof. reflexivity. Qed.

Lemma digit_is_no_space c : Js.is_digit c = true -> Js.is_space c = false.
Proof.
  destruct c as [[] [] [] [] [] [] [] []]; vm_compute; intros H;
    solve [reflexivity | discriminate H].
Qed.

Lemma bitmask_first value :
  bitmask_text value ->
  exists d v, value = String d v /\ Js.is_space d = false.
Proof.
  intros [(h & -> & _ & _) | (Hne & Hd)].
  - now exists "0"%char, (String "x" h).
  - destruct value as [|d v]; [contradiction|]. simpl in Hd.
    apply andb_prop in Hd. destruct Hd as [Hd _].
    exists d, v. split; [reflexivity | now apply digit_is_no_space].
Qed.

Lemma decimal_has_no_prefix value after rest1 :
  value <> ""%string -> Js.all Js.is_digit value = true ->
  after_bitmask after ->
  String.prefix "0x" (value ++ after ++ rest1) = false.
Proof.
  intros Hne Hd (_ & Ha).
  destruct (String.prefix "0x" (value ++ after ++ rest1)) eqn:E; [exfalso | reflexivity].
  destruct value as [|d v]; [contradiction|]. cbn [String.append] in E.
  apply prefix_cons_inv in E. destruct E as [<- E].
  simpl in Hd. destruct v as [|e v].
  - destruct after as [|c a]; [contradiction|]. cbn [String.append] in E.
    apply prefix_cons_inv in E. destruct E as [<- _].
    destruct Ha as [_ Ha]. discriminate Ha.
  - cbn [String.append] in E. apply prefix_cons_inv in E. destruct E as [<- _].
    simpl in Hd. discriminate Hd.
Qed.

Lemma bitmask_hit k value after rest1 pos0 caps0 res :
  bitmask_text value -> after_bitmask after ->
  k (mkMState (after ++ rest1) (pos0 + String.length value)
              ((2, value) :: caps0)) = Some res ->
  rmatch (Grp 2 (Alt (Seq (Lit "0x") (Plus (Cls Js.is_hex))) (Plus digit)))
         k (mkMState (value ++ after ++ rest1) pos0 caps0)
  = Some res.
Proof.
  intros Hv Ha Hk. rewrite rmatch_grp, rmatch_alt.
  assert (Htail : match (after ++ rest1)%string with
                  | EmptyString => True
                  | String d _ => Js.is_hex d = false
                  end).
  { destruct Ha as (_ & Ha). destruct after as [|c a]; [contradiction|].
    cbn [String.append]. tauto. }
  destruct Hv as [(h & -> & Hne & Hh) | (Hne & Hd)].
  - match goal with
    | |- or_try ?x _ = _ => assert (H1 : x = Some res); [|now rewrite H1]
    end.
    rewrite string_app_assoc.
    lit_step (h ++ after ++ rest1)%string.
    apply rmatch_plus_cls_run; [exact Hne | exact Hh | exact Htail |].
    rewrite <- Hk.
    pose proof (capture_run 2 ("0x" ++ h) (after ++ rest1) pos0 caps0 caps0) as Hc.
    rewrite string_app_assoc in Hc.
    replace (pos0 + String.length "0x" + String.length h)
      with (pos0 + String.length ("0x" ++ h)%string)
      by (rewrite length_app_string; lia).
    now rewrite Hc.
  - rewrite rmatch_seq, rmatch_lit_mismatch
      by (cbn [rest]; now apply decimal_has_no_prefix).
    cbn [or_try]. unfold digit.
    apply rmatch_plus_cls_run; [exact Hne | exact Hd | |].
    + destruct (after ++ rest1)%string as [|c t]; [exact I|].
      unfold Js.is_hex in Htail.
      apply orb_false_elim in Htail. destruct Htail as [Htail _].
      apply orb_false_elim in Htail. tauto.
    + now rewrite capture_run.
Qed.

Lemma re_flavor_starts input i m :
  match_at re_flavor input i = Some m ->
  exists c t, Js.drop i input = String c t /\ Ascii.eqb "[" c = true.
Proof.
  unfold match_at, re_flavor, Cat. cbn [fold_right Lit].
  rewrite !rmatch_seq. unfold Chr at 1. rewrite rmatch_cls. cbn [rest].
  destruct (Js.drop i input) as [|c t]; [discriminate|].
  destruct (Ascii.eqb "[" c) eqn:E; [|discriminate].
  intros _. now exists c, t.
Qed.

Lemma re_flavor_hit e after pre rest1 :
  fst e <> ""%string -> Js.all not_quote (fst e) = true ->
  bitmask_text (snd e) -> after_bitmask after ->
  exists m,
    match_at re_flavor (pre ++ flavor_entry_text e ++ after ++ rest1)
             (String.length pre) = Some m
    /\ pos m = String.length pre + String.length (flavor_entry_text e)
    /\ (group1 m 1, group1 m 2) = e.
Proof.
  destruct e as [name value]. cbn [fst snd]. intros Hn Hq Hv Ha.
  destruct (bitmask_first value Hv) as (d & v & Hvalue & Hd).
  eexists. split; [|split].
  - unfold match_at. rewrite drop_app_length. unfold re_flavor, Cat.
    cbn [fold_right]. unfold flavor_entry_text, Samples.quoted. cbn [fst snd].
    rewrite !string_app_assoc.
    lit_step (String dquote name ++ String dquote "" ++ "]: " ++ value
              ++ after ++ rest1)%string.
    cbn [String.append].
    rewrite rmatch_seq, rmatch_chr, rmatch_seq. unfold none_of.
    apply rmatch_grp_plus_cls_run; [exact Hn | exact Hq | reflexivity|].
    rewrite rmatch_seq, rmatch_chr.
    lit_step (": " ++ value ++ after ++ rest1)%string.
    rewrite rmatch_seq. unfold space.
    apply (rmatch_star_cls_run Js.is_space _ ""%string
             (": " ++ value ++ after ++ rest1)%string);
      [reflexivity | reflexivity |].
    lit_step (" " ++ value ++ after ++ rest1)%string.
    rewrite rmatch_seq.
    apply (rmatch_star_cls_run Js.is_space _ " "%string
             (value ++ after ++ rest1)%string);
      [reflexivity | rewrite Hvalue; exact Hd |].
    rewrite rmatch_seq.
    apply bitmask_hit; [exact Hv | exact Ha |]. reflexivity.
  - cbn [pos]. unfold flavor_entry_text, Samples.quoted. cbn [fst snd].
    rewrite !length_app_string. simpl. lia.
  - reflexivity.
Qed.

Lemma not_bracket_starts s :
  Js.all not_open_bracket s = true ->
  Js.all (fun c => negb (Ascii.eqb "[" c)) s = true.
Proof.
  apply all_weaken. intros c. unfold not_open_bracket. now rewrite Ascii.eqb_sym.
Qed.

Lemma fold_flavor_step ms :
  forall acc,
    fold_left flavor_step ms acc
    = fold_left (fun o e => JsObject.set o (fst e)
                              (decodeFlavorBitmask (parseInt (snd e))))
                (map (fun m => (group1 m 1, group1 m 2)) ms) acc.
Proof.
  induction ms as [|m ms IH]; intros acc; [reflexivity|].
  cbn [fold_left map]. now rewrite IH.
Qed.

Lemma get_own_set_same {V} (o : JsObject.t V) k v :
  k <> "__proto__"%string -> JsObject.get_own (JsObject.set o k v) k = Some v.
Proof.
  intros Hk. unfold JsObject.set, JsObject.get_own.
  rewrite (proj2 (String.eqb_neq k "__proto__") Hk), andb_false_r.
  cbn [JsObject.own]. apply get_write_same.
Qed.

Lemma get_own_set_other {V} (o : JsObject.t V) k v k' :
  k <> k' -> JsObject.get_own (JsObject.set o k v) k' = JsObject.get_own o k'.
Proof.
  intros Hne. unfold JsObject.set, JsObject.get_own.
  destruct (negb (JsObject.has o k) && String.eqb k "__proto__");
    cbn [JsObject.own]; [reflexivity | now apply get_write_other].
Qed.

Lemma flavor_fold_keeps (entries : list (string * string)) k :
  forall o : JsObject.t (list string),
    (forall e, In e entries -> fst e <> k) ->
    JsObject.get_own
      (fold_left (fun o e => JsObject.set o (fst e)
                               (decodeFlavorBitmask (parseInt (snd e))))
                 entries o) k
    = JsObject.get_own o k.
Proof.
  induction entries as [|e entries IH]; intros o H; [reflexivity|].
  cbn [fold_left]. rewrite IH by (intros e' He'; apply H; now right).
  apply get_own_set_other. apply H. now left.
Qed.

(** X26. [flavor.js] round trip: from a text of entries
    [["name"]: bitmask], the name not empty and without a quote, the
    bitmask hexadecimal with [0x] or decimal, no opening bracket between the
    entries and no digit or [x] right after a bitmask, [parseFlavorFile]
    makes the assignments of the decoded bitmasks in the order of the
    text.  The assignments are those of JavaScript: the map holds under a
    name the versions of the last entry of that name, except that an
    entry named [__proto__] creates no property (it replaces the prototype
    of the map). *)
Theorem parseFlavorFile_round_trip lead (items : list ((string * string) * string)) :
  Js.all not_open_bracket lead = true ->
  Forall (fun it => fst (fst it) <> ""%string
                    /\ Js.all not_quote (fst (fst it)) = true
                    /\ bitmask_text (snd (fst it))
                    /\ after_bitmask (snd it)) items ->
  parseFlavorFile (flavor_text lead items) = flavor_table (map fst items)
  /\ (forall before e rest1,
         map fst items = before ++ e :: rest1 ->
         fst e <> "__proto__"%string ->
         (forall e', In e' rest1 -> fst e' <> fst e) ->
         JsObject.get_own (parseFlavorFile (flavor_text lead items)) (fst e)
         = Some (decodeFlavorBitmask (parseInt (snd e))))
  /\ JsObject.get_own (parseFlavorFile (flavor_text lead items)) "__proto__"
     = None.
Proof.
  intros Hlead Hitems.
  assert (E : parseFlavorFile (flavor_text lead items)
              = flavor_table (map fst items)).
  { unfold parseFlavorFile, flavor_text, flavor_table.
    rewrite fold_flavor_step.
    rewrite (exec_all_tokens re_flavor (Ascii.eqb "[") (string * string)
               (fun m => (group1 m 1, group1 m 2)) lead _ (map fst items)).
    - reflexivity.
    - exact re_flavor_starts.
    - induction Hitems as [|it items (Hn & Hq & Hv & Ha) _ IH]; cbn [map];
        constructor; [|exact IH].
      split; cbn [fst snd]; [apply not_bracket_starts; apply Ha|].
      intros pre rest1. now apply re_flavor_hit.
    - induction Hitems as [|it items _ _ IH]; cbn [map]; constructor;
        [|exact IH].
      cbn [fst]. unfold flavor_entry_text. discriminate.
    - now apply not_bracket_starts. }
  split; [exact E|]. rewrite E. unfold flavor_table. split.
  - intros before e rest1 Hsplit Hname Hlast.
    rewrite Hsplit, fold_left_app. cbn [fold_left].
    rewrite flavor_fold_keeps by exact Hlast.
    now apply get_own_set_same.
  - generalize (map fst items) as entries.
    assert (H : forall entries (o : JsObject.t (list string)),
               JsObject.get_own o "__proto__" = None ->
               JsObject.get_own
                 (fold_left (fun o e => JsObject.set o (fst e)
                                          (decodeFlavorBitmask (parseInt (snd e))))
                            entries o) "__proto__" = None).
    { induction entries as [|e entries IH]; intros o Ho; [exact Ho|].
      cbn [fold_left]. apply IH.
      destruct (String.eqb_spec (fst e) "__proto__") as [Ee|Hne].
      - unfold JsObject.set, JsObject.has, JsMap.has.
        unfold JsObject.get_own in Ho. rewrite Ee, Ho. exact Ho.
      - now rewrite get_own_set_other. }
    intros entries. now apply H.
Qed.

Lemma parseFlavorFile_round_trip_witness :
  parseFlavorFile (flavor_text "exports.data = { " TsSamples.flavor_items)
  = flavor_table [("UnitName", "0x7"); ("GetSpellInfo", "4")]
  /\ JsObject.get_own
       (parseFlavorFile (flavor_text "exports.data = { " TsSamples.flavor_items))
       "GetSpellInfo"
     = Some ["Mists"].
Proof.
  destruct (parseFlavorFile_round_trip "exports.data = { " TsSamples.flavor_items)
    as (H1 & H2 & _).
  - reflexivity.
  - constructor; [|constructor; [|constructor]].
    + split; [discriminate|]. split; [reflexivity|]. split.
      * left. exists "7"%string. split; [reflexivity|].
        split; [discriminate | reflexivity].
      * split; [reflexivity|]. split; reflexivity.
    + split; [discriminate|]. split; [reflexivity|]. split.
      * right. split; [discriminate | reflexivity].
      * split; [reflexivity|]. split; reflexivity.
  - split; [exact H1|].
    apply (H2 [("UnitName", "0x7")] ("GetSpellInfo", "4") []).
    + reflexivity.
    + discriminate.
    + intros e' [].
Defined.

End DataFiles.

(** ** A query that nothing matches *)

Section Misses.

Variable toLowerCase : string -> string.
Variable toUpperCase : string -> string.

Lemma prefix_refl s : String.prefix s s = true.
Proof.
  induction s as [|c s IH]; [reflexivity|]. cbn [String.prefix].
  destruct (ascii_dec c c); [exact IH | contradiction].
Qed.

Lemma includes_refl s : Js.includes s s = true.
Proof. destruct s; cbn [Js.includes]; now rewrite prefix_refl. Qed.

Lemma filter_none {A} (p : A -> bool) l :
  (forall a, In a l -> p a = false) -> filter p l = [].
Proof.
  induction l as [|a l IH]; intros H; simpl; [reflexivity|].
  rewrite (H a) by now left. apply IH. intros b Hb. apply H. now right.
Qed.

Lemma find_none_if {A} (p : A -> bool) l :
  (forall a, In a l -> p a = false) -> find p l = None.
Proof.
  induction l as [|a l IH]; intros H; simpl; [reflexivity|].
  rewrite (H a) by now left. apply IH. intros b Hb. apply H. now right.
Qed.

Lemma filterM_none {A} (f : A -> Result bool) l :
  (forall a, In a l -> f a = Ok false) -> filterM f l = Ok [].
Proof.
  induction l as [|a l IH]; intros H; simpl; [reflexivity|].
  rewrite (H a) by now left. simpl. rewrite IH; [reflexivity|].
  intros b Hb. apply H. now right.
Qed.

Lemma function_entries_keys s entries :
  function_entries s = Ok entries -> map fst entries = JsMap.keys (functions s).
Proof.
  unfold function_entries, JsMap.keys.
  revert entries. induction (functions s) as [|[k r] m IH]; simpl;
    intros entries He.
  - now injection He as <-.
  - destruct (deref s r); simpl in He; [|discriminate].
    destruct (mapM _ m) as [rest|]; simpl in He; [|discriminate].
    injection He as <-. simpl. now rewrite (IH rest eq_refl).
Qed.

Lemma lookupApi_miss s q entries :
  function_entries s = Ok entries ->
  (forall e, In e entries ->
             lookup_partial toLowerCase (toLowerCase q) e = false) ->
  lookupApi toLowerCase s q = Ok [].
Proof.
  intros He Hnone.
  assert (Hkey : forall k, In k (JsMap.keys (functions s)) ->
                           Js.includes (toLowerCase k) (toLowerCase q) = false).
  { intros k Hk. rewrite <- (function_entries_keys _ _ He) in Hk.
    apply in_map_iff in Hk. destruct Hk as (e & <- & Hin).
    specialize (Hnone e Hin). unfold lookup_partial in Hnone.
    apply orb_false_iff in Hnone. tauto. }
  unfold lookupApi.
  destruct (JsMap.get (functions s) q) as [r|] eqn:Hg.
  - exfalso. apply get_in in Hg. apply (in_map fst) in Hg.
    specialize (Hkey _ Hg). simpl in Hkey.
    rewrite includes_refl in Hkey. discriminate.
  - rewrite find_none_if.
    + rewrite He. simpl. now rewrite filter_none.
    + intros [k r] Hin. simpl. apply String.eqb_neq. intros E.
      apply (in_map fst) in Hin. specialize (Hkey _ Hin). simpl in Hkey.
      rewrite E, includes_refl in Hkey. discriminate.
Qed.

Lemma searchApi_miss s q entries :
  function_entries s = Ok entries ->
  (forall e, In e entries ->
             Js.includes (searchable toLowerCase (snd e)) (toLowerCase q) = false) ->
  searchApi toLowerCase s q = Ok [].
Proof.
  intros He Hnone. unfold searchApi. rewrite He. simpl.
  rewrite filter_none; [reflexivity|].
  intros f Hf. apply in_map_iff in Hf. destruct Hf as (e & <- & Hin). auto.
Qed.

Lemma listDeprecated_miss s flt entries :
  function_entries s = Ok entries ->
  (forall e, In e entries ->
             deprecated_kept toLowerCase flt (snd e) = Ok false) ->
  listDeprecated toLowerCase s flt = Ok [].
Proof.
  intros He Hnone. unfold listDeprecated. rewrite He. simpl.
  apply filterM_none.
  intros f Hf. apply in_map_iff in Hf. destruct Hf as (e & <- & Hin). auto.
Qed.

Lemma table_miss {A} (m : JsMap.t A) q :
  (forall k, In k (JsMap.keys m) -> toLowerCase k <> toLowerCase q) ->
  JsMap.get m q = None
  /\ find (fun e => String.eqb (toLowerCase (fst e)) (toLowerCase q)) m = None.
Proof.
  intros H. split.
  - destruct (JsMap.get m q) eqn:Hg; [|reflexivity].
    exfalso. apply get_in in Hg. apply (in_map fst) in Hg. now apply (H q).
  - apply find_none_if. intros e Hin. apply String.eqb_neq.
    apply H. now apply (in_map fst).
Qed.

Lemma getNamespace_miss s q :
  (forall k, In k (JsMap.keys (namespaces s)) -> toLowerCase k <> toLowerCase q) ->
  getNamespace toLowerCase s q = Ok [].
Proof.
  intros H. unfold getNamespace.
  destruct (table_miss (namespaces s) q H) as (-> & ->). reflexivity.
Qed.

Lemma getWidgetMethods_miss s q :
  (forall k, In k (JsMap.keys (widgets s)) -> toLowerCase k <> toLowerCase q) ->
  getWidgetMethods toLowerCase s q = Ok None.
Proof.
  intros H. unfold getWidgetMethods.
  destruct (table_miss (widgets s) q H) as (-> & ->). reflexivity.
Qed.

(** A key that is neither an own property nor a name of
    [Object.prototype] reads [undefined] on an object whose prototype was
    not replaced. *)
Lemma object_get_undefined {V} member (o : JsObject.t V) k :
  ~ In k (JsObject.keys o) ->
  JsObject.proto o = None ->
  k <> "__proto__"%string -> ~ In k JsObject.prototype_keys ->
  JsObject.get member o k = JsObject.Undefined.
Proof.
  intros Hown Hproto Hk Hnames. unfold JsObject.get, JsObject.get_own.
  destruct (JsMap.get (JsObject.own o) k) eqn:Hg.
  - exfalso. apply Hown. apply get_in in Hg. now apply (in_map fst) in Hg.
  - rewrite Hproto. rewrite (proj2 (String.eqb_neq k "__proto__") Hk).
    unfold JsObject.object_prototype.
    destruct (existsb (String.eqb k) JsObject.prototype_keys) eqn:E;
      [|reflexivity].
    exfalso. apply Hnames. apply existsb_exists in E.
    destruct E as (x & Hx & Ex). apply String.eqb_eq in Ex. now subst x.
Qed.

Lemma searchEnums_miss s q :
  (forall k, In k (JsObject.keys (enums s)) ->
             Js.includes (toLowerCase k) (toLowerCase q) = false) ->
  searchEnums toLowerCase s q = JsObject.empty.
Proof.
  intros H. unfold searchEnums.
  apply (fold_no_match
           (fun e : string * LuaAnnotations.EnumValues =>
              Js.includes (toLowerCase (fst e)) (toLowerCase q))
           (fun results e => JsObject.set results (fst e) (snd e))).
  intros e He. apply H. now apply (in_map fst).
Qed.

Lemma getEnum_miss s q :
  (forall k, In k (JsObject.keys (enums s)) ->
             Js.includes (toLowerCase k) (toLowerCase q) = false) ->
  JsObject.proto (enums s) = None ->
  q <> "__proto__"%string -> ~ In q JsObject.prototype_keys ->
  getEnum toLowerCase s q = EnumNull.
Proof.
  intros H Hproto Hq Hnames. unfold getEnum.
  rewrite object_get_undefined; try assumption.
  - unfold getEnum_partial. rewrite find_none_if; [reflexivity|].
    intros e He. apply orb_false_iff. split.
    + apply String.eqb_neq. intros E.
      apply (in_map fst) in He. specialize (H _ He).
      rewrite E, includes_refl in H. discriminate.
    + apply H. now apply (in_map fst).
  - intros Hin. specialize (H _ Hin). rewrite includes_refl in H. discriminate.
Qed.

Lemma getEvent_miss s q :
  (forall k, In k (JsObject.keys (events s)) ->
             Js.includes k (toUpperCase q) = false) ->
  JsObject.proto (events s) = None ->
  toUpperCase q <> "__proto__"%string ->
  ~ In (toUpperCase q) JsObject.prototype_keys ->
  getEvent toUpperCase s q = EventNull.
Proof.
  intros H Hproto Hq Hnames. unfold getEvent.
  rewrite object_get_undefined; try assumption.
  - unfold getEvent_partial. rewrite filter_none; [reflexivity|].
    intros e He. apply H. now apply (in_map fst).
  - intros Hin. specialize (H _ Hin). rewrite includes_refl in H. discriminate.
Qed.

End Misses.

(** X27.  After load no query throws, whatever the input string, and a
    query that nothing matches is answered by the empty list, the empty
    object or [null]: [lookupApi] when no function matches the partial
    test, [searchApi] when no searchable text contains the query,
    [listDeprecated] when the loop keeps no function, [getNamespace] and
    [getWidgetMethods] when no key equals the name up to case,
    [searchEnums] when no enum name contains the query.  [getEnum] and
    [getEvent] answer [null] in that case provided the name is not read
    from the prototype chain: the prototype of the table was not replaced
    and the name is no property of [Object.prototype]. *)
Theorem queries_answer_a_miss (toLowerCase toUpperCase : string -> string)
        (c : Corpus) (s : DataStore) (q : string) :
  load (Some c) newDataStore = Ok s ->
  exists entries,
    function_entries s = Ok entries
    /\ (exists l, lookupApi toLowerCase s q = Ok l)
    /\ (exists l, searchApi toLowerCase s q = Ok l)
    /\ (forall flt, exists l, listDeprecated toLowerCase s flt = Ok l)
    /\ (exists l, getNamespace toLowerCase s q = Ok l)
    /\ (exists w, getWidgetMethods toLowerCase s q = Ok w)
    /\ (exists st, getStats s = Ok st)
    /\ ((forall e, In e entries ->
                   lookup_partial toLowerCase (toLowerCase q) e = false) ->
        lookupApi toLowerCase s q = Ok [])
    /\ ((forall e, In e entries ->
                   Js.includes (searchable toLowerCase (snd e)) (toLowerCase q)
                   = false) ->
        searchApi toLowerCase s q = Ok [])
    /\ (forall flt,
           (forall e, In e entries ->
                      deprecated_kept toLowerCase flt (snd e) = Ok false) ->
           listDeprecated toLowerCase s flt = Ok [])
    /\ ((forall k, In k (JsMap.keys (namespaces s)) ->
                   toLowerCase k <> toLowerCase q) ->
        getNamespace toLowerCase s q = Ok [])
    /\ ((forall k, In k (JsMap.keys (widgets s)) ->
                   toLowerCase k <> toLowerCase q) ->
        getWidgetMethods toLowerCase s q = Ok None)
    /\ ((forall k, In k (JsObject.keys (enums s)) ->
                   Js.includes (toLowerCase k) (toLowerCase q) = false) ->
        searchEnums toLowerCase s q = JsObject.empty
        /\ (JsObject.proto (enums s) = None ->
            q <> "__proto__"%string -> ~ In q JsObject.prototype_keys ->
            getEnum toLowerCase s q = EnumNull))
    /\ ((forall k, In k (JsObject.keys (events s)) ->
                   Js.includes k (toUpperCase q) = false) ->
        JsObject.proto (events s) = None ->
        toUpperCase q <> "__proto__"%string ->
        ~ In (toUpperCase q) JsObject.prototype_keys ->
        getEvent toUpperCase s q = EventNull).
Proof.
  intros Hload.
  destruct (well_formed_loaded _ _ Hload) as (Hf & Hn & Hw).
  destruct (function_entries_ok s Hf) as (entries & He & _).
  exists entries. split; [exact He|].
  split; [destruct (lookupApi_ok toLowerCase s q Hf) as (l & Hl & _); eauto|].
  split; [destruct (searchApi_ok toLowerCase s q Hf) as (l & Hl & _); eauto|].
  split; [intros flt; now apply listDeprecated_ok|].
  split; [destruct (getNamespace_ok toLowerCase s q Hn) as (l & Hl & _); eauto|].
  split; [now apply getWidgetMethods_ok|].
  split; [now apply getStats_ok|].
  split; [now apply lookupApi_miss|].
  split; [now apply searchApi_miss|].
  split; [intros flt; now apply listDeprecated_miss|].
  split; [apply getNamespace_miss|].
  split; [apply getWidgetMethods_miss|].
  split.
  - intros H. split; [now apply searchEnums_miss | now apply getEnum_miss].
  - apply getEvent_miss.
Qed.

Lemma queries_answer_a_miss_witness :
  getNamespace Js.ascii_toLowerCase Samples.store "NoSuchNamespace" = Ok []
  /\ getEnum Js.ascii_toLowerCase Samples.store "NoSuchEnum" = EnumNull.
Proof.
  destruct (queries_answer_a_miss Js.ascii_toLowerCase Js.ascii_toUpperCase
              Samples.corpus Samples.store "NoSuchNamespace" eq_refl)
    as (_ & _ & _ & _ & _ & _ & _ & _ & _ & _ & _ & Hns & _).
  destruct (queries_answer_a_miss Js.ascii_toLowerCase Js.ascii_toUpperCase
              Samples.corpus Samples.store "NoSuchEnum" eq_refl)
    as (_ & _ & _ & _ & _ & _ & _ & _ & _ & _ & _ & _ & _ & Hen & _).
  split.
  - apply Hns. vm_compute. intros k [<-|[<-|[]]]; discriminate.
  - apply Hen.
    + vm_compute. intros k H.
      repeat (destruct H as [<-|H]; [reflexivity|]). destruct H.
    + reflexivity.
    + discriminate.
    + vm_compute. intuition discriminate.
Defined.
